(** * SmartExpenseHub: the recommendation engine and its reconciliation pass

    A shallow embedding of
      - src/types.ts                                   (data model)
      - src/services/rules/duplicateRule.ts            (duplicate-pair detector)
      - src/services/rules/merchantRule.ts             (merchant-name normalizer)
      - src/services/rules/missingFieldRule.ts         (missing-field completer)
      - src/services/rules/classificationRule.ts       (classification suggester)
      - src/services/recommendationService.ts          (reconciliation engine)
      - src/App.tsx                                    (apply / ignore handlers,
                                                        record handlers, filters,
                                                        export name, effect)
      - src/components/RecommendationsView.tsx         (grouping and buttons)
      - src/components/RecommendationCard.tsx          (buttons of a card)
    followed by the properties of section 8 of the specification and by
    further properties of the rule modules, the engine, the handlers and the
    recommendations view.

    Modelling conventions.
      - A JavaScript string is a [string]; the model covers strings of ASCII
        code units, on which [toLowerCase], [trim], the regular expressions of
        the merchant rule and the default [sort] order are the byte-wise
        functions below.
      - A JavaScript number that is stored in a record is a rational [Q]; the
        result of a division is a [number], which can be [NaN] or infinite.
        The model computes a sum or product exactly where the source rounds
        it to a double, so a confidence computed by arithmetic can differ
        from the double of the source in its last bits; a statement about
        such a value leaves room for that.
      - [self.crypto.randomUUID()] is only ever called while a recommendation
        is pushed onto the rule's local array, so the k-th call made by a rule
        is the one made when that array has length k.  A rule therefore takes
        the sequence [uuid : nat -> string] of the values the calls return.
      - [JSON.stringify] of a recommendation identity is injective on the
        values of the model, so an identity key is kept as the structured
        value and compared with a boolean equality.
      - A plain object used as a dictionary keeps its own properties in
        enumeration order and inherits the members of [Object.prototype].
        Where the source would write to such an inherited member, or read a
        table out of it, the model stops with [Unmodelled]; a statement about
        a rule that can do so assumes that the rule returns in the model, or
        that no key is the name of an inherited member. *)

From Stdlib Require Import List String Ascii Bool Arith NArith ZArith QArith Lia.
From Stdlib Require Import Qround Permutation DecimalString DecimalN DecimalPos Lqa.
Import ListNotations.
Close Scope Q_scope.
Open Scope string_scope.
Open Scope list_scope.
Open Scope nat_scope.

Infix "+++" := String.append (at level 60, right associativity).

(* ------------------------------------------------------------------------- *)
(** * JavaScript primitives used by the sources *)
(* ------------------------------------------------------------------------- *)

Module JsString.

Definition code (c : ascii) : nat := nat_of_ascii c.

Definition isUpper (c : ascii) : bool := (65 <=? code c) && (code c <=? 90).

Definition lowerChar (c : ascii) : ascii :=
  if isUpper c then ascii_of_nat (code c + 32) else c.

(** [String.prototype.toLowerCase], on ASCII code units. *)
Fixpoint toLowerCase (s : string) : string :=
  match s with
  | EmptyString => EmptyString
  | String c s' => String (lowerChar c) (toLowerCase s')
  end.

(** The class [\s] and the white space removed by [trim], among ASCII
    code units. *)
Definition isSpace (c : ascii) : bool :=
  (code c =? 32) || ((9 <=? code c) && (code c <=? 13)).

Fixpoint trimStart (s : string) : string :=
  match s with
  | EmptyString => EmptyString
  | String c s' => if isSpace c then trimStart s' else s
  end.

Fixpoint trimEnd (s : string) : string :=
  match s with
  | EmptyString => EmptyString
  | String c s' =>
      match trimEnd s' with
      | EmptyString => if isSpace c then EmptyString else String c EmptyString
      | r => String c r
      end
  end.

(** [String.prototype.trim]. *)
Definition trim (s : string) : string := trimEnd (trimStart s).

(** [s.includes(sub)]. *)
Fixpoint includes (s sub : string) : bool :=
  String.prefix sub s ||
  match s with
  | EmptyString => false
  | String _ s' => includes s' sub
  end.

(** [s.includes(c)] for a single code unit [c = t[i]]. *)
Fixpoint includesChar (s : string) (c : ascii) : bool :=
  match s with
  | EmptyString => false
  | String d s' => Ascii.eqb d c || includesChar s' c
  end.

(** A string in a boolean position: the empty string is falsy. *)
Definition truthy (s : string) : bool := negb (String.eqb s EmptyString).

(** [replace(/[^a-z0-9\s]/g, '')]. *)
Definition isKept (c : ascii) : bool :=
  ((97 <=? code c) && (code c <=? 122)) ||
  ((48 <=? code c) && (code c <=? 57)) || isSpace c.

Fixpoint stripSymbols (s : string) : string :=
  match s with
  | EmptyString => EmptyString
  | String c s' => if isKept c then String c (stripSymbols s') else stripSymbols s'
  end.

(** [replace(/\s+/g, ' ')]; [inRun] tells that the previous character was
    part of the run of white space being replaced. *)
Fixpoint collapseSpaces (inRun : bool) (s : string) : string :=
  match s with
  | EmptyString => EmptyString
  | String c s' =>
      if isSpace c
      then (if inRun then collapseSpaces true s'
            else String " "%char (collapseSpaces true s'))
      else String c (collapseSpaces false s')
  end.

(** Number-to-string conversion of a non-negative integer. *)
Definition ofN (n : N) : string := NilZero.string_of_uint (N.to_uint n).

(** Default [Array.prototype.sort] on strings: ascending code-unit order.
    The sort is stable; on strings equal keys are equal values. *)
Fixpoint insertSorted (x : string) (l : list string) : list string :=
  match l with
  | [] => [x]
  | y :: l' => if String.leb x y then x :: l else y :: insertSorted x l'
  end.

Fixpoint sort (l : list string) : list string :=
  match l with
  | [] => []
  | x :: l' => insertSorted x (sort l')
  end.

(** [Array.prototype.join]. *)
Fixpoint join (sep : string) (l : list string) : string :=
  match l with
  | [] => EmptyString
  | [x] => x
  | x :: l' => x +++ sep +++ join sep l'
  end.

Definition mem (x : string) (l : list string) : bool :=
  existsb (String.eqb x) l.

(** The text [s] between two double-quote characters. *)
Definition doubleQuote : string := String (ascii_of_nat 34) EmptyString.
Definition quoted (s : string) : string := doubleQuote +++ s +++ doubleQuote.

End JsString.

Module JsNumber.

(** The values a floating-point expression of the sources can take. *)
Inductive number : Type :=
| Finite (q : Q)
| PosInfinity
| NegInfinity
| NaN.

(** [a / b] for two array or string lengths. *)
Definition div (a b : nat) : number :=
  match b, a with
  | O, O => NaN
  | O, S _ => PosInfinity
  | S _, _ => Finite (Z.of_nat a # Pos.of_nat b)
  end.

(** [1 - x]. *)
Definition oneMinus (x : number) : number :=
  match x with
  | Finite q => Finite (1 - q)%Q
  | PosInfinity => NegInfinity
  | NegInfinity => PosInfinity
  | NaN => NaN
  end.

Definition Qgtb (x y : Q) : bool := negb (Qle_bool x y).

(** [x > y] and [x >= y] against a finite constant. *)
Definition gt (x : number) (y : Q) : bool :=
  match x with
  | Finite q => Qgtb q y
  | PosInfinity => true
  | NegInfinity | NaN => false
  end.

Definition ge (x : number) (y : Q) : bool :=
  match x with
  | Finite q => Qle_bool y q
  | PosInfinity => true
  | NegInfinity | NaN => false
  end.

Definition lt (x : number) (y : Q) : bool :=
  match x with
  | Finite q => Qgtb y q
  | NegInfinity => true
  | PosInfinity | NaN => false
  end.

(** [c + x] and [x * c] for a finite constant [c]. *)
Definition plus (c : Q) (x : number) : number :=
  match x with
  | Finite q => Finite (c + q)%Q
  | other => other
  end.

Definition times (x : number) (c : Q) : number :=
  match x with
  | Finite q => Finite (q * c)%Q
  | NaN => NaN
  | PosInfinity =>
      if Qgtb c 0 then PosInfinity else if Qgtb 0 c then NegInfinity else NaN
  | NegInfinity =>
      if Qgtb c 0 then NegInfinity else if Qgtb 0 c then PosInfinity else NaN
  end.

(** [Math.min(c, x)] and [Math.max(c, x)] for a finite constant [c]. *)
Definition min (c : Q) (x : number) : number :=
  match x with
  | Finite q => Finite (if Qle_bool c q then c else q)
  | PosInfinity => Finite c
  | NegInfinity => NegInfinity
  | NaN => NaN
  end.

Definition max (c : Q) (x : number) : number :=
  match x with
  | Finite q => Finite (if Qle_bool c q then q else c)
  | PosInfinity => PosInfinity
  | NegInfinity => Finite c
  | NaN => NaN
  end.

Definition min3 (a b c : nat) : nat := Nat.min (Nat.min a b) c.

(** [x.toFixed(2)] for |x| < 1e21: the integer n with n/100 closest to |x|,
    the larger one on a tie, printed with two decimals after the sign. *)
Definition twoDigits (n : N) : string :=
  if (n <? 10)%N then "0" +++ JsString.ofN n else JsString.ofN n.

Definition toFixed2 (x : Q) : string :=
  let neg := negb (Qle_bool 0 x) in
  let a := if neg then (- x)%Q else x in
  let n := Z.to_N (Qfloor (a * 100 + (1 # 2))%Q) in
  (if neg then "-" else EmptyString) +++
  JsString.ofN (n / 100)%N +++ "." +++ twoDigits (n mod 100)%N.

End JsNumber.

(** The result of running a function of the sources. *)
Inductive outcome (A : Type) : Type :=
| Returns (a : A)   (* the call returns [a] *)
| Throws            (* the call raises a TypeError *)
| Unmodelled.       (* the call leaves the fragment described here: it writes
                       to a built-in object shared by every later call, or
                       sorts with a comparator that yields NaN *)
Arguments Returns {A} a.
Arguments Throws {A}.
Arguments Unmodelled {A}.

Definition bind {A B} (m : outcome A) (k : A -> outcome B) : outcome B :=
  match m with
  | Returns a => k a
  | Throws => Throws
  | Unmodelled => Unmodelled
  end.

Notation "x <- m ;; k" := (bind m (fun x => k))
  (at level 61, m at next level, right associativity).

(** [forEach] with a body that can fail: the fold stops at the first
    failure. *)
Fixpoint foldM {A S} (body : S -> A -> outcome S) (l : list A) (s : S)
  : outcome S :=
  match l with
  | [] => Returns s
  | x :: l' => s' <- body s x ;; foldM body l' s'
  end.

Module JsMap.
(** [Map<string, V>] and [Set<string>]: entries in insertion order. *)
Definition t (V : Type) := list (string * V).

Fixpoint get {V} (m : t V) (k : string) : option V :=
  match m with
  | [] => None
  | (k', v) :: m' => if String.eqb k' k then Some v else get m' k
  end.

Definition has {V} (m : t V) (k : string) : bool :=
  match get m k with Some _ => true | None => false end.

(** [m.set(k, v)]: an existing key keeps its place. *)
Fixpoint set {V} (m : t V) (k : string) (v : V) : t V :=
  match m with
  | [] => [(k, v)]
  | (k', v') :: m' =>
      if String.eqb k' k then (k', v) :: m' else (k', v') :: set m' k v
  end.

Definition values {V} (m : t V) : list V := map snd m.

(** [Set.prototype.add]. *)
Definition add (s : list string) (k : string) : list string :=
  if JsString.mem k s then s else s ++ [k].
End JsMap.

Module JsObject.
(** A plain object [{}] used as a dictionary.  Reading [o[k]] finds an own
    property, else a member of [Object.prototype]. *)
Inductive host : Type :=
| ObjectConstructor   (* the function [Object], under the key constructor *)
| ObjectPrototype     (* [Object.prototype], under the key __proto__ *)
| BuiltinMethod.      (* one of the methods of [Object.prototype] *)

Definition builtinMethods : list string :=
  [ "hasOwnProperty"; "isPrototypeOf"; "propertyIsEnumerable"; "toString";
    "toLocaleString"; "valueOf"; "__defineGetter__"; "__defineSetter__";
    "__lookupGetter__"; "__lookupSetter__" ].

Definition inheritedMember (k : string) : option host :=
  if String.eqb k "constructor" then Some ObjectConstructor
  else if String.eqb k "__proto__" then Some ObjectPrototype
  else if JsString.mem k builtinMethods then Some BuiltinMethod
  else None.

Definition t (V : Type) := list (string * V).

Inductive slot (V : Type) : Type :=
| Own (v : V)
| Inherited (h : host)
| Absent.
Arguments Own {V} v.
Arguments Inherited {V} h.
Arguments Absent {V}.

Definition get {V} (o : t V) (k : string) : slot V :=
  match JsMap.get o k with
  | Some v => Own v
  | None =>
      match inheritedMember k with
      | Some h => Inherited h
      | None => Absent
      end
  end.

(** Own keys that are array indices ("0", "7", "42", ... below 2^32 - 1)
    are enumerated first, in ascending numeric order; the other keys follow
    in insertion order. *)
Definition isDigit (c : ascii) : bool :=
  (48 <=? JsString.code c) && (JsString.code c <=? 57).

Fixpoint digitsValue (acc : N) (s : string) : option N :=
  match s with
  | EmptyString => Some acc
  | String c s' =>
      if isDigit c
      then digitsValue (acc * 10 + N.of_nat (JsString.code c - 48))%N s'
      else None
  end.

Definition arrayIndex (k : string) : option N :=
  match k with
  | EmptyString => None
  | String c rest =>
      if Ascii.eqb c "0"%char && negb (String.eqb rest EmptyString) then None
      else match digitsValue 0%N k with
           | Some n => if (n <? 4294967295)%N then Some n else None
           | None => None
           end
  end.

(** Place of a new own key [k] in the enumeration order. *)
Fixpoint insertNew {V} (o : t V) (k : string) (v : V) : t V :=
  match arrayIndex k with
  | None => o ++ [(k, v)]
  | Some n =>
      match o with
      | [] => [(k, v)]
      | (k', v') :: o' =>
          match arrayIndex k' with
          | Some n' =>
              if (n' <? n)%N then (k', v') :: insertNew o' k v
              else (k, v) :: o
          | None => (k, v) :: o
          end
      end
  end.

(** [o[k] = v]. *)
Definition set {V} (o : t V) (k : string) (v : V) : t V :=
  if JsMap.has o k then JsMap.set o k v else insertNew o k v.

Definition keys {V} (o : t V) : list string := map fst o.
Definition values {V} (o : t V) : list V := map snd o.
Definition entries {V} (o : t V) : list (string * V) := o.
End JsObject.

(* ------------------------------------------------------------------------- *)
(** * Data model (src/types.ts) *)
(* ------------------------------------------------------------------------- *)

Inductive RecommendationType : Type :=
| Duplicate
| MerchantNormalization
| MissingField
| Classification.

Inductive Status : Type := pending | applied | ignored.

Module Field.
(** [keyof Omit<TransactionRecord, 'id' | 'originalValues' | 'flags' | 'rowNum'>] *)
Inductive t : Type :=
| dateOfPayment | paidTo | amountPaid | expenseType | expenseSubtype
| description | transactionType.
End Field.

Module Flags.
Record t : Type := mk {
  isDuplicateCandidate : option bool;
  isDeleted : option bool;
  merchantNormalized : option bool;
  categorySuggested : option bool;
  fieldsFilled : option bool
}.
(** [flags: {}] *)
Definition empty : t := mk None None None None None.
End Flags.

Module OriginalValues.
(** [Partial<Omit<TransactionRecord, 'id' | 'originalValues' | 'flags'>>] *)
Record t : Type := mk {
  dateOfPayment : option string;
  paidTo : option string;
  amountPaid : option Q;
  expenseType : option string;
  expenseSubtype : option string;
  description : option string;
  transactionType : option string;
  rowNum : option N
}.
Definition empty : t := mk None None None None None None None None.
End OriginalValues.

Module TransactionRecord.
Record t : Type := mk {
  id : string;
  dateOfPayment : string;
  paidTo : string;
  amountPaid : Q;
  expenseType : string;
  expenseSubtype : string;
  description : string;
  transactionType : string;
  originalValues : option OriginalValues.t;
  flags : Flags.t;
  rowNum : option N
}.

(** Truthiness of [t.flags.isDeleted]. *)
Definition deleted (x : t) : bool :=
  match Flags.isDeleted (flags x) with
  | Some true => true
  | _ => false
  end.

(** [t.rowNum || 'N/A'] inside a template string. *)
Definition rowLabel (x : t) : string :=
  match rowNum x with
  | Some n => if (n =? 0)%N then "N/A" else JsString.ofN n
  | None => "N/A"
  end.
End TransactionRecord.

(** The values stored in [originalValue?: any] by the rule modules. *)
Inductive Value : Type :=
| VString (s : string)
| VDuplicateFields (t1_paidTo t1_desc t2_paidTo t2_desc : string).

Module Recommendation.
Record t : Type := mk {
  id : string;
  type : RecommendationType;
  transactionIds : list string;
  affectedField : option Field.t;
  originalValue : option Value;
  suggestedValue : string;
  confidence : option JsNumber.number;
  description : string;
  status : Status
}.

(** [{ ...rec, transactionIds: ids }] and the like. *)
Definition withTransactionIds (r : t) (ids : list string) : t :=
  mk (id r) (type r) ids (affectedField r) (originalValue r)
     (suggestedValue r) (confidence r) (description r) (status r).

Definition withDescription (r : t) (d : string) : t :=
  mk (id r) (type r) (transactionIds r) (affectedField r) (originalValue r)
     (suggestedValue r) (confidence r) d (status r).

Definition withStatus (r : t) (s : Status) : t :=
  mk (id r) (type r) (transactionIds r) (affectedField r) (originalValue r)
     (suggestedValue r) (confidence r) (description r) s.

Definition withId (r : t) (i : string) : t :=
  mk i (type r) (transactionIds r) (affectedField r) (originalValue r)
     (suggestedValue r) (confidence r) (description r) (status r).
End Recommendation.

Definition Status_eqb (a b : Status) : bool :=
  match a, b with
  | pending, pending | applied, applied | ignored, ignored => true
  | _, _ => false
  end.

Definition RecommendationType_eqb (a b : RecommendationType) : bool :=
  match a, b with
  | Duplicate, Duplicate | MerchantNormalization, MerchantNormalization
  | MissingField, MissingField | Classification, Classification => true
  | _, _ => false
  end.

(** [rec.status === 'applied' || rec.status === 'ignored'] *)
Definition terminal (s : Status) : bool :=
  Status_eqb s applied || Status_eqb s ignored.

(* ------------------------------------------------------------------------- *)
(** * Duplicate-pair detector (src/services/rules/duplicateRule.ts) *)
(* ------------------------------------------------------------------------- *)

Module DuplicateRule.
Import JsNumber.
Module T := TransactionRecord.

Fixpoint matchingChars (longerLower shorterLower : string) : nat :=
  match shorterLower with
  | EmptyString => 0
  | String c rest =>
      (if JsString.includesChar longerLower c then 1 else 0)
      + matchingChars longerLower rest
  end.

Definition simpleSimilarity (s1 s2 : string) : number :=
  let longer := if String.length s2 <? String.length s1 then s1 else s2 in
  let shorter := if String.length s2 <? String.length s1 then s2 else s1 in
  if String.length longer =? 0 then Finite 1.0
  else
    let longerLower := JsString.toLowerCase longer in
    let shorterLower := JsString.toLowerCase shorter in
    if JsString.includes longerLower shorterLower
       && (String.length longer - String.length shorter <? 5)
    then Finite 0.8
    else div (matchingChars longerLower shorterLower) (String.length longer).

(** The [confidence] computed for a pair of one group. *)
Definition pairConfidence (t1 t2 : T.t) : Q :=
  let paidToSimilarity := simpleSimilarity (T.paidTo t1) (T.paidTo t2) in
  let descriptionSimilarity :=
    simpleSimilarity (T.description t1) (T.description t2) in
  let isPaidToSimilar := gt paidToSimilarity 0.8 in
  let isDescriptionSimilar := gt descriptionSimilarity 0.7 in
  if isPaidToSimilar && isDescriptionSimilar then 0.9%Q
  else if isPaidToSimilar && String.eqb (T.description t1) (T.description t2)
  then 0.95%Q
  else if String.eqb (T.paidTo t1) (T.paidTo t2) && isDescriptionSimilar
  then 0.95%Q
  else if isPaidToSimilar || isDescriptionSimilar then 0.75%Q
  else if String.eqb (T.paidTo t1) (T.paidTo t2)
          && String.eqb (T.description t1) (T.description t2)
  then 1.0%Q
  else 0%Q.

(** [`${t.dateOfPayment}_${t.amountPaid.toFixed(2)}`] *)
Definition groupKey (x : T.t) : string :=
  T.dateOfPayment x +++ "_" +++ toFixed2 (T.amountPaid x).

(** Body of the first [forEach]: group by date and amount. *)
Definition addToGroup (potentialDuplicates : JsMap.t (list T.t)) (x : T.t)
  : outcome (JsMap.t (list T.t)) :=
  if T.deleted x then Returns potentialDuplicates
  else
    let key := groupKey x in
    let m :=
      if negb (JsMap.has potentialDuplicates key)
      then JsMap.set potentialDuplicates key []
      else potentialDuplicates in
    match JsMap.get m key with
    | Some group => Returns (JsMap.set m key (group ++ [x]))
    | None => Throws     (* [potentialDuplicates.get(key)!.push(t)] *)
    end.

(** The pairs [(group[i], group[j])], [i < j], in the order of the two
    nested [for] loops. *)
Fixpoint pairsOf (group : list T.t) : list (T.t * T.t) :=
  match group with
  | [] => []
  | t1 :: rest => map (pair t1) rest ++ pairsOf rest
  end.

Definition description (t1 t2 : T.t) : string :=
  "Potential duplicate transactions found. Row " +++ T.rowLabel t1 +++
  " and Row " +++ T.rowLabel t2 +++
  " have the same date and amount, with similar 'Paid To' and/or 'Description'.".

Section WithUuid.
Variable uuid : nat -> string.

(** Body of the inner loop; the state is the array [recommendations] and
    the set [processedPairs]. *)
Definition examinePair (st : list Recommendation.t * list string)
           (p : T.t * T.t) : list Recommendation.t * list string :=
  let '(recommendations, processedPairs) := st in
  let '(t1, t2) := p in
  let pairKey := JsString.join "-" (JsString.sort [T.id t1; T.id t2]) in
  if JsString.mem pairKey processedPairs then st
  else
    let confidence := pairConfidence t1 t2 in
    if Qle_bool 0.75 confidence
    then
      (recommendations ++
         [ Recommendation.mk
             (uuid (List.length recommendations))
             Duplicate
             (JsString.sort [T.id t1; T.id t2])
             None
             (Some (VDuplicateFields (T.paidTo t1) (T.description t1)
                                     (T.paidTo t2) (T.description t2)))
             "Mark one for deletion or review."
             (Some (Finite confidence))
             (description t1 t2)
             pending ],
       JsMap.add processedPairs pairKey)
    else st.

Definition examineGroup (st : list Recommendation.t * list string)
           (group : list T.t) : list Recommendation.t * list string :=
  if 1 <? List.length group
  then fold_left examinePair (pairsOf group) st
  else st.

Definition findDuplicateRecommendations (transactions : list T.t)
  : outcome (list Recommendation.t) :=
  potentialDuplicates <- foldM addToGroup transactions [] ;;
  Returns (fst (fold_left examineGroup (JsMap.values potentialDuplicates)
                          ([], []))).
End WithUuid.
End DuplicateRule.

(* ------------------------------------------------------------------------- *)
(** * Merchant-name normalizer (src/services/rules/merchantRule.ts) *)
(* ------------------------------------------------------------------------- *)

Module MerchantRule.
Import JsNumber.
Module T := TransactionRecord.

(** [str.toLowerCase().replace(/[^a-z0-9\s]/g, '').replace(/\s+/g, ' ').trim()] *)
Definition normalize (str : string) : string :=
  JsString.trim
    (JsString.collapseSpaces false
       (JsString.stripSymbols (JsString.toLowerCase str))).

(** One row of the table [dp]: given [c = normS1[i-1]], the row
    [dp[i-1][j-1..]] and [left = dp[i][j-1]], the entries [dp[i][j..]]. *)
Fixpoint nextRow (c : ascii) (s2 : string) (prevRow : list nat) (left : nat)
  : list nat :=
  match s2, prevRow with
  | String d s2', diag :: ((up :: _) as prevTail) =>
      let cost := if Ascii.eqb c d then 0 else 1 in
      let v := min3 (up + 1) (left + 1) (diag + cost) in
      v :: nextRow c s2' prevTail v
  | _, _ => []
  end.

(** The rows [dp[i]] for the remaining characters of [s1], from
    [prevRow = dp[i]]; the result is the last row [dp[M]]. *)
Fixpoint fillRows (s1 s2 : string) (i : nat) (prevRow : list nat) : list nat :=
  match s1 with
  | EmptyString => prevRow
  | String c s1' => fillRows s1' s2 (S i) (S i :: nextRow c s2 prevRow (S i))
  end.

(** [dp[M][N]] after the two nested loops. *)
Definition distance (normS1 normS2 : string) : nat :=
  last (fillRows normS1 normS2 0 (seq 0 (S (String.length normS2)))) 0.

Definition absDiff (m n : nat) : nat := (m - n) + (n - m).

Definition areStringsSimilar (s1 s2 : string) (threshold : Q) : bool :=
  let normS1 := normalize s1 in
  let normS2 := normalize s2 in
  if String.eqb normS1 normS2 then true
  else
    let M := String.length normS1 in
    let N := String.length normS2 in
    if (5 <? absDiff M N) && lt (div (Nat.min M N) (Nat.max M N)) 0.5
    then false
    else
      let maxLength := Nat.max M N in
      if maxLength =? 0 then true
      else ge (oneMinus (div (distance normS1 normS2) maxLength)) threshold.

(** The score recomputed for the confidence of a recommendation. *)
Definition similarityScore (originalPaidTo suggestedCanonical : string)
  : number :=
  let normOriginal := normalize originalPaidTo in
  let normSuggested := normalize suggestedCanonical in
  let M := String.length normOriginal in
  let N := String.length normSuggested in
  let maxLength := Nat.max M N in
  if 0 <? maxLength
  then oneMinus (div (distance normOriginal normSuggested) maxLength)
  else if (M =? 0) && (N =? 0) then Finite 1
  else Finite 0.

(** A value of [merchantCounts]: a number, or the text that [+ 1] makes of
    an inherited member of [Object.prototype]. *)
Inductive count : Type := Num (n : nat) | Text.

(** [merchantCounts[paidTo] = (merchantCounts[paidTo] || 0) + 1] *)
Definition increment (merchantCounts : JsObject.t count) (paidTo : string)
  : JsObject.t count :=
  match JsObject.get merchantCounts paidTo with
  | JsObject.Own (Num n) => JsObject.set merchantCounts paidTo (Num (n + 1))
  | JsObject.Own Text => JsObject.set merchantCounts paidTo Text
  | JsObject.Inherited JsObject.ObjectPrototype => merchantCounts
      (* the setter of __proto__ discards a string *)
  | JsObject.Inherited _ => JsObject.set merchantCounts paidTo Text
  | JsObject.Absent => JsObject.set merchantCounts paidTo (Num 1)
  end.

Definition countMerchant (st : JsObject.t count * list string) (x : T.t)
  : JsObject.t count * list string :=
  let '(merchantCounts, uniqueMerchants) := st in
  if T.deleted x then st
  else
    let paidTo := JsString.trim (T.paidTo x) in
    if JsString.truthy paidTo
    then (increment merchantCounts paidTo, JsMap.add uniqueMerchants paidTo)
    else st.

(** [(a, b) => merchantCounts[b] - merchantCounts[a]]; a NaN result counts
    as 0 for [sort]. *)
Definition byCount (merchantCounts : JsObject.t count) (a b : string) : Z :=
  match JsObject.get merchantCounts b, JsObject.get merchantCounts a with
  | JsObject.Own (Num nb), JsObject.Own (Num na) =>
      (Z.of_nat nb - Z.of_nat na)%Z
  | _, _ => 0%Z
  end.

(** [Array.prototype.sort] with a comparator: a stable sort.  (With the
    comparator above it is a consistent order unless some name is an
    inherited member; the run then throws in the last loop, whatever the
    order.) *)
Fixpoint insertBy (cmp : string -> string -> Z) (x : string)
         (l : list string) : list string :=
  match l with
  | [] => [x]
  | y :: l' => if (cmp x y <=? 0)%Z then x :: l else y :: insertBy cmp x l'
  end.

Fixpoint sortBy (cmp : string -> string -> Z) (l : list string)
  : list string :=
  match l with
  | [] => []
  | x :: l' => insertBy cmp x (sortBy cmp l')
  end.

(** Truthiness of [canonicalMap[k]]. *)
Definition mapped (canonicalMap : JsObject.t string) (k : string) : bool :=
  match JsObject.get canonicalMap k with
  | JsObject.Own v => JsString.truthy v
  | JsObject.Inherited _ => true
  | JsObject.Absent => false
  end.

(** [Array.from(new Set(l))] *)
Definition distinct (l : list string) : list string :=
  fold_left JsMap.add l [].

(** The inner loop that maps the later, unmapped names similar to a new
    canonical. *)
Definition sweep (merchant : string) (canonicalMap : JsObject.t string)
           (otherMerchant : string) : JsObject.t string :=
  if negb (mapped canonicalMap otherMerchant)
     && negb (String.eqb merchant otherMerchant)
  then
    if areStringsSimilar merchant otherMerchant 0.8
    then JsObject.set canonicalMap otherMerchant merchant
    else canonicalMap
  else canonicalMap.

(** Body of the loop over [sortedMerchants]. *)
Definition cluster (sortedMerchants : list string)
           (canonicalMap : JsObject.t string) (merchant : string)
  : JsObject.t string :=
  if mapped canonicalMap merchant then canonicalMap
  else
    let existingCanonicals := distinct (JsObject.values canonicalMap) in
    match find (fun canonicalKey => areStringsSimilar merchant canonicalKey 0.8)
               existingCanonicals with
    | Some canonicalKey => JsObject.set canonicalMap merchant canonicalKey
    | None =>
        fold_left (sweep merchant) sortedMerchants
                  (JsObject.set canonicalMap merchant merchant)
    end.

Definition description (originalPaidTo suggestedCanonical : string) : string :=
  "Normalize merchant name from " +++ JsString.quoted originalPaidTo +++
  " to " +++ JsString.quoted suggestedCanonical +++ " for consistency.".

Section WithUuid.
Variable uuid : nat -> string.

(** Body of the last [forEach]. *)
Definition suggest (canonicalMap : JsObject.t string)
           (recommendations : list Recommendation.t) (x : T.t)
  : outcome (list Recommendation.t) :=
  if T.deleted x then Returns recommendations
  else
    let originalPaidTo := JsString.trim (T.paidTo x) in
    if negb (JsString.truthy originalPaidTo) then Returns recommendations
    else
      match JsObject.get canonicalMap originalPaidTo with
      | JsObject.Absent => Returns recommendations
      | JsObject.Inherited _ =>
          (* [normalize(suggestedCanonical)]: a function or object has no
             method [toLowerCase] *)
          Throws
      | JsObject.Own suggestedCanonical =>
          if JsString.truthy suggestedCanonical
             && negb (String.eqb suggestedCanonical originalPaidTo)
          then
            let confidence :=
              plus 0.6 (times (similarityScore originalPaidTo
                                               suggestedCanonical) 0.35) in
            Returns
              (recommendations ++
                 [ Recommendation.mk
                     (uuid (List.length recommendations))
                     MerchantNormalization
                     [T.id x]
                     (Some Field.paidTo)
                     (Some (VString originalPaidTo))
                     suggestedCanonical
                     (Some (min 0.95 (max 0.5 confidence)))
                     (description originalPaidTo suggestedCanonical)
                     pending ])
          else Returns recommendations
      end.

Definition normalizeMerchantRecommendations (transactions : list T.t)
  : outcome (list Recommendation.t) :=
  let '(merchantCounts, uniqueMerchants) :=
    fold_left countMerchant transactions ([], []) in
  let sortedMerchants := sortBy (byCount merchantCounts) uniqueMerchants in
  let canonicalMap :=
    fold_left (cluster sortedMerchants) sortedMerchants [] in
  foldM (suggest canonicalMap) transactions [].
End WithUuid.
End MerchantRule.

(* ------------------------------------------------------------------------- *)
(** * Keyword table (src/constants.ts) *)
(* ------------------------------------------------------------------------- *)

Module KeywordRule.
Record t : Type := mk {
  keywords : list string;
  type : string;
  subtype : string
}.
End KeywordRule.

Definition KEYWORD_RULES : list KeywordRule.t :=
  [ KeywordRule.mk ["uber"; "lyft"; "taxi"] "Travel" "Ride Sharing";
    KeywordRule.mk ["flight"; "airline"; "aa.com"] "Travel" "Flights";
    KeywordRule.mk ["coffee"; "starbucks"; "cafe"] "Food" "Coffee Shops";
    KeywordRule.mk ["zomato"; "doordash"; "grubhub"; "uber eats"] "Food" "Delivery";
    KeywordRule.mk ["amazon"; "walmart"; "target"] "Shopping" "General Merchandise";
    KeywordRule.mk ["groceries"; "supermarket"] "Food" "Groceries" ].

(** [ruleDef.keywords.find(kw => paidToKey.includes(kw) || descriptionLower.includes(kw))] *)
Definition matchedKeyword (ruleDef : KeywordRule.t)
           (paidToKey descriptionLower : string) : option string :=
  find (fun kw => JsString.includes paidToKey kw
                  || JsString.includes descriptionLower kw)
       (KeywordRule.keywords ruleDef).

(* ------------------------------------------------------------------------- *)
(** * Missing-field completer (src/services/rules/missingFieldRule.ts) *)
(* ------------------------------------------------------------------------- *)

Module MissingFieldRule.
Import JsNumber.
Module T := TransactionRecord.

Definition frequency := JsObject.t nat.

(** [freq[key] = (freq[key] || 0) + 1] on an object of the rule's own. *)
Definition increment (freq : frequency) (key : string) : outcome frequency :=
  match JsObject.get freq key with
  | JsObject.Own n => Returns (JsObject.set freq key (n + 1))
  | JsObject.Absent => Returns (JsObject.set freq key 1)
  | JsObject.Inherited _ => Unmodelled     (* the count becomes a text *)
  end.

(** [table[paidToKey] = table[paidToKey] || {}] followed by an update of
    that inner object. *)
Definition update {V} (table : JsObject.t (JsObject.t V)) (paidToKey : string)
           (f : JsObject.t V -> outcome (JsObject.t V))
  : outcome (JsObject.t (JsObject.t V)) :=
  match JsObject.get table paidToKey with
  | JsObject.Own inner =>
      inner' <- f inner ;; Returns (JsObject.set table paidToKey inner')
  | JsObject.Absent =>
      inner' <- f [] ;; Returns (JsObject.set table paidToKey inner')
  | JsObject.Inherited _ => Unmodelled   (* the update writes to [Object] or
                                            to [Object.prototype] *)
  end.

Record tables : Type := mkTables {
  typeFrequency : JsObject.t frequency;
  subtypeFrequency : JsObject.t (JsObject.t frequency);
  transactionTypeFrequency : JsObject.t frequency
}.

(** Body of the first [forEach], over [allTransactions]. *)
Definition learn (tb : tables) (x : T.t) : outcome tables :=
  if T.deleted x then Returns tb
  else
    let paidToKey := JsString.toLowerCase (T.paidTo x) in
    if negb (JsString.truthy paidToKey) then Returns tb
    else
      tf <- (if JsString.truthy (T.expenseType x)
             then update (typeFrequency tb) paidToKey
                         (fun inner => increment inner (T.expenseType x))
             else Returns (typeFrequency tb)) ;;
      sf <- (if JsString.truthy (T.expenseType x)
                && JsString.truthy (T.expenseSubtype x)
             then update (subtypeFrequency tb) paidToKey
                    (fun byType =>
                       update byType (T.expenseType x)
                         (fun inner => increment inner (T.expenseSubtype x)))
             else Returns (subtypeFrequency tb)) ;;
      ttf <- (if JsString.truthy (T.transactionType x)
              then update (transactionTypeFrequency tb) paidToKey
                          (fun inner => increment inner (T.transactionType x))
              else Returns (transactionTypeFrequency tb)) ;;
      Returns (mkTables tf sf ttf).

(** [Object.entries(freqMap).sort((a, b) => b[1] - a[1])] *)
Fixpoint insertEntry (e : string * nat) (l : list (string * nat))
  : list (string * nat) :=
  match l with
  | [] => [e]
  | e' :: l' => if snd e' <=? snd e then e :: l else e' :: insertEntry e l'
  end.

Fixpoint sortEntries (l : list (string * nat)) : list (string * nat) :=
  match l with
  | [] => []
  | e :: l' => insertEntry e (sortEntries l')
  end.

Definition getMostFrequent (freqMap : option frequency)
  : outcome (option string) :=
  match freqMap with
  | None => Returns None
  | Some freqMap =>
      if List.length (JsObject.keys freqMap) =? 0 then Returns None
      else match sortEntries (JsObject.entries freqMap) with
           | e :: _ => Returns (Some (fst e))
           | [] => Throws     (* [...sort(...)[0][0]] on an empty array *)
           end
  end.

(** [getMostFrequent(table[paidToKey])] under the test
    [paidToKey && table[paidToKey]]; an inherited member has no enumerable
    key of its own. *)
Definition historical (table : JsObject.t frequency) (paidToKey : string)
  : outcome (option string) :=
  if JsString.truthy paidToKey
  then match JsObject.get table paidToKey with
       | JsObject.Own inner => getMostFrequent (Some inner)
       | JsObject.Inherited _ => Returns None
       | JsObject.Absent => Returns None
       end
  else Returns None.

Definition historicalSubtype (table : JsObject.t (JsObject.t frequency))
           (paidToKey expenseType : string) : outcome (option string) :=
  if JsString.truthy paidToKey
  then match JsObject.get table paidToKey with
       | JsObject.Own byType =>
           match JsObject.get byType expenseType with
           | JsObject.Own inner => getMostFrequent (Some inner)
           | JsObject.Inherited _ => Returns None
           | JsObject.Absent => Returns None
           end
       | JsObject.Inherited _ => Unmodelled  (* reads a member of [Object] *)
       | JsObject.Absent => Returns None
       end
  else Returns None.

(** Truthiness of [suggestion: string | null]. *)
Definition present (suggestion : option string) : bool :=
  match suggestion with
  | Some s => JsString.truthy s
  | None => false
  end.

(** The loop over [KEYWORD_RULES] with its [break]: the suggestion and the
    text of [rule]. *)
Fixpoint keywordType (rules : list KeywordRule.t)
         (paidToKey descriptionLower : string) : option (string * string) :=
  match rules with
  | [] => None
  | ruleDef :: rest =>
      match matchedKeyword ruleDef paidToKey descriptionLower with
      | Some kw =>
          Some (KeywordRule.type ruleDef,
                "based on keyword match ('" +++ kw +++ "')")
      | None => keywordType rest paidToKey descriptionLower
      end
  end.

Fixpoint keywordSubtype (rules : list KeywordRule.t)
         (expenseType paidToKey descriptionLower : string)
  : option (string * string) :=
  match rules with
  | [] => None
  | ruleDef :: rest =>
      match (if String.eqb (KeywordRule.type ruleDef) expenseType
             then matchedKeyword ruleDef paidToKey descriptionLower
             else None) with
      | Some kw =>
          Some (KeywordRule.subtype ruleDef,
                "based on keyword match ('" +++ kw +++ "') for type "
                +++ expenseType)
      | None => keywordSubtype rest expenseType paidToKey descriptionLower
      end
  end.

(** [suggestion] and [rule] after the historical and the keyword steps. *)
Definition resolve (fromHistory : option string)
           (fromKeywords : option (string * string))
  : option string * string :=
  if present fromHistory then (fromHistory, "based on historical data")
  else match fromKeywords with
       | Some (s, rule) => (Some s, rule)
       | None => (fromHistory, "based on historical data")
       end.

Section WithUuid.
Variable uuid : nat -> string.

Definition push (recommendations : list Recommendation.t) (x : T.t)
           (field : Field.t) (originalValue suggestion : string)
           (confidence : Q) (text : string) : list Recommendation.t :=
  recommendations ++
    [ Recommendation.mk (uuid (List.length recommendations)) MissingField
        [T.id x] (Some field) (Some (VString originalValue)) suggestion
        (Some (Finite confidence)) text pending ].

Definition suggestType (tb : tables) (recommendations : list Recommendation.t)
           (x : T.t) (paidToKey descriptionLower : string)
  : outcome (list Recommendation.t) :=
  if negb (JsString.truthy (T.expenseType x))
  then
    fromHistory <- historical (typeFrequency tb) paidToKey ;;
    let '(suggestion, rule) :=
      resolve fromHistory
              (keywordType KEYWORD_RULES paidToKey descriptionLower) in
    match suggestion with
    | Some s =>
        if JsString.truthy s
        then Returns
               (push recommendations x Field.expenseType (T.expenseType x) s
                  (if JsString.includes rule "keyword" then 0.8 else 0.65)%Q
                  ("Suggest filling missing Expense Type with " +++
                   JsString.quoted s +++ " " +++ rule +++
                   " for transaction at row " +++ T.rowLabel x +++ "."))
        else Returns recommendations
    | None => Returns recommendations
    end
  else Returns recommendations.

Definition suggestSubtype (tb : tables)
           (recommendations : list Recommendation.t)
           (x : T.t) (paidToKey descriptionLower : string)
  : outcome (list Recommendation.t) :=
  if JsString.truthy (T.expenseType x)
     && negb (JsString.truthy (T.expenseSubtype x))
  then
    fromHistory <-
      historicalSubtype (subtypeFrequency tb) paidToKey (T.expenseType x) ;;
    let '(suggestion, rule) :=
      resolve fromHistory
              (keywordSubtype KEYWORD_RULES (T.expenseType x)
                              paidToKey descriptionLower) in
    match suggestion with
    | Some s =>
        if JsString.truthy s
        then Returns
               (push recommendations x Field.expenseSubtype
                  (T.expenseSubtype x) s
                  (if JsString.includes rule "keyword" then 0.75 else 0.6)%Q
                  ("Suggest filling missing Expense Subtype with " +++
                   JsString.quoted s +++ " " +++ rule +++
                   " for transaction at row " +++ T.rowLabel x +++ "."))
        else Returns recommendations
    | None => Returns recommendations
    end
  else Returns recommendations.

Definition suggestTransactionType (tb : tables)
           (recommendations : list Recommendation.t)
           (x : T.t) (paidToKey : string)
  : outcome (list Recommendation.t) :=
  if negb (JsString.truthy (T.transactionType x))
  then
    suggestion <- historical (transactionTypeFrequency tb) paidToKey ;;
    match suggestion with
    | Some s =>
        if JsString.truthy s
        then Returns
               (push recommendations x Field.transactionType
                  (T.transactionType x) s 0.6%Q
                  ("Suggest filling missing Transaction Type with " +++
                   JsString.quoted s +++ " based on historical data for " +++
                   JsString.quoted (T.paidTo x) +++ " at row " +++
                   T.rowLabel x +++ "."))
        else Returns recommendations
    | None => Returns recommendations
    end
  else Returns recommendations.

(** Body of the second [forEach], over [transactionsToProcess]. *)
Definition complete (tb : tables) (recommendations : list Recommendation.t)
           (x : T.t) : outcome (list Recommendation.t) :=
  if T.deleted x then Returns recommendations
  else
    let paidToKey := JsString.toLowerCase (T.paidTo x) in
    let descriptionLower := JsString.toLowerCase (T.description x) in
    r1 <- suggestType tb recommendations x paidToKey descriptionLower ;;
    r2 <- suggestSubtype tb r1 x paidToKey descriptionLower ;;
    suggestTransactionType tb r2 x paidToKey.

Definition suggestMissingFieldRecommendations
           (transactionsToProcess allTransactions : list T.t)
  : outcome (list Recommendation.t) :=
  tb <- foldM learn allTransactions (mkTables [] [] []) ;;
  foldM (complete tb) transactionsToProcess [].
End WithUuid.
End MissingFieldRule.

(* ------------------------------------------------------------------------- *)
(** * Classification suggester (src/services/rules/classificationRule.ts) *)
(* ------------------------------------------------------------------------- *)

Module ClassificationRule.
Import JsNumber.
Module T := TransactionRecord.

(** An element of [paidToCategoryMap[paidToKey]]. *)
Record entry : Type := mkEntry {
  type : string;
  subtype : string;
  count : nat
}.

(** [existingEntry.count++] on the first entry found, else a [push]. *)
Fixpoint bump (entries : list entry) (ty sub : string) : list entry :=
  match entries with
  | [] => [mkEntry ty sub 1]
  | e :: rest =>
      if String.eqb (type e) ty && String.eqb (subtype e) sub
      then mkEntry (type e) (subtype e) (count e + 1) :: rest
      else e :: bump rest ty sub
  end.

(** Body of the first [forEach], over [allTransactions]. *)
Definition learn (paidToCategoryMap : JsObject.t (list entry)) (x : T.t)
  : outcome (JsObject.t (list entry)) :=
  if T.deleted x
     || negb (JsString.truthy (T.paidTo x))
     || negb (JsString.truthy (T.expenseType x))
     || negb (JsString.truthy (T.expenseSubtype x))
  then Returns paidToCategoryMap
  else
    let paidToKey := JsString.toLowerCase (T.paidTo x) in
    match JsObject.get paidToCategoryMap paidToKey with
    | JsObject.Own entries =>
        Returns (JsObject.set paidToCategoryMap paidToKey
                              (bump entries (T.expenseType x) (T.expenseSubtype x)))
    | JsObject.Absent =>
        Returns (JsObject.set paidToCategoryMap paidToKey
                              (bump [] (T.expenseType x) (T.expenseSubtype x)))
    | JsObject.Inherited _ =>
        (* [paidToCategoryMap[paidToKey].find] is not a function *)
        Throws
    end.

(** [list.sort((a, b) => b.count - a.count)] *)
Fixpoint insertEntry (e : entry) (l : list entry) : list entry :=
  match l with
  | [] => [e]
  | e' :: l' => if count e' <=? count e then e :: l else e' :: insertEntry e l'
  end.

Fixpoint sortEntries (l : list entry) : list entry :=
  match l with
  | [] => []
  | e :: l' => insertEntry e (sortEntries l')
  end.

(** The [for ... in] loop that sorts every list of the map. *)
Definition sortAll (paidToCategoryMap : JsObject.t (list entry))
  : JsObject.t (list entry) :=
  map (fun kv => (fst kv, sortEntries (snd kv))) paidToCategoryMap.

(** The loop over [KEYWORD_RULES] with its [break]. *)
Fixpoint keywordSuggestion (rules : list KeywordRule.t)
         (paidToKey descriptionLower : string)
  : option (string * string * string) :=
  match rules with
  | [] => None
  | ruleDef :: rest =>
      match matchedKeyword ruleDef paidToKey descriptionLower with
      | Some kw =>
          if JsString.truthy kw
          then Some (KeywordRule.type ruleDef, KeywordRule.subtype ruleDef, kw)
          else keywordSuggestion rest paidToKey descriptionLower
      | None => keywordSuggestion rest paidToKey descriptionLower
      end
  end.

Section WithUuid.
Variable uuid : nat -> string.

Definition push (recommendations : list Recommendation.t) (x : T.t)
           (field : Field.t) (originalValue suggestion : string)
           (confidence : Q) (text : string) : list Recommendation.t :=
  recommendations ++
    [ Recommendation.mk (uuid (List.length recommendations)) Classification
        [T.id x] (Some field) (Some (VString originalValue)) suggestion
        (Some (Finite confidence)) text pending ].

(** Scenario 1: a keyword match that differs from the current
    classification. *)
Definition fromKeywords (recommendations : list Recommendation.t) (x : T.t)
           (paidToKey descriptionLower : string) : list Recommendation.t :=
  match keywordSuggestion KEYWORD_RULES paidToKey descriptionLower with
  | Some (ktype, ksubtype, keyword) =>
      if negb (String.eqb (T.expenseType x) ktype)
         || negb (String.eqb (T.expenseSubtype x) ksubtype)
      then
        if negb (JsString.truthy (T.expenseType x))
        then
          let r1 :=
            push recommendations x Field.expenseType (T.expenseType x)
              ktype 0.85%Q
              ("Suggest classifying as Type: " +++ JsString.quoted ktype +++
               " based on keyword " +++ JsString.quoted keyword +++
               " for transaction at row " +++ T.rowLabel x +++ ".") in
          push r1 x Field.expenseSubtype (T.expenseSubtype x)
            ksubtype 0.80%Q
            ("Suggest classifying as Subtype: " +++ JsString.quoted ksubtype
             +++ " (Type: " +++ ktype +++ ") based on keyword " +++
             JsString.quoted keyword +++ " for transaction at row " +++
             T.rowLabel x +++ ".")
        else if String.eqb (T.expenseType x) ktype
                && negb (String.eqb (T.expenseSubtype x) ksubtype)
                && negb (JsString.truthy (T.expenseSubtype x))
        then
          push recommendations x Field.expenseSubtype (T.expenseSubtype x)
            ksubtype 0.75%Q
            ("Suggest Subtype: " +++ JsString.quoted ksubtype +++
             " for Type " +++ JsString.quoted (T.expenseType x) +++
             " based on keyword " +++ JsString.quoted keyword +++
             " for transaction at row " +++ T.rowLabel x +++ ".")
        else recommendations
      else recommendations
  | None => recommendations
  end.

(** Scenario 2 with [topHistorical = paidToCategoryMap[paidToKey][0]]. *)
Definition fromTop (recommendations : list Recommendation.t) (x : T.t)
           (topHistorical : entry) : list Recommendation.t :=
  if negb (JsString.truthy (T.expenseType x))
     && negb (JsString.truthy (T.expenseSubtype x))
  then
    let r1 :=
      push recommendations x Field.expenseType (T.expenseType x)
        (type topHistorical) 0.7%Q
        ("Suggest Type " +++ JsString.quoted (type topHistorical) +++
         " based on frequent past classifications for " +++
         JsString.quoted (T.paidTo x) +++ " (row " +++ T.rowLabel x +++ ").") in
    push r1 x Field.expenseSubtype (T.expenseSubtype x)
      (subtype topHistorical) 0.65%Q
      ("Suggest Subtype " +++ JsString.quoted (subtype topHistorical) +++
       " based on frequent past classifications for " +++
       JsString.quoted (T.paidTo x) +++ " (row " +++ T.rowLabel x +++ ").")
  else if JsString.truthy (T.expenseType x)
          && negb (JsString.truthy (T.expenseSubtype x))
          && String.eqb (type topHistorical) (T.expenseType x)
  then
    push recommendations x Field.expenseSubtype (T.expenseSubtype x)
      (subtype topHistorical) 0.65%Q
      ("Suggest Subtype " +++ JsString.quoted (subtype topHistorical) +++
       " for Type " +++ JsString.quoted (T.expenseType x) +++
       " based on frequent past classifications for " +++
       JsString.quoted (T.paidTo x) +++ " (row " +++ T.rowLabel x +++ ").")
  else recommendations.

Definition fromHistory (paidToCategoryMap : JsObject.t (list entry))
           (recommendations : list Recommendation.t) (x : T.t)
           (paidToKey : string) : outcome (list Recommendation.t) :=
  if JsString.truthy paidToKey
  then match JsObject.get paidToCategoryMap paidToKey with
       | JsObject.Own [] => Returns recommendations
       | JsObject.Own (topHistorical :: _) =>
           Returns (fromTop recommendations x topHistorical)
       | JsObject.Absent => Returns recommendations
       | JsObject.Inherited JsObject.ObjectPrototype =>
           Returns recommendations      (* no [length] *)
       | JsObject.Inherited JsObject.ObjectConstructor =>
           (* [Object.length] is 1 and [Object[0]] is undefined:
              [topHistorical.type] throws when it is evaluated *)
           if negb (JsString.truthy (T.expenseSubtype x))
           then Throws else Returns recommendations
       | JsObject.Inherited JsObject.BuiltinMethod => Unmodelled
       end
  else Returns recommendations.

(** Body of the second [forEach], over [transactionsToProcess]. *)
Definition classify (paidToCategoryMap : JsObject.t (list entry))
           (recommendations : list Recommendation.t) (x : T.t)
  : outcome (list Recommendation.t) :=
  if T.deleted x then Returns recommendations
  else
    let paidToKey := JsString.toLowerCase (T.paidTo x) in
    let descriptionLower := JsString.toLowerCase (T.description x) in
    fromHistory paidToCategoryMap
      (fromKeywords recommendations x paidToKey descriptionLower)
      x paidToKey.

Definition suggestClassificationRecommendations
           (transactionsToProcess allTransactions : list T.t)
  : outcome (list Recommendation.t) :=
  paidToCategoryMap <- foldM learn allTransactions [] ;;
  foldM (classify (sortAll paidToCategoryMap)) transactionsToProcess [].
End WithUuid.
End ClassificationRule.

(* ------------------------------------------------------------------------- *)
(** * Reconciliation engine (src/services/recommendationService.ts) *)
(* ------------------------------------------------------------------------- *)

Definition Field_eqb (a b : Field.t) : bool :=
  match a, b with
  | Field.dateOfPayment, Field.dateOfPayment
  | Field.paidTo, Field.paidTo
  | Field.amountPaid, Field.amountPaid
  | Field.expenseType, Field.expenseType
  | Field.expenseSubtype, Field.expenseSubtype
  | Field.description, Field.description
  | Field.transactionType, Field.transactionType => true
  | _, _ => false
  end.

Definition Value_eqb (a b : Value) : bool :=
  match a, b with
  | VString s, VString s' => String.eqb s s'
  | VDuplicateFields p1 d1 p2 d2, VDuplicateFields p1' d1' p2' d2' =>
      String.eqb p1 p1' && String.eqb d1 d1'
      && String.eqb p2 p2' && String.eqb d2 d2'
  | _, _ => false
  end.

Definition option_eqb {A} (eqb : A -> A -> bool) (a b : option A) : bool :=
  match a, b with
  | Some x, Some y => eqb x y
  | None, None => true
  | _, _ => false
  end.

Fixpoint list_eqb {A} (eqb : A -> A -> bool) (a b : list A) : bool :=
  match a, b with
  | [], [] => true
  | x :: a', y :: b' => eqb x y && list_eqb eqb a' b'
  | _, _ => false
  end.

Module RecommendationService.
Module T := TransactionRecord.
Module R := Recommendation.

(** [interface RecommendationIdentity]; [transactionIdsString] holds the
    sorted array whose JSON text the source stores. *)
Record RecommendationIdentity : Type := mkIdentity {
  type : RecommendationType;
  transactionIdsString : list string;
  affectedField : option Field.t;
  originalValue : option Value
}.

Definition getRecommendationIdentity (rec : R.t) : RecommendationIdentity :=
  let originalValueForIdentity :=
    match R.type rec with
    | MerchantNormalization | MissingField | Classification =>
        R.originalValue rec
    | Duplicate => None
    end in
  mkIdentity (R.type rec) (JsString.sort (R.transactionIds rec))
             (R.affectedField rec) originalValueForIdentity.

(** Equality of the keys [JSON.stringify(getRecommendationIdentity(...))]. *)
Definition sameKey (a b : RecommendationIdentity) : bool :=
  RecommendationType_eqb (type a) (type b)
  && list_eqb String.eqb (transactionIdsString a) (transactionIdsString b)
  && option_eqb Field_eqb (affectedField a) (affectedField b)
  && option_eqb Value_eqb (originalValue a) (originalValue b).

(** [Set<string>] of identity keys. *)
Definition hasKey (s : list RecommendationIdentity)
           (k : RecommendationIdentity) : bool := existsb (sameKey k) s.

Definition addKey (s : list RecommendationIdentity)
           (k : RecommendationIdentity) : list RecommendationIdentity :=
  if hasKey s k then s else s ++ [k].

(** [Map<string, Recommendation>] keyed by identity. *)
Fixpoint getByKey (m : list (RecommendationIdentity * R.t))
         (k : RecommendationIdentity) : option R.t :=
  match m with
  | [] => None
  | (k', v) :: m' => if sameKey k' k then Some v else getByKey m' k
  end.

Fixpoint setByKey (m : list (RecommendationIdentity * R.t))
         (k : RecommendationIdentity) (v : R.t)
  : list (RecommendationIdentity * R.t) :=
  match m with
  | [] => [(k, v)]
  | (k', v') :: m' =>
      if sameKey k' k then (k', v) :: m' else (k', v') :: setByKey m' k v
  end.

Section Run.
Variable transactionsFromState : list T.t.

Definition existingTransactionIds : list string :=
  map T.id transactionsFromState.

Definition exists_ (txId : string) : bool :=
  JsString.mem txId existingTransactionIds.

(** Step 1: body of the first [forEach]. *)
Definition preserve (st : list R.t * list RecommendationIdentity)
           (rec : R.t) : list R.t * list RecommendationIdentity :=
  let '(outputRecommendations, processedIdentities) := st in
  if terminal (R.status rec)
  then
    let validTargetIds := filter exists_ (R.transactionIds rec) in
    let identityKey := getRecommendationIdentity rec in
    let output' :=
      if (0 <? List.length (R.transactionIds rec))
         && (List.length validTargetIds =? 0)
      then outputRecommendations ++
             [ R.withDescription (R.withTransactionIds rec [])
                 (R.description rec +++ " (Original targets deleted)") ]
      else if (0 <? List.length validTargetIds)
              || (List.length (R.transactionIds rec) =? 0)
      then outputRecommendations ++ [R.withTransactionIds rec validTargetIds]
      else outputRecommendations in
    if existsb (fun r => String.eqb (R.id r) (R.id rec)) output'
    then (output', addKey processedIdentities identityKey)
    else (output', processedIdentities)
  else st.

(** Step 2: the four rule modules on the active transactions; [uuid] is
    the sequence of results of [randomUUID] during the whole call. *)
Definition activeTransactionsForRules : list T.t :=
  filter (fun x => negb (T.deleted x)) transactionsFromState.

Definition shift (uuid : nat -> string) (n : nat) : nat -> string :=
  fun k => uuid (n + k).

Definition candidateRecsFromRules (uuid : nat -> string)
  : outcome (list R.t) :=
  c1 <- DuplicateRule.findDuplicateRecommendations uuid
          activeTransactionsForRules ;;
  c2 <- MerchantRule.normalizeMerchantRecommendations
          (shift uuid (List.length c1)) activeTransactionsForRules ;;
  c3 <- MissingFieldRule.suggestMissingFieldRecommendations
          (shift uuid (List.length (c1 ++ c2)))
          activeTransactionsForRules transactionsFromState ;;
  c4 <- ClassificationRule.suggestClassificationRecommendations
          (shift uuid (List.length (c1 ++ c2 ++ c3)))
          activeTransactionsForRules transactionsFromState ;;
  Returns (c1 ++ c2 ++ c3 ++ c4).

(** Step 3: the map of the previous pending recommendations. *)
Definition rememberPending (m : list (RecommendationIdentity * R.t))
           (rec : R.t) : list (RecommendationIdentity * R.t) :=
  if Status_eqb (R.status rec) pending
  then setByKey m (getRecommendationIdentity rec) rec
  else m.

(** Step 3: body of the loop over the candidates. *)
Definition merge (existingPendingRecsMap : list (RecommendationIdentity * R.t))
           (st : list R.t * list RecommendationIdentity)
           (candidateRec : R.t) : list R.t * list RecommendationIdentity :=
  let '(outputRecommendations, processedIdentities) := st in
  let candidateIdentityKey := getRecommendationIdentity candidateRec in
  if hasKey processedIdentities candidateIdentityKey then st
  else
    let output' :=
      match getByKey existingPendingRecsMap candidateIdentityKey with
      | Some existingPendingRec =>
          outputRecommendations ++
            [ R.withStatus (R.withId candidateRec (R.id existingPendingRec))
                           pending ]
      | None => outputRecommendations ++ [candidateRec]
      end in
    (output', addKey processedIdentities candidateIdentityKey).

(** Step 4. *)
Definition softDeletedTransactionIds : list string :=
  fold_left (fun s tx => if T.deleted tx then JsMap.add s (T.id tx) else s)
            transactionsFromState [].

(** Body of the final [for] loop over [outputRecommendations]. *)
Definition finalize (finalUniqueRecsById : JsMap.t R.t) (rec : R.t)
  : JsMap.t R.t :=
  let currentRec :=
    R.withTransactionIds rec (filter exists_ (R.transactionIds rec)) in
  let add :=
    match JsMap.get finalUniqueRecsById (R.id currentRec) with
    | Some existingInMap =>
        if terminal (R.status existingInMap) then finalUniqueRecsById
        else JsMap.set finalUniqueRecsById (R.id currentRec) currentRec
    | None => JsMap.set finalUniqueRecsById (R.id currentRec) currentRec
    end in
  if Status_eqb (R.status currentRec) pending
  then
    if (List.length (R.transactionIds currentRec) =? 0)
       && (0 <? List.length (R.transactionIds rec))
    then finalUniqueRecsById
    else
      let allTargetsSoftDeleted :=
        (0 <? List.length (R.transactionIds currentRec))
        && forallb (fun txId => JsString.mem txId softDeletedTransactionIds)
                   (R.transactionIds currentRec) in
      if negb (RecommendationType_eqb (R.type currentRec) Duplicate)
         && allTargetsSoftDeleted
      then finalUniqueRecsById
      else add
  else add.

Definition generateRecommendations (uuid : nat -> string)
           (currentRecommendations : list R.t) : outcome (list R.t) :=
  let '(preserved, resolved) :=
    fold_left preserve currentRecommendations ([], []) in
  candidateRecs <- candidateRecsFromRules uuid ;;
  let existingPendingRecsMap :=
    fold_left rememberPending currentRecommendations [] in
  let '(outputRecommendations, _) :=
    fold_left (merge existingPendingRecsMap) candidateRecs
              (preserved, resolved) in
  Returns (JsMap.values (fold_left finalize outputRecommendations [])).
End Run.
End RecommendationService.

(* ------------------------------------------------------------------------- *)
(** * Apply and ignore handlers (src/App.tsx) *)
(* ------------------------------------------------------------------------- *)

Module App.
Module T := TransactionRecord.
Module R := Recommendation.
Module O := OriginalValues.

(** The two pieces of React state the handlers act on. *)
Record state : Type := mkState {
  transactions : list T.t;
  recommendations : list R.t
}.

(** Assignments to the fields of [updatedTransaction]. *)
Definition setPaidTo (x : T.t) (v : string) : T.t :=
  T.mk (T.id x) (T.dateOfPayment x) v (T.amountPaid x) (T.expenseType x)
       (T.expenseSubtype x) (T.description x) (T.transactionType x)
       (T.originalValues x) (T.flags x) (T.rowNum x).

Definition setExpenseType (x : T.t) (v : string) : T.t :=
  T.mk (T.id x) (T.dateOfPayment x) (T.paidTo x) (T.amountPaid x) v
       (T.expenseSubtype x) (T.description x) (T.transactionType x)
       (T.originalValues x) (T.flags x) (T.rowNum x).

Definition setExpenseSubtype (x : T.t) (v : string) : T.t :=
  T.mk (T.id x) (T.dateOfPayment x) (T.paidTo x) (T.amountPaid x)
       (T.expenseType x) v (T.description x) (T.transactionType x)
       (T.originalValues x) (T.flags x) (T.rowNum x).

Definition setTransactionType (x : T.t) (v : string) : T.t :=
  T.mk (T.id x) (T.dateOfPayment x) (T.paidTo x) (T.amountPaid x)
       (T.expenseType x) (T.expenseSubtype x) (T.description x) v
       (T.originalValues x) (T.flags x) (T.rowNum x).

Definition setOriginalValues (x : T.t) (o : O.t) : T.t :=
  T.mk (T.id x) (T.dateOfPayment x) (T.paidTo x) (T.amountPaid x)
       (T.expenseType x) (T.expenseSubtype x) (T.description x)
       (T.transactionType x) (Some o) (T.flags x) (T.rowNum x).

Definition setFlags (x : T.t) (f : Flags.t) : T.t :=
  T.mk (T.id x) (T.dateOfPayment x) (T.paidTo x) (T.amountPaid x)
       (T.expenseType x) (T.expenseSubtype x) (T.description x)
       (T.transactionType x) (T.originalValues x) f (T.rowNum x).

(** [{ ...(t.originalValues || {}) }] *)
Definition snapshot (x : T.t) : O.t :=
  match T.originalValues x with
  | Some o => o
  | None => O.empty
  end.

(** [if (o.f === undefined) o.f = t.f] for the four fields written. *)
Definition keepPaidTo (o : O.t) (v : string) : O.t :=
  match O.paidTo o with
  | Some _ => o
  | None => O.mk (O.dateOfPayment o) (Some v) (O.amountPaid o)
              (O.expenseType o) (O.expenseSubtype o) (O.description o)
              (O.transactionType o) (O.rowNum o)
  end.

Definition keepExpenseType (o : O.t) (v : string) : O.t :=
  match O.expenseType o with
  | Some _ => o
  | None => O.mk (O.dateOfPayment o) (O.paidTo o) (O.amountPaid o)
              (Some v) (O.expenseSubtype o) (O.description o)
              (O.transactionType o) (O.rowNum o)
  end.

Definition keepExpenseSubtype (o : O.t) (v : string) : O.t :=
  match O.expenseSubtype o with
  | Some _ => o
  | None => O.mk (O.dateOfPayment o) (O.paidTo o) (O.amountPaid o)
              (O.expenseType o) (Some v) (O.description o)
              (O.transactionType o) (O.rowNum o)
  end.

Definition keepTransactionType (o : O.t) (v : string) : O.t :=
  match O.transactionType o with
  | Some _ => o
  | None => O.mk (O.dateOfPayment o) (O.paidTo o) (O.amountPaid o)
              (O.expenseType o) (O.expenseSubtype o) (O.description o)
              (Some v) (O.rowNum o)
  end.

(** [flags.f = true] *)
Definition markMerchantNormalized (f : Flags.t) : Flags.t :=
  Flags.mk (Flags.isDuplicateCandidate f) (Flags.isDeleted f) (Some true)
           (Flags.categorySuggested f) (Flags.fieldsFilled f).

Definition markCategorySuggested (f : Flags.t) : Flags.t :=
  Flags.mk (Flags.isDuplicateCandidate f) (Flags.isDeleted f)
           (Flags.merchantNormalized f) (Some true) (Flags.fieldsFilled f).

Definition markFieldsFilled (f : Flags.t) : Flags.t :=
  Flags.mk (Flags.isDuplicateCandidate f) (Flags.isDeleted f)
           (Flags.merchantNormalized f) (Flags.categorySuggested f) (Some true).

Definition markDuplicateCandidate (f : Flags.t) : Flags.t :=
  Flags.mk (Some true) (Flags.isDeleted f) (Flags.merchantNormalized f)
           (Flags.categorySuggested f) (Flags.fieldsFilled f).

Definition markDeleted (f : Flags.t) : Flags.t :=
  Flags.mk (Flags.isDuplicateCandidate f) (Some true)
           (Flags.merchantNormalized f) (Flags.categorySuggested f)
           (Flags.fieldsFilled f).

(** The body executed for a transaction targeted by [recommendation]; it is
    the same text in [applyRecommendation] and in
    [applyMultipleRecommendations]. *)
Definition update (recommendation : R.t) (x : T.t) : T.t :=
  let updatedTransaction := setOriginalValues x (snapshot x) in
  let o := snapshot x in
  let v := R.suggestedValue recommendation in
  match R.type recommendation, R.affectedField recommendation with
  | MerchantNormalization, Some Field.paidTo =>
      setFlags
        (setPaidTo (setOriginalValues updatedTransaction
                                      (keepPaidTo o (T.paidTo x))) v)
        (markMerchantNormalized (T.flags x))
  | Classification, Some field =>
      let changed :=
        match field with
        | Field.expenseType =>
            setExpenseType
              (setOriginalValues updatedTransaction
                                 (keepExpenseType o (T.expenseType x))) v
        | Field.expenseSubtype =>
            setExpenseSubtype
              (setOriginalValues updatedTransaction
                                 (keepExpenseSubtype o (T.expenseSubtype x))) v
        | _ => updatedTransaction
        end in
      setFlags changed (markCategorySuggested (T.flags x))
  | MissingField, Some field =>
      let changed :=
        match field with
        | Field.expenseType =>
            setExpenseType
              (setOriginalValues updatedTransaction
                                 (keepExpenseType o (T.expenseType x))) v
        | Field.expenseSubtype =>
            setExpenseSubtype
              (setOriginalValues updatedTransaction
                                 (keepExpenseSubtype o (T.expenseSubtype x))) v
        | Field.transactionType =>
            setTransactionType
              (setOriginalValues updatedTransaction
                                 (keepTransactionType o (T.transactionType x))) v
        | _ => updatedTransaction
        end in
      setFlags changed (markFieldsFilled (T.flags x))
  | Duplicate, _ =>
      let f := markDuplicateCandidate (T.flags x) in
      if String.eqb v "delete" || JsString.includes v (T.id x)
      then setFlags updatedTransaction (markDeleted f)
      else setFlags updatedTransaction f
  | _, _ => updatedTransaction
  end.

(** [prevTransactions.map(t => recommendation.transactionIds.includes(t.id) ? ... : t)] *)
Definition applyTo (recommendation : R.t) (txs : list T.t) : list T.t :=
  map (fun x => if JsString.mem (T.id x) (R.transactionIds recommendation)
                then update recommendation x else x) txs.

Definition setStatusWhere (p : R.t -> bool) (s : Status) (recs : list R.t)
  : list R.t :=
  map (fun rec => if p rec then R.withStatus rec s else rec) recs.

Definition applyRecommendation (recommendationId : string) (st : state)
  : state :=
  match find (fun rec => String.eqb (R.id rec) recommendationId)
             (recommendations st) with
  | None => st
  | Some recommendation =>
      mkState (applyTo recommendation (transactions st))
              (setStatusWhere (fun rec => String.eqb (R.id rec) recommendationId)
                              applied (recommendations st))
  end.

Definition ignoreRecommendation (recommendationId : string) (st : state)
  : state :=
  mkState (transactions st)
          (setStatusWhere (fun rec => String.eqb (R.id rec) recommendationId)
                          ignored (recommendations st)).

Definition applyMultipleRecommendations (recommendationIds : list string)
           (st : state) : state :=
  let recsToApply :=
    filter (fun rec => JsString.mem (R.id rec) recommendationIds
                       && Status_eqb (R.status rec) pending)
           (recommendations st) in
  mkState (fold_left (fun tempTransactions recommendation =>
                        applyTo recommendation tempTransactions)
                     recsToApply (transactions st))
          (setStatusWhere (fun rec => JsString.mem (R.id rec) recommendationIds)
                          applied (recommendations st)).

Definition ignoreMultipleRecommendations (recommendationIds : list string)
           (st : state) : state :=
  mkState (transactions st)
          (setStatusWhere (fun rec => JsString.mem (R.id rec) recommendationIds)
                          ignored (recommendations st)).

(** The four user operations and their effect on the state. *)
Inductive operation : Type :=
| Apply (recommendationId : string)
| Ignore (recommendationId : string)
| ApplyMultiple (recommendationIds : list string)
| IgnoreMultiple (recommendationIds : list string).

Definition step (st : state) (op : operation) : state :=
  match op with
  | Apply i => applyRecommendation i st
  | Ignore i => ignoreRecommendation i st
  | ApplyMultiple l => applyMultipleRecommendations l st
  | IgnoreMultiple l => ignoreMultipleRecommendations l st
  end.

Definition run (ops : list operation) (st : state) : state :=
  fold_left step ops st.
End App.

(* ------------------------------------------------------------------------- *)
(** * Record handlers, global filter, export name and reconciliation effect
      (src/App.tsx) *)
(* ------------------------------------------------------------------------- *)

Module AppState.
Module T := TransactionRecord.
Module R := Recommendation.

(** [Omit<TransactionRecord, 'id' | 'flags' | 'originalValues'>] *)
Record NewTransaction : Type := mkNew {
  dateOfPayment : string;
  paidTo : string;
  amountPaid : Q;
  expenseType : string;
  expenseSubtype : string;
  description : string;
  transactionType : string;
  rowNum : option N
}.

(** [addTransaction]; [id] is the result of [self.crypto.randomUUID()]. *)
Definition addTransaction (newTransaction : NewTransaction) (id : string)
           (prev : list T.t) : list T.t :=
  prev ++
    [ T.mk id (dateOfPayment newTransaction) (paidTo newTransaction)
           (amountPaid newTransaction) (expenseType newTransaction)
           (expenseSubtype newTransaction) (description newTransaction)
           (transactionType newTransaction) None Flags.empty
           (rowNum newTransaction) ].

(** [prev.map(t => t.id === updatedTransaction.id ? updatedTransaction : t)] *)
Definition updateTransaction (updatedTransaction : T.t) (prev : list T.t)
  : list T.t :=
  map (fun t => if String.eqb (T.id t) (T.id updatedTransaction)
                then updatedTransaction else t) prev.

(** [prev.filter(t => t.id !== transactionId)] *)
Definition deleteTransaction (transactionId : string) (prev : list T.t)
  : list T.t :=
  filter (fun t => negb (String.eqb (T.id t) transactionId)) prev.

(** [interface FilterCriteria] *)
Record DateRange : Type := mkRange {
  start : option string;
  end_ : option string
}.

Record FilterCriteria : Type := mkFilter {
  dateRange : option DateRange;
  category : option string;
  subCategory : option string;
  transactionTypeFilter : option string
}.

(** [if (criterion) data = data.filter(t => test(criterion, t))]: an absent
    or empty criterion filters nothing. *)
Definition narrow (criterion : option string) (test : string -> T.t -> bool)
           (dataToFilter : list T.t) : list T.t :=
  match criterion with
  | Some c => if JsString.truthy c then filter (test c) dataToFilter
              else dataToFilter
  | None => dataToFilter
  end.

(** [globalFilters.dateRange?.start] and [globalFilters.dateRange?.end] *)
Definition rangeStart (f : FilterCriteria) : option string :=
  match dateRange f with Some r => start r | None => None end.

Definition rangeEnd (f : FilterCriteria) : option string :=
  match dateRange f with Some r => end_ r | None => None end.

(** The [useMemo] of [globallyFilteredTransactions]; [a >= b] on strings is
    the code-unit order. *)
Definition globallyFilteredTransactions (transactions : list T.t)
           (globalFilters : FilterCriteria) : list T.t :=
  let d0 := filter (fun t => negb (T.deleted t)) transactions in
  let d1 := narrow (rangeStart globalFilters)
                   (fun s t => String.leb s (T.dateOfPayment t)) d0 in
  let d2 := narrow (rangeEnd globalFilters)
                   (fun e t => String.leb (T.dateOfPayment t) e) d1 in
  let d3 := narrow (category globalFilters)
                   (fun c t => String.eqb (T.expenseType t) c) d2 in
  let d4 := narrow (subCategory globalFilters)
                   (fun c t => String.eqb (T.expenseSubtype t) c) d3 in
  narrow (transactionTypeFilter globalFilters)
         (fun c t => String.eqb (T.transactionType t) c) d4.

(** The recommendations handed to the views:
    [recommendations.filter(r => r.transactionIds.every(txId =>
       transactions.find(t => t.id === txId && !t.flags.isDeleted)))] *)
Definition shownRecommendations (transactions : list T.t)
           (recommendations : list R.t) : list R.t :=
  filter (fun r =>
            forallb (fun txId =>
                       match find (fun t => String.eqb (T.id t) txId
                                            && negb (T.deleted t))
                                  transactions with
                       | Some _ => true
                       | None => false
                       end)
                    (R.transactionIds r))
         recommendations.

(** [name.split('.')[0]] *)
Fixpoint beforeDot (name : string) : string :=
  match name with
  | EmptyString => EmptyString
  | String c rest =>
      if Ascii.eqb c "."%char then EmptyString else String c (beforeDot rest)
  end.

(** [raw ? raw.split('.')[0] : null] *)
Definition fileBase (raw : option string) : option string :=
  match raw with
  | Some name => if JsString.truthy name then Some (beforeDot name) else None
  | None => None
  end.

(** Truthiness of a value of type [string | null]. *)
Definition given (base : option string) : bool :=
  match base with
  | Some b => JsString.truthy b
  | None => false
  end.

(** The text of a [string | null] inside a template string. *)
Definition text (base : option string) : string :=
  match base with
  | Some b => b
  | None => "null"
  end.

(** [baseName] in [handleExport]. *)
Definition exportBaseName (rawExpenseFileName rawIncomeFileName
                           rawInvestmentTransferFileName : option string)
  : string :=
  let expenseFileBase := fileBase rawExpenseFileName in
  let incomeFileBase := fileBase rawIncomeFileName in
  let itFileBase := fileBase rawInvestmentTransferFileName in
  if given expenseFileBase
     && option_eqb String.eqb expenseFileBase incomeFileBase
     && option_eqb String.eqb expenseFileBase itFileBase
  then "processed_data_" +++ text expenseFileBase
  else
    let parts :=
      (if given expenseFileBase then ["exp_" +++ text expenseFileBase] else [])
      ++ (if given incomeFileBase
             && negb (option_eqb String.eqb incomeFileBase expenseFileBase)
          then ["inc_" +++ text incomeFileBase] else [])
      ++ (if given itFileBase
             && negb (option_eqb String.eqb itFileBase expenseFileBase)
             && negb (option_eqb String.eqb itFileBase incomeFileBase)
          then ["it_" +++ text itFileBase] else []) in
    if 0 <? List.length parts
    then "processed_data_" +++ JsString.join "_" parts
    else if given expenseFileBase
    then "processed_expenses_" +++ text expenseFileBase
    else if given incomeFileBase
    then "processed_income_" +++ text incomeFileBase
    else if given itFileBase
    then "processed_invest_transfers_" +++ text itFileBase
    else "exported_data".

(** The effect that follows a change of [transactions] or of
    [rawExpenseFileName]: the new value of [recommendations]. *)
Definition reconcileEffect (uuid : nat -> string) (transactions : list T.t)
           (rawExpenseFileName : option string) (recommendations : list R.t)
  : outcome (list R.t) :=
  let fileLoaded :=
    match rawExpenseFileName with Some _ => true | None => false end in
  if (0 <? List.length transactions)
     || ((List.length transactions =? 0) && fileLoaded)
  then
    let activeTransactionsExist :=
      existsb (fun t => negb (T.deleted t)) transactions in
    if (0 <? List.length transactions) && negb activeTransactionsExist
       && (List.length recommendations =? 0)
    then Returns recommendations
    else RecommendationService.generateRecommendations
           transactions uuid recommendations
  else if (List.length transactions =? 0) && negb fileLoaded
  then Returns []
  else Returns recommendations.
End AppState.

(* ------------------------------------------------------------------------- *)
(** * The grouping of the recommendations view
      (src/components/RecommendationsView.tsx,
       src/components/RecommendationCard.tsx) *)
(* ------------------------------------------------------------------------- *)

Module RecommendationsView.
Module R := Recommendation.

(** [interface GroupedMerchantNormalization] *)
Record GroupedMerchantNormalization : Type := mkGroup {
  canonicalName : string;
  originalValues : list string;        (* [Set<string>] *)
  recommendationIds : list string;
  totalAffectedTransactions : nat
}.

(** The two [useState] filters. *)
Inductive TypeFilter : Type := AllTypes | OnlyType (t : RecommendationType).
Inductive StatusFilter : Type := AllStatuses | OnlyStatus (s : Status).

Definition typeMatch (filterType : TypeFilter) (rec : R.t) : bool :=
  match filterType with
  | AllTypes => true
  | OnlyType t => RecommendationType_eqb (R.type rec) t
  end.

Definition statusMatch (filterStatus : StatusFilter) (rec : R.t) : bool :=
  match filterStatus with
  | AllStatuses => true
  | OnlyStatus s => Status_eqb (R.status rec) s
  end.

Definition currentlyVisibleRecs (recommendations : list R.t)
           (filterType : TypeFilter) (filterStatus : StatusFilter)
  : list R.t :=
  filter (fun rec => typeMatch filterType rec && statusMatch filterStatus rec)
         recommendations.

(** [String(rec.originalValue)] under the test [if (rec.originalValue)]. *)
Definition originalText (v : option Value) : option string :=
  match v with
  | Some (VString s) => if JsString.truthy s then Some s else None
  | Some (VDuplicateFields _ _ _ _) => Some "[object Object]"
  | None => None
  end.

(** The three updates of [grouped[canonical]] for one recommendation. *)
Definition extend (group : GroupedMerchantNormalization) (rec : R.t)
  : GroupedMerchantNormalization :=
  mkGroup (canonicalName group)
          (match originalText (R.originalValue rec) with
           | Some s => JsMap.add (originalValues group) s
           | None => originalValues group
           end)
          (recommendationIds group ++ [R.id rec])
          (totalAffectedTransactions group
           + List.length (R.transactionIds rec)).

(** Body of [currentlyVisibleRecs.forEach]; [grouped] is a plain object. *)
Definition place (st : JsObject.t GroupedMerchantNormalization * list R.t)
           (rec : R.t)
  : outcome (JsObject.t GroupedMerchantNormalization * list R.t) :=
  let '(grouped, individuals) := st in
  if RecommendationType_eqb (R.type rec) MerchantNormalization
     && Status_eqb (R.status rec) pending
  then
    let canonical := R.suggestedValue rec in
    match JsObject.get grouped canonical with
    | JsObject.Own group =>
        Returns (JsObject.set grouped canonical (extend group rec), individuals)
    | JsObject.Absent =>
        Returns (JsObject.set grouped canonical
                   (extend (mkGroup canonical [] [] 0) rec),
                 individuals)
    | JsObject.Inherited _ =>
        (* the inherited member is truthy and has no [recommendationIds] *)
        Throws
    end
  else Returns (grouped, individuals ++ [rec]).

(** Body of [Object.values(grouped).forEach]. *)
Definition settle (recommendations : list R.t)
           (st : list GroupedMerchantNormalization * list R.t)
           (group : GroupedMerchantNormalization)
  : list GroupedMerchantNormalization * list R.t :=
  let '(finalGroupedArray, individuals) := st in
  let n := List.length (recommendationIds group) in
  if (1 <? n) || ((n =? 1) && (0 <? List.length (originalValues group)))
  then (finalGroupedArray ++ [group], individuals)
  else if n =? 1
  then match recommendationIds group with
       | first :: _ =>
           match find (fun r => String.eqb (R.id r) first) recommendations with
           | Some rec => (finalGroupedArray, individuals ++ [rec])
           | None => st
           end
       | [] => st
       end
  else st.

(** The [useMemo] that yields [groupedMerchantNormalizations] and
    [individualRecommendations]. *)
Definition groupRecommendations (recommendations : list R.t)
           (filterType : TypeFilter) (filterStatus : StatusFilter)
  : outcome (list GroupedMerchantNormalization * list R.t) :=
  st <- foldM place
          (currentlyVisibleRecs recommendations filterType filterStatus)
          ([], []) ;;
  Returns (fold_left (settle recommendations) (JsObject.values (fst st))
                     ([], snd st)).

(** The handlers wired to the buttons that are rendered: the two buttons of
    each group in the bulk section, shown when the status filter is pending
    and the type filter admits merchant normalizations, and the two buttons
    of the card of each individual recommendation that is pending. *)
Definition bulkSectionShown (filterType : TypeFilter)
           (filterStatus : StatusFilter) : bool :=
  match filterStatus with
  | OnlyStatus pending =>
      match filterType with
      | AllTypes | OnlyType MerchantNormalization => true
      | _ => false
      end
  | _ => false
  end.

Definition groupButtons (group : GroupedMerchantNormalization)
  : list App.operation :=
  [ App.IgnoreMultiple (recommendationIds group);
    App.ApplyMultiple (recommendationIds group) ].

Definition cardButtons (rec : R.t) : list App.operation :=
  if Status_eqb (R.status rec) pending
  then [App.Ignore (R.id rec); App.Apply (R.id rec)]
  else [].

Definition buttons (filterType : TypeFilter) (filterStatus : StatusFilter)
           (groups : list GroupedMerchantNormalization)
           (individuals : list R.t) : list App.operation :=
  (if bulkSectionShown filterType filterStatus
   then flat_map groupButtons groups else [])
  ++ flat_map cardButtons individuals.
End RecommendationsView.

(* ------------------------------------------------------------------------- *)
(** * Vocabulary of the statements *)
(* ------------------------------------------------------------------------- *)

Module T := TransactionRecord.
Module R := Recommendation.
Module RS := RecommendationService.

(** Two runs of a loop whose states stay related. *)
Definition rel_out {A B} (Rel : A -> B -> Prop) (o1 : outcome A)
           (o2 : outcome B) : Prop :=
  match o1, o2 with
  | Returns a, Returns b => Rel a b
  | Throws, Throws => True
  | Unmodelled, Unmodelled => True
  | _, _ => False
  end.

(** Number of targets of a recommendation of each type. *)
Definition arity (t : RecommendationType) : nat :=
  match t with
  | Duplicate => 2
  | _ => 1
  end.

(** A recommendation as a rule module builds it from the list [processed]:
    pending, aimed at undeleted records of that list, one target (two for a
    duplicate pair). *)
Record candidate_ok (processed : list T.t) (r : R.t) : Prop := {
  cand_pending : R.status r = pending;
  cand_targets :
    forall i, In i (R.transactionIds r) ->
              exists x, In x processed /\ T.deleted x = false /\ T.id x = i;
  cand_arity : List.length (R.transactionIds r) = arity (R.type r)
}.

(** The ids of [s] are the first results of [randomUUID], in order. *)
Definition numbered (uuid : nat -> string) (s : list R.t) : Prop :=
  map R.id s = map uuid (seq 0 (List.length s)).

Definition emitted (uuid : nat -> string) (processed : list T.t)
           (s : list R.t) : Prop :=
  numbered uuid s /\ Forall (candidate_ok processed) s.

(** A recommendation without its id. *)
Definition erase (r : R.t) : R.t := R.withId r EmptyString.

Definition same_content (s1 s2 : list R.t) : Prop :=
  map erase s1 = map erase s2.

(** Every group holds undeleted records of the list. *)
Definition groups_from (transactions : list T.t) (m : JsMap.t (list T.t))
  : Prop :=
  forall g x, In g (JsMap.values m) -> In x g ->
              In x transactions /\ T.deleted x = false.

(** Step 1 on one terminal recommendation: what is carried forward. *)
Definition carry (txs : list T.t) (rec : R.t) : R.t :=
  let validTargetIds := filter (RS.exists_ txs) (R.transactionIds rec) in
  if (0 <? List.length (R.transactionIds rec))
     && (List.length validTargetIds =? 0)
  then R.withDescription (R.withTransactionIds rec [])
         (R.description rec +++ " (Original targets deleted)")
  else R.withTransactionIds rec validTargetIds.

Definition isTerminal (rec : R.t) : bool := terminal (R.status rec).

Definition carried (txs : list T.t) (prev : list R.t) : list R.t :=
  map (carry txs) (filter isTerminal prev).

(** The identities marked as resolved by step 1. *)
Definition resolvedKeys (prev : list R.t) : list RS.RecommendationIdentity :=
  fold_left RS.addKey
            (map RS.getRecommendationIdentity (filter isTerminal prev)) [].

Definition pendingMap (prev : list R.t)
  : list (RS.RecommendationIdentity * R.t) :=
  fold_left RS.rememberPending prev [].

(** Step 3 on one candidate that is kept. *)
Definition adopt (M : list (RS.RecommendationIdentity * R.t)) (c : R.t) : R.t :=
  match RS.getByKey M (RS.getRecommendationIdentity c) with
  | Some existingPendingRec =>
      R.withStatus (R.withId c (R.id existingPendingRec)) pending
  | None => c
  end.

(** Step 3 on the list of candidates: what is pushed after the carried
    recommendations. *)
Fixpoint merged (M : list (RS.RecommendationIdentity * R.t))
         (K : list RS.RecommendationIdentity) (cands : list R.t) : list R.t :=
  match cands with
  | [] => []
  | c :: cs =>
      if RS.hasKey K (RS.getRecommendationIdentity c) then merged M K cs
      else adopt M c
           :: merged M (RS.addKey K (RS.getRecommendationIdentity c)) cs
  end.

(** Step 4 on one recommendation: the copy with its targets filtered, and
    whether it is kept. *)
Definition trimmed (txs : list T.t) (rec : R.t) : R.t :=
  R.withTransactionIds rec (filter (RS.exists_ txs) (R.transactionIds rec)).

Definition survives (txs : list T.t) (rec : R.t) : bool :=
  if Status_eqb (R.status rec) pending
  then
    if (List.length (R.transactionIds (trimmed txs rec)) =? 0)
       && (0 <? List.length (R.transactionIds rec))
    then false
    else
      negb (negb (RecommendationType_eqb (R.type rec) Duplicate)
            && ((0 <? List.length (R.transactionIds (trimmed txs rec)))
                && forallb (fun txId =>
                              JsString.mem txId (RS.softDeletedTransactionIds txs))
                           (R.transactionIds (trimmed txs rec))))
  else true.

(** Step 5 on one recommendation that is kept. *)
Definition insertRec (m : JsMap.t R.t) (currentRec : R.t) : JsMap.t R.t :=
  match JsMap.get m (R.id currentRec) with
  | Some existingInMap =>
      if terminal (R.status existingInMap) then m
      else JsMap.set m (R.id currentRec) currentRec
  | None => JsMap.set m (R.id currentRec) currentRec
  end.

Definition survivors (txs : list T.t) (out : list R.t) : list R.t :=
  map (trimmed txs) (filter (survives txs) out).

(** A map of step 5: distinct keys, each the id of its value. *)
Definition keyed (m : JsMap.t R.t) : Prop :=
  NoDup (map fst m) /\ forall k v, In (k, v) m -> k = R.id v.

(** The record set holds a soft-deleted record with id [i]. *)
Definition softDeleted (txs : list T.t) (i : string) : Prop :=
  exists x, In x txs /\ T.id x = i /\ T.deleted x = true.

(** No text of the record that a rule uses as the key of a plain object names
    a member of [Object.prototype]. *)
Definition plainNames (x : T.t) : Prop :=
  JsObject.inheritedMember (JsString.trim (T.paidTo x)) = None
  /\ JsObject.inheritedMember (JsString.toLowerCase (T.paidTo x)) = None
  /\ JsObject.inheritedMember (T.expenseType x) = None
  /\ JsObject.inheritedMember (T.expenseSubtype x) = None
  /\ JsObject.inheritedMember (T.transactionType x) = None.

Definition plainRecords (txs : list T.t) : Prop :=
  forall x, In x txs -> T.deleted x = false -> plainNames x.

(** A previous recommendation list as the data model has it: ids are
    distinct, and a resolved recommendation has no more targets than its type
    allows (two for a duplicate pair, one otherwise; fewer once records were
    removed). *)
Definition wellFormed (prev : list R.t) : Prop :=
  NoDup (map R.id prev)
  /\ forall t, In t prev -> isTerminal t = true ->
               List.length (R.transactionIds t) <= arity (R.type t).

(** The results of [randomUUID] are new: distinct from each other and from
    the ids in use. *)
Definition freshFor (uuid : nat -> string) (prev : list R.t) : Prop :=
  (forall j k, uuid j = uuid k -> j = k)
  /\ forall k, ~ In (uuid k) (map R.id prev).

(** Two sets of resolved identities block the same candidates. *)
Definition agree (txs : list T.t) (Ka Kb : list RS.RecommendationIdentity)
  : Prop :=
  forall c, candidate_ok (RS.activeTransactionsForRules txs) c ->
            RS.hasKey Ka (RS.getRecommendationIdentity c)
            = RS.hasKey Kb (RS.getRecommendationIdentity c).

(** Numeric equality of two results. *)
Definition sameNumber (x y : JsNumber.number) : Prop :=
  match x, y with
  | JsNumber.Finite p, JsNumber.Finite q => Qeq p q
  | JsNumber.PosInfinity, JsNumber.PosInfinity => True
  | JsNumber.NegInfinity, JsNumber.NegInfinity => True
  | _, _ => False
  end.

(** The strings of ASCII code units: on them [JsString.toLowerCase] is
    [String.prototype.toLowerCase], which outside ASCII also maps other
    letters and can change the length. *)
Fixpoint isAscii (s : string) : bool :=
  match s with
  | EmptyString => true
  | String c rest => (JsString.code c <? 128) && isAscii rest
  end.

(** The test of [areStringsSimilar] that skips the distance computation. *)
Definition lengthsFarApart (a b : string) : bool :=
  let M := String.length (MerchantRule.normalize a) in
  let N := String.length (MerchantRule.normalize b) in
  (5 <? MerchantRule.absDiff M N)
  && JsNumber.lt (JsNumber.div (Nat.min M N) (Nat.max M N)) 0.5.

(** Two records of one group whose names and descriptions are equal. *)
Definition exactPair (paidTo description : string) (id1 id2 : string)
  : list T.t :=
  [ T.mk id1 "2024-03-01" paidTo 42.5 EmptyString EmptyString description
         EmptyString None Flags.empty None;
    T.mk id2 "2024-03-01" paidTo 42.5 EmptyString EmptyString description
         EmptyString None Flags.empty None ].

(** A record with a given id and counterparty name. *)
Definition namedRecord (id paidTo : string) : T.t :=
  T.mk id "2024-03-01" paidTo 10 EmptyString EmptyString EmptyString
       EmptyString None Flags.empty None.

(** The record set of the example: five records of one name, one of a
    variant. *)
Definition merchantExample (name variant : string) : list T.t :=
  [ namedRecord "t1" name; namedRecord "t2" name; namedRecord "t3" name;
    namedRecord "t4" name; namedRecord "t5" name; namedRecord "t6" variant ].

(** A sequence of distinct ids. *)
Definition uuidExample (n : nat) : string :=
  "uuid-" +++ JsString.ofN (N.of_nat n).

(** Every entry of [canonicalMap] maps a name to itself or to a name it is
    similar to at the cutoff 0.8. *)
Definition clustered (canonicalMap : JsObject.t string) : Prop :=
  forall k v, In (k, v) canonicalMap ->
              k = v
              \/ MerchantRule.areStringsSimilar k v 0.8 = true
              \/ MerchantRule.areStringsSimilar v k 0.8 = true.

(** What the normalizer guarantees of a recommendation it emits. *)
Definition merchant_ok (txs : list T.t) (r : R.t) : Prop :=
  exists x,
    In x txs /\ T.deleted x = false
    /\ R.type r = MerchantNormalization
    /\ R.affectedField r = Some Field.paidTo
    /\ R.transactionIds r = [T.id x]
    /\ R.originalValue r = Some (VString (JsString.trim (T.paidTo x)))
    /\ R.suggestedValue r <> JsString.trim (T.paidTo x)
    /\ (MerchantRule.areStringsSimilar
          (JsString.trim (T.paidTo x)) (R.suggestedValue r) 0.8 = true
        \/ MerchantRule.areStringsSimilar
             (R.suggestedValue r) (JsString.trim (T.paidTo x)) 0.8 = true)
    /\ exists q, R.confidence r = Some (JsNumber.Finite q)
                 /\ (0.5 <= q)%Q /\ (q <= 0.95)%Q.

Module O := OriginalValues.

(** An entry of [originalValues] before and after an apply: a captured value
    stays; an absent one stays absent, or becomes the value [pre] that the
    field had before the change when the field is the one affected. *)
Definition captured (before after : option string) (pre : string)
           (isAffected : Prop) : Prop :=
  match before with
  | Some v => after = Some v
  | None => after = None \/ (isAffected /\ after = Some pre)
  end.

(** What applying [r] may change in a record [x] that it targets. *)
Record framed (r : R.t) (x x' : T.t) : Prop := {
  fr_id : T.id x' = T.id x;
  fr_dateOfPayment : T.dateOfPayment x' = T.dateOfPayment x;
  fr_amountPaid : T.amountPaid x' = T.amountPaid x;
  fr_description : T.description x' = T.description x;
  fr_rowNum : T.rowNum x' = T.rowNum x;
  fr_paidTo :
    R.affectedField r <> Some Field.paidTo -> T.paidTo x' = T.paidTo x;
  fr_expenseType :
    R.affectedField r <> Some Field.expenseType ->
    T.expenseType x' = T.expenseType x;
  fr_expenseSubtype :
    R.affectedField r <> Some Field.expenseSubtype ->
    T.expenseSubtype x' = T.expenseSubtype x;
  fr_transactionType :
    R.affectedField r <> Some Field.transactionType ->
    T.transactionType x' = T.transactionType x;
  fr_originalValues :
    exists o',
      T.originalValues x' = Some o'
      /\ O.dateOfPayment o' = O.dateOfPayment (App.snapshot x)
      /\ O.amountPaid o' = O.amountPaid (App.snapshot x)
      /\ O.description o' = O.description (App.snapshot x)
      /\ O.rowNum o' = O.rowNum (App.snapshot x)
      /\ captured (O.paidTo (App.snapshot x)) (O.paidTo o') (T.paidTo x)
                  (R.affectedField r = Some Field.paidTo)
      /\ captured (O.expenseType (App.snapshot x)) (O.expenseType o')
                  (T.expenseType x)
                  (R.affectedField r = Some Field.expenseType)
      /\ captured (O.expenseSubtype (App.snapshot x)) (O.expenseSubtype o')
                  (T.expenseSubtype x)
                  (R.affectedField r = Some Field.expenseSubtype)
      /\ captured (O.transactionType (App.snapshot x)) (O.transactionType o')
                  (T.transactionType x)
                  (R.affectedField r = Some Field.transactionType)
}.

(** The recommendations an operation names. *)
Definition names (op : App.operation) (i : string) : bool :=
  match op with
  | App.Apply j | App.Ignore j => String.eqb i j
  | App.ApplyMultiple l | App.IgnoreMultiple l => JsString.mem i l
  end.

(** The status an operation writes. *)
Definition verdict (op : App.operation) : Status :=
  match op with
  | App.Apply _ | App.ApplyMultiple _ => applied
  | App.Ignore _ | App.IgnoreMultiple _ => ignored
  end.

(** The views offer an operation for pending recommendations only. *)
Definition offered (st : App.state) (op : App.operation) : Prop :=
  forall rec, In rec (App.recommendations st) ->
              names op (R.id rec) = true -> R.status rec = pending.

Fixpoint guarded (ops : list App.operation) (st : App.state) : Prop :=
  match ops with
  | [] => True
  | op :: rest => offered st op /\ guarded rest (App.step st op)
  end.

(** A state with one pending recommendation. *)
Definition onePending : App.state :=
  App.mkState
    [namedRecord "t1" "AMZN Mktp USA"]
    [R.mk "r1" MerchantNormalization ["t1"] (Some Field.paidTo)
          (Some (VString "AMZN Mktp USA")) "AMZN Mktp US"
          (Some (JsNumber.Finite 0.9)) "Normalize" pending].

(** No recommendation has more targets than its type allows. *)
Definition bounded (recs : list R.t) : Prop :=
  forall r, In r recs ->
            List.length (R.transactionIds r) <= arity (R.type r).

(** The recommendation lists of a session: the empty list, the output of a
    reconciliation pass on a list of the session, and a list of the session
    after a user operation. *)
Inductive reachable : list R.t -> Prop :=
| reach_empty : reachable []
| reach_pass txs uuid prev out :
    reachable prev ->
    RS.generateRecommendations txs uuid prev = Returns out ->
    reachable out
| reach_step st op :
    reachable (App.recommendations st) ->
    reachable (App.recommendations (App.step st op)).

(** An expense of the first of March. *)
Definition expense (id paidTo description : string) (isDeleted : bool) : T.t :=
  T.mk id "2024-03-01" paidTo 42.5 EmptyString EmptyString description
       EmptyString None
       (Flags.mk None (if isDeleted then Some true else None) None None None)
       None.

Definition sampleRecords : list T.t :=
  [ expense "a" "Starbucks" "coffee" false;
    expense "b" "Starbucks" "coffee" false;
    expense "c" "Shell Gas" "fuel" true ].

(** A previous list: a resolved suggestion for the record a, the pending pair
    (a, b), a pending suggestion for a record that was removed, and an
    ignored suggestion whose record was removed. *)
Definition samplePrevious : list R.t :=
  [ R.mk "r1" MissingField ["a"] (Some Field.expenseType)
         (Some (VString EmptyString)) "Food" (Some (JsNumber.Finite 0.8))
         "Suggest Food" applied;
    R.mk "r2" Duplicate ["a"; "b"] None
         (Some (VDuplicateFields "Starbucks" "coffee" "Starbucks" "coffee"))
         "Mark one for deletion or review." (Some (JsNumber.Finite 0.95))
         "Potential duplicate" pending;
    R.mk "r3" MissingField ["zz"] (Some Field.expenseType)
         (Some (VString EmptyString)) "Travel" (Some (JsNumber.Finite 0.65))
         "Suggest Travel" pending;
    R.mk "r4" MerchantNormalization ["gone"] (Some Field.paidTo)
         (Some (VString "Shel Gas")) "Shell Gas" (Some (JsNumber.Finite 0.9))
         "Normalize" ignored ].

Definition uuidSecond (n : nat) : string :=
  "second-" +++ JsString.ofN (N.of_nat n).

(** The output of the first pass on the sample. *)
Definition sampleOutput : list R.t :=
  Eval vm_compute in
    match RS.generateRecommendations sampleRecords uuidExample samplePrevious
    with
    | Returns out => out
    | _ => []
    end.

(** The pending pair as the first pass returns it. *)
Definition samplePair : R.t :=
  Eval vm_compute in nth 2 sampleOutput (R.mk EmptyString Duplicate [] None None
                                              EmptyString None EmptyString
                                              pending).

(** Two soft-deleted records of one group and the pending pair that
    references them. *)
Definition deletedPair : list T.t :=
  [ expense "a" "Starbucks" "coffee" true;
    expense "b" "Starbucks" "coffee" true ].

Definition pendingPair : list R.t :=
  [ R.mk "r2" Duplicate ["a"; "b"] None
         (Some (VDuplicateFields "Starbucks" "coffee" "Starbucks" "coffee"))
         "Mark one for deletion or review." (Some (JsNumber.Finite 0.95))
         "Potential duplicate" pending ].

(** The list is in ascending order. *)
Fixpoint ascending (l : list string) : Prop :=
  match l with
  | [] => True
  | x :: l' => (forall y, In y l' -> String.leb x y = true) /\ ascending l'
  end.

(** Two records at two places of the list, [t1] before [t2]. *)
Definition apart (txs : list T.t) (t1 t2 : T.t) : Prop :=
  exists before between after,
    txs = before ++ t1 :: between ++ t2 :: after.

(** What the detector guarantees of a recommendation it emits: a pair of
    undeleted records at two places of the list, of one group, with the
    content the source gives it. *)
Definition duplicate_ok (txs : list T.t) (r : R.t) : Prop :=
  exists t1 t2 q,
    apart txs t1 t2
    /\ T.deleted t1 = false /\ T.deleted t2 = false
    /\ DuplicateRule.groupKey t1 = DuplicateRule.groupKey t2
    /\ R.type r = Duplicate /\ R.status r = pending
    /\ R.transactionIds r = JsString.sort [T.id t1; T.id t2]
    /\ R.affectedField r = None
    /\ R.originalValue r
       = Some (VDuplicateFields (T.paidTo t1) (T.description t1)
                                (T.paidTo t2) (T.description t2))
    /\ R.suggestedValue r = "Mark one for deletion or review."
    /\ R.confidence r = Some (JsNumber.Finite q)
    /\ q = DuplicateRule.pairConfidence t1 t2
    /\ In q [0.75%Q; 0.9%Q; 0.95%Q].

(** Every group of the map holds undeleted records of the list whose key is
    the key of the group. *)
Definition keyed_groups (txs : list T.t) (m : JsMap.t (list T.t)) : Prop :=
  forall k g x, In (k, g) m -> In x g ->
                In x txs /\ T.deleted x = false /\ DuplicateRule.groupKey x = k.

(** Every group holds records of the part of the list read so far, and the
    pairs [(group[i], group[j])], [i < j], are records at two places of it,
    in that order. *)
Definition ordered_groups (read : list T.t) (m : JsMap.t (list T.t)) : Prop :=
  forall g, In g (JsMap.values m) ->
            (forall y, In y g -> In y read)
            /\ (forall a b, In (a, b) (DuplicateRule.pairsOf g) ->
                            apart read a b).

(** The set [processedPairs] covers the pairs reported so far, and no pair
    is reported twice. *)
Definition pairs_once (st : list R.t * list string) : Prop :=
  (forall r, In r (fst st) ->
             In (JsString.join "-" (R.transactionIds r)) (snd st))
  /\ NoDup (map R.transactionIds (fst st)).

(** A rule of the keyword table one of whose keywords occurs in the
    lower-cased name or description of the record. *)
Definition keywordMatch (ruleDef : KeywordRule.t) (x : T.t) : Prop :=
  In ruleDef KEYWORD_RULES
  /\ exists kw,
       In kw (KeywordRule.keywords ruleDef)
       /\ (JsString.includes (JsString.toLowerCase (T.paidTo x)) kw
           || JsString.includes (JsString.toLowerCase (T.description x)) kw)
          = true.

(** An undeleted record of the history with a non-empty name that is the
    name of [x] up to case. *)
Definition sameMerchant (history : list T.t) (x y : T.t) : Prop :=
  In y history /\ T.deleted y = false
  /\ T.paidTo y <> EmptyString
  /\ JsString.toLowerCase (T.paidTo y) = JsString.toLowerCase (T.paidTo x).

(** What the completer guarantees of a recommendation it emits. *)
Definition missing_ok (toProcess history : list T.t) (r : R.t) : Prop :=
  exists x,
    In x toProcess /\ T.deleted x = false
    /\ R.type r = MissingField /\ R.status r = pending
    /\ R.transactionIds r = [T.id x]
    /\ R.originalValue r = Some (VString EmptyString)
    /\ R.suggestedValue r <> EmptyString
    /\ ((R.affectedField r = Some Field.expenseType
         /\ T.expenseType x = EmptyString
         /\ ((R.confidence r = Some (JsNumber.Finite 0.65)
              /\ exists y, sameMerchant history x y
                           /\ T.expenseType y = R.suggestedValue r)
             \/ (R.confidence r = Some (JsNumber.Finite 0.8)
                 /\ exists ruleDef,
                      keywordMatch ruleDef x
                      /\ KeywordRule.type ruleDef = R.suggestedValue r)))
        \/ (R.affectedField r = Some Field.expenseSubtype
            /\ T.expenseType x <> EmptyString
            /\ T.expenseSubtype x = EmptyString
            /\ ((R.confidence r = Some (JsNumber.Finite 0.6)
                 /\ exists y, sameMerchant history x y
                              /\ T.expenseType y = T.expenseType x
                              /\ T.expenseSubtype y = R.suggestedValue r)
                \/ (R.confidence r = Some (JsNumber.Finite 0.75)
                    /\ exists ruleDef,
                         keywordMatch ruleDef x
                         /\ KeywordRule.type ruleDef = T.expenseType x
                         /\ KeywordRule.subtype ruleDef = R.suggestedValue r)))
        \/ (R.affectedField r = Some Field.transactionType
            /\ T.transactionType x = EmptyString
            /\ R.confidence r = Some (JsNumber.Finite 0.6)
            /\ exists y, sameMerchant history x y
                         /\ T.transactionType y = R.suggestedValue r)).

(** The record behind an entry of the frequency tables. *)
Definition seen (history : list T.t) (k : string) (P : T.t -> Prop) : Prop :=
  exists y, In y history /\ T.deleted y = false
            /\ T.paidTo y <> EmptyString
            /\ JsString.toLowerCase (T.paidTo y) = k /\ P y.

(** Every count of the three tables stands for a record of the history. *)
Definition learned (history : list T.t) (tb : MissingFieldRule.tables) : Prop :=
  (forall k inner ty n,
      In (k, inner) (MissingFieldRule.typeFrequency tb) -> In (ty, n) inner ->
      seen history k (fun y => T.expenseType y = ty))
  /\ (forall k byType ty inner sub n,
         In (k, byType) (MissingFieldRule.subtypeFrequency tb) ->
         In (ty, inner) byType -> In (sub, n) inner ->
         seen history k (fun y => T.expenseType y = ty
                                  /\ T.expenseSubtype y = sub))
  /\ (forall k inner ty n,
         In (k, inner) (MissingFieldRule.transactionTypeFrequency tb) ->
         In (ty, n) inner ->
         seen history k (fun y => T.transactionType y = ty)).

(** What the suggester guarantees of a recommendation it emits. *)
Definition classification_ok (toProcess history : list T.t) (r : R.t) : Prop :=
  exists x,
    In x toProcess /\ T.deleted x = false
    /\ R.type r = Classification /\ R.status r = pending
    /\ R.transactionIds r = [T.id x]
    /\ ((R.affectedField r = Some Field.expenseType
         /\ R.originalValue r = Some (VString EmptyString)
         /\ T.expenseType x = EmptyString
         /\ ((R.confidence r = Some (JsNumber.Finite 0.85)
              /\ exists ruleDef,
                   keywordMatch ruleDef x
                   /\ KeywordRule.type ruleDef = R.suggestedValue r)
             \/ (R.confidence r = Some (JsNumber.Finite 0.7)
                 /\ T.expenseSubtype x = EmptyString
                 /\ exists y, sameMerchant history x y
                              /\ T.expenseType y = R.suggestedValue r)))
        \/ (R.affectedField r = Some Field.expenseSubtype
            /\ R.originalValue r = Some (VString (T.expenseSubtype x))
            /\ ((R.confidence r = Some (JsNumber.Finite 0.80)
                 /\ T.expenseType x = EmptyString
                 /\ exists ruleDef,
                      keywordMatch ruleDef x
                      /\ KeywordRule.subtype ruleDef = R.suggestedValue r)
                \/ (R.confidence r = Some (JsNumber.Finite 0.75)
                    /\ T.expenseType x <> EmptyString
                    /\ T.expenseSubtype x = EmptyString
                    /\ exists ruleDef,
                         keywordMatch ruleDef x
                         /\ KeywordRule.type ruleDef = T.expenseType x
                         /\ KeywordRule.subtype ruleDef = R.suggestedValue r)
                \/ (R.confidence r = Some (JsNumber.Finite 0.65)
                    /\ T.expenseSubtype x = EmptyString
                    /\ exists y,
                         sameMerchant history x y
                         /\ T.expenseSubtype y = R.suggestedValue r
                         /\ (T.expenseType x = EmptyString
                             \/ T.expenseType y = T.expenseType x))))).

(** Every entry of the map stands for a record of the history. *)
Definition classified (history : list T.t)
           (m : JsObject.t (list ClassificationRule.entry)) : Prop :=
  forall k entries e,
    In (k, entries) m -> In e entries ->
    seen history k (fun y => T.expenseType y = ClassificationRule.type e
                             /\ T.expenseSubtype y
                                = ClassificationRule.subtype e).

Module RV := RecommendationsView.

(** The group stands for pending merchant normalizations of the list, all
    towards the name of the group, and is not empty. *)
Definition group_ok (visible : list R.t)
           (g : RV.GroupedMerchantNormalization) : Prop :=
  RV.recommendationIds g <> []
  /\ forall i, In i (RV.recommendationIds g) ->
               exists rec, In rec visible /\ R.id rec = i
                           /\ R.type rec = MerchantNormalization
                           /\ R.status rec = pending
                           /\ R.suggestedValue rec = RV.canonicalName g.

(** The recommendation is an individual one or is named by a group. *)
Definition placed (groups : list RV.GroupedMerchantNormalization)
           (individuals : list R.t) (rec : R.t) : Prop :=
  In rec individuals
  \/ exists g, In g groups /\ In (R.id rec) (RV.recommendationIds g).

(** Every value of the map is a non-empty name that the map sends to
    itself. *)
Definition fixedCanonicals (canonicalMap : JsObject.t string) : Prop :=
  forall k v, In (k, v) canonicalMap ->
              v <> EmptyString /\ JsMap.get canonicalMap v = Some v.

(** The recommendation renames the name [o] to what the map has for it. *)
Definition follows (canonicalMap : JsObject.t string) (r : R.t) : Prop :=
  exists o, R.originalValue r = Some (VString o)
            /\ JsMap.get canonicalMap o = Some (R.suggestedValue r)
            /\ R.suggestedValue r <> o.

(** The characters of a string, the last one first. *)
Fixpoint reversed (acc : list ascii) (s : string) : list ascii :=
  match s with
  | EmptyString => acc
  | String c s' => reversed (c :: acc) s'
  end.

(** The edit distance of two texts given with their last character first,
    by its recurrence: to reach the empty text every character is deleted;
    otherwise the last character of one text is deleted (one step), or the
    last character of the other is inserted (one step), or the two last
    characters are matched (no step when they are equal, one step to replace
    one by the other). *)
Fixpoint editDistance (a : list ascii) : list ascii -> nat :=
  match a with
  | [] => fun b => List.length b
  | c :: a' =>
      fix toward (b : list ascii) : nat :=
        match b with
        | [] => S (List.length a')
        | d :: b' =>
            JsNumber.min3 (editDistance a' b + 1) (toward b' + 1)
                          (editDistance a' b' + if Ascii.eqb c d then 0 else 1)
        end
  end.

(** The prefixes of [s] after [acc], each with its last character first. *)
Fixpoint prefixes (acc : list ascii) (s : string) : list (list ascii) :=
  acc :: match s with
         | EmptyString => []
         | String d s' => prefixes (d :: acc) s'
         end.

(** The recommendation renames a name to a canonical whose similarity score
    with it is at least 0.8, and its confidence is at least 0.87 and at most
    0.95.  (0.6 + 0.35 * 0.8 is 0.88; the bound leaves 0.01 for the rounding
    of the source, which computes the sum in doubles where the model computes
    it in rationals.) *)
Definition confident (r : R.t) : Prop :=
  exists o s q,
    R.originalValue r = Some (VString o)
    /\ MerchantRule.similarityScore o (R.suggestedValue r) = JsNumber.Finite s
    /\ (0.8 <= s)%Q /\ (s <= 1)%Q
    /\ R.confidence r = Some (JsNumber.Finite q)
    /\ (0.87 <= q)%Q /\ (q <= 0.95)%Q.

(** The output of a pass over the two soft-deleted records with the sample
    previous list. *)
Definition deletedOutput : list R.t :=
  Eval vm_compute in
    match RS.generateRecommendations deletedPair uuidExample samplePrevious
    with
    | Returns out => out
    | _ => []
    end.

(** What each rule module returns on the sample records. *)
Definition duplicateSample : list R.t :=
  Eval vm_compute in
    match DuplicateRule.findDuplicateRecommendations uuidExample sampleRecords
    with
    | Returns out => out
    | _ => []
    end.

Definition classificationSample : list R.t :=
  Eval vm_compute in
    match ClassificationRule.suggestClassificationRecommendations
            uuidExample sampleRecords sampleRecords
    with
    | Returns out => out
    | _ => []
    end.

Definition merchantSample : list R.t :=
  Eval vm_compute in
    match MerchantRule.normalizeMerchantRecommendations
            uuidExample (merchantExample "AMZN Mktp US" "AMZN Mktp USA")
    with
    | Returns out => out
    | _ => []
    end.

(** The groups and the individual recommendations of the view for the state
    with one pending recommendation, under the filters the view starts with. *)
Definition viewSample : list RV.GroupedMerchantNormalization * list R.t :=
  Eval vm_compute in
    match RV.groupRecommendations (App.recommendations onePending)
                                  RV.AllTypes (RV.OnlyStatus pending)
    with
    | Returns p => p
    | _ => ([], [])
    end.

(** Two records of one group under ids of the shape of a UUID, with the
    pending pair of the detector. *)
Definition uuidPair : App.state :=
  App.mkState
    (exactPair "Starbucks" "coffee"
               "11111111-1111-4111-8111-111111111111"
               "22222222-2222-4222-8222-222222222222")
    [R.mk "r1" Duplicate
          ["11111111-1111-4111-8111-111111111111";
           "22222222-2222-4222-8222-222222222222"] None
          (Some (VDuplicateFields "Starbucks" "coffee" "Starbucks" "coffee"))
          "Mark one for deletion or review." (Some (JsNumber.Finite 0.95))
          "Potential duplicate" pending].

(* ------------------------------------------------------------------------- *)
(** * Basic facts about the primitives *)
(* ------------------------------------------------------------------------- *)

Lemma mem_In (x : string) (l : list string) :
  JsString.mem x l = true <-> In x l.
Proof.
  unfold JsString.mem. rewrite existsb_exists. split.
  - intros [y [Hy He]]. apply String.eqb_eq in He. now subst.
  - intros H. exists x. split; [assumption | apply String.eqb_refl].
Qed.

Lemma mem_false (x : string) (l : list string) :
  JsString.mem x l = false <-> ~ In x l.
Proof.
  rewrite <- mem_In. destruct (JsString.mem x l); split; congruence.
Qed.

Lemma Status_eqb_eq (a b : Status) : Status_eqb a b = true <-> a = b.
Proof. destruct a, b; simpl; split; congruence. Qed.

Lemma RecommendationType_eqb_eq (a b : RecommendationType) :
  RecommendationType_eqb a b = true <-> a = b.
Proof. destruct a, b; simpl; split; congruence. Qed.

Lemma Field_eqb_eq (a b : Field.t) : Field_eqb a b = true <-> a = b.
Proof. destruct a, b; simpl; split; congruence. Qed.

Lemma Value_eqb_eq (a b : Value) : Value_eqb a b = true <-> a = b.
Proof.
  destruct a, b; simpl; try (split; congruence).
  - rewrite String.eqb_eq. split; congruence.
  - rewrite !andb_true_iff, !String.eqb_eq. split.
    + intros [[[-> ->] ->] ->]. reflexivity.
    + intros H. injection H as -> -> -> ->. auto.
Qed.

Lemma option_eqb_eq {A} (eqb : A -> A -> bool) :
  (forall x y, eqb x y = true <-> x = y) ->
  forall a b, option_eqb eqb a b = true <-> a = b.
Proof.
  intros H [x|] [y|]; simpl; try (split; congruence).
  rewrite H. split; congruence.
Qed.

Lemma list_eqb_eq {A} (eqb : A -> A -> bool) :
  (forall x y, eqb x y = true <-> x = y) ->
  forall a b, list_eqb eqb a b = true <-> a = b.
Proof.
  intros H a. induction a as [|x a IH]; intros [|y b]; simpl;
    try (split; congruence).
  rewrite andb_true_iff, H, IH. split.
  - intros [-> ->]. reflexivity.
  - intros E. injection E as -> ->. auto.
Qed.

Lemma sameKey_eq (a b : RS.RecommendationIdentity) :
  RS.sameKey a b = true <-> a = b.
Proof.
  unfold RS.sameKey. rewrite !andb_true_iff, RecommendationType_eqb_eq.
  rewrite (list_eqb_eq _ String.eqb_eq).
  rewrite (option_eqb_eq _ Field_eqb_eq), (option_eqb_eq _ Value_eqb_eq).
  destruct a, b; simpl. split.
  - intros [[[-> ->] ->] ->]. reflexivity.
  - intros E. injection E as -> -> -> ->. auto.
Qed.

Lemma sameKey_refl (a : RS.RecommendationIdentity) : RS.sameKey a a = true.
Proof. now apply sameKey_eq. Qed.

Lemma hasKey_In (s : list RS.RecommendationIdentity) k :
  RS.hasKey s k = true <-> In k s.
Proof.
  unfold RS.hasKey. rewrite existsb_exists. split.
  - intros [y [Hy He]]. apply sameKey_eq in He. now subst.
  - intros H. exists k. split; [assumption | apply sameKey_refl].
Qed.

Lemma addKey_In (s : list RS.RecommendationIdentity) k k' :
  In k' (RS.addKey s k) <-> In k' s \/ k' = k.
Proof.
  unfold RS.addKey. destruct (RS.hasKey s k) eqn:E.
  - apply hasKey_In in E. split; [auto | intros [H | ->]; assumption].
  - rewrite in_app_iff. simpl. intuition.
Qed.

Lemma insertSorted_perm (x : string) (l : list string) :
  Permutation (JsString.insertSorted x l) (x :: l).
Proof.
  induction l as [|y l IH]; simpl; [reflexivity|].
  destruct (String.leb x y); [reflexivity|].
  rewrite IH. apply perm_swap.
Qed.

Lemma sort_perm (l : list string) : Permutation (JsString.sort l) l.
Proof.
  induction l as [|x l IH]; simpl; [reflexivity|].
  rewrite insertSorted_perm. now constructor.
Qed.

Lemma sort_In (l : list string) x : In x (JsString.sort l) <-> In x l.
Proof.
  split; apply Permutation_in; [apply sort_perm | symmetry; apply sort_perm].
Qed.

Lemma sort_length (l : list string) :
  List.length (JsString.sort l) = List.length l.
Proof. apply Permutation_length, sort_perm. Qed.

(** [JsMap]: what a lookup after updates returns, and where values come from. *)
Lemma JsMap_get_set_same {V} (m : JsMap.t V) k v :
  JsMap.get (JsMap.set m k v) k = Some v.
Proof.
  induction m as [|[k' v'] m IH]; simpl.
  - now rewrite String.eqb_refl.
  - destruct (String.eqb k' k) eqn:E; simpl; rewrite E; [reflexivity | exact IH].
Qed.

Lemma JsMap_get_set_other {V} (m : JsMap.t V) k k' v :
  k' <> k -> JsMap.get (JsMap.set m k v) k' = JsMap.get m k'.
Proof.
  intros Hne. induction m as [|[k0 v0] m IH]; simpl.
  - destruct (String.eqb k k') eqn:E; [apply String.eqb_eq in E; congruence | reflexivity].
  - destruct (String.eqb k0 k) eqn:E; simpl.
    + apply String.eqb_eq in E. subst k0.
      destruct (String.eqb k k') eqn:E'; [apply String.eqb_eq in E'; congruence | reflexivity].
    + destruct (String.eqb k0 k'); [reflexivity | exact IH].
Qed.

Lemma JsMap_get_In {V} (m : JsMap.t V) k v :
  JsMap.get m k = Some v -> In (k, v) m.
Proof.
  induction m as [|[k' v'] m IH]; simpl; [discriminate|].
  destruct (String.eqb k' k) eqn:E.
  - apply String.eqb_eq in E. intros H. injection H as ->. subst. now left.
  - intros H. right. auto.
Qed.

Lemma JsMap_set_In {V} (m : JsMap.t V) k v k' v' :
  In (k', v') (JsMap.set m k v) -> (k' = k /\ v' = v) \/ In (k', v') m.
Proof.
  induction m as [|[k0 v0] m IH]; simpl.
  - intros [H | []]. injection H as <- <-. now left.
  - destruct (String.eqb k0 k) eqn:E; simpl.
    + apply String.eqb_eq in E. subst k0.
      intros [H | H]; [injection H as <- <-; now left | right; now right].
    + intros [H | H]; [right; now left|].
      destruct (IH H) as [H' | H']; [now left | right; now right].
Qed.

Lemma JsMap_values_set_In {V} (m : JsMap.t V) k v v' :
  In v' (JsMap.values (JsMap.set m k v)) -> v' = v \/ In v' (JsMap.values m).
Proof.
  unfold JsMap.values. rewrite !in_map_iff.
  intros [[k0 v0] [E H]]. simpl in E. subst v0.
  destruct (JsMap_set_In _ _ _ _ _ H) as [[_ ->] | H']; [now left|].
  right. now exists (k0, v').
Qed.

(** Folds that keep an invariant. *)
Lemma fold_left_inv {A S} (P : S -> Prop) (body : S -> A -> S) (l : list A) :
  (forall s x, In x l -> P s -> P (body s x)) ->
  forall s, P s -> P (fold_left body l s).
Proof.
  induction l as [|x l IH]; simpl; intros H s Hs; [assumption|].
  apply IH; auto.
Qed.

Lemma foldM_inv {A S} (P : S -> Prop) (body : S -> A -> outcome S)
      (l : list A) :
  (forall s x s', In x l -> P s -> body s x = Returns s' -> P s') ->
  forall s s', P s -> foldM body l s = Returns s' -> P s'.
Proof.
  induction l as [|x l IH]; simpl; intros H s s' Hs E.
  - injection E as <-. assumption.
  - destruct (body s x) as [s1| |] eqn:Eb; simpl in E; try discriminate.
    apply (IH (fun s0 x0 s0' Hin => H s0 x0 s0' (or_intror Hin)) s1 s');
      [apply (H s x s1 (or_introl eq_refl) Hs Eb) | exact E].
Qed.

Lemma fold_left_rel {A S1 S2} (Rel : S1 -> S2 -> Prop)
      (body1 : S1 -> A -> S1) (body2 : S2 -> A -> S2) (l : list A) :
  (forall s1 s2 x, Rel s1 s2 -> Rel (body1 s1 x) (body2 s2 x)) ->
  forall s1 s2, Rel s1 s2 -> Rel (fold_left body1 l s1) (fold_left body2 l s2).
Proof.
  intros H. induction l as [|x l IH]; simpl; intros s1 s2 Hs; auto.
Qed.

Lemma foldM_rel {A S1 S2} (Rel : S1 -> S2 -> Prop)
      (body1 : S1 -> A -> outcome S1) (body2 : S2 -> A -> outcome S2)
      (l : list A) :
  (forall s1 s2 x, Rel s1 s2 -> rel_out Rel (body1 s1 x) (body2 s2 x)) ->
  forall s1 s2, Rel s1 s2 ->
                rel_out Rel (foldM body1 l s1) (foldM body2 l s2).
Proof.
  intros H. induction l as [|x l IH]; simpl; intros s1 s2 Hs; [exact Hs|].
  specialize (H s1 s2 x Hs).
  destruct (body1 s1 x), (body2 s2 x); simpl in *; auto; contradiction.
Qed.

(* ------------------------------------------------------------------------- *)
(** * What the rule modules emit *)
(* ------------------------------------------------------------------------- *)

Lemma emitted_nil uuid processed : emitted uuid processed [].
Proof. split; [reflexivity | constructor]. Qed.

Lemma emitted_snoc uuid processed s r :
  emitted uuid processed s ->
  R.id r = uuid (List.length s) ->
  candidate_ok processed r ->
  emitted uuid processed (s ++ [r]).
Proof.
  intros [Hn Hf] Hid Hok. split.
  - unfold numbered in *. rewrite map_app, length_app. simpl.
    rewrite seq_app, map_app, Hn. simpl. now rewrite Hid.
  - apply Forall_app. split; [assumption | now constructor].
Qed.

Lemma same_content_length s1 s2 :
  same_content s1 s2 -> List.length s1 = List.length s2.
Proof.
  unfold same_content. intros H.
  rewrite <- (length_map erase s1), <- (length_map erase s2). now rewrite H.
Qed.

Lemma same_content_snoc s1 s2 r1 r2 :
  same_content s1 s2 -> erase r1 = erase r2 ->
  same_content (s1 ++ [r1]) (s2 ++ [r2]).
Proof.
  unfold same_content. intros H E. rewrite !map_app. simpl. now rewrite H, E.
Qed.

Lemma same_content_refl s : same_content s s.
Proof. reflexivity. Qed.

Lemma single_target processed (x : T.t) (r : R.t) :
  In x processed -> T.deleted x = false ->
  R.status r = pending -> R.transactionIds r = [T.id x] ->
  R.type r <> Duplicate ->
  candidate_ok processed r.
Proof.
  intros Hin Hd Hs Ht Hty. split; [assumption | |].
  - rewrite Ht. intros i [<- | []]. now exists x.
  - rewrite Ht. destruct (R.type r); simpl; congruence.
Qed.

(** ** Duplicate-pair detector *)

Lemma pairsOf_In (group : list T.t) a b :
  In (a, b) (DuplicateRule.pairsOf group) -> In a group /\ In b group.
Proof.
  induction group as [|x g IH]; simpl; [intros []|].
  rewrite in_app_iff, in_map_iff. intros [[y [E Hy]] | H].
  - injection E as <- <-. auto.
  - destruct (IH H). auto.
Qed.

Lemma addToGroup_returns m x :
  exists m', DuplicateRule.addToGroup m x = Returns m'.
Proof.
  unfold DuplicateRule.addToGroup. destruct (T.deleted x); [eauto|].
  destruct (negb (JsMap.has m (DuplicateRule.groupKey x))) eqn:E.
  - rewrite JsMap_get_set_same. eauto.
  - unfold JsMap.has in E.
    destruct (JsMap.get m (DuplicateRule.groupKey x)); [eauto | discriminate].
Qed.

Lemma grouping_returns (transactions : list T.t) m :
  exists m', foldM DuplicateRule.addToGroup transactions m = Returns m'.
Proof.
  revert m. induction transactions as [|x l IH]; simpl; intros m; [eauto|].
  destruct (addToGroup_returns m x) as [m1 ->]. simpl. apply IH.
Qed.

Lemma addToGroup_groups transactions m x m' :
  In x transactions -> groups_from transactions m ->
  DuplicateRule.addToGroup m x = Returns m' -> groups_from transactions m'.
Proof.
  unfold DuplicateRule.addToGroup. intros Hx Hm.
  destruct (T.deleted x) eqn:Hd; [intros E; injection E as <-; assumption|].
  set (key := DuplicateRule.groupKey x).
  set (m1 := if negb (JsMap.has m key) then JsMap.set m key [] else m).
  assert (H1 : groups_from transactions m1).
  { subst m1. destruct (negb (JsMap.has m key)); [|assumption].
    intros g y Hg Hy. destruct (JsMap_values_set_In _ _ _ _ Hg) as [-> | Hg'].
    - destruct Hy.
    - eapply Hm; eauto. }
  destruct (JsMap.get m1 key) as [group|] eqn:Eg; [|discriminate].
  intros E. injection E as <-. intros g y Hg Hy.
  destruct (JsMap_values_set_In _ _ _ _ Hg) as [-> | Hg'].
  - apply in_app_iff in Hy. destruct Hy as [Hy | [<- | []]]; [|auto].
    apply (H1 group y); [|assumption].
    unfold JsMap.values. apply in_map_iff. exists (key, group).
    split; [reflexivity | now apply JsMap_get_In].
  - eapply H1; eauto.
Qed.

Lemma grouping_groups (transactions : list T.t) m :
  foldM DuplicateRule.addToGroup transactions [] = Returns m ->
  groups_from transactions m.
Proof.
  apply (foldM_inv (groups_from transactions)).
  - intros s x s' Hx Hs E. eapply addToGroup_groups; eauto.
  - intros g x [].
Qed.

Lemma examinePair_emitted uuid transactions st t1 t2 :
  In t1 transactions -> T.deleted t1 = false ->
  In t2 transactions -> T.deleted t2 = false ->
  emitted uuid transactions (fst st) ->
  emitted uuid transactions (fst (DuplicateRule.examinePair uuid st (t1, t2))).
Proof.
  intros H1 D1 H2 D2 He. destruct st as [recs pairs]. simpl in *.
  destruct (JsString.mem _ pairs); [exact He|].
  destruct (Qle_bool _ _); [|exact He]. simpl.
  apply emitted_snoc; [assumption | reflexivity |].
  split; simpl; [reflexivity | | apply (sort_length [T.id t1; T.id t2])].
  intros i Hi. apply (sort_In [T.id t1; T.id t2]) in Hi.
  destruct Hi as [<- | [<- | []]]; eauto.
Qed.

Lemma findDuplicate_emitted uuid transactions s :
  DuplicateRule.findDuplicateRecommendations uuid transactions = Returns s ->
  emitted uuid transactions s.
Proof.
  unfold DuplicateRule.findDuplicateRecommendations.
  destruct (foldM DuplicateRule.addToGroup transactions []) as [m| |] eqn:Em;
    simpl; try discriminate.
  intros E. injection E as <-.
  pose proof (grouping_groups _ _ Em) as Hg.
  apply (fold_left_inv (fun st => emitted uuid transactions (fst st)));
    [|apply emitted_nil].
  intros st group Hin Hst. unfold DuplicateRule.examineGroup.
  destruct (1 <? List.length group); [|assumption].
  apply (fold_left_inv (fun st => emitted uuid transactions (fst st)));
    [|assumption].
  intros st' [a b] Hp Hst'. apply pairsOf_In in Hp. destruct Hp as [Ha Hb].
  destruct (Hg group a Hin Ha), (Hg group b Hin Hb).
  now apply examinePair_emitted.
Qed.

Lemma findDuplicate_content uuid uuid' transactions :
  rel_out same_content
          (DuplicateRule.findDuplicateRecommendations uuid transactions)
          (DuplicateRule.findDuplicateRecommendations uuid' transactions).
Proof.
  unfold DuplicateRule.findDuplicateRecommendations.
  destruct (foldM DuplicateRule.addToGroup transactions []) as [m| |];
    simpl; try exact I.
  set (Rel := fun st1 st2 : list R.t * list string =>
                same_content (fst st1) (fst st2) /\ snd st1 = snd st2).
  assert (H : Rel (fold_left (DuplicateRule.examineGroup uuid)
                             (JsMap.values m) ([], []))
                  (fold_left (DuplicateRule.examineGroup uuid')
                             (JsMap.values m) ([], []))).
  { apply fold_left_rel; [|split; reflexivity].
    intros st1 st2 group Hst. unfold DuplicateRule.examineGroup.
    destruct (1 <? List.length group); [|assumption].
    apply fold_left_rel; [|assumption].
    clear. intros [s1 p1] [s2 p2] [t1 t2] [Hc Hp]. simpl in *. subst p2.
    destruct (JsString.mem _ p1); [split; auto|].
    destruct (Qle_bool _ _); [|split; auto].
    split; simpl; [|reflexivity].
    apply same_content_snoc; [assumption | reflexivity]. }
  exact (proj1 H).
Qed.

(** ** Merchant-name normalizer *)

Lemma suggest_emitted uuid transactions canonicalMap s x s' :
  In x transactions -> emitted uuid transactions s ->
  MerchantRule.suggest uuid canonicalMap s x = Returns s' ->
  emitted uuid transactions s'.
Proof.
  intros Hx Hs. unfold MerchantRule.suggest.
  destruct (T.deleted x) eqn:Hd; [intros E; injection E as <-; assumption|].
  destruct (negb (JsString.truthy (JsString.trim (T.paidTo x))));
    [intros E; injection E as <-; assumption|].
  destruct (JsObject.get canonicalMap (JsString.trim (T.paidTo x)))
    as [c|h|]; [| discriminate | intros E; injection E as <-; assumption].
  destruct (JsString.truthy c && negb (String.eqb c (JsString.trim (T.paidTo x))));
    intros E; injection E as <-; [|assumption].
  apply emitted_snoc; [assumption | reflexivity |].
  apply (single_target transactions x); simpl; auto; discriminate.
Qed.

Lemma normalizeMerchant_emitted uuid transactions s :
  MerchantRule.normalizeMerchantRecommendations uuid transactions = Returns s ->
  emitted uuid transactions s.
Proof.
  unfold MerchantRule.normalizeMerchantRecommendations.
  destruct (fold_left MerchantRule.countMerchant transactions ([], []))
    as [merchantCounts uniqueMerchants].
  apply (foldM_inv (emitted uuid transactions)); [|apply emitted_nil].
  intros s0 x s1 Hx Hs E. eapply suggest_emitted; eauto.
Qed.

Lemma normalizeMerchant_content uuid uuid' transactions :
  rel_out same_content
          (MerchantRule.normalizeMerchantRecommendations uuid transactions)
          (MerchantRule.normalizeMerchantRecommendations uuid' transactions).
Proof.
  unfold MerchantRule.normalizeMerchantRecommendations.
  destruct (fold_left MerchantRule.countMerchant transactions ([], []))
    as [merchantCounts uniqueMerchants].
  apply foldM_rel; [|reflexivity].
  intros s1 s2 x Hs. unfold MerchantRule.suggest.
  destruct (T.deleted x); [exact Hs|].
  destruct (negb (JsString.truthy (JsString.trim (T.paidTo x)))); [exact Hs|].
  destruct (JsObject.get _ (JsString.trim (T.paidTo x))) as [c|h|];
    [| exact I | exact Hs].
  destruct (JsString.truthy c && negb (String.eqb c (JsString.trim (T.paidTo x))));
    [|exact Hs].
  simpl. apply same_content_snoc; [assumption | reflexivity].
Qed.

(** ** Missing-field completer *)

Lemma missing_push_emitted uuid transactions s x field o v c text :
  In x transactions -> T.deleted x = false ->
  emitted uuid transactions s ->
  emitted uuid transactions (MissingFieldRule.push uuid s x field o v c text).
Proof.
  intros Hx Hd Hs. unfold MissingFieldRule.push.
  apply emitted_snoc; [assumption | reflexivity |].
  apply (single_target transactions x); simpl; auto; discriminate.
Qed.

Lemma missing_push_content uuid uuid' s1 s2 x field o v c text :
  same_content s1 s2 ->
  same_content (MissingFieldRule.push uuid s1 x field o v c text)
               (MissingFieldRule.push uuid' s2 x field o v c text).
Proof.
  intros H. unfold MissingFieldRule.push.
  apply same_content_snoc; [assumption | reflexivity].
Qed.

Lemma complete_emitted uuid transactions tb s x s' :
  In x transactions -> emitted uuid transactions s ->
  MissingFieldRule.complete uuid tb s x = Returns s' ->
  emitted uuid transactions s'.
Proof.
  intros Hx Hs. unfold MissingFieldRule.complete.
  destruct (T.deleted x) eqn:Hd; [intros E; injection E as <-; assumption|].
  set (k := JsString.toLowerCase (T.paidTo x)).
  set (d := JsString.toLowerCase (T.description x)).
  destruct (MissingFieldRule.suggestType uuid tb s x k d) as [r1| |] eqn:E1;
    simpl; try discriminate.
  destruct (MissingFieldRule.suggestSubtype uuid tb r1 x k d) as [r2| |] eqn:E2;
    simpl; try discriminate.
  intros E3.
  assert (H1 : emitted uuid transactions r1).
  { revert E1. unfold MissingFieldRule.suggestType.
    destruct (negb (JsString.truthy (T.expenseType x)));
      [|intros E; injection E as <-; assumption].
    destruct (MissingFieldRule.historical _ k) as [h| |]; simpl; try discriminate.
    destruct (MissingFieldRule.resolve h _) as [[sg|] rule];
      [|intros E; injection E as <-; assumption].
    destruct (JsString.truthy sg); intros E; injection E as <-;
      [now apply missing_push_emitted | assumption]. }
  assert (H2 : emitted uuid transactions r2).
  { revert E2. unfold MissingFieldRule.suggestSubtype.
    destruct (JsString.truthy (T.expenseType x)
              && negb (JsString.truthy (T.expenseSubtype x)));
      [|intros E; injection E as <-; assumption].
    destruct (MissingFieldRule.historicalSubtype _ k _) as [h| |]; simpl;
      try discriminate.
    destruct (MissingFieldRule.resolve h _) as [[sg|] rule];
      [|intros E; injection E as <-; assumption].
    destruct (JsString.truthy sg); intros E; injection E as <-;
      [now apply missing_push_emitted | assumption]. }
  revert E3. unfold MissingFieldRule.suggestTransactionType.
  destruct (negb (JsString.truthy (T.transactionType x)));
    [|intros E; injection E as <-; assumption].
  destruct (MissingFieldRule.historical _ k) as [[sg|]| |]; simpl;
    try discriminate; [|intros E; injection E as <-; assumption].
  destruct (JsString.truthy sg); intros E; injection E as <-;
    [now apply missing_push_emitted | assumption].
Qed.

Lemma suggestMissingField_emitted uuid toProcess allTransactions s :
  MissingFieldRule.suggestMissingFieldRecommendations
    uuid toProcess allTransactions = Returns s ->
  emitted uuid toProcess s.
Proof.
  unfold MissingFieldRule.suggestMissingFieldRecommendations.
  destruct (foldM MissingFieldRule.learn allTransactions _) as [tb| |];
    simpl; try discriminate.
  apply (foldM_inv (emitted uuid toProcess)); [|apply emitted_nil].
  intros s0 x s1 Hx Hs E. eapply complete_emitted; eauto.
Qed.

Lemma complete_content uuid uuid' tb s1 s2 x :
  same_content s1 s2 ->
  rel_out same_content (MissingFieldRule.complete uuid tb s1 x)
                       (MissingFieldRule.complete uuid' tb s2 x).
Proof.
  intros Hs. unfold MissingFieldRule.complete.
  destruct (T.deleted x); [exact Hs|].
  set (k := JsString.toLowerCase (T.paidTo x)).
  set (d := JsString.toLowerCase (T.description x)).
  assert (H1 : rel_out same_content
                 (MissingFieldRule.suggestType uuid tb s1 x k d)
                 (MissingFieldRule.suggestType uuid' tb s2 x k d)).
  { unfold MissingFieldRule.suggestType.
    destruct (negb (JsString.truthy (T.expenseType x))); [|exact Hs].
    destruct (MissingFieldRule.historical _ k) as [h| |]; simpl; try exact I.
    destruct (MissingFieldRule.resolve h _) as [[sg|] rule]; [|exact Hs].
    destruct (JsString.truthy sg); [|exact Hs].
    now apply missing_push_content. }
  destruct (MissingFieldRule.suggestType uuid tb s1 x k d) as [a1| |],
           (MissingFieldRule.suggestType uuid' tb s2 x k d) as [a2| |];
    simpl in *; try contradiction; try exact I.
  assert (H2 : rel_out same_content
                 (MissingFieldRule.suggestSubtype uuid tb a1 x k d)
                 (MissingFieldRule.suggestSubtype uuid' tb a2 x k d)).
  { unfold MissingFieldRule.suggestSubtype.
    destruct (JsString.truthy (T.expenseType x)
              && negb (JsString.truthy (T.expenseSubtype x))); [|exact H1].
    destruct (MissingFieldRule.historicalSubtype _ k _) as [h| |]; simpl;
      try exact I.
    destruct (MissingFieldRule.resolve h _) as [[sg|] rule]; [|exact H1].
    destruct (JsString.truthy sg); [|exact H1].
    now apply missing_push_content. }
  destruct (MissingFieldRule.suggestSubtype uuid tb a1 x k d) as [b1| |],
           (MissingFieldRule.suggestSubtype uuid' tb a2 x k d) as [b2| |];
    simpl in *; try contradiction; try exact I.
  unfold MissingFieldRule.suggestTransactionType.
  destruct (negb (JsString.truthy (T.transactionType x))); [|exact H2].
  destruct (MissingFieldRule.historical _ k) as [[sg|]| |]; simpl;
    try exact I; [|exact H2].
  destruct (JsString.truthy sg); [|exact H2].
  now apply missing_push_content.
Qed.

Lemma suggestMissingField_content uuid uuid' toProcess allTransactions :
  rel_out same_content
    (MissingFieldRule.suggestMissingFieldRecommendations
       uuid toProcess allTransactions)
    (MissingFieldRule.suggestMissingFieldRecommendations
       uuid' toProcess allTransactions).
Proof.
  unfold MissingFieldRule.suggestMissingFieldRecommendations.
  destruct (foldM MissingFieldRule.learn allTransactions _) as [tb| |];
    simpl; try exact I.
  apply foldM_rel; [|reflexivity].
  intros s1 s2 x Hs. now apply complete_content.
Qed.

(** ** Classification suggester *)

Lemma classification_push_emitted uuid transactions s x field o v c text :
  In x transactions -> T.deleted x = false ->
  emitted uuid transactions s ->
  emitted uuid transactions (ClassificationRule.push uuid s x field o v c text).
Proof.
  intros Hx Hd Hs. unfold ClassificationRule.push.
  apply emitted_snoc; [assumption | reflexivity |].
  apply (single_target transactions x); simpl; auto; discriminate.
Qed.

Lemma classification_push_content uuid uuid' s1 s2 x field o v c text :
  same_content s1 s2 ->
  same_content (ClassificationRule.push uuid s1 x field o v c text)
               (ClassificationRule.push uuid' s2 x field o v c text).
Proof.
  intros H. unfold ClassificationRule.push.
  apply same_content_snoc; [assumption | reflexivity].
Qed.

Lemma fromKeywords_emitted uuid transactions s x k d :
  In x transactions -> T.deleted x = false ->
  emitted uuid transactions s ->
  emitted uuid transactions (ClassificationRule.fromKeywords uuid s x k d).
Proof.
  intros Hx Hd Hs. unfold ClassificationRule.fromKeywords.
  destruct (ClassificationRule.keywordSuggestion _ k d) as [[[kt ks] kw]|];
    [|assumption].
  destruct (_ || _); [|assumption].
  destruct (negb (JsString.truthy (T.expenseType x))).
  - now repeat apply classification_push_emitted.
  - destruct (_ && _); [now apply classification_push_emitted | assumption].
Qed.

Lemma fromKeywords_content uuid uuid' s1 s2 x k d :
  same_content s1 s2 ->
  same_content (ClassificationRule.fromKeywords uuid s1 x k d)
               (ClassificationRule.fromKeywords uuid' s2 x k d).
Proof.
  intros Hs. unfold ClassificationRule.fromKeywords.
  destruct (ClassificationRule.keywordSuggestion _ k d) as [[[kt ks] kw]|];
    [|assumption].
  destruct (_ || _); [|assumption].
  destruct (negb (JsString.truthy (T.expenseType x))).
  - now repeat apply classification_push_content.
  - destruct (_ && _); [now apply classification_push_content | assumption].
Qed.

Lemma fromTop_emitted uuid transactions s x top :
  In x transactions -> T.deleted x = false ->
  emitted uuid transactions s ->
  emitted uuid transactions (ClassificationRule.fromTop uuid s x top).
Proof.
  intros Hx Hd Hs. unfold ClassificationRule.fromTop.
  destruct (_ && _).
  - now repeat apply classification_push_emitted.
  - destruct (_ && _); [now apply classification_push_emitted | assumption].
Qed.

Lemma fromTop_content uuid uuid' s1 s2 x top :
  same_content s1 s2 ->
  same_content (ClassificationRule.fromTop uuid s1 x top)
               (ClassificationRule.fromTop uuid' s2 x top).
Proof.
  intros Hs. unfold ClassificationRule.fromTop.
  destruct (_ && _).
  - now repeat apply classification_push_content.
  - destruct (_ && _); [now apply classification_push_content | assumption].
Qed.

Lemma classify_emitted uuid transactions m s x s' :
  In x transactions -> emitted uuid transactions s ->
  ClassificationRule.classify uuid m s x = Returns s' ->
  emitted uuid transactions s'.
Proof.
  intros Hx Hs. unfold ClassificationRule.classify.
  destruct (T.deleted x) eqn:Hd; [intros E; injection E as <-; assumption|].
  set (k := JsString.toLowerCase (T.paidTo x)).
  set (d := JsString.toLowerCase (T.description x)).
  pose proof (fromKeywords_emitted uuid transactions s x k d Hx Hd Hs) as H1.
  unfold ClassificationRule.fromHistory.
  destruct (JsString.truthy k); [|intros E; injection E as <-; assumption].
  destruct (JsObject.get m k) as [[|top rest]|[| |]|]; try discriminate;
    try (intros E; injection E as <-; assumption).
  - intros E; injection E as <-. now apply fromTop_emitted.
  - destruct (negb _); [discriminate | intros E; injection E as <-; assumption].
Qed.

Lemma suggestClassification_emitted uuid toProcess allTransactions s :
  ClassificationRule.suggestClassificationRecommendations
    uuid toProcess allTransactions = Returns s ->
  emitted uuid toProcess s.
Proof.
  unfold ClassificationRule.suggestClassificationRecommendations.
  destruct (foldM ClassificationRule.learn allTransactions _) as [m| |];
    simpl; try discriminate.
  apply (foldM_inv (emitted uuid toProcess)); [|apply emitted_nil].
  intros s0 x s1 Hx Hs E. eapply classify_emitted; eauto.
Qed.

Lemma suggestClassification_content uuid uuid' toProcess allTransactions :
  rel_out same_content
    (ClassificationRule.suggestClassificationRecommendations
       uuid toProcess allTransactions)
    (ClassificationRule.suggestClassificationRecommendations
       uuid' toProcess allTransactions).
Proof.
  unfold ClassificationRule.suggestClassificationRecommendations.
  destruct (foldM ClassificationRule.learn allTransactions _) as [m| |];
    simpl; try exact I.
  apply foldM_rel; [|reflexivity].
  intros s1 s2 x Hs. unfold ClassificationRule.classify.
  destruct (T.deleted x); [exact Hs|].
  set (k := JsString.toLowerCase (T.paidTo x)).
  set (d := JsString.toLowerCase (T.description x)).
  pose proof (fromKeywords_content uuid uuid' s1 s2 x k d Hs) as H1.
  unfold ClassificationRule.fromHistory.
  destruct (JsString.truthy k); [|exact H1].
  destruct (JsObject.get _ k) as [[|top rest]|[| |]|]; simpl; try exact H1;
    try exact I.
  - now apply fromTop_content.
  - destruct (negb _); [exact I | exact H1].
Qed.

(* ------------------------------------------------------------------------- *)
(** * The steps of the reconciliation pass *)
(* ------------------------------------------------------------------------- *)

Lemma fold_addKey_In ks K k :
  In k (fold_left RS.addKey ks K) <-> In k K \/ In k ks.
Proof.
  revert K. induction ks as [|k0 ks IH]; simpl; intros K; [intuition|].
  rewrite IH, addKey_In. intuition (subst; auto).
Qed.

Lemma resolvedKeys_In prev k :
  In k (resolvedKeys prev) <->
  exists t, In t prev /\ isTerminal t = true
            /\ k = RS.getRecommendationIdentity t.
Proof.
  unfold resolvedKeys. rewrite fold_addKey_In, in_map_iff. split.
  - intros [[] | [t [E Ht]]]. apply filter_In in Ht. destruct Ht. eauto.
  - intros [t [Ht [Hs ->]]]. right. exists t. split; [reflexivity|].
    apply filter_In. auto.
Qed.

Lemma preserve_terminal txs out K rec :
  isTerminal rec = true ->
  RS.preserve txs (out, K) rec
  = (out ++ [carry txs rec], RS.addKey K (RS.getRecommendationIdentity rec)).
Proof.
  unfold isTerminal, RS.preserve, carry. intros ->.
  set (valid := filter (RS.exists_ txs) (R.transactionIds rec)).
  destruct ((0 <? List.length (R.transactionIds rec))
            && (List.length valid =? 0)) eqn:E1.
  - rewrite existsb_app. simpl. rewrite String.eqb_refl, orb_true_r.
    reflexivity.
  - assert (E2 : (0 <? List.length valid)
                 || (List.length (R.transactionIds rec) =? 0) = true).
    { apply andb_false_iff in E1. apply orb_true_iff.
      destruct E1 as [E | E].
      - right. apply Nat.ltb_ge in E. apply Nat.eqb_eq. lia.
      - left. apply Nat.eqb_neq in E. apply Nat.ltb_lt. lia. }
    rewrite E2, existsb_app. simpl. rewrite String.eqb_refl, orb_true_r.
    reflexivity.
Qed.

Lemma preserve_other txs st rec :
  isTerminal rec = false -> RS.preserve txs st rec = st.
Proof.
  unfold isTerminal, RS.preserve. destruct st. now intros ->.
Qed.

Lemma step1 txs prev out K :
  fold_left (RS.preserve txs) prev (out, K)
  = (out ++ carried txs prev,
     fold_left RS.addKey
               (map RS.getRecommendationIdentity (filter isTerminal prev)) K).
Proof.
  unfold carried. revert out K.
  induction prev as [|rec prev IH]; intros out K.
  - simpl. now rewrite app_nil_r.
  - cbn [fold_left filter]. destruct (isTerminal rec) eqn:E.
    + rewrite preserve_terminal by assumption. rewrite IH.
      cbn [map fold_left]. now rewrite <- app_assoc.
    + rewrite preserve_other by assumption. apply IH.
Qed.

Lemma step3 M cands out K :
  fst (fold_left (RS.merge M) cands (out, K)) = out ++ merged M K cands.
Proof.
  revert out K. induction cands as [|c cs IH]; intros out K.
  - simpl. now rewrite app_nil_r.
  - cbn [fold_left merged].
    assert (E : RS.merge M (out, K) c
                = if RS.hasKey K (RS.getRecommendationIdentity c)
                  then (out, K)
                  else (out ++ [adopt M c],
                        RS.addKey K (RS.getRecommendationIdentity c))).
    { unfold RS.merge, adopt.
      destruct (RS.hasKey K (RS.getRecommendationIdentity c)); [reflexivity|].
      destruct (RS.getByKey M (RS.getRecommendationIdentity c)); reflexivity. }
    rewrite E.
    destruct (RS.hasKey K (RS.getRecommendationIdentity c)); [apply IH|].
    rewrite IH, <- app_assoc. reflexivity.
Qed.

Lemma finalize_eq txs m rec :
  RS.finalize txs m rec
  = if survives txs rec then insertRec m (trimmed txs rec) else m.
Proof.
  unfold RS.finalize, survives, insertRec, trimmed. simpl.
  destruct (Status_eqb (R.status rec) pending); [|reflexivity].
  destruct ((List.length _ =? 0) && (0 <? List.length _)); [reflexivity|].
  destruct (negb (RecommendationType_eqb (R.type rec) Duplicate) && _);
    reflexivity.
Qed.

Lemma step4 txs out m :
  fold_left (RS.finalize txs) out m
  = fold_left insertRec (survivors txs out) m.
Proof.
  unfold survivors. revert m. induction out as [|rec out IH]; simpl; intros m;
    [reflexivity|].
  rewrite finalize_eq. destruct (survives txs rec); simpl; apply IH.
Qed.

(** The engine as the composition of its steps. *)
Lemma generate_steps txs uuid prev out :
  RS.generateRecommendations txs uuid prev = Returns out <->
  exists cands,
    RS.candidateRecsFromRules txs uuid = Returns cands /\
    out = JsMap.values
            (fold_left insertRec
               (survivors txs (carried txs prev
                               ++ merged (pendingMap prev) (resolvedKeys prev)
                                         cands)) []).
Proof.
  unfold RS.generateRecommendations.
  rewrite step1. simpl.
  destruct (RS.candidateRecsFromRules txs uuid) as [cands| |]; simpl.
  - fold (pendingMap prev). fold (resolvedKeys prev).
    pose proof (step3 (pendingMap prev) cands (carried txs prev)
                      (resolvedKeys prev)) as H3.
    destruct (fold_left (RS.merge (pendingMap prev)) cands _) as [o k].
    simpl in H3. subst o. rewrite step4. split.
    + intros E. injection E as <-. eauto.
    + intros [c [E ->]]. injection E as <-. reflexivity.
  - split; [discriminate | intros [c [E _]]; discriminate].
  - split; [discriminate | intros [c [E _]]; discriminate].
Qed.

(** The engine returns whenever the rule modules do. *)
Lemma generate_returns txs uuid prev cands :
  RS.candidateRecsFromRules txs uuid = Returns cands ->
  exists out, RS.generateRecommendations txs uuid prev = Returns out.
Proof.
  intros E. eexists. apply generate_steps. eauto.
Qed.

(** ** Step 5: the map by id *)

Lemma JsMap_set_absent {V} (m : JsMap.t V) k v :
  JsMap.get m k = None -> JsMap.set m k v = m ++ [(k, v)].
Proof.
  induction m as [|[k' v'] m IH]; simpl; [reflexivity|].
  destruct (String.eqb k' k); [discriminate|]. intros H. now rewrite IH.
Qed.

Lemma JsMap_get_None {V} (m : JsMap.t V) k :
  JsMap.get m k = None <-> ~ In k (map fst m).
Proof.
  induction m as [|[k' v'] m IH]; simpl; [intuition|].
  destruct (String.eqb k' k) eqn:E.
  - apply String.eqb_eq in E. split; [discriminate | intros H; exfalso; auto].
  - apply String.eqb_neq in E. rewrite IH. intuition.
Qed.

Lemma JsMap_set_keys {V} (m : JsMap.t V) k v :
  map fst (JsMap.set m k v)
  = if JsMap.has m k then map fst m else map fst m ++ [k].
Proof.
  unfold JsMap.has. induction m as [|[k' v'] m IH]; simpl; [reflexivity|].
  destruct (String.eqb k' k) eqn:E; simpl; [reflexivity|].
  rewrite IH. destruct (JsMap.get m k); reflexivity.
Qed.

Lemma keyed_set m r : keyed m -> keyed (JsMap.set m (R.id r) r).
Proof.
  intros [Hn Hk]. split.
  - rewrite JsMap_set_keys. unfold JsMap.has.
    destruct (JsMap.get m (R.id r)) eqn:E; [assumption|].
    apply JsMap_get_None in E.
    apply NoDup_app; [assumption | repeat constructor; intros [] |].
    intros x Hx [<- | []]. contradiction.
  - intros k v H. destruct (JsMap_set_In _ _ _ _ _ H) as [[-> ->] | H'];
      [reflexivity | now apply Hk].
Qed.

Lemma keyed_insertRec m r : keyed m -> keyed (insertRec m r).
Proof.
  intros H. unfold insertRec. destruct (JsMap.get m (R.id r)) as [e|];
    [destruct (terminal (R.status e)); [assumption|] |]; now apply keyed_set.
Qed.

Lemma keyed_values_NoDup m : keyed m -> NoDup (map R.id (JsMap.values m)).
Proof.
  intros [Hn Hk]. unfold JsMap.values. rewrite map_map.
  erewrite map_ext_in; [exact Hn|].
  intros [k v] H. simpl. symmetry. now apply Hk.
Qed.

Lemma fold_insertRec_keyed l m : keyed m -> keyed (fold_left insertRec l m).
Proof.
  revert m. induction l as [|r l IH]; simpl; intros m H; [assumption|].
  apply IH. now apply keyed_insertRec.
Qed.

Lemma insertRec_values_In m r v :
  In v (JsMap.values (insertRec m r)) -> v = r \/ In v (JsMap.values m).
Proof.
  unfold insertRec. destruct (JsMap.get m (R.id r)) as [e|];
    [destruct (terminal (R.status e)); [now right|] |];
    apply JsMap_values_set_In.
Qed.

Lemma fold_insertRec_values_In l m v :
  In v (JsMap.values (fold_left insertRec l m)) ->
  In v l \/ In v (JsMap.values m).
Proof.
  revert m. induction l as [|r l IH]; simpl; intros m H; [now right|].
  destruct (IH _ H) as [H' | H']; [left; now right|].
  destruct (insertRec_values_In _ _ _ H') as [-> | H'']; [left; now left|].
  now right.
Qed.

Lemma fold_insertRec_fresh l m :
  NoDup (map R.id l) ->
  (forall r, In r l -> ~ In (R.id r) (map fst m)) ->
  JsMap.values (fold_left insertRec l m) = JsMap.values m ++ l.
Proof.
  revert m. induction l as [|r l IH]; simpl; intros m Hn Hm.
  - now rewrite app_nil_r.
  - inversion Hn as [|? ? Hr Hl]; subst.
    assert (Eg : JsMap.get m (R.id r) = None).
    { apply JsMap_get_None. apply Hm. now left. }
    unfold insertRec at 2. rewrite Eg, (JsMap_set_absent _ _ _ Eg).
    rewrite IH; [| assumption |].
    + unfold JsMap.values. rewrite map_app. simpl. now rewrite <- app_assoc.
    + intros r' Hr'. rewrite map_app, in_app_iff. simpl.
      intros [H | [H | []]].
      * apply (Hm r'); [now right | assumption].
      * apply Hr. rewrite H. now apply in_map.
Qed.

(** Every output of the engine has distinct ids. *)
Lemma generate_NoDup txs uuid prev out :
  RS.generateRecommendations txs uuid prev = Returns out ->
  NoDup (map R.id out).
Proof.
  intros H. apply generate_steps in H. destruct H as [cands [_ ->]].
  apply keyed_values_NoDup, fold_insertRec_keyed.
  split; [constructor | intros k v []].
Qed.

(** Every recommendation of the output is the filtered copy of a
    recommendation that reached step 4 and was kept there. *)
Lemma generate_In txs uuid prev out r :
  RS.generateRecommendations txs uuid prev = Returns out -> In r out ->
  exists cands rec,
    RS.candidateRecsFromRules txs uuid = Returns cands /\
    In rec (carried txs prev
            ++ merged (pendingMap prev) (resolvedKeys prev) cands) /\
    survives txs rec = true /\ r = trimmed txs rec.
Proof.
  intros H Hr. apply generate_steps in H. destruct H as [cands [Ec ->]].
  apply fold_insertRec_values_In in Hr. destruct Hr as [Hr | []].
  unfold survivors in Hr. apply in_map_iff in Hr.
  destruct Hr as [rec [<- Hrec]]. apply filter_In in Hrec.
  destruct Hrec. exists cands, rec. auto.
Qed.

(* ------------------------------------------------------------------------- *)
(** * The candidates of a pass *)
(* ------------------------------------------------------------------------- *)

Lemma map_shift (uuid : nat -> string) n len m :
  map (RS.shift uuid n) (seq m len) = map uuid (seq (n + m) len).
Proof.
  revert m. induction len as [|len IH]; simpl; intros m; [reflexivity|].
  unfold RS.shift at 1. rewrite IH. now rewrite Nat.add_succ_r.
Qed.

Lemma emitted_shift uuid n processed s :
  emitted (RS.shift uuid n) processed s ->
  map R.id s = map uuid (seq n (List.length s))
  /\ Forall (candidate_ok processed) s.
Proof.
  intros [Hn Hf]. split; [|assumption].
  unfold numbered in Hn. rewrite Hn, map_shift. now rewrite Nat.add_0_r.
Qed.

Lemma candidates_ok txs uuid cands :
  RS.candidateRecsFromRules txs uuid = Returns cands ->
  map R.id cands = map uuid (seq 0 (List.length cands))
  /\ Forall (candidate_ok (RS.activeTransactionsForRules txs)) cands.
Proof.
  unfold RS.candidateRecsFromRules.
  set (active := RS.activeTransactionsForRules txs).
  destruct (DuplicateRule.findDuplicateRecommendations uuid active)
    as [c1| |] eqn:E1; simpl; try discriminate.
  destruct (MerchantRule.normalizeMerchantRecommendations _ active)
    as [c2| |] eqn:E2; simpl; try discriminate.
  destruct (MissingFieldRule.suggestMissingFieldRecommendations _ active txs)
    as [c3| |] eqn:E3; simpl; try discriminate.
  destruct (ClassificationRule.suggestClassificationRecommendations _ active txs)
    as [c4| |] eqn:E4; simpl; try discriminate.
  intros E. injection E as <-.
  apply findDuplicate_emitted in E1. destruct E1 as [N1 F1].
  apply normalizeMerchant_emitted, emitted_shift in E2. destruct E2 as [N2 F2].
  apply suggestMissingField_emitted, emitted_shift in E3. destruct E3 as [N3 F3].
  apply suggestClassification_emitted, emitted_shift in E4.
  destruct E4 as [N4 F4]. split.
  - unfold numbered in N1. rewrite !length_app in *.
    rewrite !map_app, N1, N2, N3, N4.
    rewrite !seq_app, !map_app. simpl. now rewrite !Nat.add_assoc.
  - repeat (apply Forall_app; split); assumption.
Qed.

Lemma candidates_content txs uuid uuid' :
  rel_out same_content (RS.candidateRecsFromRules txs uuid)
                       (RS.candidateRecsFromRules txs uuid').
Proof.
  unfold RS.candidateRecsFromRules.
  set (active := RS.activeTransactionsForRules txs).
  pose proof (findDuplicate_content uuid uuid' active) as H1.
  destruct (DuplicateRule.findDuplicateRecommendations uuid active) as [a1| |],
           (DuplicateRule.findDuplicateRecommendations uuid' active) as [a2| |];
    simpl in *; try contradiction; try exact I.
  pose proof (normalizeMerchant_content
                (RS.shift uuid (List.length a1))
                (RS.shift uuid' (List.length a2)) active) as H2.
  destruct (MerchantRule.normalizeMerchantRecommendations
              (RS.shift uuid _) active) as [b1| |],
           (MerchantRule.normalizeMerchantRecommendations
              (RS.shift uuid' _) active) as [b2| |];
    simpl in *; try contradiction; try exact I.
  pose proof (suggestMissingField_content
                (RS.shift uuid (List.length (a1 ++ b1)))
                (RS.shift uuid' (List.length (a2 ++ b2))) active txs) as H3.
  destruct (MissingFieldRule.suggestMissingFieldRecommendations
              (RS.shift uuid _) active txs) as [c1| |],
           (MissingFieldRule.suggestMissingFieldRecommendations
              (RS.shift uuid' _) active txs) as [c2| |];
    simpl in *; try contradiction; try exact I.
  pose proof (suggestClassification_content
                (RS.shift uuid (List.length (a1 ++ b1 ++ c1)))
                (RS.shift uuid' (List.length (a2 ++ b2 ++ c2))) active txs)
    as H4.
  destruct (ClassificationRule.suggestClassificationRecommendations
              (RS.shift uuid _) active txs) as [d1| |],
           (ClassificationRule.suggestClassificationRecommendations
              (RS.shift uuid' _) active txs) as [d2| |];
    simpl in *; try contradiction; try exact I.
  unfold same_content in *. rewrite !map_app. congruence.
Qed.

Lemma active_In txs x :
  In x (RS.activeTransactionsForRules txs) ->
  In x txs /\ T.deleted x = false.
Proof.
  unfold RS.activeTransactionsForRules. rewrite filter_In.
  intros [H E]. split; [assumption|]. now destruct (T.deleted x).
Qed.

Lemma exists_In txs i : RS.exists_ txs i = true <-> In i (map T.id txs).
Proof. unfold RS.exists_, RS.existingTransactionIds. apply mem_In. Qed.

Lemma withTransactionIds_same (r : R.t) :
  R.withTransactionIds r (R.transactionIds r) = r.
Proof. now destruct r. Qed.

Lemma filter_all {A} (p : A -> bool) (l : list A) :
  (forall x, In x l -> p x = true) -> filter p l = l.
Proof.
  induction l as [|x l IH]; simpl; intros H; [reflexivity|].
  rewrite (H x (or_introl eq_refl)), IH; auto.
Qed.

(** Step 4 leaves the targets of a candidate as they are. *)
Lemma candidate_targets_exist txs c :
  candidate_ok (RS.activeTransactionsForRules txs) c ->
  filter (RS.exists_ txs) (R.transactionIds c) = R.transactionIds c.
Proof.
  intros [_ Ht _]. apply filter_all. intros i Hi.
  destruct (Ht i Hi) as [x [Hx [_ <-]]]. apply exists_In, in_map.
  now apply active_In in Hx.
Qed.

Lemma adopt_fields M c :
  R.type (adopt M c) = R.type c
  /\ R.transactionIds (adopt M c) = R.transactionIds c
  /\ R.affectedField (adopt M c) = R.affectedField c
  /\ R.originalValue (adopt M c) = R.originalValue c.
Proof.
  unfold adopt. destruct (RS.getByKey M _); simpl; auto.
Qed.

Lemma adopt_identity M c :
  RS.getRecommendationIdentity (adopt M c) = RS.getRecommendationIdentity c.
Proof.
  unfold RS.getRecommendationIdentity.
  destruct (adopt_fields M c) as [-> [-> [-> ->]]]. reflexivity.
Qed.

Lemma adopt_status M c :
  R.status c = pending -> R.status (adopt M c) = pending.
Proof. unfold adopt. destruct (RS.getByKey M _); simpl; auto. Qed.

Lemma adopt_trimmed txs M c :
  candidate_ok (RS.activeTransactionsForRules txs) c ->
  trimmed txs (adopt M c) = adopt M c.
Proof.
  intros H. unfold trimmed.
  destruct (adopt_fields M c) as [_ [E _]]. rewrite E.
  rewrite (candidate_targets_exist _ _ H), <- E.
  apply withTransactionIds_same.
Qed.

Lemma merged_In M K cands r :
  In r (merged M K cands) ->
  exists c, In c cands /\ r = adopt M c
            /\ RS.hasKey K (RS.getRecommendationIdentity c) = false.
Proof.
  revert K. induction cands as [|c cs IH]; simpl; intros K; [intros []|].
  destruct (RS.hasKey K (RS.getRecommendationIdentity c)) eqn:E.
  - intros H. destruct (IH _ H) as [c' [Hc [-> Hk]]]. eauto.
  - intros [<- | H]; [eauto|].
    destruct (IH _ H) as [c' [Hc [-> Hk]]]. exists c'. repeat split; auto.
    destruct (RS.hasKey K (RS.getRecommendationIdentity c')) eqn:E'; [|reflexivity].
    apply hasKey_In in E'.
    assert (Hin : In (RS.getRecommendationIdentity c')
                     (RS.addKey K (RS.getRecommendationIdentity c)))
      by (apply addKey_In; now left).
    apply (proj2 (hasKey_In _ _)) in Hin. rewrite Hin in Hk. discriminate.
Qed.

Lemma carry_fields txs t :
  R.id (carry txs t) = R.id t /\ R.status (carry txs t) = R.status t
  /\ R.type (carry txs t) = R.type t.
Proof. unfold carry. destruct (_ && _); simpl; auto. Qed.

Lemma carried_In txs prev r :
  In r (carried txs prev) ->
  exists t, In t prev /\ isTerminal t = true /\ r = carry txs t.
Proof.
  unfold carried. rewrite in_map_iff. intros [t [<- H]].
  apply filter_In in H. destruct H. eauto.
Qed.

Lemma terminal_not_pending s : terminal s = true -> s <> pending.
Proof. destruct s; cbv; intros H E; congruence. Qed.

(** A pending recommendation of the output is a candidate of this pass that no
    resolved identity blocked, under the id step 3 gave it. *)
Lemma pending_output txs uuid prev out r :
  RS.generateRecommendations txs uuid prev = Returns out ->
  In r out -> R.status r = pending ->
  exists cands c,
    RS.candidateRecsFromRules txs uuid = Returns cands /\ In c cands /\
    candidate_ok (RS.activeTransactionsForRules txs) c /\
    r = adopt (pendingMap prev) c /\
    RS.hasKey (resolvedKeys prev) (RS.getRecommendationIdentity c) = false /\
    survives txs r = true.
Proof.
  intros H Hr Hs.
  destruct (generate_In _ _ _ _ _ H Hr) as [cands [rec [Ec [Hrec [Hsv ->]]]]].
  assert (Hp : R.status rec = pending) by exact Hs.
  apply in_app_iff in Hrec. destruct Hrec as [Hrec | Hrec].
  - apply carried_In in Hrec. destruct Hrec as [t [_ [Ht ->]]].
    destruct (carry_fields txs t) as [_ [E _]]. rewrite E in Hp.
    exfalso. revert Hp. now apply terminal_not_pending.
  - apply merged_In in Hrec. destruct Hrec as [c [Hc [-> Hk]]].
    destruct (candidates_ok _ _ _ Ec) as [_ Hf].
    rewrite Forall_forall in Hf. specialize (Hf c Hc).
    exists cands, c. rewrite (adopt_trimmed _ _ _ Hf).
    exact (conj Ec (conj Hc (conj Hf (conj eq_refl (conj Hk Hsv))))).
Qed.

(* ------------------------------------------------------------------------- *)
(** * Identity stability (C2) *)
(* ------------------------------------------------------------------------- *)

(** C2.  Identity stability: when the previous list holds a recommendation
    [t] whose status is applied or ignored, the output of
    [generateRecommendations] holds no pending recommendation with the
    identity tuple of [t]: the candidate with that identity is discarded. *)
Theorem identity_stability txs uuid prev out t r :
  RS.generateRecommendations txs uuid prev = Returns out ->
  In t prev -> R.status t = applied \/ R.status t = ignored ->
  In r out -> R.status r = pending ->
  RS.getRecommendationIdentity r <> RS.getRecommendationIdentity t.
Proof.
  intros H Ht Hst Hr Hp E.
  destruct (pending_output _ _ _ _ _ H Hr Hp)
    as [cands [c [_ [_ [_ [-> [Hk _]]]]]]].
  rewrite adopt_identity in E.
  assert (Hin : In (RS.getRecommendationIdentity c) (resolvedKeys prev)).
  { apply resolvedKeys_In. exists t. repeat split; auto.
    unfold isTerminal. destruct Hst as [-> | ->]; reflexivity. }
  apply (proj2 (hasKey_In _ _)) in Hin. rewrite Hin in Hk. discriminate.
Qed.

(* ------------------------------------------------------------------------- *)
(** * Soft-deleted targets (C3) *)
(* ------------------------------------------------------------------------- *)

Lemma JsMap_add_In s k k' : In k' (JsMap.add s k) <-> In k' s \/ k' = k.
Proof.
  unfold JsMap.add. destruct (JsString.mem k s) eqn:E.
  - apply mem_In in E. split; [auto | intros [H | ->]; assumption].
  - rewrite in_app_iff. simpl. intuition.
Qed.

Lemma softDeletedTransactionIds_In txs i :
  JsString.mem i (RS.softDeletedTransactionIds txs) = true
  <-> softDeleted txs i.
Proof.
  rewrite mem_In. unfold RS.softDeletedTransactionIds, softDeleted.
  assert (G : forall s,
             In i (fold_left (fun s tx => if T.deleted tx
                                          then JsMap.add s (T.id tx) else s)
                             txs s)
             <-> In i s \/ exists x, In x txs /\ T.id x = i
                                      /\ T.deleted x = true).
  { induction txs as [|x txs IH]; simpl; intros s.
    - split; [auto | intros [H | [x [[] _]]]; assumption].
    - rewrite IH. destruct (T.deleted x) eqn:Hd.
      + rewrite JsMap_add_In. split.
        * intros [[H | ->] | [y [Hy Ey]]]; eauto 6.
        * intros [H | [y [[<- | Hy] [Ey Dy]]]]; eauto 6.
      + split.
        * intros [H | [y [Hy Ey]]]; eauto 6.
        * intros [H | [y [[<- | Hy] [Ey Dy]]]]; eauto 6. congruence. }
  rewrite G. split; [intros [[] | H]; assumption | auto].
Qed.

Lemma NoDup_map_inj {A B} (f : A -> B) (l : list A) x y :
  NoDup (map f l) -> In x l -> In y l -> f x = f y -> x = y.
Proof.
  induction l as [|a l IH]; simpl; [intros _ []|].
  intros Hn Hx Hy E. inversion Hn as [|? ? Ha Hl]; subst.
  destruct Hx as [-> | Hx], Hy as [-> | Hy]; auto.
  - exfalso. apply Ha. rewrite E. now apply in_map.
  - exfalso. apply Ha. rewrite <- E. now apply in_map.
Qed.

(** No pending recommendation other than a duplicate pair leaves step 4 with
    all of its targets soft-deleted. *)
Lemma moot_dropped txs uuid prev out r :
  RS.generateRecommendations txs uuid prev = Returns out ->
  In r out -> R.status r = pending -> R.type r <> Duplicate ->
  R.transactionIds r <> [] ->
  ~ Forall (softDeleted txs) (R.transactionIds r).
Proof.
  intros H Hr Hp Hty Hne Hall.
  destruct (pending_output _ _ _ _ _ H Hr Hp)
    as [cands [c [_ [_ [Hok [E [_ Hsv]]]]]]].
  assert (Et : trimmed txs r = r) by (rewrite E; now apply adopt_trimmed).
  unfold survives in Hsv. rewrite Et, Hp in Hsv. simpl in Hsv.
  destruct (R.transactionIds r) as [|i ids] eqn:Ei; [congruence|].
  simpl in Hsv.
  assert (Ety : RecommendationType_eqb (R.type r) Duplicate = false).
  { destruct (R.type r); simpl; congruence. }
  rewrite Ety in Hsv. simpl in Hsv.
  assert (Hf : forallb (fun txId =>
                          JsString.mem txId (RS.softDeletedTransactionIds txs))
                       (i :: ids) = true).
  { apply forallb_forall. intros j Hj. apply softDeletedTransactionIds_In.
    rewrite Forall_forall in Hall. now apply Hall. }
  simpl in Hf. rewrite Hf in Hsv. discriminate.
Qed.

(** With distinct record ids, the targets of a pending recommendation of the
    output are records that are not soft-deleted. *)
Lemma pending_targets_active txs uuid prev out r i :
  NoDup (map T.id txs) ->
  RS.generateRecommendations txs uuid prev = Returns out ->
  In r out -> R.status r = pending -> In i (R.transactionIds r) ->
  ~ softDeleted txs i.
Proof.
  intros Hn H Hr Hp Hi [y [Hy [Ey Dy]]].
  destruct (pending_output _ _ _ _ _ H Hr Hp)
    as [cands [c [_ [_ [Hok [E _]]]]]].
  destruct (adopt_fields (pendingMap prev) c) as [_ [Et _]].
  rewrite <- E in Et. rewrite Et in Hi.
  destruct (cand_targets _ _ Hok i Hi) as [x [Hx [Dx Ex]]].
  apply active_In in Hx. destruct Hx as [Hx _].
  assert (x = y) by (apply (NoDup_map_inj T.id txs); congruence).
  congruence.
Qed.

(** C3 (as amended).  Soft-delete moot rule: after a reconciliation run the
    output holds no pending MissingField recommendation whose sole target is
    soft-deleted; and, record ids being distinct, it holds no pending
    Duplicate recommendation whose two targets are soft-deleted either,
    because pending recommendations are derived anew from the active records
    only (the exemption of Duplicate in the final pass never brings back a
    pair that the rule module did not produce). *)
Theorem soft_delete_moot txs uuid prev out r :
  RS.generateRecommendations txs uuid prev = Returns out ->
  In r out -> R.status r = pending ->
  (forall i, R.type r = MissingField -> R.transactionIds r = [i] ->
             ~ softDeleted txs i)
  /\ (forall i j, NoDup (map T.id txs) ->
                  R.type r = Duplicate -> R.transactionIds r = [i; j] ->
                  ~ (softDeleted txs i /\ softDeleted txs j)).
Proof.
  intros H Hr Hp. split.
  - intros i Hty Ei Hd.
    apply (moot_dropped _ _ _ _ _ H Hr Hp).
    + rewrite Hty. discriminate.
    + rewrite Ei. discriminate.
    + rewrite Ei. now repeat constructor.
  - intros i j Hn _ Ei [Hd _].
    apply (pending_targets_active _ _ _ _ r i Hn H Hr Hp); [|assumption].
    rewrite Ei. now left.
Qed.

(* ------------------------------------------------------------------------- *)
(** * Totality of the rule modules on plain names *)
(* ------------------------------------------------------------------------- *)

Lemma foldM_returns {A S} (body : S -> A -> outcome S) (l : list A) :
  (forall s x, In x l -> exists s', body s x = Returns s') ->
  forall s, exists s', foldM body l s = Returns s'.
Proof.
  induction l as [|x l IH]; simpl; intros H s; [eauto|].
  destruct (H s x (or_introl eq_refl)) as [s1 ->]. simpl.
  apply IH. intros s0 y Hy. apply H. now right.
Qed.

Lemma get_plain {V} (o : JsObject.t V) k :
  JsObject.inheritedMember k = None ->
  JsObject.get o k = match JsMap.get o k with
                     | Some v => JsObject.Own v
                     | None => JsObject.Absent
                     end.
Proof. unfold JsObject.get. now intros ->. Qed.

Lemma findDuplicate_returns uuid transactions :
  exists s,
    DuplicateRule.findDuplicateRecommendations uuid transactions = Returns s.
Proof.
  unfold DuplicateRule.findDuplicateRecommendations.
  destruct (grouping_returns transactions []) as [m ->]. simpl. eauto.
Qed.

Lemma normalizeMerchant_returns uuid transactions :
  plainRecords transactions ->
  exists s,
    MerchantRule.normalizeMerchantRecommendations uuid transactions = Returns s.
Proof.
  intros Hp. unfold MerchantRule.normalizeMerchantRecommendations.
  destruct (fold_left MerchantRule.countMerchant transactions ([], []))
    as [merchantCounts uniqueMerchants].
  apply foldM_returns. intros s x Hx. unfold MerchantRule.suggest.
  destruct (T.deleted x) eqn:Hd; [eauto|].
  destruct (negb _); [eauto|].
  destruct (Hp x Hx Hd) as [H1 _]. rewrite (get_plain _ _ H1).
  destruct (JsMap.get _ _) as [c|]; [|eauto].
  destruct (_ && _); eauto.
Qed.

Lemma increment_returns freq key :
  JsObject.inheritedMember key = None ->
  exists freq', MissingFieldRule.increment freq key = Returns freq'.
Proof.
  intros H. unfold MissingFieldRule.increment. rewrite (get_plain _ _ H).
  destruct (JsMap.get freq key); eauto.
Qed.

Lemma update_returns {V} (table : JsObject.t (JsObject.t V)) k f :
  JsObject.inheritedMember k = None ->
  (forall inner, exists inner', f inner = Returns inner') ->
  exists table', MissingFieldRule.update table k f = Returns table'.
Proof.
  intros H Hf. unfold MissingFieldRule.update. rewrite (get_plain _ _ H).
  destruct (JsMap.get table k) as [inner|].
  - destruct (Hf inner) as [i ->]. simpl. eauto.
  - destruct (Hf []) as [i ->]. simpl. eauto.
Qed.

Lemma missing_learn_returns tb x :
  (T.deleted x = false -> plainNames x) ->
  exists tb', MissingFieldRule.learn tb x = Returns tb'.
Proof.
  intros Hp. unfold MissingFieldRule.learn.
  destruct (T.deleted x); [eauto|].
  destruct (Hp eq_refl) as [_ [Hk [Ht [Hs Htt]]]].
  destruct (negb _); [eauto|].
  assert (E1 : exists tf,
             (if JsString.truthy (T.expenseType x)
              then MissingFieldRule.update
                     (MissingFieldRule.typeFrequency tb)
                     (JsString.toLowerCase (T.paidTo x))
                     (fun inner =>
                        MissingFieldRule.increment inner (T.expenseType x))
              else Returns (MissingFieldRule.typeFrequency tb)) = Returns tf).
  { destruct (JsString.truthy (T.expenseType x)); [|eauto].
    apply update_returns; [assumption|].
    intros inner. now apply increment_returns. }
  destruct E1 as [tf ->]. simpl.
  assert (E2 : exists sf,
             (if JsString.truthy (T.expenseType x)
                 && JsString.truthy (T.expenseSubtype x)
              then MissingFieldRule.update
                     (MissingFieldRule.subtypeFrequency tb)
                     (JsString.toLowerCase (T.paidTo x))
                     (fun byType =>
                        MissingFieldRule.update byType (T.expenseType x)
                          (fun inner =>
                             MissingFieldRule.increment inner
                                                        (T.expenseSubtype x)))
              else Returns (MissingFieldRule.subtypeFrequency tb)) = Returns sf).
  { destruct (_ && _); [|eauto].
    apply update_returns; [assumption|]. intros byType.
    apply update_returns; [assumption|]. intros inner.
    now apply increment_returns. }
  destruct E2 as [sf ->]. simpl.
  assert (E3 : exists ttf,
             (if JsString.truthy (T.transactionType x)
              then MissingFieldRule.update
                     (MissingFieldRule.transactionTypeFrequency tb)
                     (JsString.toLowerCase (T.paidTo x))
                     (fun inner =>
                        MissingFieldRule.increment inner (T.transactionType x))
              else Returns (MissingFieldRule.transactionTypeFrequency tb))
             = Returns ttf).
  { destruct (JsString.truthy (T.transactionType x)); [|eauto].
    apply update_returns; [assumption|].
    intros inner. now apply increment_returns. }
  destruct E3 as [ttf ->]. simpl. eauto.
Qed.

Lemma missing_insertEntry_length e l :
  List.length (MissingFieldRule.insertEntry e l) = S (List.length l).
Proof.
  induction l as [|e' l IH]; simpl; [reflexivity|].
  destruct (snd e' <=? snd e); simpl; [reflexivity | now rewrite IH].
Qed.

Lemma missing_sortEntries_length l :
  List.length (MissingFieldRule.sortEntries l) = List.length l.
Proof.
  induction l as [|e l IH]; simpl; [reflexivity|].
  now rewrite missing_insertEntry_length, IH.
Qed.

(** The index [[0][0]] of [getMostFrequent] is guarded by the test on the
    number of keys. *)
Lemma getMostFrequent_returns freqMap :
  exists r, MissingFieldRule.getMostFrequent freqMap = Returns r.
Proof.
  unfold MissingFieldRule.getMostFrequent. destruct freqMap as [f|]; [|eauto].
  destruct (List.length (JsObject.keys f) =? 0) eqn:E; [eauto|].
  pose proof (missing_sortEntries_length (JsObject.entries f)) as Hl.
  destruct (MissingFieldRule.sortEntries (JsObject.entries f)); [|eauto].
  apply Nat.eqb_neq in E. unfold JsObject.keys, JsObject.entries in *.
  rewrite length_map in E. simpl in Hl. congruence.
Qed.

Lemma historical_returns table k :
  exists r, MissingFieldRule.historical table k = Returns r.
Proof.
  unfold MissingFieldRule.historical. destruct (JsString.truthy k); [|eauto].
  destruct (JsObject.get table k); eauto using getMostFrequent_returns.
Qed.

Lemma historicalSubtype_returns table k ty :
  JsObject.inheritedMember k = None ->
  exists r, MissingFieldRule.historicalSubtype table k ty = Returns r.
Proof.
  intros H. unfold MissingFieldRule.historicalSubtype.
  destruct (JsString.truthy k); [|eauto]. rewrite (get_plain _ _ H).
  destruct (JsMap.get table k) as [byType|]; [|eauto].
  destruct (JsObject.get byType ty); eauto using getMostFrequent_returns.
Qed.

Lemma complete_returns uuid tb s x :
  (T.deleted x = false -> plainNames x) ->
  exists s', MissingFieldRule.complete uuid tb s x = Returns s'.
Proof.
  intros Hp. unfold MissingFieldRule.complete.
  destruct (T.deleted x); [eauto|].
  destruct (Hp eq_refl) as [_ [Hk _]].
  set (k := JsString.toLowerCase (T.paidTo x)) in *.
  set (d := JsString.toLowerCase (T.description x)).
  assert (E1 : exists r1,
             MissingFieldRule.suggestType uuid tb s x k d = Returns r1).
  { unfold MissingFieldRule.suggestType. destruct (negb _); [|eauto].
    destruct (historical_returns (MissingFieldRule.typeFrequency tb) k)
      as [h ->]. simpl.
    destruct (MissingFieldRule.resolve h _) as [[sg|] rule]; [|eauto].
    destruct (JsString.truthy sg); eauto. }
  destruct E1 as [r1 ->]. simpl.
  assert (E2 : exists r2,
             MissingFieldRule.suggestSubtype uuid tb r1 x k d = Returns r2).
  { unfold MissingFieldRule.suggestSubtype. destruct (_ && _); [|eauto].
    destruct (historicalSubtype_returns
                (MissingFieldRule.subtypeFrequency tb) k (T.expenseType x) Hk)
      as [h ->]. simpl.
    destruct (MissingFieldRule.resolve h _) as [[sg|] rule]; [|eauto].
    destruct (JsString.truthy sg); eauto. }
  destruct E2 as [r2 ->]. simpl.
  unfold MissingFieldRule.suggestTransactionType. destruct (negb _); [|eauto].
  destruct (historical_returns
              (MissingFieldRule.transactionTypeFrequency tb) k) as [h ->].
  simpl. destruct h as [sg|]; [|eauto]. destruct (JsString.truthy sg); eauto.
Qed.

Lemma suggestMissingField_returns uuid toProcess allTransactions :
  plainRecords toProcess -> plainRecords allTransactions ->
  exists s,
    MissingFieldRule.suggestMissingFieldRecommendations
      uuid toProcess allTransactions = Returns s.
Proof.
  intros Hp Ha. unfold MissingFieldRule.suggestMissingFieldRecommendations.
  destruct (foldM_returns MissingFieldRule.learn allTransactions
              (fun s x Hx => missing_learn_returns s x (Ha x Hx))
              (MissingFieldRule.mkTables [] [] [])) as [tb ->].
  simpl. apply foldM_returns. intros s x Hx. apply complete_returns. auto.
Qed.

Lemma classification_learn_returns m x :
  (T.deleted x = false -> plainNames x) ->
  exists m', ClassificationRule.learn m x = Returns m'.
Proof.
  intros Hp. unfold ClassificationRule.learn.
  destruct (T.deleted x); [simpl; eauto|]. simpl.
  destruct (Hp eq_refl) as [_ [Hk _]].
  destruct (_ || _); [eauto|]. rewrite (get_plain _ _ Hk).
  destruct (JsMap.get m _); eauto.
Qed.

Lemma classify_returns uuid m s x :
  (T.deleted x = false -> plainNames x) ->
  exists s', ClassificationRule.classify uuid m s x = Returns s'.
Proof.
  intros Hp. unfold ClassificationRule.classify.
  destruct (T.deleted x); [eauto|].
  destruct (Hp eq_refl) as [_ [Hk _]].
  unfold ClassificationRule.fromHistory.
  destruct (JsString.truthy _); [|eauto]. rewrite (get_plain _ _ Hk).
  destruct (JsMap.get m _) as [[|top rest]|]; eauto.
Qed.

Lemma suggestClassification_returns uuid toProcess allTransactions :
  plainRecords toProcess -> plainRecords allTransactions ->
  exists s,
    ClassificationRule.suggestClassificationRecommendations
      uuid toProcess allTransactions = Returns s.
Proof.
  intros Hp Ha. unfold ClassificationRule.suggestClassificationRecommendations.
  destruct (foldM_returns ClassificationRule.learn allTransactions
              (fun s x Hx => classification_learn_returns s x (Ha x Hx)) [])
    as [m ->].
  simpl. apply foldM_returns. intros s x Hx. apply classify_returns. auto.
Qed.

Lemma plainRecords_active txs :
  plainRecords txs -> plainRecords (RS.activeTransactionsForRules txs).
Proof.
  intros H x Hx Hd. apply active_In in Hx. destruct Hx. now apply H.
Qed.

(** The four rule modules return on every record list whose names are plain. *)
Lemma candidates_return txs uuid :
  plainRecords txs ->
  exists cands, RS.candidateRecsFromRules txs uuid = Returns cands.
Proof.
  intros Hp. pose proof (plainRecords_active _ Hp) as Ha.
  unfold RS.candidateRecsFromRules.
  destruct (findDuplicate_returns uuid (RS.activeTransactionsForRules txs))
    as [c1 ->]. simpl.
  destruct (normalizeMerchant_returns (RS.shift uuid (List.length c1)) _ Ha)
    as [c2 ->]. simpl.
  destruct (suggestMissingField_returns
              (RS.shift uuid (List.length (c1 ++ c2))) _ txs Ha Hp)
    as [c3 ->]. simpl.
  destruct (suggestClassification_returns
              (RS.shift uuid (List.length (c1 ++ c2 ++ c3))) _ txs Ha Hp)
    as [c4 ->]. simpl. eauto.
Qed.

(* ------------------------------------------------------------------------- *)
(** * The map of previous pending recommendations *)
(* ------------------------------------------------------------------------- *)

Lemma getByKey_setByKey m k v k' :
  RS.getByKey (RS.setByKey m k v) k'
  = if RS.sameKey k k' then Some v else RS.getByKey m k'.
Proof.
  induction m as [|[k0 v0] m IH]; simpl; [reflexivity|].
  destruct (RS.sameKey k0 k) eqn:E0; simpl.
  - apply sameKey_eq in E0. subst k0. now destruct (RS.sameKey k k').
  - destruct (RS.sameKey k0 k') eqn:E1; [|exact IH].
    destruct (RS.sameKey k k') eqn:E2; [|reflexivity].
    apply sameKey_eq in E1, E2. subst. now rewrite sameKey_refl in E0.
Qed.

Lemma rememberPending_get m rec k :
  RS.getByKey (RS.rememberPending m rec) k
  = if Status_eqb (R.status rec) pending
       && RS.sameKey (RS.getRecommendationIdentity rec) k
    then Some rec else RS.getByKey m k.
Proof.
  unfold RS.rememberPending.
  destruct (Status_eqb (R.status rec) pending); simpl; [|reflexivity].
  apply getByKey_setByKey.
Qed.

(** What the map returns is a previous pending recommendation with the key
    looked up. *)
Lemma pendingMap_get_Some l m k q :
  RS.getByKey (fold_left RS.rememberPending l m) k = Some q ->
  (In q l /\ R.status q = pending /\ RS.getRecommendationIdentity q = k)
  \/ RS.getByKey m k = Some q.
Proof.
  revert m. induction l as [|rec l IH]; simpl; intros m H; [now right|].
  destruct (IH _ H) as [[Hq Hs] | H']; [left; auto|].
  rewrite rememberPending_get in H'.
  destruct (Status_eqb (R.status rec) pending) eqn:Es; simpl in H';
    [|now right].
  destruct (RS.sameKey (RS.getRecommendationIdentity rec) k) eqn:Ek;
    [|now right].
  injection H' as <-. left. apply Status_eqb_eq in Es. apply sameKey_eq in Ek.
  auto.
Qed.

Lemma pendingMap_get_unique l m k r :
  RS.getByKey m k = Some r
  \/ (In r l /\ R.status r = pending /\ RS.getRecommendationIdentity r = k) ->
  (forall r', In r' l -> R.status r' = pending ->
              RS.getRecommendationIdentity r' = k -> r' = r) ->
  RS.getByKey (fold_left RS.rememberPending l m) k = Some r.
Proof.
  revert m. induction l as [|rec l IH]; simpl; intros m H Hu.
  - destruct H as [H | [[] _]]. assumption.
  - apply IH; [|intros r' Hr'; apply Hu; now right].
    rewrite rememberPending_get.
    destruct (Status_eqb (R.status rec) pending) eqn:Es; simpl.
    + destruct (RS.sameKey (RS.getRecommendationIdentity rec) k) eqn:Ek.
      * apply Status_eqb_eq in Es. apply sameKey_eq in Ek.
        left. f_equal. apply Hu; auto.
      * destruct H as [H | [[-> | Hr] [Hs Hk]]]; [now left | | now right; auto].
        subst k. now rewrite sameKey_refl in Ek.
    + destruct H as [H | [[-> | Hr] [Hs Hk]]]; [now left | | now right; auto].
      rewrite Hs in Es. discriminate.
Qed.

Lemma adopt_id_cases prev c :
  (exists q, In q prev /\ R.status q = pending
             /\ RS.getRecommendationIdentity q = RS.getRecommendationIdentity c
             /\ R.id (adopt (pendingMap prev) c) = R.id q)
  \/ R.id (adopt (pendingMap prev) c) = R.id c.
Proof.
  unfold adopt.
  destruct (RS.getByKey (pendingMap prev) (RS.getRecommendationIdentity c))
    as [q|] eqn:E; [|now right].
  apply pendingMap_get_Some in E. destruct E as [[Hq [Hs Hk]] | E];
    [|discriminate].
  left. exists q. auto.
Qed.

(** Equal identities have the same targets. *)
Lemma identity_targets a b i :
  RS.getRecommendationIdentity a = RS.getRecommendationIdentity b ->
  In i (R.transactionIds a) -> In i (R.transactionIds b).
Proof.
  unfold RS.getRecommendationIdentity. intros E Hi.
  injection E as _ Es _ _. apply sort_In. rewrite <- Es. now apply sort_In.
Qed.

Lemma candidate_id txs uuid cands c :
  RS.candidateRecsFromRules txs uuid = Returns cands -> In c cands ->
  exists k, R.id c = uuid k.
Proof.
  intros H Hc. destruct (candidates_ok _ _ _ H) as [Hn _].
  apply (in_map R.id) in Hc. rewrite Hn in Hc. apply in_map_iff in Hc.
  destruct Hc as [k [E _]]. eauto.
Qed.

(* ------------------------------------------------------------------------- *)
(** * Hard-delete pruning (C4) *)
(* ------------------------------------------------------------------------- *)

(** C4.  Hard-delete pruning: when a pending recommendation [p] of the
    previous list references a record id [m] that is absent from the current
    record set, the engine returns (the dangling reference is no error) and
    its output holds no recommendation with the id of [p].  Ids are unique
    (distinct in the previous list, and the fresh ones differ from them), and
    the names of the records are plain, so that the rule modules return. *)
Theorem hard_delete_pruning txs uuid prev p m :
  NoDup (map R.id prev) ->
  (forall k, ~ In (uuid k) (map R.id prev)) ->
  plainRecords txs ->
  In p prev -> R.status p = pending ->
  In m (R.transactionIds p) -> ~ In m (map T.id txs) ->
  exists out,
    RS.generateRecommendations txs uuid prev = Returns out
    /\ forall r, In r out -> R.id r <> R.id p.
Proof.
  intros Hn Hf Hplain Hp Hs Hm Hgone.
  destruct (candidates_return txs uuid Hplain) as [cands Ec].
  destruct (generate_returns txs uuid prev cands Ec) as [out Hout].
  exists out. split; [assumption|]. intros r Hr Eid.
  destruct (generate_In _ _ _ _ _ Hout Hr) as [cands' [rec [Ec' [Hrec [_ ->]]]]].
  rewrite Ec in Ec'. injection Ec' as <-.
  assert (Eid' : R.id rec = R.id p) by exact Eid. clear Eid.
  apply in_app_iff in Hrec. destruct Hrec as [Hrec | Hrec].
  - apply carried_In in Hrec. destruct Hrec as [t [Ht [Hterm ->]]].
    destruct (carry_fields txs t) as [Ei _]. rewrite Ei in Eid'.
    assert (t = p) by (apply (NoDup_map_inj R.id prev); assumption).
    subst t. unfold isTerminal in Hterm. rewrite Hs in Hterm. discriminate.
  - apply merged_In in Hrec. destruct Hrec as [c [Hc [-> _]]].
    destruct (candidates_ok _ _ _ Ec) as [_ Hok].
    rewrite Forall_forall in Hok. specialize (Hok c Hc).
    destruct (adopt_id_cases prev c) as [[q [Hq [Hqs [Hqk Hqi]]]] | Hfresh].
    + rewrite Hqi in Eid'.
      assert (q = p) by (apply (NoDup_map_inj R.id prev); assumption).
      subst q. apply (identity_targets p c m Hqk) in Hm.
      destruct (cand_targets _ _ Hok m Hm) as [x [Hx [_ Ex]]].
      apply active_In in Hx. destruct Hx as [Hx _].
      apply Hgone. rewrite <- Ex. now apply in_map.
    + destruct (candidate_id _ _ _ _ Ec Hc) as [k Ek].
      apply (Hf k). rewrite <- Ek, <- Hfresh, Eid'. now apply in_map.
Qed.

(* ------------------------------------------------------------------------- *)
(** * Idempotence of reconciliation (C1) *)
(* ------------------------------------------------------------------------- *)

Lemma carry_existing txs t :
  (forall i, In i (R.transactionIds t) -> RS.exists_ txs i = true) ->
  carry txs t = t.
Proof.
  intros H. unfold carry. rewrite (filter_all _ _ H).
  destruct (R.transactionIds t) as [|i ids] eqn:E; simpl.
  - rewrite <- E. apply withTransactionIds_same.
  - rewrite <- E. apply withTransactionIds_same.
Qed.

Lemma carry_targets txs t i :
  In i (R.transactionIds (carry txs t)) -> RS.exists_ txs i = true.
Proof.
  unfold carry. destruct (_ && _); simpl; [intros []|].
  intros H. apply filter_In in H. tauto.
Qed.

Lemma carry_idem txs t : carry txs (carry txs t) = carry txs t.
Proof. apply carry_existing. apply carry_targets. Qed.

Lemma trimmed_carry txs t : trimmed txs (carry txs t) = carry txs t.
Proof.
  unfold trimmed. rewrite (filter_all _ _ (carry_targets txs t)).
  apply withTransactionIds_same.
Qed.

Lemma survives_terminal txs r : isTerminal r = true -> survives txs r = true.
Proof.
  unfold isTerminal, survives.
  destruct (R.status r); cbv; congruence.
Qed.

Lemma survives_ext txs a b :
  R.status a = R.status b -> R.type a = R.type b ->
  R.transactionIds a = R.transactionIds b ->
  survives txs a = survives txs b.
Proof.
  intros Es Et Ei. unfold survives, trimmed. simpl. now rewrite Es, Et, Ei.
Qed.

Lemma carried_terminal txs prev r :
  In r (carried txs prev) -> isTerminal r = true.
Proof.
  intros H. apply carried_In in H. destruct H as [t [_ [Ht ->]]].
  unfold isTerminal in *. destruct (carry_fields txs t) as [_ [-> _]].
  assumption.
Qed.

Lemma survivors_app txs a b :
  survivors txs (a ++ b) = survivors txs a ++ survivors txs b.
Proof. unfold survivors. now rewrite filter_app, map_app. Qed.

Lemma survivors_carried txs prev :
  survivors txs (carried txs prev) = carried txs prev.
Proof.
  unfold survivors.
  rewrite filter_all by (intros r Hr; apply survives_terminal;
                         now apply carried_terminal in Hr).
  rewrite <- (map_id (carried txs prev)) at 2. apply map_ext_in.
  intros r Hr. apply carried_In in Hr. destruct Hr as [t [_ [_ ->]]].
  apply trimmed_carry.
Qed.

Lemma survivors_fixed txs l :
  (forall r, In r l -> trimmed txs r = r) ->
  survivors txs l = filter (survives txs) l.
Proof.
  intros H. unfold survivors.
  rewrite <- (map_id (filter (survives txs) l)) at 2. apply map_ext_in.
  intros r Hr. apply filter_In in Hr. apply H. tauto.
Qed.

Lemma merged_candidates txs M K cands r :
  Forall (candidate_ok (RS.activeTransactionsForRules txs)) cands ->
  In r (merged M K cands) ->
  trimmed txs r = r /\ R.status r = pending.
Proof.
  intros Hf Hr. apply merged_In in Hr. destruct Hr as [c [Hc [-> _]]].
  rewrite Forall_forall in Hf. specialize (Hf c Hc). split.
  - now apply adopt_trimmed.
  - apply adopt_status. apply (cand_pending _ _ Hf).
Qed.

(** The recommendations pushed by step 3 have pairwise distinct identities. *)
Lemma merged_identities M K cands :
  NoDup (map RS.getRecommendationIdentity (merged M K cands))
  /\ forall r, In r (merged M K cands) ->
               ~ In (RS.getRecommendationIdentity r) K.
Proof.
  revert K. induction cands as [|c cs IH]; simpl; intros K.
  - split; [constructor | intros r []].
  - destruct (RS.hasKey K (RS.getRecommendationIdentity c)) eqn:E; [apply IH|].
    destruct (IH (RS.addKey K (RS.getRecommendationIdentity c))) as [Hn Hk].
    split.
    + simpl. constructor; [|assumption].
      rewrite adopt_identity. intros H. apply in_map_iff in H.
      destruct H as [r [Er Hr]]. apply (Hk r Hr). apply addKey_In. now right.
    + intros r [<- | Hr].
      * rewrite adopt_identity. intros H. apply hasKey_In in H. congruence.
      * intros H. apply (Hk r Hr). apply addKey_In. now left.
Qed.

(** With distinct ids in the previous list and fresh ids for the candidates,
    the recommendations pushed by step 3 have distinct ids. *)
Lemma merged_ids prev K cands :
  NoDup (map R.id prev) ->
  NoDup (map R.id cands) ->
  (forall c, In c cands -> ~ In (R.id c) (map R.id prev)) ->
  NoDup (map R.id (merged (pendingMap prev) K cands)).
Proof.
  intros Hp. revert K. induction cands as [|c cs IH]; simpl; intros K Hn Hf;
    [constructor|].
  inversion Hn as [|? ? Hc Hcs]; subst.
  assert (IH' : forall K', NoDup (map R.id (merged (pendingMap prev) K' cs))).
  { intros K'. apply IH; [assumption|]. intros c' Hc'. apply Hf. now right. }
  destruct (RS.hasKey K (RS.getRecommendationIdentity c)) eqn:E; [apply IH'|].
  simpl. constructor; [|apply IH'].
  intros H. apply in_map_iff in H. destruct H as [r [Er Hr]].
  destruct (merged_identities (pendingMap prev)
              (RS.addKey K (RS.getRecommendationIdentity c)) cs) as [_ Hk].
  specialize (Hk r Hr).
  apply merged_In in Hr. destruct Hr as [c' [Hc' [-> _]]].
  rewrite adopt_identity in Hk.
  assert (Hne : RS.getRecommendationIdentity c'
                <> RS.getRecommendationIdentity c).
  { intros Heq. apply Hk. apply addKey_In. now right. }
  destruct (adopt_id_cases prev c) as [[q [Hq [_ [Hqk Hqi]]]] | Hfc],
           (adopt_id_cases prev c') as [[q' [Hq' [_ [Hqk' Hqi']]]] | Hfc'].
  - assert (q' = q)
      by (apply (NoDup_map_inj R.id prev); congruence).
    subst q'. congruence.
  - apply (Hf c' (or_intror Hc')). rewrite <- Hfc', Er, Hqi. now apply in_map.
  - apply (Hf c (or_introl eq_refl)). rewrite <- Hfc, <- Er, Hqi'.
    now apply in_map.
  - apply Hc. rewrite <- Hfc, <- Er, Hfc'. now apply in_map.
Qed.

Lemma filter_distinct_ids (keep : R.t -> bool) (recs : list R.t) :
  NoDup (map R.id recs) -> NoDup (map R.id (filter keep recs)).
Proof.
  induction recs as [|x l IH]; simpl; intros H; [constructor|].
  inversion H as [|? ? Hx Hl]; subst.
  destruct (keep x); simpl; [|auto]. constructor; [|auto].
  intros Hin. apply Hx. apply in_map_iff in Hin.
  destruct Hin as [y [E Hy]]. apply filter_In in Hy. rewrite <- E.
  apply in_map. tauto.
Qed.

Lemma drawn_ids_distinct (uuid : nat -> string) (ks : list nat) :
  (forall j k, uuid j = uuid k -> j = k) ->
  NoDup ks -> NoDup (map uuid ks).
Proof.
  intros Hf. induction ks as [|x l IH]; simpl; intros H; [constructor|].
  inversion H as [|? ? Hx Hl]; subst. constructor; [|auto].
  intros Hin. apply in_map_iff in Hin. destruct Hin as [y [E Hy]].
  apply Hf in E. now subst.
Qed.

Lemma carried_ids txs prev :
  map R.id (carried txs prev) = map R.id (filter isTerminal prev).
Proof.
  unfold carried. rewrite map_map. apply map_ext. intros t.
  apply (carry_fields txs t).
Qed.

(** The output of a pass, when no two recommendations reaching step 5 share
    an id. *)
Lemma generate_output txs uuid prev cands :
  wellFormed prev -> freshFor uuid prev ->
  RS.candidateRecsFromRules txs uuid = Returns cands ->
  RS.generateRecommendations txs uuid prev
  = Returns (carried txs prev
             ++ filter (survives txs)
                       (merged (pendingMap prev) (resolvedKeys prev) cands)).
Proof.
  intros [Hn _] [Hinj Hfresh] Ec. apply generate_steps. exists cands.
  split; [assumption|].
  destruct (candidates_ok _ _ _ Ec) as [Hnum Hok].
  set (P := merged (pendingMap prev) (resolvedKeys prev) cands).
  rewrite survivors_app, survivors_carried.
  rewrite (survivors_fixed txs P)
    by (intros r Hr; apply (merged_candidates txs _ _ _ r Hok Hr)).
  rewrite fold_insertRec_fresh; [reflexivity | | intros r _ []].
  rewrite map_app. apply NoDup_app.
  - rewrite carried_ids. now apply filter_distinct_ids.
  - apply filter_distinct_ids. apply merged_ids; [assumption | |].
    + rewrite Hnum. apply drawn_ids_distinct; [exact Hinj|].
      apply seq_NoDup.
    + intros c Hc. destruct (candidate_id _ _ _ _ Ec Hc) as [k ->].
      apply Hfresh.
  - intros i Ht Hp. rewrite carried_ids in Ht.
    apply in_map_iff in Ht. destruct Ht as [t [Et Ht]].
    apply filter_In in Ht. destruct Ht as [Ht Hterm].
    apply in_map_iff in Hp. destruct Hp as [r [Er Hr]].
    apply filter_In in Hr. destruct Hr as [Hr _].
    apply merged_In in Hr. destruct Hr as [c [Hc [-> _]]].
    destruct (adopt_id_cases prev c) as [[q [Hq [Hqs [_ Hqi]]]] | Hfc].
    + assert (q = t) by (apply (NoDup_map_inj R.id prev); congruence).
      subst q. unfold isTerminal in Hterm. rewrite Hqs in Hterm. discriminate.
    + destruct (candidate_id _ _ _ _ Ec Hc) as [k Ek].
      apply (Hfresh k). rewrite <- Ek, <- Hfc, Er, <- Et. now apply in_map.
Qed.

Lemma filter_length_eq {A} (p : A -> bool) (l : list A) :
  List.length (filter p l) = List.length l -> filter p l = l.
Proof.
  induction l as [|x l IH]; simpl; [reflexivity|].
  pose proof (filter_length_le p l) as Hle.
  destruct (p x); simpl; intros H; [f_equal; apply IH; lia | lia].
Qed.

Lemma identity_shape a b :
  RS.getRecommendationIdentity a = RS.getRecommendationIdentity b ->
  R.type a = R.type b
  /\ List.length (R.transactionIds a) = List.length (R.transactionIds b).
Proof.
  unfold RS.getRecommendationIdentity. intros E. injection E as Et Es _ _.
  split; [assumption|].
  rewrite <- (sort_length (R.transactionIds a)),
          <- (sort_length (R.transactionIds b)). now rewrite Es.
Qed.

Lemma arity_positive t : 1 <= arity t.
Proof. destruct t; simpl; lia. Qed.

(** A resolved recommendation blocks a candidate before step 1 exactly when
    its carried copy does. *)
Lemma carry_blocks txs t c :
  List.length (R.transactionIds t) <= arity (R.type t) ->
  candidate_ok (RS.activeTransactionsForRules txs) c ->
  RS.getRecommendationIdentity c = RS.getRecommendationIdentity t
  <-> RS.getRecommendationIdentity c
      = RS.getRecommendationIdentity (carry txs t).
Proof.
  intros Hle Hok. split; intros E.
  - rewrite carry_existing; [assumption|]. intros i Hi.
    apply (identity_targets t c i (eq_sym E)) in Hi.
    destruct (cand_targets _ _ Hok i Hi) as [x [Hx [_ <-]]].
    apply exists_In, in_map. now apply active_In in Hx.
  - destruct (identity_shape _ _ E) as [Et El].
    destruct (carry_fields txs t) as [_ [_ Ety]]. rewrite Ety in Et.
    rewrite (cand_arity _ _ Hok), Et in El.
    pose proof (arity_positive (R.type t)) as Hpos.
    assert (Ec : carry txs t = t); [|now rewrite Ec in E].
    apply carry_existing. revert El. unfold carry.
    destruct (_ && _); simpl; [intros El; lia|]. intros El.
    pose proof (filter_length_le (RS.exists_ txs) (R.transactionIds t)) as Hf.
    assert (Ef : filter (RS.exists_ txs) (R.transactionIds t)
                 = R.transactionIds t) by (apply filter_length_eq; lia).
    intros i Hi. rewrite <- Ef in Hi. apply filter_In in Hi. tauto.
Qed.

Lemma filter_terminal_output txs prev S :
  (forall r, In r S -> R.status r = pending) ->
  filter isTerminal (carried txs prev ++ S) = carried txs prev.
Proof.
  intros HS. rewrite filter_app.
  rewrite (filter_all isTerminal (carried txs prev))
    by (intros r Hr; now apply carried_terminal in Hr).
  assert (E : filter isTerminal S = []).
  { induction S as [|r S IH]; simpl; [reflexivity|].
    unfold isTerminal at 1. rewrite (HS r (or_introl eq_refl)). simpl.
    apply IH. intros r' Hr'. apply HS. now right. }
  rewrite E. apply app_nil_r.
Qed.

Lemma carried_again txs prev S :
  (forall r, In r S -> R.status r = pending) ->
  carried txs (carried txs prev ++ S) = carried txs prev.
Proof.
  intros HS. unfold carried at 1. rewrite (filter_terminal_output _ _ _ HS).
  unfold carried. rewrite map_map.
  apply map_ext. intros t. apply carry_idem.
Qed.

Lemma agree_after_pass txs prev S :
  wellFormed prev ->
  (forall r, In r S -> R.status r = pending) ->
  agree txs (resolvedKeys prev) (resolvedKeys (carried txs prev ++ S)).
Proof.
  intros [_ Har] HS c Hok.
  assert (H : In (RS.getRecommendationIdentity c) (resolvedKeys prev)
              <-> In (RS.getRecommendationIdentity c)
                     (resolvedKeys (carried txs prev ++ S))).
  { rewrite !resolvedKeys_In. split.
    - intros [t [Ht [Hterm E]]]. exists (carry txs t). split; [|split].
      + apply in_app_iff. left. unfold carried. apply in_map.
        apply filter_In. auto.
      + unfold isTerminal in *. now destruct (carry_fields txs t) as [_ [-> _]].
      + apply (carry_blocks txs t c); auto.
    - intros [t' [Ht' [Hterm E]]].
      assert (Hc : In t' (carried txs prev)).
      { apply in_app_iff in Ht'. destruct Ht' as [H | H]; [assumption|].
        unfold isTerminal in Hterm. rewrite (HS t' H) in Hterm. discriminate. }
      apply carried_In in Hc. destruct Hc as [t [Ht [Hterm' ->]]].
      exists t. repeat split; auto. apply (carry_blocks txs t c); auto. }
  destruct (RS.hasKey (resolvedKeys prev) _) eqn:E1,
           (RS.hasKey (resolvedKeys (carried txs prev ++ S)) _) eqn:E2;
    try reflexivity.
  - apply hasKey_In, H in E1. apply (proj2 (hasKey_In _ _)) in E1. congruence.
  - apply hasKey_In, H in E2. apply (proj2 (hasKey_In _ _)) in E2. congruence.
Qed.

Lemma agree_add txs Ka Kb k : agree txs Ka Kb ->
  agree txs (RS.addKey Ka k) (RS.addKey Kb k).
Proof.
  intros H c Hok. specialize (H c Hok).
  assert (G : forall K,
             RS.hasKey (RS.addKey K k) (RS.getRecommendationIdentity c)
             = RS.hasKey K (RS.getRecommendationIdentity c)
               || RS.sameKey (RS.getRecommendationIdentity c) k).
  { intros K. unfold RS.addKey. destruct (RS.hasKey K k) eqn:Ek.
    - destruct (RS.sameKey _ k) eqn:Es; [|now rewrite orb_false_r].
      apply sameKey_eq in Es. rewrite Es, Ek. reflexivity.
    - unfold RS.hasKey. rewrite existsb_app. simpl. now rewrite orb_false_r. }
  now rewrite !G, H.
Qed.

Lemma erase_identity c1 c2 :
  erase c1 = erase c2 ->
  RS.getRecommendationIdentity c1 = RS.getRecommendationIdentity c2
  /\ R.type c1 = R.type c2 /\ R.transactionIds c1 = R.transactionIds c2
  /\ R.status c1 = R.status c2.
Proof.
  destruct c1, c2. unfold erase, RS.getRecommendationIdentity. simpl.
  intros E. injection E as -> -> -> -> -> -> -> ->. auto.
Qed.

Lemma adopt_same M1 M2 c1 c2 :
  erase c1 = erase c2 -> R.status c1 = pending ->
  RS.getByKey M2 (RS.getRecommendationIdentity c2) = Some (adopt M1 c1) ->
  adopt M2 c2 = adopt M1 c1.
Proof.
  intros E Hs Hg. unfold adopt at 1. rewrite Hg. unfold adopt.
  destruct (RS.getByKey M1 _) as [p|]; destruct c1, c2;
    unfold erase in E; simpl in *;
    injection E as -> -> -> -> -> -> -> ->; subst; reflexivity.
Qed.

(** Step 3 of the second pass pushes what survived the first. *)
Lemma merge_again txs M1 M2 cs1 :
  forall cs2 Ka Kb,
    same_content cs1 cs2 ->
    Forall (candidate_ok (RS.activeTransactionsForRules txs)) cs1 ->
    agree txs Ka Kb ->
    (forall r, In r (filter (survives txs) (merged M1 Ka cs1)) ->
               RS.getByKey M2 (RS.getRecommendationIdentity r) = Some r) ->
    filter (survives txs) (merged M2 Kb cs2)
    = filter (survives txs) (merged M1 Ka cs1).
Proof.
  induction cs1 as [|c1 cs1 IH]; intros cs2 Ka Kb Hc Hok Hag Hsub.
  - destruct cs2; [reflexivity | discriminate].
  - destruct cs2 as [|c2 cs2]; [discriminate|].
    unfold same_content in Hc. simpl in Hc.
    assert (Ee : erase c1 = erase c2) by congruence.
    assert (Hc' : same_content cs1 cs2) by (unfold same_content; congruence).
    clear Hc.
    inversion Hok as [|? ? Hok1 Hoks]; subst.
    destruct (erase_identity _ _ Ee) as [Ei [Ety [Eids Est]]].
    pose proof (cand_pending _ _ Hok1) as Hp1.
    assert (Hp2 : R.status c2 = pending) by congruence.
    simpl in *. rewrite <- Ei, <- (Hag c1 Hok1).
    destruct (RS.hasKey Ka (RS.getRecommendationIdentity c1)) eqn:Ek.
    + apply IH; assumption.
    + assert (Esv : survives txs (adopt M2 c2) = survives txs (adopt M1 c1)).
      { destruct (adopt_fields M1 c1) as [T1 [I1 _]].
        destruct (adopt_fields M2 c2) as [T2 [I2 _]].
        apply survives_ext; [| congruence | congruence].
        rewrite (adopt_status M2 c2 Hp2), (adopt_status M1 c1 Hp1).
        reflexivity. }
      simpl. rewrite Esv.
      destruct (survives txs (adopt M1 c1)) eqn:Es.
      * assert (Ea : adopt M2 c2 = adopt M1 c1).
        { apply adopt_same; [assumption | assumption |].
          rewrite <- Ei, <- (adopt_identity M1 c1). apply Hsub.
          cbn [filter]. rewrite Es. now left. }
        rewrite Ea. f_equal. apply IH; auto using agree_add.
        intros r Hr. apply Hsub. cbn [filter]. rewrite Es. now right.
      * apply IH; auto using agree_add.
        intros r Hr. apply Hsub. cbn [filter]. now rewrite Es.
Qed.

(** C1.  Idempotence of reconciliation: on an unchanged record list, running
    [generateRecommendations] on the output of a first run returns that
    output again, recommendation for recommendation (ids, statuses and
    content).  The previous list is one of the data model (distinct ids, at
    most the targets its type allows on a resolved recommendation) and the
    ids drawn by the first run are new. *)
Theorem reconcile_idempotent txs uuid1 uuid2 prev out1 :
  wellFormed prev -> freshFor uuid1 prev ->
  RS.generateRecommendations txs uuid1 prev = Returns out1 ->
  RS.generateRecommendations txs uuid2 out1 = Returns out1.
Proof.
  intros Hwf Hfresh Hrun.
  pose proof (generate_NoDup _ _ _ _ Hrun) as Hnd.
  pose proof Hrun as Hsteps. apply generate_steps in Hsteps.
  destruct Hsteps as [cands1 [Ec1 _]].
  rewrite (generate_output _ _ _ _ Hwf Hfresh Ec1) in Hrun.
  injection Hrun as Hout.
  destruct (candidates_ok _ _ _ Ec1) as [_ Hok1].
  set (P1 := merged (pendingMap prev) (resolvedKeys prev) cands1) in *.
  set (S1 := filter (survives txs) P1) in *.
  assert (HS : forall r, In r S1 -> R.status r = pending).
  { intros r Hr. apply filter_In in Hr. destruct Hr as [Hr _].
    apply (merged_candidates txs _ _ _ r Hok1 Hr). }
  pose proof (candidates_content txs uuid1 uuid2) as Hcc. rewrite Ec1 in Hcc.
  destruct (RS.candidateRecsFromRules txs uuid2) as [cands2| |] eqn:Ec2;
    simpl in Hcc; try contradiction.
  destruct (candidates_ok _ _ _ Ec2) as [_ Hok2].
  assert (Hget : forall r, In r S1 ->
                   RS.getByKey (pendingMap out1)
                               (RS.getRecommendationIdentity r) = Some r).
  { intros r Hr. apply pendingMap_get_unique.
    - right. repeat split; [| now apply HS].
      rewrite <- Hout. apply in_app_iff. now right.
    - intros r' Hr' Hs' Hk'. rewrite <- Hout in Hr'.
      apply in_app_iff in Hr'. destruct Hr' as [Hr' | Hr'].
      + apply carried_terminal in Hr'. unfold isTerminal in Hr'.
        rewrite Hs' in Hr'. discriminate.
      + destruct (merged_identities (pendingMap prev) (resolvedKeys prev)
                                    cands1) as [Hni _].
        apply (NoDup_map_inj RS.getRecommendationIdentity P1); auto.
        * apply filter_In in Hr'. tauto.
        * apply filter_In in Hr. tauto. }
  assert (Hagree : agree txs (resolvedKeys prev) (resolvedKeys out1)).
  { rewrite <- Hout. now apply agree_after_pass. }
  assert (Hcar : carried txs out1 = carried txs prev).
  { rewrite <- Hout. now apply carried_again. }
  apply generate_steps. exists cands2. split; [exact Ec2|].
  rewrite Hcar, survivors_app, survivors_carried.
  rewrite survivors_fixed
    by (intros r Hr; apply (merged_candidates txs _ _ _ r Hok2 Hr)).
  rewrite (merge_again txs (pendingMap prev) (pendingMap out1) cands1 cands2
                       (resolvedKeys prev) (resolvedKeys out1)
                       Hcc Hok1 Hagree Hget).
  fold P1. fold S1. rewrite Hout.
  rewrite fold_insertRec_fresh; [reflexivity | assumption | intros r _ []].
Qed.

(* ------------------------------------------------------------------------- *)
(** * The two similarity functions (C5, C6) *)
(* ------------------------------------------------------------------------- *)

Lemma prefix_refl (s : string) : String.prefix s s = true.
Proof.
  induction s as [|c s IH]; simpl; [reflexivity|].
  destruct (ascii_dec c c); [assumption | congruence].
Qed.

Lemma includes_refl (s : string) : JsString.includes s s = true.
Proof.
  destruct s; [reflexivity|]. cbn [JsString.includes].
  now rewrite prefix_refl.
Qed.

Lemma toLowerCase_length (s : string) :
  String.length (JsString.toLowerCase s) = String.length s.
Proof. induction s as [|c s IH]; simpl; congruence. Qed.

Lemma length_zero (s : string) : String.length s = 0 -> s = EmptyString.
Proof. destruct s; simpl; [reflexivity | discriminate]. Qed.

(** On equal strings [simpleSimilarity] is 1 for the empty string and 0.8
    otherwise. *)
Lemma simpleSimilarity_same (s : string) :
  DuplicateRule.simpleSimilarity s s
  = if String.length s =? 0 then JsNumber.Finite 1.0 else JsNumber.Finite 0.8.
Proof.
  unfold DuplicateRule.simpleSimilarity. rewrite Nat.ltb_irrefl.
  destruct (String.length s =? 0); [reflexivity|].
  now rewrite includes_refl, Nat.sub_diag.
Qed.

Lemma prefix_length (sub s : string) :
  String.prefix sub s = true -> String.length sub <= String.length s.
Proof.
  revert s. induction sub as [|c sub IH]; intros [|d s]; simpl;
    try lia; try discriminate.
  destruct (Ascii.ascii_dec c d); [|discriminate].
  intros H. apply IH in H. lia.
Qed.

Lemma includes_length (s sub : string) :
  JsString.includes s sub = true -> String.length sub <= String.length s.
Proof.
  induction s as [|c s IH]; cbn [JsString.includes]; intros H;
    apply orb_true_iff in H; destruct H as [H | H];
    try (now apply prefix_length in H); try discriminate.
  apply IH in H. simpl. lia.
Qed.

Lemma prefix_whole (sub s : string) :
  String.prefix sub s = true -> String.length s = String.length sub -> sub = s.
Proof.
  revert s. induction sub as [|c sub IH]; intros [|d s]; simpl;
    try reflexivity; try discriminate.
  destruct (Ascii.ascii_dec c d) as [<-|]; [|discriminate].
  intros H L. f_equal. apply IH; [assumption | lia].
Qed.

(** A string that contains another of its own length is that string. *)
Lemma includes_whole (s sub : string) :
  JsString.includes s sub = true -> String.length s = String.length sub ->
  sub = s.
Proof.
  destruct s as [|c s]; cbn [JsString.includes]; intros H L;
    apply orb_true_iff in H; destruct H as [H | H];
    try (now apply prefix_whole); try discriminate.
  apply includes_length in H. simpl in L. lia.
Qed.

(** The containment branch of [simpleSimilarity], in both argument orders. *)
Lemma simpleSimilarity_contained (a b : string) :
  String.length a <= String.length b -> b <> EmptyString ->
  JsString.includes (JsString.toLowerCase b) (JsString.toLowerCase a) = true ->
  String.length b - String.length a < 5 ->
  DuplicateRule.simpleSimilarity a b = JsNumber.Finite 0.8
  /\ DuplicateRule.simpleSimilarity b a = JsNumber.Finite 0.8.
Proof.
  intros Hle Hb Hin Hgap.
  assert (Hpos : (String.length b =? 0) = false).
  { apply Nat.eqb_neq. intros E. apply length_zero in E. contradiction. }
  assert (Hsub : (String.length b - String.length a <? 5) = true)
    by now apply Nat.ltb_lt.
  unfold DuplicateRule.simpleSimilarity. split.
  - assert (E : (String.length b <? String.length a) = false)
      by (apply Nat.ltb_ge; lia).
    now rewrite E, Hpos, Hin, Hsub.
  - destruct (String.length a <? String.length b) eqn:E.
    + now rewrite Hpos, Hin, Hsub.
    + apply Nat.ltb_ge in E.
      assert (L : String.length a = String.length b) by lia.
      rewrite L, Hpos.
      assert (Eq : JsString.toLowerCase a = JsString.toLowerCase b).
      { apply includes_whole; [assumption|].
        now rewrite !toLowerCase_length. }
      now rewrite Eq, includes_refl, Nat.sub_diag.
Qed.

Lemma matchingChars_le (a b : string) :
  DuplicateRule.matchingChars a b <= String.length b.
Proof.
  induction b as [|c b IH]; simpl; [lia|].
  destruct (JsString.includesChar a c); lia.
Qed.

(** The division of [simpleSimilarity] is never by zero: the result is a
    finite number between 0 and 1. *)
Lemma simpleSimilarity_finite (s1 s2 : string) :
  exists q, DuplicateRule.simpleSimilarity s1 s2 = JsNumber.Finite q
            /\ (0 <= q)%Q /\ (q <= 1)%Q.
Proof.
  unfold DuplicateRule.simpleSimilarity.
  set (longer := if String.length s2 <? String.length s1 then s1 else s2).
  set (shorter := if String.length s2 <? String.length s1 then s2 else s1).
  assert (Hle : String.length shorter <= String.length longer).
  { subst longer shorter.
    destruct (String.length s2 <? String.length s1) eqn:E.
    - apply Nat.ltb_lt in E. lia.
    - apply Nat.ltb_ge in E. lia. }
  destruct (String.length longer =? 0) eqn:E0.
  - exists 1.0%Q. repeat split; unfold Qle; simpl; lia.
  - destruct (_ && _).
    + exists 0.8%Q. repeat split; unfold Qle; simpl; lia.
    + apply Nat.eqb_neq in E0.
      pose proof (matchingChars_le (JsString.toLowerCase longer)
                                   (JsString.toLowerCase shorter)) as Hm.
      rewrite toLowerCase_length in Hm.
      unfold JsNumber.div.
      destruct (String.length longer) as [|n] eqn:El; [congruence|].
      eexists. split; [reflexivity|]. unfold Qle. cbn [Qnum Qden].
      assert (Hp : Z.pos (Pos.of_nat (S n)) = Z.of_nat (S n))
        by (rewrite <- positive_nat_Z, Nat2Pos.id; [reflexivity | lia]).
      rewrite Hp. lia.
Qed.

Lemma equal_descriptions_similar (d1 d2 : string) :
  String.eqb d1 d2 = true ->
  JsNumber.gt (DuplicateRule.simpleSimilarity d1 d2) 0.7 = true.
Proof.
  intros E. apply String.eqb_eq in E. subst d2.
  rewrite simpleSimilarity_same. now destruct (String.length d1 =? 0).
Qed.

(** The last branch of the confidence cascade is never taken: an exact match
    of both texts is caught by an earlier branch. *)
Lemma pairConfidence_of_exact_match (t1 t2 : T.t) :
  T.paidTo t1 = T.paidTo t2 -> T.description t1 = T.description t2 ->
  DuplicateRule.pairConfidence t1 t2
  = if String.length (T.paidTo t1) =? 0 then 0.9%Q else 0.95%Q.
Proof.
  intros Ep Ed. unfold DuplicateRule.pairConfidence.
  rewrite <- Ep, <- Ed, !String.eqb_refl, !simpleSimilarity_same.
  destruct (String.length (T.paidTo t1) =? 0),
           (String.length (T.description t1) =? 0); reflexivity.
Qed.

Lemma pairConfidence_values (t1 t2 : T.t) :
  In (DuplicateRule.pairConfidence t1 t2)
     [0.9%Q; 0.95%Q; 0.75%Q; 0%Q].
Proof.
  unfold DuplicateRule.pairConfidence.
  pose proof (equal_descriptions_similar (T.description t1) (T.description t2))
    as Hd.
  destruct (JsNumber.gt (DuplicateRule.simpleSimilarity (T.paidTo t1) _) _),
           (JsNumber.gt (DuplicateRule.simpleSimilarity (T.description t1) _) _),
           (String.eqb (T.paidTo t1) (T.paidTo t2)),
           (String.eqb (T.description t1) (T.description t2));
    simpl; auto 6.
  all: specialize (Hd eq_refl); discriminate.
Qed.

(** C6 (the code at the failing input).  Two records of one (date, amount)
    group with equal counterparty names and equal descriptions get a Duplicate
    recommendation whose confidence is 0.95, not 1.0. *)
Theorem exact_match_confidence uuid :
  DuplicateRule.findDuplicateRecommendations
    uuid (exactPair "Starbucks" "coffee" "a" "b")
  = Returns
      [ R.mk (uuid 0) Duplicate ["a"; "b"] None
          (Some (VDuplicateFields "Starbucks" "coffee" "Starbucks" "coffee"))
          "Mark one for deletion or review."
          (Some (JsNumber.Finite 0.95))
          (DuplicateRule.description
             (T.mk "a" "2024-03-01" "Starbucks" 42.5 EmptyString EmptyString
                   "coffee" EmptyString None Flags.empty None)
             (T.mk "b" "2024-03-01" "Starbucks" 42.5 EmptyString EmptyString
                   "coffee" EmptyString None Flags.empty None))
          pending ].
Proof. reflexivity. Qed.

(** The two similarity functions disagree, on the value and on the verdict at
    one cutoff. *)
Lemma similarity_values_differ :
  ~ (forall s1 s2 : string,
        sameNumber (DuplicateRule.simpleSimilarity s1 s2)
                   (MerchantRule.similarityScore s1 s2)).
Proof.
  intros H. specialize (H "abc" "cba"). vm_compute in H. discriminate.
Qed.

(** C5 (as amended).  The duplicate detector and the merchant normalizer use
    two different similarity functions.  [simpleSimilarity] returns 1 for two
    empty strings and, on ASCII strings of which the longer is not empty, 0.8
    whenever the lower-cased longer string contains the lower-cased shorter
    one and the lengths differ by less than 5 (in either argument order); on
    every non-empty string compared with itself it gives 0.8,
    which is not above the cutoff 0.8 of the duplicate detector, while
    [areStringsSimilar] accepts the pair at every cutoff.  Inside the merchant
    normalizer the test and the confidence do share one normalized edit
    distance: when the normalized names differ and the length shortcut does
    not apply, [areStringsSimilar] compares [similarityScore] with the
    cutoff. *)
Theorem similarity_primitives :
  DuplicateRule.simpleSimilarity EmptyString EmptyString = JsNumber.Finite 1.0
  /\ (forall a b,
         isAscii a = true -> isAscii b = true ->
         String.length a <= String.length b -> b <> EmptyString ->
         JsString.includes (JsString.toLowerCase b) (JsString.toLowerCase a)
         = true ->
         String.length b - String.length a < 5 ->
         DuplicateRule.simpleSimilarity a b = JsNumber.Finite 0.8
         /\ DuplicateRule.simpleSimilarity b a = JsNumber.Finite 0.8)
  /\ (forall s, s <> EmptyString ->
                DuplicateRule.simpleSimilarity s s = JsNumber.Finite 0.8
                /\ JsNumber.gt (DuplicateRule.simpleSimilarity s s) 0.8 = false
                /\ forall t, MerchantRule.areStringsSimilar s s t = true)
  /\ (forall a b t,
         MerchantRule.normalize a <> MerchantRule.normalize b ->
         lengthsFarApart a b = false ->
         MerchantRule.areStringsSimilar a b t
         = JsNumber.ge (MerchantRule.similarityScore a b) t).
Proof.
  split; [reflexivity|].
  split; [intros a b _ _; apply simpleSimilarity_contained|].
  split.
  - intros s Hs. rewrite simpleSimilarity_same.
    destruct (String.length s =? 0) eqn:E.
    + apply Nat.eqb_eq, length_zero in E. contradiction.
    + repeat split. intros t. unfold MerchantRule.areStringsSimilar.
      now rewrite String.eqb_refl.
  - intros a b t Hne Hfar.
    unfold MerchantRule.areStringsSimilar, MerchantRule.similarityScore.
    unfold lengthsFarApart in Hfar.
    destruct (String.eqb (MerchantRule.normalize a) (MerchantRule.normalize b))
      eqn:E; [apply String.eqb_eq in E; contradiction|].
    cbv zeta in Hfar. rewrite Hfar.
    destruct (Nat.max _ _ =? 0) eqn:Em.
    + exfalso. apply Nat.eqb_eq in Em. apply Hne.
      rewrite (length_zero (MerchantRule.normalize a)) by lia.
      rewrite (length_zero (MerchantRule.normalize b)) by lia. reflexivity.
    + apply Nat.eqb_neq in Em.
      destruct (0 <? Nat.max _ _) eqn:Ep; [reflexivity|].
      apply Nat.ltb_ge in Ep. lia.
Qed.

(* ------------------------------------------------------------------------- *)
(** * The merchant-name normalizer (C8, C9) *)
(* ------------------------------------------------------------------------- *)

Lemma insertNew_In {V} (o : JsObject.t V) k v x :
  In x (JsObject.insertNew o k v) -> x = (k, v) \/ In x o.
Proof.
  induction o as [|[k' v'] o IH]; simpl.
  - destruct (JsObject.arrayIndex k); simpl; intuition.
  - destruct (JsObject.arrayIndex k) as [n|].
    + destruct (JsObject.arrayIndex k') as [n'|].
      * destruct (n' <? n)%N; simpl; [|intuition].
        intros [H | H]; [auto|]. destruct (IH H); auto.
      * simpl. intuition.
    + simpl. rewrite in_app_iff. simpl. intuition.
Qed.

Lemma JsObject_set_In {V} (o : JsObject.t V) k v k' v' :
  In (k', v') (JsObject.set o k v) -> (k' = k /\ v' = v) \/ In (k', v') o.
Proof.
  unfold JsObject.set. destruct (JsMap.has o k).
  - apply JsMap_set_In.
  - intros H. destruct (insertNew_In _ _ _ _ H) as [E | H']; [|auto].
    injection E as -> ->. auto.
Qed.

Lemma JsObject_get_Own {V} (o : JsObject.t V) k v :
  JsObject.get o k = JsObject.Own v -> In (k, v) o.
Proof.
  unfold JsObject.get. destruct (JsMap.get o k) as [v0|] eqn:E.
  - intros H. injection H as <-. now apply JsMap_get_In.
  - destruct (JsObject.inheritedMember k); discriminate.
Qed.

Lemma sweep_clustered merchant cm other :
  clustered cm -> clustered (MerchantRule.sweep merchant cm other).
Proof.
  intros H. unfold MerchantRule.sweep. destruct (_ && _); [|assumption].
  destruct (MerchantRule.areStringsSimilar merchant other 0.8) eqn:E;
    [|assumption].
  intros k v Hin. destruct (JsObject_set_In _ _ _ _ _ Hin) as [[-> ->] | H'];
    auto.
Qed.

Lemma cluster_clustered sorted cm merchant :
  clustered cm -> clustered (MerchantRule.cluster sorted cm merchant).
Proof.
  intros H. unfold MerchantRule.cluster.
  destruct (MerchantRule.mapped cm merchant); [assumption|].
  destruct (find _ _) as [canonicalKey|] eqn:Ef.
  - apply find_some in Ef. destruct Ef as [_ Es].
    intros k v Hin. destruct (JsObject_set_In _ _ _ _ _ Hin) as [[-> ->] | H'];
      auto.
  - apply fold_left_inv; [intros; now apply sweep_clustered|].
    intros k v Hin. destruct (JsObject_set_In _ _ _ _ _ Hin) as [[-> ->] | H'];
      auto.
Qed.

Lemma similarityScore_bounds a b :
  exists q, MerchantRule.similarityScore a b = JsNumber.Finite q.
Proof.
  unfold MerchantRule.similarityScore.
  destruct (Nat.max _ _) as [|n] eqn:E; simpl.
  - destruct (_ && _); eauto.
  - eauto.
Qed.

Lemma Qle_bool_false a b : Qle_bool a b = false -> (b <= a)%Q.
Proof.
  intros H. apply Qlt_le_weak, Qnot_le_lt. intros Hle.
  apply Qle_bool_iff in Hle. congruence.
Qed.

(** The confidence of a recommendation is a finite number, clamped. *)
Lemma clamp_bounds (score : JsNumber.number) :
  (exists q, score = JsNumber.Finite q) ->
  exists q, JsNumber.min 0.95 (JsNumber.max 0.5
                                 (JsNumber.plus 0.6 (JsNumber.times score 0.35)))
            = JsNumber.Finite q
            /\ (0.5 <= q)%Q /\ (q <= 0.95)%Q.
Proof.
  intros [s ->]. simpl. eexists. split; [reflexivity|].
  set (c := (0.6 + s * 0.35)%Q).
  destruct (Qle_bool 0.5 c) eqn:E1.
  - destruct (Qle_bool 0.95 c) eqn:E2.
    + split; [unfold Qle; simpl; lia | apply Qle_refl].
    + split; [now apply Qle_bool_iff | now apply Qle_bool_false].
  - assert (E2 : Qle_bool 0.95 0.5 = false) by reflexivity. rewrite E2.
    split; [apply Qle_refl | unfold Qle; simpl; lia].
Qed.

Lemma suggest_ok uuid txs cm s x s' :
  clustered cm -> In x txs -> Forall (merchant_ok txs) s ->
  MerchantRule.suggest uuid cm s x = Returns s' ->
  Forall (merchant_ok txs) s'.
Proof.
  intros Hc Hx Hs. unfold MerchantRule.suggest.
  destruct (T.deleted x) eqn:Hd; [intros E; injection E as <-; assumption|].
  destruct (negb _); [intros E; injection E as <-; assumption|].
  destruct (JsObject.get cm (JsString.trim (T.paidTo x))) as [c|h|] eqn:Eg;
    [| discriminate | intros E; injection E as <-; assumption].
  destruct (JsString.truthy c && negb (String.eqb c (JsString.trim (T.paidTo x))))
    eqn:Ec; intros E; injection E as <-; [|assumption].
  apply Forall_app. split; [assumption|]. constructor; [|constructor].
  apply andb_true_iff in Ec. destruct Ec as [_ Ene].
  apply negb_true_iff, String.eqb_neq in Ene.
  apply JsObject_get_Own in Eg.
  exists x. simpl. repeat split; auto.
  - destruct (Hc _ _ Eg) as [E | [E | E]]; [congruence | auto | auto].
  - destruct (clamp_bounds _ (similarityScore_bounds
                                (JsString.trim (T.paidTo x)) c))
      as [q [Eq Hq]].
    exists q. rewrite Eq. auto.
Qed.

Lemma normalizeMerchant_ok uuid txs recs :
  MerchantRule.normalizeMerchantRecommendations uuid txs = Returns recs ->
  Forall (merchant_ok txs) recs.
Proof.
  unfold MerchantRule.normalizeMerchantRecommendations.
  destruct (fold_left MerchantRule.countMerchant txs ([], []))
    as [merchantCounts uniqueMerchants].
  apply (foldM_inv (fun s => Forall (merchant_ok txs) s)); [|constructor].
  intros s x s' Hx Hs. apply suggest_ok; [|assumption|assumption].
  apply fold_left_inv; [intros; now apply cluster_clustered|].
  intros k v [].
Qed.

(** The example of the specification: the two names are not similar at the
    cutoff 0.8, and the normalizer emits nothing. *)
Lemma merchant_example_outcome :
  MerchantRule.normalizeMerchantRecommendations
    uuidExample (merchantExample "AMZN Mktp US" "AMZN MKTPLACE")
  = Returns [].
Proof. vm_compute. reflexivity. Qed.

(** A variant that is similar enough is normalized to the frequent name. *)
Lemma merchant_variant_example :
  MerchantRule.normalizeMerchantRecommendations
    uuidExample (merchantExample "AMZN Mktp US" "AMZN Mktp USA")
  = Returns
      [ R.mk "uuid-0" MerchantNormalization ["t6"] (Some Field.paidTo)
          (Some (VString "AMZN Mktp USA")) "AMZN Mktp US"
          (Some (JsNumber.min 0.95
                   (JsNumber.max 0.5
                      (JsNumber.plus 0.6
                         (JsNumber.times
                            (MerchantRule.similarityScore "AMZN Mktp USA"
                                                          "AMZN Mktp US")
                            0.35)))))
          (MerchantRule.description "AMZN Mktp USA" "AMZN Mktp US")
          pending ].
Proof. vm_compute. reflexivity. Qed.

(** C8 (as amended).  Merchant normalization example: for five records named
    AMZN Mktp US and one named AMZN MKTPLACE the normalized names are at edit
    distance 4 of 13 characters, a similarity of 9/13 below the cutoff 0.8,
    and the normalizer emits no recommendation.  Whenever the normalizer does
    emit a recommendation, it is for an undeleted record whose trimmed name is
    the originalValue, the suggestedValue is a different name that passes
    [areStringsSimilar] with it at 0.8, and the confidence lies in
    [0.5, 0.95]. *)
Theorem merchant_normalization :
  MerchantRule.distance (MerchantRule.normalize "AMZN MKTPLACE")
                        (MerchantRule.normalize "AMZN Mktp US") = 4
  /\ MerchantRule.areStringsSimilar "AMZN MKTPLACE" "AMZN Mktp US" 0.8 = false
  /\ MerchantRule.areStringsSimilar "AMZN Mktp US" "AMZN MKTPLACE" 0.8 = false
  /\ (forall uuid,
         MerchantRule.normalizeMerchantRecommendations
           uuid (merchantExample "AMZN Mktp US" "AMZN MKTPLACE") = Returns [])
  /\ (forall uuid txs recs r,
         MerchantRule.normalizeMerchantRecommendations uuid txs = Returns recs ->
         In r recs -> merchant_ok txs r).
Proof.
  split; [vm_compute; reflexivity|].
  split; [vm_compute; reflexivity|].
  split; [vm_compute; reflexivity|].
  split; [intros uuid; vm_compute; reflexivity|].
  intros uuid txs recs r H Hr.
  apply normalizeMerchant_ok in H. rewrite Forall_forall in H. now apply H.
Qed.

(** C9 (the code at the failing input).  A record whose counterparty name is
    the name of a member of [Object.prototype] makes the merchant normalizer
    throw: [canonicalMap[name]] is the inherited member, and [normalize]
    calls [toLowerCase] on it. *)
Theorem inherited_name_throws uuid :
  MerchantRule.normalizeMerchantRecommendations
    uuid [namedRecord "t1" "constructor"] = Throws.
Proof. reflexivity. Qed.

(** The same name makes the whole reconciliation pass throw. *)
Lemma inherited_name_throws_engine uuid prev :
  RS.generateRecommendations [namedRecord "t1" "constructor"] uuid prev
  = Throws.
Proof.
  unfold RS.generateRecommendations.
  destruct (fold_left _ prev _). reflexivity.
Qed.

(* ------------------------------------------------------------------------- *)
(** * The apply and ignore handlers (C7, C10) *)
(* ------------------------------------------------------------------------- *)

Lemma captured_same (o : option string) pre (P : Prop) : captured o o pre P.
Proof. destruct o; simpl; auto. Qed.

Lemma captured_keep (o : option string) pre (P : Prop) :
  P -> captured o (match o with Some w => Some w | None => Some pre end) pre P.
Proof. destruct o; simpl; auto. Qed.

Lemma keepPaidTo_fields o v :
  O.paidTo (App.keepPaidTo o v)
  = match O.paidTo o with Some w => Some w | None => Some v end
  /\ O.dateOfPayment (App.keepPaidTo o v) = O.dateOfPayment o
  /\ O.amountPaid (App.keepPaidTo o v) = O.amountPaid o
  /\ O.expenseType (App.keepPaidTo o v) = O.expenseType o
  /\ O.expenseSubtype (App.keepPaidTo o v) = O.expenseSubtype o
  /\ O.description (App.keepPaidTo o v) = O.description o
  /\ O.transactionType (App.keepPaidTo o v) = O.transactionType o
  /\ O.rowNum (App.keepPaidTo o v) = O.rowNum o.
Proof.
  unfold App.keepPaidTo. destruct (O.paidTo o) eqn:E; simpl; rewrite ?E; auto 10.
Qed.

Lemma keepExpenseType_fields o v :
  O.expenseType (App.keepExpenseType o v)
  = match O.expenseType o with Some w => Some w | None => Some v end
  /\ O.dateOfPayment (App.keepExpenseType o v) = O.dateOfPayment o
  /\ O.amountPaid (App.keepExpenseType o v) = O.amountPaid o
  /\ O.paidTo (App.keepExpenseType o v) = O.paidTo o
  /\ O.expenseSubtype (App.keepExpenseType o v) = O.expenseSubtype o
  /\ O.description (App.keepExpenseType o v) = O.description o
  /\ O.transactionType (App.keepExpenseType o v) = O.transactionType o
  /\ O.rowNum (App.keepExpenseType o v) = O.rowNum o.
Proof.
  unfold App.keepExpenseType.
  destruct (O.expenseType o) eqn:E; simpl; rewrite ?E; auto 10.
Qed.

Lemma keepExpenseSubtype_fields o v :
  O.expenseSubtype (App.keepExpenseSubtype o v)
  = match O.expenseSubtype o with Some w => Some w | None => Some v end
  /\ O.dateOfPayment (App.keepExpenseSubtype o v) = O.dateOfPayment o
  /\ O.amountPaid (App.keepExpenseSubtype o v) = O.amountPaid o
  /\ O.paidTo (App.keepExpenseSubtype o v) = O.paidTo o
  /\ O.expenseType (App.keepExpenseSubtype o v) = O.expenseType o
  /\ O.description (App.keepExpenseSubtype o v) = O.description o
  /\ O.transactionType (App.keepExpenseSubtype o v) = O.transactionType o
  /\ O.rowNum (App.keepExpenseSubtype o v) = O.rowNum o.
Proof.
  unfold App.keepExpenseSubtype.
  destruct (O.expenseSubtype o) eqn:E; simpl; rewrite ?E; auto 10.
Qed.

Lemma keepTransactionType_fields o v :
  O.transactionType (App.keepTransactionType o v)
  = match O.transactionType o with Some w => Some w | None => Some v end
  /\ O.dateOfPayment (App.keepTransactionType o v) = O.dateOfPayment o
  /\ O.amountPaid (App.keepTransactionType o v) = O.amountPaid o
  /\ O.paidTo (App.keepTransactionType o v) = O.paidTo o
  /\ O.expenseType (App.keepTransactionType o v) = O.expenseType o
  /\ O.expenseSubtype (App.keepTransactionType o v) = O.expenseSubtype o
  /\ O.description (App.keepTransactionType o v) = O.description o
  /\ O.rowNum (App.keepTransactionType o v) = O.rowNum o.
Proof.
  unfold App.keepTransactionType.
  destruct (O.transactionType o) eqn:E; simpl; rewrite ?E; auto 10.
Qed.

(** The record left with a copy of its snapshot and new flags. *)
Lemma framed_copy r x f :
  framed r x (App.setFlags (App.setOriginalValues x (App.snapshot x)) f).
Proof.
  split; simpl; auto.
  exists (App.snapshot x). repeat split; auto using captured_same.
Qed.

Lemma framed_paidTo r x v f :
  R.affectedField r = Some Field.paidTo ->
  framed r x
    (App.setFlags
       (App.setPaidTo
          (App.setOriginalValues (App.setOriginalValues x (App.snapshot x))
             (App.keepPaidTo (App.snapshot x) (T.paidTo x))) v) f).
Proof.
  intros Ha.
  destruct (keepPaidTo_fields (App.snapshot x) (T.paidTo x))
    as [E1 [E2 [E3 [E4 [E5 [E6 [E7 E8]]]]]]].
  split; simpl; auto; try congruence.
  eexists. split; [reflexivity|].
  rewrite E1, E2, E3, E4, E5, E6, E7, E8.
  repeat split; auto using captured_same, captured_keep.
Qed.

Lemma framed_expenseType r x v f :
  R.affectedField r = Some Field.expenseType ->
  framed r x
    (App.setFlags
       (App.setExpenseType
          (App.setOriginalValues (App.setOriginalValues x (App.snapshot x))
             (App.keepExpenseType (App.snapshot x) (T.expenseType x))) v) f).
Proof.
  intros Ha.
  destruct (keepExpenseType_fields (App.snapshot x) (T.expenseType x))
    as [E1 [E2 [E3 [E4 [E5 [E6 [E7 E8]]]]]]].
  split; simpl; auto; try congruence.
  eexists. split; [reflexivity|].
  rewrite E1, E2, E3, E4, E5, E6, E7, E8.
  repeat split; auto using captured_same, captured_keep.
Qed.

Lemma framed_expenseSubtype r x v f :
  R.affectedField r = Some Field.expenseSubtype ->
  framed r x
    (App.setFlags
       (App.setExpenseSubtype
          (App.setOriginalValues (App.setOriginalValues x (App.snapshot x))
             (App.keepExpenseSubtype (App.snapshot x) (T.expenseSubtype x))) v)
       f).
Proof.
  intros Ha.
  destruct (keepExpenseSubtype_fields (App.snapshot x) (T.expenseSubtype x))
    as [E1 [E2 [E3 [E4 [E5 [E6 [E7 E8]]]]]]].
  split; simpl; auto; try congruence.
  eexists. split; [reflexivity|].
  rewrite E1, E2, E3, E4, E5, E6, E7, E8.
  repeat split; auto using captured_same, captured_keep.
Qed.

Lemma framed_transactionType r x v f :
  R.affectedField r = Some Field.transactionType ->
  framed r x
    (App.setFlags
       (App.setTransactionType
          (App.setOriginalValues (App.setOriginalValues x (App.snapshot x))
             (App.keepTransactionType (App.snapshot x) (T.transactionType x)))
          v) f).
Proof.
  intros Ha.
  destruct (keepTransactionType_fields (App.snapshot x) (T.transactionType x))
    as [E1 [E2 [E3 [E4 [E5 [E6 [E7 E8]]]]]]].
  split; simpl; auto; try congruence.
  eexists. split; [reflexivity|].
  rewrite E1, E2, E3, E4, E5, E6, E7, E8.
  repeat split; auto using captured_same, captured_keep.
Qed.

Lemma setFlags_same x : App.setFlags x (T.flags x) = x.
Proof. now destruct x. Qed.

(** The body of the handler changes the affected field, the flags and the
    snapshot of a targeted record, and nothing else. *)
Lemma update_framed r x : framed r x (App.update r x).
Proof.
  unfold App.update.
  destruct (R.type r) eqn:Et; destruct (R.affectedField r) as [field|] eqn:Ea.
  - destruct (_ || _); apply framed_copy.
  - destruct (_ || _); apply framed_copy.
  - destruct field; try (rewrite <- (setFlags_same (App.setOriginalValues _ _));
                         apply framed_copy).
    now apply framed_paidTo.
  - rewrite <- (setFlags_same (App.setOriginalValues _ _)). apply framed_copy.
  - destruct field; try apply framed_copy;
      [now apply framed_expenseType | now apply framed_expenseSubtype
       | now apply framed_transactionType].
  - rewrite <- (setFlags_same (App.setOriginalValues _ _)). apply framed_copy.
  - destruct field; try apply framed_copy;
      [now apply framed_expenseType | now apply framed_expenseSubtype].
  - rewrite <- (setFlags_same (App.setOriginalValues _ _)). apply framed_copy.
Qed.

Lemma Forall2_map_r {A B} (P : A -> B -> Prop) (f : A -> B) (l : list A) :
  (forall x, In x l -> P x (f x)) -> Forall2 P l (map f l).
Proof.
  induction l as [|x l IH]; simpl; intros H; constructor; auto.
Qed.

(** C10.  Frame property of apply: [applyRecommendation] with the id of a
    recommendation [r] changes, among the records, only those whose id is in
    the transactionIds of [r], and in each of them only the affected field,
    the flags and the originalValues snapshot (a value is captured only when
    none was); among the recommendations only those with that id change, and
    only their status, to applied.  With an unknown id nothing changes. *)
Theorem apply_frame (recommendationId : string) (st : App.state) :
  match find (fun rec => String.eqb (R.id rec) recommendationId)
             (App.recommendations st) with
  | None => App.applyRecommendation recommendationId st = st
  | Some r =>
      Forall2 (fun x x' =>
                 if JsString.mem (T.id x) (R.transactionIds r)
                 then framed r x x' else x' = x)
              (App.transactions st)
              (App.transactions (App.applyRecommendation recommendationId st))
      /\ Forall2 (fun rec rec' =>
                    if String.eqb (R.id rec) recommendationId
                    then rec' = R.withStatus rec applied else rec' = rec)
                 (App.recommendations st)
                 (App.recommendations
                    (App.applyRecommendation recommendationId st))
  end.
Proof.
  unfold App.applyRecommendation.
  destruct (find _ (App.recommendations st)) as [r|]; [|reflexivity].
  simpl. split.
  - unfold App.applyTo. apply Forall2_map_r. intros x _.
    destruct (JsString.mem (T.id x) (R.transactionIds r));
      [apply update_framed | reflexivity].
  - unfold App.setStatusWhere. apply Forall2_map_r. intros rec _.
    destruct (String.eqb (R.id rec) recommendationId); reflexivity.
Qed.

(** ** Status transitions *)

Lemma nth_error_setStatusWhere p s recs i :
  nth_error (App.setStatusWhere p s recs) i
  = option_map (fun rec => if p rec then R.withStatus rec s else rec)
               (nth_error recs i).
Proof. unfold App.setStatusWhere. apply nth_error_map. Qed.

(** What one operation does to the recommendation at a position. *)
Lemma step_recommendation st op i rec :
  nth_error (App.recommendations st) i = Some rec ->
  nth_error (App.recommendations (App.step st op)) i = Some rec
  \/ (names op (R.id rec) = true
      /\ exists s, (s = applied \/ s = ignored)
                   /\ nth_error (App.recommendations (App.step st op)) i
                      = Some (R.withStatus rec s)).
Proof.
  intros H. destruct op as [j | j | l | l]; simpl.
  - unfold App.applyRecommendation.
    destruct (find _ (App.recommendations st)); [|now left]. simpl.
    rewrite nth_error_setStatusWhere, H. simpl.
    destruct (String.eqb (R.id rec) j) eqn:E; [right | now left].
    split; [first [reflexivity | assumption]|]. exists applied. auto.
  - rewrite nth_error_setStatusWhere, H. simpl.
    destruct (String.eqb (R.id rec) j) eqn:E; [right | now left].
    split; [first [reflexivity | assumption]|]. exists ignored. auto.
  - rewrite nth_error_setStatusWhere, H. simpl.
    destruct (JsString.mem (R.id rec) l) eqn:E; [right | now left].
    split; [first [reflexivity | assumption]|]. exists applied. auto.
  - rewrite nth_error_setStatusWhere, H. simpl.
    destruct (JsString.mem (R.id rec) l) eqn:E; [right | now left].
    split; [first [reflexivity | assumption]|]. exists ignored. auto.
Qed.

(** What one operation does to the list of recommendations: the ones it names
    get its status, whatever status they had. *)
Lemma step_recommendations st op :
  App.recommendations (App.step st op)
  = map (fun rec => if names op (R.id rec)
                    then R.withStatus rec (verdict op) else rec)
        (App.recommendations st).
Proof.
  destruct op as [j | j | l | l]; simpl; try reflexivity.
  unfold App.applyRecommendation.
  destruct (find _ (App.recommendations st)) eqn:Ef; [reflexivity|].
  symmetry. erewrite map_ext_in; [apply map_id|].
  intros rec Hin. simpl.
  now rewrite (find_none _ _ Ef rec Hin).
Qed.

(** Applying the pending recommendation is offered; ignoring it afterwards is
    not. *)
Lemma guarded_sample :
  guarded [App.Apply "r1"] onePending
  /\ ~ guarded [App.Apply "r1"; App.Ignore "r1"] onePending.
Proof.
  split.
  - split; [|exact I]. intros rec [<- | []] _. reflexivity.
  - intros [_ [H _]].
    specialize (H _ (or_introl eq_refl) eq_refl). discriminate H.
Qed.

(** The handlers do not test the status they overwrite: apply, then ignore. *)
Lemma terminal_status_overwritten :
  map R.status (App.recommendations (App.run [App.Apply "r1"] onePending))
  = [applied]
  /\ map R.status
         (App.recommendations
            (App.run [App.Apply "r1"; App.Ignore "r1"] onePending))
     = [ignored].
Proof. split; reflexivity. Qed.

(** C7 (as amended).  Status transitions: an operation sets the status of
    every recommendation it names to applied (apply, bulk apply) or to ignored
    (ignore, bulk ignore), whatever status the recommendation had, and leaves
    every other recommendation as it is; no handler writes pending.  In every
    sequence of apply, ignore, bulk-apply and bulk-ignore operations that name
    only recommendations pending at the time (the only ones the views offer),
    a recommendation that is applied or ignored stays as it is. *)
Theorem terminal_status :
  (forall st op,
      App.recommendations (App.step st op)
      = map (fun rec => if names op (R.id rec)
                        then R.withStatus rec (verdict op) else rec)
            (App.recommendations st))
  /\ (forall op, verdict op = applied \/ verdict op = ignored)
  /\ (forall ops st i rec,
         guarded ops st ->
         nth_error (App.recommendations st) i = Some rec ->
         R.status rec = applied \/ R.status rec = ignored ->
         nth_error (App.recommendations (App.run ops st)) i = Some rec).
Proof.
  split; [exact step_recommendations|].
  split; [intros [j | j | l | l]; simpl; auto|].
  induction ops as [|op ops IH]; simpl; intros st i rec Hg H Hterm;
    [assumption|].
  destruct Hg as [Hoff Hg]. apply (IH _ _ _ Hg); [|assumption].
  destruct (step_recommendation st op i rec H) as [E | [Hn _]];
    [assumption|].
  apply nth_error_In in H. specialize (Hoff rec H Hn).
  destruct Hterm; congruence.
Qed.

(* ------------------------------------------------------------------------- *)
(** * The lists the application reaches are well formed *)
(* ------------------------------------------------------------------------- *)

Lemma bounded_wellFormed recs :
  NoDup (map R.id recs) -> bounded recs -> wellFormed recs.
Proof. intros Hn Hb. split; [assumption | intros t Ht _; now apply Hb]. Qed.

Lemma carry_length txs t :
  List.length (R.transactionIds (carry txs t))
  <= List.length (R.transactionIds t).
Proof.
  unfold carry. destruct (_ && _); simpl; [lia | apply filter_length_le].
Qed.

(** A pass keeps the bound, and its output has distinct ids. *)
Lemma generate_bounded txs uuid prev out :
  bounded prev ->
  RS.generateRecommendations txs uuid prev = Returns out ->
  NoDup (map R.id out) /\ bounded out.
Proof.
  intros Hb H. split; [now apply generate_NoDup in H|].
  intros r Hr.
  destruct (generate_In _ _ _ _ _ H Hr) as [cands [rec [Ec [Hrec [_ ->]]]]].
  apply in_app_iff in Hrec. destruct Hrec as [Hrec | Hrec].
  - apply carried_In in Hrec. destruct Hrec as [t [Ht [_ ->]]].
    rewrite trimmed_carry.
    destruct (carry_fields txs t) as [_ [_ ->]].
    pose proof (carry_length txs t). specialize (Hb t Ht). lia.
  - apply merged_In in Hrec. destruct Hrec as [c [Hc [-> _]]].
    destruct (candidates_ok _ _ _ Ec) as [_ Hok].
    rewrite Forall_forall in Hok. specialize (Hok c Hc).
    rewrite (adopt_trimmed _ _ _ Hok).
    destruct (adopt_fields (pendingMap prev) c) as [-> [-> _]].
    rewrite (cand_arity _ _ Hok). lia.
Qed.

(** The user operations change statuses only. *)
Lemma setStatusWhere_shape p s recs :
  map R.id (App.setStatusWhere p s recs) = map R.id recs
  /\ (bounded recs -> bounded (App.setStatusWhere p s recs)).
Proof.
  unfold App.setStatusWhere. split.
  - rewrite map_map. apply map_ext. intros r. now destruct (p r).
  - intros Hb r Hr. apply in_map_iff in Hr. destruct Hr as [r0 [<- Hr0]].
    specialize (Hb r0 Hr0). now destruct (p r0).
Qed.

Lemma step_bounded st op :
  NoDup (map R.id (App.recommendations st)) ->
  bounded (App.recommendations st) ->
  NoDup (map R.id (App.recommendations (App.step st op)))
  /\ bounded (App.recommendations (App.step st op)).
Proof.
  intros Hn Hb. destruct op as [j | j | l | l]; simpl;
    try (unfold App.applyRecommendation;
         destruct (find _ (App.recommendations st)); [|auto]; simpl);
    match goal with
    | |- context [App.setStatusWhere ?p ?s ?recs] =>
        destruct (setStatusWhere_shape p s recs) as [-> Hb']
    end; auto.
Qed.

(** Every list of a session is well formed: the hypothesis of the idempotence
    theorem on the previous list holds throughout a session. *)
Lemma reachable_bounded recs :
  reachable recs -> NoDup (map R.id recs) /\ bounded recs.
Proof.
  induction 1 as [| txs uuid prev out _ [Hn Hb] Hrun | st op _ [Hn Hb]].
  - split; [constructor | intros r []].
  - now apply (generate_bounded txs uuid prev out).
  - now apply step_bounded.
Qed.

Lemma reachable_wellFormed recs : reachable recs -> wellFormed recs.
Proof.
  intros H. destruct (reachable_bounded recs H) as [Hn Hb].
  now apply bounded_wellFormed.
Qed.

(* ------------------------------------------------------------------------- *)
(** * The properties on a concrete run *)
(* ------------------------------------------------------------------------- *)

Lemma to_uint_nonnil (n : N) : N.to_uint n <> Decimal.Nil.
Proof.
  destruct n; simpl; [discriminate|]. apply DecimalPos.Unsigned.to_uint_nonnil.
Qed.

Lemma ofN_injective j k : JsString.ofN j = JsString.ofN k -> j = k.
Proof.
  unfold JsString.ofN. intros H.
  apply (f_equal NilZero.uint_of_string) in H.
  rewrite !NilZero.usu in H by apply to_uint_nonnil.
  injection H as H. now apply DecimalN.Unsigned.to_uint_inj.
Qed.

Lemma uuidExample_injective j k : uuidExample j = uuidExample k -> j = k.
Proof.
  unfold uuidExample. simpl. intros H. injection H as H.
  apply ofN_injective in H. now apply Nat2N.inj.
Qed.

Lemma samplePrevious_wellFormed : wellFormed samplePrevious.
Proof.
  split.
  - simpl. repeat constructor; simpl; intros H;
      repeat (destruct H as [H | H]; try discriminate H); assumption.
  - intros t Ht _. simpl in Ht.
    repeat (destruct Ht as [<- | Ht]; [simpl; lia|]). destruct Ht.
Qed.

Lemma uuidExample_fresh : freshFor uuidExample samplePrevious.
Proof.
  split; [exact uuidExample_injective|].
  intros k H. simpl in H. unfold uuidExample in H. simpl in H.
  repeat (destruct H as [H | H]; try discriminate H). assumption.
Qed.

Lemma sampleRecords_plain : plainRecords sampleRecords.
Proof.
  intros x Hx _. simpl in Hx.
  repeat (destruct Hx as [<- | Hx]; [repeat split; reflexivity|]). destruct Hx.
Qed.

Lemma sample_first_pass :
  RS.generateRecommendations sampleRecords uuidExample samplePrevious
  = Returns sampleOutput.
Proof. vm_compute. reflexivity. Qed.

(** C1 on the sample: the second pass returns the output of the first. *)
Lemma reconcile_idempotent_witness :
  RS.generateRecommendations sampleRecords uuidSecond sampleOutput
  = Returns sampleOutput.
Proof.
  apply (reconcile_idempotent sampleRecords uuidExample uuidSecond
                              samplePrevious sampleOutput).
  - exact samplePrevious_wellFormed.
  - exact uuidExample_fresh.
  - vm_compute. reflexivity.
Defined.

(** C2 on the sample: the applied suggestion r1 for the type of the record a
    is not offered again; the pending pair has another identity. *)
Lemma identity_stability_witness :
  RS.getRecommendationIdentity samplePair
  <> RS.getRecommendationIdentity (nth 0 samplePrevious samplePair).
Proof.
  apply (identity_stability sampleRecords uuidExample samplePrevious
                            sampleOutput (nth 0 samplePrevious samplePair)
                            samplePair).
  - vm_compute. reflexivity.
  - simpl. auto.
  - left. reflexivity.
  - simpl. auto.
  - reflexivity.
Defined.

(** C3 on the sample. *)
Lemma soft_delete_moot_witness :
  (forall i, R.type samplePair = MissingField ->
             R.transactionIds samplePair = [i] ->
             ~ softDeleted sampleRecords i)
  /\ (forall i j, NoDup (map T.id sampleRecords) ->
                  R.type samplePair = Duplicate ->
                  R.transactionIds samplePair = [i; j] ->
                  ~ (softDeleted sampleRecords i
                     /\ softDeleted sampleRecords j)).
Proof.
  apply (soft_delete_moot sampleRecords uuidExample samplePrevious
                          sampleOutput samplePair).
  - vm_compute. reflexivity.
  - simpl. auto.
  - reflexivity.
Defined.

(** C4 on the sample: the pending suggestion r3 references the removed
    record zz and is pruned. *)
Lemma hard_delete_pruning_witness :
  exists out,
    RS.generateRecommendations sampleRecords uuidExample samplePrevious
    = Returns out
    /\ forall r, In r out -> R.id r <> "r3".
Proof.
  apply (hard_delete_pruning sampleRecords uuidExample samplePrevious
                             (nth 2 samplePrevious samplePair) "zz").
  - exact (proj1 samplePrevious_wellFormed).
  - exact (proj2 uuidExample_fresh).
  - exact sampleRecords_plain.
  - simpl. auto.
  - reflexivity.
  - simpl. auto.
  - simpl. intros H. repeat (destruct H as [H | H]; try discriminate H).
    assumption.
Defined.

(** The pending pair of two soft-deleted records is not retained: the pass
    returns the empty list. *)
Lemma soft_deleted_pair_not_retained :
  softDeleted deletedPair "a" /\ softDeleted deletedPair "b"
  /\ RS.generateRecommendations deletedPair uuidExample pendingPair
     = Returns [].
Proof.
  split; [|split].
  - exists (expense "a" "Starbucks" "coffee" true). simpl. auto.
  - exists (expense "b" "Starbucks" "coffee" true). simpl. auto.
  - vm_compute. reflexivity.
Qed.

(* ------------------------------------------------------------------------- *)
(** * Further properties of the reconciliation pass *)
(* ------------------------------------------------------------------------- *)

Lemma JsMap_In_get {V} (m : JsMap.t V) k v :
  NoDup (map fst m) -> In (k, v) m -> JsMap.get m k = Some v.
Proof.
  induction m as [|[k' v'] m IH]; simpl; intros Hn H; [destruct H|].
  inversion Hn as [|? ? Hk Hm]; subst.
  destruct H as [E | H].
  - injection E as -> ->. now rewrite String.eqb_refl.
  - destruct (String.eqb k' k) eqn:E; [|auto].
    apply String.eqb_eq in E. subst k'. exfalso. apply Hk.
    apply in_map_iff. exists (k, v). auto.
Qed.

Lemma JsMap_set_keeps {V} (m : JsMap.t V) k v k' v' :
  k' <> k -> In (k', v') m -> In (k', v') (JsMap.set m k v).
Proof.
  intros Hne. induction m as [|[k0 v0] m IH]; simpl; intros H; [destruct H|].
  destruct (String.eqb k0 k) eqn:E.
  - apply String.eqb_eq in E. subst k0. destruct H as [H | H].
    + injection H as -> ->. congruence.
    + now right.
  - destruct H as [H | H]; [now left | right; auto].
Qed.

Lemma insertRec_keeps_resolved m r v :
  keyed m -> In v (JsMap.values m) -> isTerminal v = true ->
  In v (JsMap.values (insertRec m r)).
Proof.
  intros [Hn Hk] Hv Ht. unfold JsMap.values in *.
  apply in_map_iff in Hv. destruct Hv as [[k v'] [E Hin]]. simpl in E. subst v'.
  pose proof (Hk _ _ Hin) as Ek. subst k.
  unfold insertRec.
  destruct (String.eqb (R.id v) (R.id r)) eqn:Eid.
  - apply String.eqb_eq in Eid. rewrite <- Eid.
    rewrite (JsMap_In_get m _ _ Hn Hin). unfold isTerminal in Ht. rewrite Ht.
    apply in_map_iff. exists (R.id v, v). auto.
  - apply String.eqb_neq in Eid.
    assert (Hset : In v (map snd (JsMap.set m (R.id r) r))).
    { apply in_map_iff. exists (R.id v, v). split; [reflexivity|].
      now apply JsMap_set_keeps. }
    destruct (JsMap.get m (R.id r)) as [e|]; [|exact Hset].
    destruct (terminal (R.status e)); [|exact Hset].
    apply in_map_iff. exists (R.id v, v). auto.
Qed.

Lemma fold_insertRec_keeps_resolved l m v :
  keyed m -> In v (JsMap.values m) -> isTerminal v = true ->
  In v (JsMap.values (fold_left insertRec l m)).
Proof.
  revert m. induction l as [|r l IH]; simpl; intros m Hk Hv Ht; [assumption|].
  apply IH; [now apply keyed_insertRec | now apply insertRec_keeps_resolved
            | assumption].
Qed.

Lemma keyed_nil : keyed [].
Proof. split; [constructor | intros k v []]. Qed.

Lemma carry_shape txs t :
  R.affectedField (carry txs t) = R.affectedField t
  /\ R.originalValue (carry txs t) = R.originalValue t
  /\ R.suggestedValue (carry txs t) = R.suggestedValue t
  /\ R.confidence (carry txs t) = R.confidence t
  /\ R.transactionIds (carry txs t)
     = filter (RS.exists_ txs) (R.transactionIds t)
  /\ R.description (carry txs t)
     = match R.transactionIds t, filter (RS.exists_ txs) (R.transactionIds t)
       with
       | _ :: _, [] => R.description t +++ " (Original targets deleted)"
       | _, _ => R.description t
       end.
Proof.
  unfold carry.
  destruct (R.transactionIds t) as [|i l] eqn:E; simpl; [repeat split|].
  destruct (filter (RS.exists_ txs) (i :: l)) as [|j l'] eqn:F;
    simpl in *; rewrite F; simpl; repeat split.
Qed.

Lemma carried_kept txs uuid prev out t :
  NoDup (map R.id prev) ->
  RS.generateRecommendations txs uuid prev = Returns out ->
  In t prev -> isTerminal t = true ->
  In (carry txs t) out.
Proof.
  intros Hn H Ht Hterm. apply generate_steps in H.
  destruct H as [cands [_ ->]].
  rewrite survivors_app, survivors_carried, fold_left_app.
  assert (Hc : NoDup (map R.id (carried txs prev))).
  { rewrite carried_ids. now apply filter_distinct_ids. }
  assert (Hv : JsMap.values (fold_left insertRec (carried txs prev) [])
               = carried txs prev).
  { rewrite (fold_insertRec_fresh _ [] Hc); [reflexivity|]. intros r _ []. }
  apply fold_insertRec_keeps_resolved.
  - apply fold_insertRec_keyed, keyed_nil.
  - rewrite Hv. unfold carried. apply in_map. apply filter_In. auto.
  - unfold isTerminal. destruct (carry_fields txs t) as [_ [-> _]]. exact Hterm.
Qed.

(** X1.  The ids of the output of a reconciliation pass are pairwise distinct,
    whatever the previous list was. *)
Theorem output_ids_distinct txs uuid prev out :
  RS.generateRecommendations txs uuid prev = Returns out ->
  NoDup (map R.id out).
Proof. apply generate_NoDup. Qed.

(** X2.  Every record id that a recommendation of the output refers to is the id
    of a record of the current record set: the output holds no dangling
    reference. *)
Theorem output_targets_exist txs uuid prev out r i :
  RS.generateRecommendations txs uuid prev = Returns out ->
  In r out -> In i (R.transactionIds r) -> In i (map T.id txs).
Proof.
  intros H Hr Hi.
  destruct (generate_In _ _ _ _ _ H Hr) as [cands [rec [_ [_ [_ ->]]]]].
  unfold trimmed in Hi. simpl in Hi. apply filter_In in Hi.
  now apply exists_In.
Qed.

(** X3.  An applied or ignored recommendation of the previous list (ids being
    distinct) is carried into the output with its id, status and content; its
    targets are cut down to the records that still exist, and when it had
    targets and none of them exists any more its description gets the suffix
    (Original targets deleted). *)
Theorem resolved_kept txs uuid prev out t :
  NoDup (map R.id prev) ->
  RS.generateRecommendations txs uuid prev = Returns out ->
  In t prev -> R.status t = applied \/ R.status t = ignored ->
  exists r,
    In r out /\ R.id r = R.id t /\ R.status r = R.status t
    /\ R.type r = R.type t /\ R.affectedField r = R.affectedField t
    /\ R.originalValue r = R.originalValue t
    /\ R.suggestedValue r = R.suggestedValue t
    /\ R.confidence r = R.confidence t
    /\ R.transactionIds r = filter (RS.exists_ txs) (R.transactionIds t)
    /\ R.description r
       = match R.transactionIds t, filter (RS.exists_ txs) (R.transactionIds t)
         with
         | _ :: _, [] => R.description t +++ " (Original targets deleted)"
         | _, _ => R.description t
         end.
Proof.
  intros Hn H Ht Hs. exists (carry txs t).
  assert (Hterm : isTerminal t = true).
  { unfold isTerminal. destruct Hs as [-> | ->]; reflexivity. }
  split; [now apply (carried_kept txs uuid prev)|].
  destruct (carry_fields txs t) as [E1 [E2 E3]].
  destruct (carry_shape txs t) as [E4 [E5 [E6 [E7 [E8 E9]]]]].
  repeat split; assumption.
Qed.

(** X4.  Reconciliation resolves nothing by itself: an applied or ignored
    recommendation of the output has the id and the status of an applied or
    ignored recommendation of the previous list. *)
Theorem resolved_from_previous txs uuid prev out r :
  RS.generateRecommendations txs uuid prev = Returns out ->
  In r out -> R.status r = applied \/ R.status r = ignored ->
  exists t, In t prev /\ R.id t = R.id r /\ R.status t = R.status r.
Proof.
  intros H Hr Hs.
  destruct (generate_In _ _ _ _ _ H Hr) as [cands [rec [Ec [Hrec [_ ->]]]]].
  assert (Hs' : R.status rec = applied \/ R.status rec = ignored) by exact Hs.
  apply in_app_iff in Hrec. destruct Hrec as [Hrec | Hrec].
  - apply carried_In in Hrec. destruct Hrec as [t [Ht [_ ->]]].
    destruct (carry_fields txs t) as [Ei [Est _]].
    exists t. repeat split; [assumption | symmetry; exact Ei
                            | symmetry; exact Est].
  - destruct (candidates_ok _ _ _ Ec) as [_ Hok].
    destruct (merged_candidates txs _ _ _ _ Hok Hrec) as [_ Hp].
    rewrite Hp in Hs'. destruct Hs'; discriminate.
Qed.

(** X5.  The id of a pending recommendation of the output is either one drawn
    from randomUUID during the pass, or the id of a pending recommendation of
    the previous list that has the same identity. *)
Theorem pending_id_origin txs uuid prev out r :
  RS.generateRecommendations txs uuid prev = Returns out ->
  In r out -> R.status r = pending ->
  (exists k, R.id r = uuid k)
  \/ (exists p, In p prev /\ R.status p = pending
                /\ RS.getRecommendationIdentity p
                   = RS.getRecommendationIdentity r
                /\ R.id r = R.id p).
Proof.
  intros H Hr Hp.
  destruct (pending_output _ _ _ _ _ H Hr Hp)
    as [cands [c [Ec [Hc [_ [-> _]]]]]].
  destruct (adopt_id_cases prev c) as [[q [Hq [Hs [Ei Eid]]]] | Eid].
  - right. exists q. rewrite adopt_identity. auto.
  - left. rewrite Eid. now apply (candidate_id txs uuid cands).
Qed.

(** X6.  A pending recommendation keeps its id from one pass to the next: when
    the previous list holds one pending recommendation of some identity, a
    pending recommendation of that identity in the output has its id. *)
Theorem pending_keeps_id txs uuid prev out p r :
  RS.generateRecommendations txs uuid prev = Returns out ->
  In p prev -> R.status p = pending ->
  (forall p', In p' prev -> R.status p' = pending ->
              RS.getRecommendationIdentity p'
              = RS.getRecommendationIdentity p -> p' = p) ->
  In r out -> R.status r = pending ->
  RS.getRecommendationIdentity r = RS.getRecommendationIdentity p ->
  R.id r = R.id p.
Proof.
  intros H Hp Hsp Huniq Hr Hsr Ei.
  destruct (pending_output _ _ _ _ _ H Hr Hsr)
    as [cands [c [_ [_ [_ [-> _]]]]]].
  rewrite adopt_identity in Ei.
  assert (Hget : RS.getByKey (pendingMap prev) (RS.getRecommendationIdentity c)
                 = Some p).
  { unfold pendingMap. apply pendingMap_get_unique.
    - right. repeat split; [assumption | assumption | symmetry; exact Ei].
    - intros p' Hp' Hs' Ei'. apply Huniq; [assumption | assumption | congruence]. }
  unfold adopt. rewrite Hget. reflexivity.
Qed.

(** X7.  When every record is soft-deleted the output holds no pending
    recommendation. *)
Theorem no_pending_without_active txs uuid prev out r :
  (forall x, In x txs -> T.deleted x = true) ->
  RS.generateRecommendations txs uuid prev = Returns out ->
  In r out -> R.status r = applied \/ R.status r = ignored.
Proof.
  intros Hdel H Hr.
  destruct (R.status r) eqn:Hs; [|now left | now right].
  exfalso.
  destruct (pending_output _ _ _ _ _ H Hr Hs)
    as [cands [c [_ [_ [Hok _]]]]].
  pose proof (cand_arity _ _ Hok) as Ha.
  pose proof (arity_positive (R.type c)) as Hpos.
  destruct (R.transactionIds c) as [|i l] eqn:E; [simpl in Ha; lia|].
  destruct (cand_targets _ _ Hok i) as [x [Hx [Dx _]]]; [rewrite E; now left|].
  apply active_In in Hx. destruct Hx as [Hx _].
  rewrite (Hdel x Hx) in Dx. discriminate.
Qed.

Lemma filter_none {A} (p : A -> bool) (l : list A) :
  (forall x, In x l -> p x = false) -> filter p l = [].
Proof.
  induction l as [|x l IH]; simpl; intros H; [reflexivity|].
  rewrite (H x (or_introl eq_refl)). apply IH. intros y Hy. apply H. now right.
Qed.

Lemma foldM_skip {A S} (body : S -> A -> outcome S) (l : list A) s :
  (forall s' x, In x l -> body s' x = Returns s') ->
  foldM body l s = Returns s.
Proof.
  induction l as [|x l IH]; simpl; intros H; [reflexivity|].
  rewrite (H s x (or_introl eq_refl)). simpl. apply IH.
  intros s' y Hy. apply H. now right.
Qed.

Lemma all_deleted_nil txs uuid :
  (forall x, In x txs -> T.deleted x = true) ->
  RS.generateRecommendations txs uuid [] = Returns [].
Proof.
  intros Hdel.
  assert (Ha : RS.activeTransactionsForRules txs = []).
  { unfold RS.activeTransactionsForRules. apply filter_none.
    intros x Hx. now rewrite (Hdel x Hx). }
  assert (Hm : forall u, MissingFieldRule.suggestMissingFieldRecommendations
                           u [] txs = Returns []).
  { intros u. unfold MissingFieldRule.suggestMissingFieldRecommendations.
    rewrite foldM_skip; [reflexivity|].
    intros tb x Hx. unfold MissingFieldRule.learn. now rewrite (Hdel x Hx). }
  assert (Hc : forall u, ClassificationRule.suggestClassificationRecommendations
                           u [] txs = Returns []).
  { intros u. unfold ClassificationRule.suggestClassificationRecommendations.
    rewrite foldM_skip; [reflexivity|].
    intros m x Hx. unfold ClassificationRule.learn. now rewrite (Hdel x Hx). }
  unfold RS.generateRecommendations, RS.candidateRecsFromRules.
  rewrite Ha. cbn [fold_left]. cbn [DuplicateRule.findDuplicateRecommendations
       foldM bind JsMap.values map fold_left fst List.length app].
  cbn [MerchantRule.normalizeMerchantRecommendations fold_left
       MerchantRule.sortBy foldM bind List.length app].
  rewrite Hm. cbn [bind List.length app]. rewrite Hc. reflexivity.
Qed.

(* ------------------------------------------------------------------------- *)
(** * The identity of a recommendation *)
(* ------------------------------------------------------------------------- *)

Lemma ascii_compare_nat (a b : ascii) :
  Ascii.compare a b = Nat.compare (nat_of_ascii a) (nat_of_ascii b).
Proof.
  unfold Ascii.compare, nat_of_ascii.
  now rewrite N2Nat.inj_compare.
Qed.

Lemma ascii_compare_Eq (a b : ascii) : Ascii.compare a b = Eq -> a = b.
Proof.
  rewrite ascii_compare_nat. intros H. apply Nat.compare_eq in H.
  rewrite <- (ascii_nat_embedding a), <- (ascii_nat_embedding b).
  now rewrite H.
Qed.

Lemma ascii_compare_refl (a : ascii) : Ascii.compare a a = Eq.
Proof. rewrite ascii_compare_nat. apply Nat.compare_refl. Qed.

Lemma string_leb_trans (a b c : string) :
  String.leb a b = true -> String.leb b c = true -> String.leb a c = true.
Proof.
  unfold String.leb. revert b c.
  induction a as [|x a IH]; intros [|y b] [|z c]; simpl; try congruence.
  rewrite !ascii_compare_nat.
  destruct (Nat.compare_spec (nat_of_ascii x) (nat_of_ascii y)) as [E1|L1|G1];
    destruct (Nat.compare_spec (nat_of_ascii y) (nat_of_ascii z)) as [E2|L2|G2];
    try congruence.
  - rewrite E1, E2, Nat.compare_refl. apply IH.
  - intros _ _. rewrite E1. apply Nat.compare_lt_iff in L2. now rewrite L2.
  - intros _ _. rewrite <- E2. apply Nat.compare_lt_iff in L1. now rewrite L1.
  - intros _ _.
    assert (L : nat_of_ascii x < nat_of_ascii z) by lia.
    apply Nat.compare_lt_iff in L. now rewrite L.
Qed.

Lemma insertSorted_ascending x l :
  ascending l -> ascending (JsString.insertSorted x l).
Proof.
  induction l as [|y l IH]; simpl; intros H; [split; [intros ? []|exact I]|].
  destruct H as [Hy Hl].
  destruct (String.leb x y) eqn:E; simpl.
  - split; [|split; assumption].
    intros z [<- | Hz]; [assumption|].
    apply (string_leb_trans x y z); auto.
  - split; [|auto].
    intros z Hz. apply (Permutation_in _ (insertSorted_perm x l)) in Hz.
    destruct Hz as [<- | Hz]; [|auto].
    destruct (String.leb_total x y) as [H | H]; congruence.
Qed.

Lemma sort_ascending l : ascending (JsString.sort l).
Proof.
  induction l as [|x l IH]; simpl; [exact I | now apply insertSorted_ascending].
Qed.

Lemma ascending_unique l1 :
  forall l2, ascending l1 -> ascending l2 -> Permutation l1 l2 -> l1 = l2.
Proof.
  induction l1 as [|a l1 IH]; intros [|b l2] H1 H2 P.
  - reflexivity.
  - apply Permutation_nil in P. discriminate.
  - apply Permutation_sym, Permutation_nil in P. discriminate.
  - destruct H1 as [Ha H1], H2 as [Hb H2].
    assert (E : a = b).
    { assert (Ia : In a (b :: l2))
        by (apply (Permutation_in _ P); now left).
      assert (Ib : In b (a :: l1))
        by (apply (Permutation_in _ (Permutation_sym P)); now left).
      destruct Ia as [-> | Ia]; [reflexivity|].
      destruct Ib as [-> | Ib]; [reflexivity|].
      apply String.leb_antisym; auto. }
    subst b. f_equal. apply IH; try assumption.
    now apply Permutation_cons_inv in P.
Qed.

Lemma sort_permutation l1 l2 :
  Permutation l1 l2 <-> JsString.sort l1 = JsString.sort l2.
Proof.
  split.
  - intros P. apply ascending_unique; try apply sort_ascending.
    rewrite (sort_perm l1), (sort_perm l2). exact P.
  - intros E. rewrite <- (sort_perm l1), <- (sort_perm l2), E. reflexivity.
Qed.

(** X9.  Two recommendations have the same identity exactly when they have the
    same type, the same targets up to their order, the same affected field and,
    unless they are duplicate pairs, the same original value; the id, the
    status, the suggested value, the confidence and the description play no
    part. *)
Theorem identity_characterized (a b : R.t) :
  RS.getRecommendationIdentity a = RS.getRecommendationIdentity b
  <-> (R.type a = R.type b
       /\ Permutation (R.transactionIds a) (R.transactionIds b)
       /\ R.affectedField a = R.affectedField b
       /\ (R.type a <> Duplicate -> R.originalValue a = R.originalValue b)).
Proof.
  unfold RS.getRecommendationIdentity. split.
  - intros E. injection E as Et Es Ef Eo.
    repeat split; [assumption | now apply sort_permutation | assumption |].
    intros Hd. rewrite <- Et in Eo.
    destruct (R.type a); [congruence | assumption | assumption | assumption].
  - intros [Et [P [Ef Eo]]].
    apply sort_permutation in P. rewrite <- Et, P, Ef. f_equal.
    destruct (R.type a); [reflexivity | | |]; apply Eo; discriminate.
Qed.

(* ------------------------------------------------------------------------- *)
(** * Further properties of the duplicate-pair detector *)
(* ------------------------------------------------------------------------- *)

Lemma addToGroup_keyed txs m x m' :
  In x txs -> keyed_groups txs m ->
  DuplicateRule.addToGroup m x = Returns m' -> keyed_groups txs m'.
Proof.
  intros Hx Hm. unfold DuplicateRule.addToGroup.
  destruct (T.deleted x) eqn:D; [intros E; injection E as <-; assumption|].
  set (key := DuplicateRule.groupKey x).
  set (m0 := if negb (JsMap.has m key) then JsMap.set m key [] else m).
  assert (H0 : keyed_groups txs m0).
  { unfold m0. destruct (negb (JsMap.has m key)); [|assumption].
    intros k g y Hin Hy. apply JsMap_set_In in Hin.
    destruct Hin as [[_ ->] | Hin]; [destruct Hy | eauto]. }
  destruct (JsMap.get m0 key) as [group|] eqn:G; [|discriminate].
  intros E. injection E as <-.
  intros k g y Hin Hy. apply JsMap_set_In in Hin.
  destruct Hin as [[-> ->] | Hin]; [|eauto].
  apply in_app_iff in Hy. destruct Hy as [Hy | [<- | []]].
  - apply JsMap_get_In in G. eauto.
  - auto.
Qed.

Lemma grouping_keyed txs m :
  foldM DuplicateRule.addToGroup txs [] = Returns m -> keyed_groups txs m.
Proof.
  apply (foldM_inv (keyed_groups txs)).
  - intros s x s' Hx Hs E. now apply (addToGroup_keyed txs s x).
  - intros k g x [].
Qed.

Lemma pairsOf_snoc (g : list T.t) (x a b : T.t) :
  In (a, b) (DuplicateRule.pairsOf (g ++ [x])) ->
  In (a, b) (DuplicateRule.pairsOf g) \/ (In a g /\ b = x).
Proof.
  induction g as [|y g IH]; cbn [app DuplicateRule.pairsOf map];
    [intros []|].
  rewrite !in_app_iff, !in_map_iff. intros [[z [E Hz]] | H].
  - injection E as <- <-. apply in_app_iff in Hz.
    destruct Hz as [Hz | [<- | []]].
    + left. left. now exists z.
    + right. split; [now left | reflexivity].
  - destruct (IH H) as [H' | [Ha ->]].
    + left. now right.
    + right. split; [now right | reflexivity].
Qed.

Lemma apart_more read a b x : apart read a b -> apart (read ++ [x]) a b.
Proof.
  intros [l1 [l2 [l3 ->]]]. exists l1, l2, (l3 ++ [x]).
  now rewrite <- !app_assoc, <- !app_comm_cons, <- !app_assoc.
Qed.

Lemma apart_last read a x : In a read -> apart (read ++ [x]) a x.
Proof.
  intros H. apply in_split in H. destruct H as [l1 [l2 ->]].
  exists l1, l2, []. now rewrite <- app_assoc, <- app_comm_cons.
Qed.

Lemma ordered_more read m x :
  ordered_groups read m -> ordered_groups (read ++ [x]) m.
Proof.
  intros H g Hg. destruct (H g Hg) as [H1 H2]. split.
  - intros y Hy. apply in_app_iff. left. auto.
  - intros a b Hab. apply apart_more. auto.
Qed.

Lemma addToGroup_ordered read m x m' :
  ordered_groups read m ->
  DuplicateRule.addToGroup m x = Returns m' ->
  ordered_groups (read ++ [x]) m'.
Proof.
  intros Hm. unfold DuplicateRule.addToGroup.
  destruct (T.deleted x);
    [intros E; injection E as <-; now apply ordered_more|].
  set (key := DuplicateRule.groupKey x).
  set (m0 := if negb (JsMap.has m key) then JsMap.set m key [] else m).
  assert (H0 : ordered_groups read m0).
  { unfold m0. destruct (negb (JsMap.has m key)); [|assumption].
    intros g Hg. apply JsMap_values_set_In in Hg.
    destruct Hg as [-> | Hg]; [|auto].
    split; [intros y [] | intros a b []]. }
  destruct (JsMap.get m0 key) as [group|] eqn:G; [|discriminate].
  intros E. injection E as <-.
  intros g Hg. apply JsMap_values_set_In in Hg.
  destruct Hg as [-> | Hg]; [|exact (ordered_more read m0 x H0 g Hg)].
  apply JsMap_get_In in G.
  assert (Hgroup : In group (JsMap.values m0)).
  { unfold JsMap.values. apply in_map_iff. now exists (key, group). }
  destruct (H0 group Hgroup) as [H1 H2]. split.
  - intros y Hy. apply in_app_iff in Hy. apply in_app_iff.
    destruct Hy as [Hy | Hy]; [left; auto | now right].
  - intros a b Hab. apply pairsOf_snoc in Hab.
    destruct Hab as [Hab | [Ha ->]].
    + apply apart_more. auto.
    + apply apart_last. auto.
Qed.

Lemma grouping_ordered (rest : list T.t) :
  forall read m m',
    ordered_groups read m ->
    foldM DuplicateRule.addToGroup rest m = Returns m' ->
    ordered_groups (read ++ rest) m'.
Proof.
  induction rest as [|x rest IH]; intros read m m' Hm; cbn [foldM].
  - intros E. injection E as <-. now rewrite app_nil_r.
  - destruct (DuplicateRule.addToGroup m x) as [m1| |] eqn:E1;
      cbn [bind]; try discriminate.
    intros E. pose proof (addToGroup_ordered read m x m1 Hm E1) as H1.
    specialize (IH (read ++ [x]) m1 m' H1 E).
    now rewrite <- app_assoc in IH.
Qed.

Lemma confidence_reported (t1 t2 : T.t) :
  Qle_bool 0.75 (DuplicateRule.pairConfidence t1 t2) = true ->
  In (DuplicateRule.pairConfidence t1 t2) [0.75%Q; 0.9%Q; 0.95%Q].
Proof.
  intros H. pose proof (pairConfidence_values t1 t2) as Hv.
  destruct Hv as [E | [E | [E | [E | []]]]]; rewrite <- E in *; simpl; auto.
  vm_compute in H. discriminate.
Qed.

Lemma examinePair_ok uuid txs st t1 t2 :
  apart txs t1 t2 -> T.deleted t1 = false -> T.deleted t2 = false ->
  DuplicateRule.groupKey t1 = DuplicateRule.groupKey t2 ->
  Forall (duplicate_ok txs) (fst st) ->
  Forall (duplicate_ok txs) (fst (DuplicateRule.examinePair uuid st (t1, t2))).
Proof.
  intros H12 D1 D2 Ek Hst. destruct st as [recs pairs]. simpl in *.
  destruct (JsString.mem _ pairs); [exact Hst|].
  destruct (Qle_bool _ _) eqn:Eq; [|exact Hst]. simpl.
  apply Forall_app. split; [assumption|]. constructor; [|constructor].
  exists t1, t2, (DuplicateRule.pairConfidence t1 t2). simpl.
  repeat split; try assumption; try reflexivity.
  now apply confidence_reported.
Qed.

Lemma examinePair_once uuid st p :
  pairs_once st -> pairs_once (DuplicateRule.examinePair uuid st p).
Proof.
  destruct st as [recs pairs], p as [t1 t2]. intros [Hc Hn]. simpl in *.
  destruct (JsString.mem _ pairs) eqn:Em; [split; assumption|].
  destruct (Qle_bool _ _); [|split; assumption]. simpl. split.
  - intros r Hr. apply JsMap_add_In. apply in_app_iff in Hr.
    destruct Hr as [Hr | [<- | []]]; [left; auto | right; reflexivity].
  - unfold pairs_once, fst. rewrite map_app. cbn [map R.transactionIds].
    apply (Permutation_NoDup (l := JsString.sort [T.id t1; T.id t2]
                                   :: map R.transactionIds recs)).
    + apply Permutation_cons_append.
    + constructor; [|assumption].
      intros Hin. apply in_map_iff in Hin. destruct Hin as [r [E Hr]].
      apply Hc in Hr. rewrite E in Hr. apply mem_false in Em. contradiction.
Qed.

(** X10.  Every recommendation of the duplicate detector is a pending
    Duplicate for two undeleted records at two places of the input list that
    share the grouping key (date and amount with two decimals): no entry is
    paired with itself.  Its targets are the two ids in ascending order, its
    original value records the names and descriptions of the two, the earlier
    record first, and its confidence is the one computed for the pair: 0.75,
    0.9 or 0.95. *)
Theorem duplicate_recommendations txs uuid recs r :
  DuplicateRule.findDuplicateRecommendations uuid txs = Returns recs ->
  In r recs -> duplicate_ok txs r.
Proof.
  unfold DuplicateRule.findDuplicateRecommendations.
  destruct (foldM DuplicateRule.addToGroup txs []) as [m| |] eqn:Em;
    simpl; try discriminate.
  intros E Hr. injection E as <-.
  pose proof (grouping_keyed _ _ Em) as Hg.
  assert (Ho : ordered_groups txs m).
  { apply (grouping_ordered txs [] [] m); [|assumption]. intros g []. }
  revert r Hr. apply Forall_forall.
  apply (fold_left_inv (fun st => Forall (duplicate_ok txs) (fst st)));
    [|constructor].
  intros st group Hin Hst. unfold DuplicateRule.examineGroup.
  destruct (1 <? List.length group); [|assumption].
  apply (fold_left_inv (fun st => Forall (duplicate_ok txs) (fst st)));
    [|assumption].
  intros st' [a b] Hp Hst'.
  destruct (Ho group Hin) as [_ Hapart]. specialize (Hapart a b Hp).
  apply pairsOf_In in Hp. destruct Hp as [Ha Hb].
  unfold JsMap.values in Hin. apply in_map_iff in Hin.
  destruct Hin as [[k g] [Eg Hin]]. simpl in Eg. subst g.
  destruct (Hg k group a Hin Ha) as [Ia [Da Ka]].
  destruct (Hg k group b Hin Hb) as [Ib [Db Kb]].
  apply examinePair_ok; try assumption. congruence.
Qed.

(** X11.  The detector reports a pair of ids at most once: no two
    recommendations of one run have the same targets. *)
Theorem duplicate_pairs_once txs uuid recs :
  DuplicateRule.findDuplicateRecommendations uuid txs = Returns recs ->
  NoDup (map R.transactionIds recs).
Proof.
  unfold DuplicateRule.findDuplicateRecommendations.
  destruct (foldM DuplicateRule.addToGroup txs []) as [m| |] eqn:Em;
    simpl; try discriminate.
  intros E. injection E as <-.
  apply (fold_left_inv pairs_once).
  - intros st group _ Hst. unfold DuplicateRule.examineGroup.
    destruct (1 <? List.length group); [|assumption].
    apply (fold_left_inv pairs_once); [|assumption].
    intros st' p _ Hst'. now apply examinePair_once.
  - split; [intros r [] | constructor].
Qed.

Lemma simpleSimilarity_swap (s1 s2 : string) :
  String.length s1 <> String.length s2 ->
  DuplicateRule.simpleSimilarity s1 s2 = DuplicateRule.simpleSimilarity s2 s1.
Proof.
  intros Hne. unfold DuplicateRule.simpleSimilarity.
  destruct (String.length s2 <? String.length s1) eqn:E1;
    destruct (String.length s1 <? String.length s2) eqn:E2;
    try reflexivity.
  - apply Nat.ltb_lt in E1, E2. lia.
  - apply Nat.ltb_ge in E1, E2. lia.
Qed.

(** X12.  On strings of ASCII characters (on which the lower-casing of the
    model is that of the source) the similarity of the duplicate detector is
    a finite number between 0 and 1: the division is by the length of the
    longer string, which is not zero when it is reached, and lower-casing
    keeps the lengths.  The result does not depend on the order of the two
    strings when their lengths differ; for strings of equal length it can,
    and with it the test against the cutoff 0.8. *)
Theorem simpleSimilarity_range (s1 s2 : string) :
  isAscii s1 = true -> isAscii s2 = true ->
  (exists q,
      DuplicateRule.simpleSimilarity s1 s2 = JsNumber.Finite q
      /\ (0 <= q)%Q /\ (q <= 1)%Q)
  /\ (String.length s1 <> String.length s2 ->
      DuplicateRule.simpleSimilarity s1 s2
      = DuplicateRule.simpleSimilarity s2 s1)
  /\ JsNumber.gt (DuplicateRule.simpleSimilarity "aab" "abc") 0.8 = true
  /\ JsNumber.gt (DuplicateRule.simpleSimilarity "abc" "aab") 0.8 = false.
Proof.
  intros _ _.
  split; [apply simpleSimilarity_finite|].
  split; [apply simpleSimilarity_swap|].
  split; reflexivity.
Qed.

(* ------------------------------------------------------------------------- *)
(** * Further properties of the missing-field completer *)
(* ------------------------------------------------------------------------- *)

Lemma truthy_false (s : string) :
  JsString.truthy s = false <-> s = EmptyString.
Proof.
  unfold JsString.truthy. destruct (String.eqb s EmptyString) eqn:E; simpl.
  - apply String.eqb_eq in E. split; auto.
  - apply String.eqb_neq in E. split; [discriminate | contradiction].
Qed.

Lemma truthy_true (s : string) :
  JsString.truthy s = true <-> s <> EmptyString.
Proof.
  unfold JsString.truthy. destruct (String.eqb s EmptyString) eqn:E; simpl.
  - apply String.eqb_eq in E. split; [discriminate | contradiction].
  - apply String.eqb_neq in E. split; auto.
Qed.

Lemma toLowerCase_nonempty (s : string) :
  JsString.toLowerCase s <> EmptyString -> s <> EmptyString.
Proof. intros H ->. now apply H. Qed.

Lemma increment_In freq key freq' k n :
  MissingFieldRule.increment freq key = Returns freq' ->
  In (k, n) freq' -> k = key \/ In (k, n) freq.
Proof.
  unfold MissingFieldRule.increment.
  destruct (JsObject.get freq key); try discriminate;
    intros E; injection E as <-; intros H;
    apply JsObject_set_In in H; destruct H as [[-> _] | H]; auto.
Qed.

Lemma update_inv {V} (Q : string -> JsObject.t V -> Prop) table k f table' :
  (forall k0 inner, In (k0, inner) table -> Q k0 inner) ->
  Q k [] ->
  (forall inner inner', Q k inner -> f inner = Returns inner' -> Q k inner') ->
  MissingFieldRule.update table k f = Returns table' ->
  forall k' inner', In (k', inner') table' -> Q k' inner'.
Proof.
  intros Ht Hnil Hf. unfold MissingFieldRule.update.
  destruct (JsObject.get table k) as [inner|h|] eqn:G; try discriminate.
  - apply JsObject_get_Own in G.
    destruct (f inner) as [inner1| |] eqn:Ef; simpl; try discriminate.
    intros E; injection E as <-. intros k' inner' H.
    apply JsObject_set_In in H. destruct H as [[-> ->] | H]; [|auto].
    apply (Hf inner); auto.
  - destruct (f []) as [inner1| |] eqn:Ef; simpl; try discriminate.
    intros E; injection E as <-. intros k' inner' H.
    apply JsObject_set_In in H. destruct H as [[-> ->] | H]; [|auto].
    apply (Hf []); auto.
Qed.

Lemma learn_learned history tb x tb' :
  In x history -> learned history tb ->
  MissingFieldRule.learn tb x = Returns tb' -> learned history tb'.
Proof.
  intros Hx [H1 [H2 H3]]. unfold MissingFieldRule.learn.
  destruct (T.deleted x) eqn:D; [intros E; injection E as <-; repeat split; assumption|].
  set (k := JsString.toLowerCase (T.paidTo x)).
  destruct (JsString.truthy k) eqn:Ek; simpl;
    [|intros E; injection E as <-; repeat split; assumption].
  assert (Hne : T.paidTo x <> EmptyString).
  { apply toLowerCase_nonempty. now apply truthy_true. }
  assert (Hseen : forall P : T.t -> Prop, P x -> seen history k P).
  { intros P HP. exists x. repeat split; auto. }
  match goal with
  | |- bind ?a _ = _ -> _ => destruct a as [tf| |] eqn:E1; simpl; try discriminate
  end.
  match goal with
  | |- bind ?a _ = _ -> _ => destruct a as [sf| |] eqn:E2; simpl; try discriminate
  end.
  match goal with
  | |- bind ?a _ = _ -> _ => destruct a as [ttf| |] eqn:E3; simpl; try discriminate
  end.
  intros E. injection E as <-. simpl. split; [|split].
  - destruct (JsString.truthy (T.expenseType x));
      [|injection E1 as <-; assumption].
    intros k0 inner ty n Hin.
    refine (update_inv
              (fun k0 inner => forall ty n, In (ty, n) inner ->
                 seen history k0 (fun y => T.expenseType y = ty))
              _ _ _ _ (fun k1 i1 Hi ty1 n1 => H1 k1 i1 ty1 n1 Hi) _ _ E1
              k0 inner Hin ty n).
    + intros ty0 n0 [].
    + intros inner0 inner1 Hq Ei ty0 n0 Hty.
      destruct (increment_In _ _ _ _ _ Ei Hty) as [-> | Hold]; [|eauto].
      now apply Hseen.
  - destruct (JsString.truthy (T.expenseType x)
              && JsString.truthy (T.expenseSubtype x));
      [|injection E2 as <-; assumption].
    intros k0 byType ty inner sub n Hin.
    refine (update_inv
              (fun k0 byType => forall ty inner sub n,
                 In (ty, inner) byType -> In (sub, n) inner ->
                 seen history k0 (fun y => T.expenseType y = ty
                                           /\ T.expenseSubtype y = sub))
              _ _ _ _
              (fun k1 b1 Hb ty1 i1 sub1 n1 => H2 k1 b1 ty1 i1 sub1 n1 Hb)
              _ _ E2 k0 byType Hin ty inner sub n).
    + intros ty0 inner0 sub0 n0 [].
    + intros byType0 byType1 Hq Eu ty0 inner0 sub0 n0 Hty.
      refine (update_inv
                (fun ty inner => forall sub n, In (sub, n) inner ->
                   seen history k (fun y => T.expenseType y = ty
                                            /\ T.expenseSubtype y = sub))
                _ _ _ _ (fun ty1 i1 Hi sub1 n1 => Hq ty1 i1 sub1 n1 Hi) _ _ Eu
                ty0 inner0 Hty sub0 n0).
      * intros sub1 n1 [].
      * intros inner1 inner2 Hq' Ei sub1 n1 Hsub.
        destruct (increment_In _ _ _ _ _ Ei Hsub) as [-> | Hold]; [|eauto].
        apply Hseen. auto.
  - destruct (JsString.truthy (T.transactionType x));
      [|injection E3 as <-; assumption].
    intros k0 inner ty n Hin.
    refine (update_inv
              (fun k0 inner => forall ty n, In (ty, n) inner ->
                 seen history k0 (fun y => T.transactionType y = ty))
              _ _ _ _ (fun k1 i1 Hi ty1 n1 => H3 k1 i1 ty1 n1 Hi) _ _ E3
              k0 inner Hin ty n).
    + intros ty0 n0 [].
    + intros inner0 inner1 Hq Ei ty0 n0 Hty.
      destruct (increment_In _ _ _ _ _ Ei Hty) as [-> | Hold]; [|eauto].
      now apply Hseen.
Qed.

Lemma missing_insertEntry_In e l x :
  In x (MissingFieldRule.insertEntry e l) -> x = e \/ In x l.
Proof.
  induction l as [|e' l IH]; simpl; [intros [<- | []]; auto|].
  destruct (snd e' <=? snd e); simpl.
  - intros [<- | [<- | H]]; auto.
  - intros [<- | H]; [auto|]. destruct (IH H); auto.
Qed.

Lemma missing_sortEntries_In l x :
  In x (MissingFieldRule.sortEntries l) -> In x l.
Proof.
  induction l as [|e l IH]; simpl; [auto|].
  intros H. apply missing_insertEntry_In in H. destruct H as [-> | H]; auto.
Qed.

Lemma getMostFrequent_In inner s :
  MissingFieldRule.getMostFrequent (Some inner) = Returns (Some s) ->
  exists n, In (s, n) inner.
Proof.
  unfold MissingFieldRule.getMostFrequent.
  destruct (List.length (JsObject.keys inner) =? 0); [discriminate|].
  destruct (MissingFieldRule.sortEntries (JsObject.entries inner))
    as [|[s' n] l] eqn:E; [discriminate|].
  intros H. injection H as <-. exists n. unfold JsObject.entries in E.
  apply missing_sortEntries_In. rewrite E. now left.
Qed.

Lemma historical_In table k s :
  MissingFieldRule.historical table k = Returns (Some s) ->
  exists inner n, In (k, inner) table /\ In (s, n) inner.
Proof.
  unfold MissingFieldRule.historical.
  destruct (JsString.truthy k); [|discriminate].
  destruct (JsObject.get table k) as [inner|h|] eqn:G; try discriminate.
  intros H. apply getMostFrequent_In in H. destruct H as [n Hn].
  apply JsObject_get_Own in G. eauto.
Qed.

Lemma historicalSubtype_In table k ty s :
  MissingFieldRule.historicalSubtype table k ty = Returns (Some s) ->
  exists byType inner n,
    In (k, byType) table /\ In (ty, inner) byType /\ In (s, n) inner.
Proof.
  unfold MissingFieldRule.historicalSubtype.
  destruct (JsString.truthy k); [|discriminate].
  destruct (JsObject.get table k) as [byType|h|] eqn:G; try discriminate.
  destruct (JsObject.get byType ty) as [inner|h|] eqn:G'; try discriminate.
  intros H. apply getMostFrequent_In in H. destruct H as [n Hn].
  apply JsObject_get_Own in G. apply JsObject_get_Own in G'.
  exists byType, inner, n. auto.
Qed.

Lemma matchedKeyword_match ruleDef (x : T.t) kw :
  In ruleDef KEYWORD_RULES ->
  matchedKeyword ruleDef (JsString.toLowerCase (T.paidTo x))
                 (JsString.toLowerCase (T.description x)) = Some kw ->
  keywordMatch ruleDef x.
Proof.
  intros Hr H. unfold matchedKeyword in H. apply find_some in H.
  split; [assumption|]. exists kw. exact H.
Qed.

Lemma keywordType_match (x : T.t) rules ty rule :
  (forall r, In r rules -> In r KEYWORD_RULES) ->
  MissingFieldRule.keywordType rules (JsString.toLowerCase (T.paidTo x))
    (JsString.toLowerCase (T.description x)) = Some (ty, rule) ->
  JsString.includes rule "keyword" = true
  /\ exists ruleDef, keywordMatch ruleDef x /\ KeywordRule.type ruleDef = ty.
Proof.
  induction rules as [|ruleDef rules IH]; simpl; intros Hin; [discriminate|].
  destruct (matchedKeyword ruleDef _ _) as [kw|] eqn:E.
  - intros H. injection H as <- <-. split; [reflexivity|].
    exists ruleDef. split; [|reflexivity].
    apply (matchedKeyword_match ruleDef x kw); [apply Hin; now left | exact E].
  - apply IH. intros r Hr. apply Hin. now right.
Qed.

Lemma keywordSubtype_match (x : T.t) rules expenseType sub rule :
  (forall r, In r rules -> In r KEYWORD_RULES) ->
  MissingFieldRule.keywordSubtype rules expenseType
    (JsString.toLowerCase (T.paidTo x))
    (JsString.toLowerCase (T.description x)) = Some (sub, rule) ->
  JsString.includes rule "keyword" = true
  /\ exists ruleDef, keywordMatch ruleDef x
                     /\ KeywordRule.type ruleDef = expenseType
                     /\ KeywordRule.subtype ruleDef = sub.
Proof.
  induction rules as [|ruleDef rules IH]; simpl; intros Hin; [discriminate|].
  assert (Hrest : forall r, In r rules -> In r KEYWORD_RULES)
    by (intros r Hr; apply Hin; now right).
  destruct (String.eqb (KeywordRule.type ruleDef) expenseType) eqn:Et;
    [|now apply IH].
  destruct (matchedKeyword ruleDef _ _) as [kw|] eqn:E; [|now apply IH].
  intros H. injection H as <- <-. split; [reflexivity|].
  exists ruleDef. apply String.eqb_eq in Et. split; [|split; auto].
  apply (matchedKeyword_match ruleDef x kw); [apply Hin; now left | exact E].
Qed.

Lemma resolve_cases fromHistory fromKeywords s rule :
  MissingFieldRule.resolve fromHistory fromKeywords = (Some s, rule) ->
  JsString.truthy s = true ->
  (fromHistory = Some s /\ rule = "based on historical data")
  \/ fromKeywords = Some (s, rule).
Proof.
  unfold MissingFieldRule.resolve.
  destruct (MissingFieldRule.present fromHistory) eqn:P.
  - intros E _. injection E as -> <-. now left.
  - destruct fromKeywords as [[s' rule']|].
    + intros E _. injection E as -> ->. now right.
    + intros E Ht. injection E as -> _. simpl in P. congruence.
Qed.

Lemma seen_sameMerchant history (x : T.t) P :
  seen history (JsString.toLowerCase (T.paidTo x)) P ->
  exists y, sameMerchant history x y /\ P y.
Proof.
  intros [y [Hy [D [Hne [E HP]]]]]. exists y. repeat split; assumption.
Qed.

Lemma missing_push_ok toProcess history uuid s (x : T.t) field sg c text :
  Forall (missing_ok toProcess history) s ->
  missing_ok toProcess history
    (R.mk (uuid (List.length s)) MissingField [T.id x] (Some field)
          (Some (VString EmptyString)) sg (Some (JsNumber.Finite c)) text
          pending) ->
  Forall (missing_ok toProcess history)
         (MissingFieldRule.push uuid s x field EmptyString sg c text).
Proof.
  intros Hs Hr. unfold MissingFieldRule.push. apply Forall_app.
  split; [assumption | constructor; [exact Hr | constructor]].
Qed.

Lemma complete_ok toProcess history uuid tb s x s' :
  In x toProcess -> learned history tb ->
  Forall (missing_ok toProcess history) s ->
  MissingFieldRule.complete uuid tb s x = Returns s' ->
  Forall (missing_ok toProcess history) s'.
Proof.
  intros Hx [L1 [L2 L3]] Hs. unfold MissingFieldRule.complete.
  destruct (T.deleted x) eqn:Hd; [intros E; injection E as <-; assumption|].
  set (k := JsString.toLowerCase (T.paidTo x)).
  set (d := JsString.toLowerCase (T.description x)).
  destruct (MissingFieldRule.suggestType uuid tb s x k d) as [r1| |] eqn:E1;
    simpl; try discriminate.
  destruct (MissingFieldRule.suggestSubtype uuid tb r1 x k d) as [r2| |] eqn:E2;
    simpl; try discriminate.
  intros E3.
  assert (H1 : Forall (missing_ok toProcess history) r1).
  { revert E1. unfold MissingFieldRule.suggestType.
    destruct (JsString.truthy (T.expenseType x)) eqn:Ety; cbn [negb andb];
      [intros E; injection E as <-; assumption|].
    apply truthy_false in Ety.
    destruct (MissingFieldRule.historical _ k) as [h| |] eqn:Eh; cbn [bind];
      try discriminate.
    destruct (MissingFieldRule.resolve h _) as [[sg|] rule] eqn:Er;
      [|intros E; injection E as <-; assumption].
    destruct (JsString.truthy sg) eqn:Esg; intros E; injection E as <-;
      [|assumption].
    rewrite Ety. apply missing_push_ok; [assumption|].
    exists x. simpl. repeat split; try assumption.
    { now apply truthy_true. }
    left. repeat split; [assumption|].
    destruct (resolve_cases _ _ _ _ Er Esg) as [[-> ->] | Ek].
    - left. split; [reflexivity|].
      apply historical_In in Eh. destruct Eh as [inner [n [Hin Hn]]].
      apply seen_sameMerchant. apply (L1 _ _ _ _ Hin Hn).
    - right. apply keywordType_match in Ek; [|auto].
      destruct Ek as [-> Hk]. split; [reflexivity | exact Hk]. }
  assert (H2 : Forall (missing_ok toProcess history) r2).
  { revert E2. unfold MissingFieldRule.suggestSubtype.
    destruct (JsString.truthy (T.expenseType x)) eqn:Ety; cbn [negb andb];
      [|intros E; injection E as <-; assumption].
    destruct (JsString.truthy (T.expenseSubtype x)) eqn:Est; cbn [negb andb];
      [intros E; injection E as <-; assumption|].
    apply truthy_true in Ety. apply truthy_false in Est.
    destruct (MissingFieldRule.historicalSubtype _ k _) as [h| |] eqn:Eh;
      cbn [bind]; try discriminate.
    destruct (MissingFieldRule.resolve h _) as [[sg|] rule] eqn:Er;
      [|intros E; injection E as <-; assumption].
    destruct (JsString.truthy sg) eqn:Esg; intros E; injection E as <-;
      [|assumption].
    rewrite Est. apply missing_push_ok; [assumption|].
    exists x. simpl. repeat split; try assumption.
    { now apply truthy_true. }
    right. left. repeat split; [assumption | assumption |].
    destruct (resolve_cases _ _ _ _ Er Esg) as [[-> ->] | Ek].
    - left. split; [reflexivity|].
      apply historicalSubtype_In in Eh.
      destruct Eh as [byType [inner [n [Hin [Hty Hn]]]]].
      destruct (seen_sameMerchant _ _ _ (L2 _ _ _ _ _ _ Hin Hty Hn))
        as [y [Hy [Ey1 Ey2]]].
      exists y. auto.
    - right. apply keywordSubtype_match in Ek; [|auto].
      destruct Ek as [-> Hk]. split; [reflexivity | exact Hk]. }
  revert E3. unfold MissingFieldRule.suggestTransactionType.
  destruct (JsString.truthy (T.transactionType x)) eqn:Ety; cbn [negb andb];
    [intros E; injection E as <-; assumption|].
  apply truthy_false in Ety.
  destruct (MissingFieldRule.historical _ k) as [[sg|]| |] eqn:Eh; cbn [bind];
    try discriminate; [|intros E; injection E as <-; assumption].
  destruct (JsString.truthy sg) eqn:Esg; intros E; injection E as <-;
    [|assumption].
  rewrite Ety. apply missing_push_ok; [assumption|].
  exists x. simpl. repeat split; try assumption.
  { now apply truthy_true. }
  right. right. repeat split; [assumption|].
  apply historical_In in Eh. destruct Eh as [inner [n [Hin Hn]]].
  apply seen_sameMerchant. apply (L3 _ _ _ _ Hin Hn).
Qed.

Lemma suggestMissingField_ok uuid toProcess history recs r :
  MissingFieldRule.suggestMissingFieldRecommendations uuid toProcess history
  = Returns recs ->
  In r recs -> missing_ok toProcess history r.
Proof.
  unfold MissingFieldRule.suggestMissingFieldRecommendations.
  destruct (foldM MissingFieldRule.learn history _) as [tb| |] eqn:El;
    simpl; try discriminate.
  intros H Hr. revert r Hr. apply Forall_forall.
  assert (Hl : learned history tb).
  { revert El. apply (foldM_inv (learned history)).
    - intros s x s' Hx Hs E. now apply (learn_learned history s x).
    - repeat split; intros; contradiction. }
  revert H. apply (foldM_inv (Forall (missing_ok toProcess history)));
    [|constructor].
  intros s x s' Hx Hs E. now apply (complete_ok toProcess history uuid tb s x).
Qed.

(** X13.  When no name, type, subtype or transaction type of an undeleted
    record, of the list to process or of the history, is the name of a member
    of Object.prototype, the missing-field completer returns a list, and
    every recommendation of it is a pending MissingField for one undeleted
    record of the list to process, about a field of that record that is empty
    (the subtype only when the type is filled); the value suggested is not
    empty and is either what an undeleted record of the history with the same
    name up to case has in that field (confidence 0.65 for the type, 0.6 for
    the subtype and the transaction type), or the type or subtype of a rule
    of the keyword table that matches the record (confidence 0.8 and 0.75).
    (On a name of a member of Object.prototype the tables of the source read
    and write that inherited member; the model does not follow the rule
    there.) *)
Theorem missing_field_recommendations uuid toProcess history :
  plainRecords toProcess -> plainRecords history ->
  exists recs,
    MissingFieldRule.suggestMissingFieldRecommendations uuid toProcess history
    = Returns recs
    /\ forall r, In r recs -> missing_ok toProcess history r.
Proof.
  intros Hp Hh.
  destruct (suggestMissingField_returns uuid toProcess history Hp Hh)
    as [recs E].
  exists recs. split; [exact E|].
  intros r Hr. exact (suggestMissingField_ok uuid toProcess history recs r E Hr).
Qed.

(* ------------------------------------------------------------------------- *)
(** * Further properties of the classification suggester *)
(* ------------------------------------------------------------------------- *)

Lemma bump_In entries ty sub e :
  In e (ClassificationRule.bump entries ty sub) ->
  (ClassificationRule.type e = ty /\ ClassificationRule.subtype e = sub)
  \/ exists e', In e' entries
                /\ ClassificationRule.type e = ClassificationRule.type e'
                /\ ClassificationRule.subtype e = ClassificationRule.subtype e'.
Proof.
  induction entries as [|e0 l IH]; simpl.
  - intros [<- | []]. now left.
  - destruct (String.eqb (ClassificationRule.type e0) ty
              && String.eqb (ClassificationRule.subtype e0) sub) eqn:E.
    + intros [<- | H]; right; [exists e0 | exists e]; simpl; auto.
    + intros [<- | H]; [right; exists e0; auto|].
      destruct (IH H) as [Hn | [e' [He' Hs]]]; [now left|].
      right. exists e'. auto.
Qed.

Lemma classification_learn_classified history m x m' :
  In x history -> classified history m ->
  ClassificationRule.learn m x = Returns m' -> classified history m'.
Proof.
  intros Hx Hm. unfold ClassificationRule.learn.
  destruct (T.deleted x) eqn:D; cbn [orb];
    [intros E; injection E as <-; assumption|].
  destruct (JsString.truthy (T.paidTo x)) eqn:Ep; cbn [negb orb];
    [|intros E; injection E as <-; assumption].
  destruct (JsString.truthy (T.expenseType x)); cbn [negb orb];
    [|intros E; injection E as <-; assumption].
  destruct (JsString.truthy (T.expenseSubtype x)); cbn [negb orb];
    [|intros E; injection E as <-; assumption].
  apply truthy_true in Ep.
  set (k := JsString.toLowerCase (T.paidTo x)).
  assert (Hnew : forall old e,
             (forall e', In e' old ->
                seen history k
                  (fun y => T.expenseType y = ClassificationRule.type e'
                            /\ T.expenseSubtype y
                               = ClassificationRule.subtype e')) ->
             In e (ClassificationRule.bump old (T.expenseType x)
                                           (T.expenseSubtype x)) ->
             seen history k
               (fun y => T.expenseType y = ClassificationRule.type e
                         /\ T.expenseSubtype y = ClassificationRule.subtype e)).
  { intros old e Hold He. apply bump_In in He.
    destruct He as [[E1 E2] | [e' [He' [E1 E2]]]].
    - exists x. repeat split; auto.
    - rewrite E1, E2. now apply Hold. }
  destruct (JsObject.get m k) as [entries|h|] eqn:G; try discriminate;
    intros E; injection E as <-; intros k0 es e Hin He;
    apply JsObject_set_In in Hin;
    (destruct Hin as [[-> ->] | Hin]; [|now apply (Hm k0 es e)]).
  - apply JsObject_get_Own in G. apply (Hnew entries e); [|assumption].
    intros e' He'. now apply (Hm k entries e').
  - apply (Hnew [] e); [intros e' []|assumption].
Qed.

Lemma classification_insertEntry_In e l x :
  In x (ClassificationRule.insertEntry e l) -> x = e \/ In x l.
Proof.
  induction l as [|e' l IH]; simpl; [intros [<- | []]; auto|].
  destruct (ClassificationRule.count e' <=? ClassificationRule.count e); simpl.
  - intros [<- | [<- | H]]; auto.
  - intros [<- | H]; [auto|]. destruct (IH H); auto.
Qed.

Lemma classification_sortEntries_In l x :
  In x (ClassificationRule.sortEntries l) -> In x l.
Proof.
  induction l as [|e l IH]; simpl; [auto|].
  intros H. apply classification_insertEntry_In in H.
  destruct H as [-> | H]; auto.
Qed.

Lemma sortAll_classified history m :
  classified history m -> classified history (ClassificationRule.sortAll m).
Proof.
  intros Hm k entries e Hin He. unfold ClassificationRule.sortAll in Hin.
  apply in_map_iff in Hin. destruct Hin as [[k' l] [E Hin]].
  simpl in E. injection E as -> <-.
  apply classification_sortEntries_In in He. now apply (Hm k l e).
Qed.

Lemma keywordSuggestion_match (x : T.t) rules ty sub kw :
  (forall r, In r rules -> In r KEYWORD_RULES) ->
  ClassificationRule.keywordSuggestion rules
    (JsString.toLowerCase (T.paidTo x))
    (JsString.toLowerCase (T.description x)) = Some (ty, sub, kw) ->
  exists ruleDef, keywordMatch ruleDef x
                  /\ KeywordRule.type ruleDef = ty
                  /\ KeywordRule.subtype ruleDef = sub.
Proof.
  induction rules as [|ruleDef rules IH]; simpl; intros Hin; [discriminate|].
  assert (Hrest : forall r, In r rules -> In r KEYWORD_RULES)
    by (intros r Hr; apply Hin; now right).
  destruct (matchedKeyword ruleDef _ _) as [kw'|] eqn:E; [|now apply IH].
  destruct (JsString.truthy kw'); [|now apply IH].
  intros H. injection H as <- <- <-.
  exists ruleDef. split; [|split; reflexivity].
  apply (matchedKeyword_match ruleDef x kw'); [apply Hin; now left | exact E].
Qed.

Lemma classification_push_ok toProcess history uuid s (x : T.t) field o sg c
      text :
  Forall (classification_ok toProcess history) s ->
  classification_ok toProcess history
    (R.mk (uuid (List.length s)) Classification [T.id x] (Some field)
          (Some (VString o)) sg (Some (JsNumber.Finite c)) text pending) ->
  Forall (classification_ok toProcess history)
         (ClassificationRule.push uuid s x field o sg c text).
Proof.
  intros Hs Hr. unfold ClassificationRule.push. apply Forall_app.
  split; [assumption | constructor; [exact Hr | constructor]].
Qed.

Lemma fromKeywords_ok toProcess history uuid s (x : T.t) :
  In x toProcess -> T.deleted x = false ->
  Forall (classification_ok toProcess history) s ->
  Forall (classification_ok toProcess history)
         (ClassificationRule.fromKeywords uuid s x
            (JsString.toLowerCase (T.paidTo x))
            (JsString.toLowerCase (T.description x))).
Proof.
  intros Hx D Hs. unfold ClassificationRule.fromKeywords.
  destruct (ClassificationRule.keywordSuggestion KEYWORD_RULES _ _)
    as [[[ktype ksubtype] keyword]|] eqn:Ek; [|assumption].
  apply keywordSuggestion_match in Ek; [|auto].
  destruct Ek as [ruleDef [Hmatch [Et Es]]].
  destruct (negb (String.eqb (T.expenseType x) ktype)
            || negb (String.eqb (T.expenseSubtype x) ksubtype));
    [|assumption].
  destruct (JsString.truthy (T.expenseType x)) eqn:Ety; cbn [negb].
  - apply truthy_true in Ety.
    destruct (String.eqb (T.expenseType x) ktype) eqn:Eeq; cbn [andb];
      [|assumption].
    destruct (negb (String.eqb (T.expenseSubtype x) ksubtype)); cbn [andb];
      [|assumption].
    destruct (JsString.truthy (T.expenseSubtype x)) eqn:Est; cbn [negb];
      [assumption|].
    apply truthy_false in Est. apply String.eqb_eq in Eeq.
    apply classification_push_ok; [assumption|].
    exists x. simpl. repeat split; try assumption.
    right. repeat split. right. left. repeat split; try assumption.
    exists ruleDef. split; [assumption | split; congruence].
  - apply truthy_false in Ety.
    apply classification_push_ok.
    + apply classification_push_ok; [assumption|].
      exists x. simpl. repeat split; try assumption.
      left. rewrite Ety. repeat split. left. split; [reflexivity|].
      exists ruleDef. split; assumption.
    + exists x. simpl. repeat split; try assumption.
      right. repeat split. left. repeat split; try assumption.
      exists ruleDef. split; assumption.
Qed.

Lemma fromTop_ok toProcess history uuid s (x : T.t) top :
  In x toProcess -> T.deleted x = false ->
  seen history (JsString.toLowerCase (T.paidTo x))
       (fun y => T.expenseType y = ClassificationRule.type top
                 /\ T.expenseSubtype y = ClassificationRule.subtype top) ->
  Forall (classification_ok toProcess history) s ->
  Forall (classification_ok toProcess history)
         (ClassificationRule.fromTop uuid s x top).
Proof.
  intros Hx D Hseen Hs. unfold ClassificationRule.fromTop.
  destruct (seen_sameMerchant _ _ _ Hseen) as [y [Hy [Ey1 Ey2]]].
  destruct (JsString.truthy (T.expenseType x)) eqn:Ety; cbn [negb andb].
  - destruct (JsString.truthy (T.expenseSubtype x)) eqn:Est; cbn [negb andb];
      [assumption|].
    destruct (String.eqb (ClassificationRule.type top) (T.expenseType x))
      eqn:Eeq; [|assumption].
    apply truthy_false in Est. apply String.eqb_eq in Eeq.
    apply classification_push_ok; [assumption|].
    exists x. simpl. repeat split; try assumption.
    right. repeat split. right. right. repeat split; try assumption.
    exists y. split; [assumption | split; [assumption | right; congruence]].
  - destruct (JsString.truthy (T.expenseSubtype x)) eqn:Est; cbn [negb andb];
      [assumption|].
    apply truthy_false in Ety. apply truthy_false in Est.
    apply classification_push_ok.
    + apply classification_push_ok; [assumption|].
      exists x. simpl. repeat split; try assumption.
      left. rewrite Ety. repeat split. right. repeat split; try assumption.
      exists y. split; assumption.
    + exists x. simpl. repeat split; try assumption.
      right. repeat split. right. right. repeat split; try assumption.
      exists y. split; [assumption | split; [assumption | now left]].
Qed.

Lemma classify_ok toProcess history uuid m s x s' :
  In x toProcess -> classified history m ->
  Forall (classification_ok toProcess history) s ->
  ClassificationRule.classify uuid m s x = Returns s' ->
  Forall (classification_ok toProcess history) s'.
Proof.
  intros Hx Hm Hs. unfold ClassificationRule.classify.
  destruct (T.deleted x) eqn:D; [intros E; injection E as <-; assumption|].
  pose proof (fromKeywords_ok toProcess history uuid s x Hx D Hs) as Hk.
  unfold ClassificationRule.fromHistory.
  destruct (JsString.truthy _); [|intros E; injection E as <-; assumption].
  destruct (JsObject.get m _) as [[|top rest]|[]|] eqn:G;
    try discriminate;
    try (intros E; injection E as <-; assumption).
  - intros E; injection E as <-. apply JsObject_get_Own in G.
    apply fromTop_ok; try assumption.
    apply (Hm _ _ top G). now left.
  - destruct (negb (JsString.truthy (T.expenseSubtype x))); [discriminate|].
    intros E; injection E as <-; assumption.
Qed.

(** X14.  Every recommendation of the classification suggester is a pending
    Classification for one undeleted record of the list to process whose type or
    subtype is empty. A suggestion for the type is made only when the type is
    empty; a suggestion for the subtype records the present subtype as original
    value, and can be made for a filled subtype only when the type is empty and
    a keyword matches (confidence 0.80). The value suggested comes from a rule
    of the keyword table that matches the record (confidence 0.85, 0.80, 0.75)
    or from an undeleted record of the history with the same name up to case
    (confidence 0.7, 0.65). *)
Theorem classification_recommendations uuid toProcess history recs r :
  ClassificationRule.suggestClassificationRecommendations
    uuid toProcess history = Returns recs ->
  In r recs -> classification_ok toProcess history r.
Proof.
  unfold ClassificationRule.suggestClassificationRecommendations.
  destruct (foldM ClassificationRule.learn history _) as [m| |] eqn:El;
    simpl; try discriminate.
  intros H Hr. revert r Hr. apply Forall_forall.
  assert (Hl : classified history m).
  { revert El. apply (foldM_inv (classified history)).
    - intros s x s' Hx Hs E.
      now apply (classification_learn_classified history s x).
    - intros k entries e []. }
  revert H. apply (foldM_inv (Forall (classification_ok toProcess history)));
    [|constructor].
  intros s x s' Hx Hs E.
  apply (classify_ok toProcess history uuid (ClassificationRule.sortAll m) s x);
    try assumption.
  now apply sortAll_classified.
Qed.

(* ------------------------------------------------------------------------- *)
(** * Further properties of the apply and ignore handlers *)
(* ------------------------------------------------------------------------- *)

Lemma update_id r x : T.id (App.update r x) = T.id x.
Proof. apply (fr_id _ _ _ (update_framed r x)). Qed.

Lemma update_status r s x :
  App.update (R.withStatus r s) x = App.update r x.
Proof. reflexivity. Qed.

Lemma update_twice r x : App.update r (App.update r x) = App.update r x.
Proof.
  destruct x as [i d p a et es de tt [o|] f rn], r as [ri [] ids [[]|] ov v c ds s];
    unfold App.update; cbn;
    try reflexivity;
    try (destruct o as [o1 o2 o3 o4 o5 o6 o7 o8]; cbn;
         try destruct o2; try destruct o4; try destruct o5; try destruct o7;
         reflexivity);
    try (destruct (String.eqb v "delete" || JsString.includes v i) eqn:E;
         cbn; rewrite ?E; destruct f; reflexivity).
Qed.

Lemma applyTo_twice r txs :
  App.applyTo r (App.applyTo r txs) = App.applyTo r txs.
Proof.
  unfold App.applyTo. rewrite map_map. apply map_ext. intros x.
  destruct (JsString.mem (T.id x) (R.transactionIds r)) eqn:E.
  - rewrite update_id, E. apply update_twice.
  - now rewrite E.
Qed.

Lemma applyTo_ids r txs : map T.id (App.applyTo r txs) = map T.id txs.
Proof.
  unfold App.applyTo. rewrite map_map. apply map_ext. intros x.
  destruct (JsString.mem _ _); [apply update_id | reflexivity].
Qed.

Lemma setStatusWhere_ids p s recs :
  map R.id (App.setStatusWhere p s recs) = map R.id recs.
Proof.
  unfold App.setStatusWhere. rewrite map_map. apply map_ext. intros r.
  now destruct (p r).
Qed.

Lemma setStatusWhere_twice p s recs :
  (forall r, p (R.withStatus r s) = p r) ->
  App.setStatusWhere p s (App.setStatusWhere p s recs)
  = App.setStatusWhere p s recs.
Proof.
  intros Hp. unfold App.setStatusWhere. rewrite map_map. apply map_ext.
  intros r. destruct (p r) eqn:E; [|now rewrite E].
  now rewrite Hp, E.
Qed.

Lemma find_setStatusWhere i s recs :
  find (fun rec => String.eqb (R.id rec) i)
       (App.setStatusWhere (fun rec => String.eqb (R.id rec) i) s recs)
  = option_map (fun r => R.withStatus r s)
               (find (fun rec => String.eqb (R.id rec) i) recs).
Proof.
  induction recs as [|r recs IH]; simpl; [reflexivity|].
  destruct (String.eqb (R.id r) i) eqn:E; simpl; rewrite E; [reflexivity|].
  exact IH.
Qed.

(** X19.  Applying a recommendation a second time changes nothing: the state
    after two calls of applyRecommendation with one id is the state after the
    first. In particular the value captured in originalValues stays the one the
    field had before the first change. *)
Theorem apply_twice (recommendationId : string) (st : App.state) :
  App.applyRecommendation recommendationId
    (App.applyRecommendation recommendationId st)
  = App.applyRecommendation recommendationId st.
Proof.
  unfold App.applyRecommendation at 2 3.
  destruct (find _ (App.recommendations st)) as [r|] eqn:F.
  - unfold App.applyRecommendation. cbn [App.recommendations App.transactions].
    rewrite find_setStatusWhere, F. cbn [option_map]. f_equal.
    + apply (applyTo_twice r).
    + now apply setStatusWhere_twice.
  - unfold App.applyRecommendation. now rewrite F.
Qed.

Lemma setStatusWhere_ext p q s recs :
  (forall r, p r = q r) ->
  App.setStatusWhere p s recs = App.setStatusWhere q s recs.
Proof.
  intros H. unfold App.setStatusWhere. apply map_ext. intros r. now rewrite H.
Qed.

Lemma setStatusWhere_none p s recs :
  (forall r, In r recs -> p r = false) -> App.setStatusWhere p s recs = recs.
Proof.
  intros H. unfold App.setStatusWhere.
  rewrite <- (map_id recs) at 2. apply map_ext_in. intros r Hr.
  now rewrite (H r Hr).
Qed.

Lemma mem_single (x i : string) : JsString.mem x [i] = String.eqb x i.
Proof. unfold JsString.mem. simpl. apply orb_false_r. Qed.

Lemma filter_by_id (q : R.t -> bool) i recs r :
  NoDup (map R.id recs) ->
  find (fun rec => String.eqb (R.id rec) i) recs = Some r ->
  filter (fun rec => String.eqb (R.id rec) i && q rec) recs
  = if q r then [r] else [].
Proof.
  induction recs as [|r0 recs IH]; simpl; intros Hn F; [discriminate|].
  inversion Hn as [|? ? Hnot Hn']; subst.
  destruct (String.eqb (R.id r0) i) eqn:E.
  - injection F as ->. apply String.eqb_eq in E.
    assert (Hrest : filter (fun rec => String.eqb (R.id rec) i && q rec) recs
                    = []).
    { apply filter_none. intros r' Hr'.
      destruct (String.eqb (R.id r') i) eqn:E'; [|reflexivity].
      apply String.eqb_eq in E'. exfalso. apply Hnot. rewrite E, <- E'.
      now apply in_map. }
    cbn [andb]. rewrite Hrest. now destruct (q r).
  - cbn [andb]. now apply IH.
Qed.

(** X20.  Bulk apply of one id against single apply. With an unknown id neither
    changes the state. For a known id (ids being distinct) the two agree when
    the recommendation is pending; when it is already applied or ignored the
    bulk handler leaves the records alone and still sets the status to applied. *)
Theorem bulk_apply_single (i : string) (st : App.state) :
  NoDup (map R.id (App.recommendations st)) ->
  App.applyMultipleRecommendations [i] st
  = match find (fun rec => String.eqb (R.id rec) i)
               (App.recommendations st) with
    | None => st
    | Some r =>
        if Status_eqb (R.status r) pending
        then App.applyRecommendation i st
        else App.mkState
               (App.transactions st)
               (App.setStatusWhere (fun rec => String.eqb (R.id rec) i)
                                   applied (App.recommendations st))
    end.
Proof.
  intros Hn. unfold App.applyMultipleRecommendations, App.applyRecommendation.
  rewrite (setStatusWhere_ext
             (fun rec => JsString.mem (R.id rec) [i])
             (fun rec => String.eqb (R.id rec) i))
    by (intros; apply mem_single).
  rewrite (filter_ext
             (fun rec => JsString.mem (R.id rec) [i]
                         && Status_eqb (R.status rec) pending)
             (fun rec => String.eqb (R.id rec) i
                         && Status_eqb (R.status rec) pending))
    by (intros; now rewrite mem_single).
  destruct (find _ (App.recommendations st)) as [r|] eqn:F.
  - rewrite (filter_by_id _ i _ r Hn F).
    destruct (Status_eqb (R.status r) pending); reflexivity.
  - assert (Hnone : forall r, In r (App.recommendations st) ->
                              String.eqb (R.id r) i = false).
    { intros r Hr. apply (find_none _ _ F r Hr). }
    rewrite setStatusWhere_none by exact Hnone.
    rewrite filter_none; [now destruct st|].
    intros r Hr. now rewrite (Hnone r Hr).
Qed.

(** X21.  Bulk ignore is the sequence of the single ignores of its ids. *)
Theorem bulk_ignore_sequence (ids : list string) (st : App.state) :
  App.ignoreMultipleRecommendations ids st
  = fold_left (fun s i => App.ignoreRecommendation i s) ids st.
Proof.
  revert st. induction ids as [|i ids IH]; intros st; simpl.
  - unfold App.ignoreMultipleRecommendations.
    rewrite setStatusWhere_none; [now destruct st | reflexivity].
  - rewrite <- IH.
    unfold App.ignoreMultipleRecommendations, App.ignoreRecommendation.
    cbn [App.transactions App.recommendations]. f_equal.
    unfold App.setStatusWhere. rewrite map_map. apply map_ext. intros r.
    unfold JsString.mem. cbn [existsb].
    rewrite (String.eqb_sym (R.id r) i).
    destruct (String.eqb i (R.id r)) eqn:E; cbn [orb].
    + cbn [R.id R.withStatus].
      now destruct (existsb (String.eqb (R.id r)) ids).
    + reflexivity.
Qed.

Lemma fold_applyTo_ids recs txs :
  map T.id (fold_left (fun t r => App.applyTo r t) recs txs) = map T.id txs.
Proof.
  revert txs. induction recs as [|r recs IH]; intros txs; simpl; [reflexivity|].
  now rewrite IH, applyTo_ids.
Qed.

(** X22.  No handler adds, removes, reorders or renames anything: after any of
    the four operations the records have the ids they had, in the same order,
    and so have the recommendations. *)
Theorem step_keeps_ids (st : App.state) (op : App.operation) :
  map T.id (App.transactions (App.step st op)) = map T.id (App.transactions st)
  /\ map R.id (App.recommendations (App.step st op))
     = map R.id (App.recommendations st).
Proof.
  destruct op as [i | i | l | l]; simpl.
  - unfold App.applyRecommendation.
    destruct (find _ (App.recommendations st)); simpl; [|auto].
    split; [apply applyTo_ids | apply setStatusWhere_ids].
  - split; [reflexivity | apply setStatusWhere_ids].
  - split; [apply fold_applyTo_ids | apply setStatusWhere_ids].
  - split; [reflexivity | apply setStatusWhere_ids].
Qed.

(** X23.  Applying a Duplicate recommendation of the detector deletes nothing
    when the record ids are longer than the text of its suggested value (32
    characters; a UUID has 36): every record keeps its isDeleted flag, its
    fields and its id, and the records the pair names get the flag
    isDuplicateCandidate. (The handler soft-deletes a target whose id occurs
    inside the suggested value.) *)
Theorem apply_duplicate_deletes_nothing (st : App.state) (r : R.t) :
  find (fun rec => String.eqb (R.id rec) (R.id r)) (App.recommendations st)
  = Some r ->
  R.type r = Duplicate ->
  R.suggestedValue r = "Mark one for deletion or review." ->
  (forall x, In x (App.transactions st) -> 32 < String.length (T.id x)) ->
  Forall2 (fun x x' =>
             T.deleted x' = T.deleted x
             /\ T.id x' = T.id x /\ T.paidTo x' = T.paidTo x
             /\ T.dateOfPayment x' = T.dateOfPayment x
             /\ T.amountPaid x' = T.amountPaid x
             /\ T.expenseType x' = T.expenseType x
             /\ T.expenseSubtype x' = T.expenseSubtype x
             /\ T.description x' = T.description x
             /\ T.transactionType x' = T.transactionType x
             /\ (if JsString.mem (T.id x) (R.transactionIds r)
                 then Flags.isDuplicateCandidate (T.flags x') = Some true
                 else x' = x))
          (App.transactions st)
          (App.transactions (App.applyRecommendation (R.id r) st)).
Proof.
  intros F Ht Hv Hlen. unfold App.applyRecommendation. rewrite F.
  cbn [App.transactions]. unfold App.applyTo. apply Forall2_map_r.
  intros x Hx. destruct (JsString.mem (T.id x) (R.transactionIds r));
    [|repeat split].
  unfold App.update. rewrite Ht, Hv.
  assert (Hi : JsString.includes "Mark one for deletion or review." (T.id x)
               = false).
  { destruct (JsString.includes _ (T.id x)) eqn:E; [|reflexivity].
    apply includes_length in E. specialize (Hlen x Hx).
    change (String.length "Mark one for deletion or review.") with 32 in E.
    lia. }
  rewrite Hi. cbn [String.eqb orb].
  change (String.eqb "Mark one for deletion or review." "delete") with false.
  cbn [orb]. unfold T.deleted. destruct x as [i d p a et es de tt o f rn].
  destruct f. cbn. repeat split.
Qed.

(* ------------------------------------------------------------------------- *)
(** * The record handlers, the global filter and the effect of App.tsx *)
(* ------------------------------------------------------------------------- *)

Lemma updateTransaction_ids u txs :
  map T.id (AppState.updateTransaction u txs) = map T.id txs.
Proof.
  unfold AppState.updateTransaction. rewrite map_map. apply map_ext.
  intros t. destruct (String.eqb (T.id t) (T.id u)) eqn:E; [|reflexivity].
  apply String.eqb_eq in E. now symmetry.
Qed.

Lemma updateTransaction_absent u txs :
  ~ In (T.id u) (map T.id txs) -> AppState.updateTransaction u txs = txs.
Proof.
  intros H. unfold AppState.updateTransaction.
  rewrite <- (map_id txs) at 2. apply map_ext_in. intros t Ht.
  destruct (String.eqb (T.id t) (T.id u)) eqn:E; [|reflexivity].
  apply String.eqb_eq in E. exfalso. apply H. rewrite <- E. now apply in_map.
Qed.

Lemma deleteTransaction_In i txs x :
  In x (AppState.deleteTransaction i txs) <-> In x txs /\ T.id x <> i.
Proof.
  unfold AppState.deleteTransaction. rewrite filter_In.
  rewrite negb_true_iff, String.eqb_neq. reflexivity.
Qed.

Lemma deleteTransaction_absent i txs :
  ~ In i (map T.id txs) -> AppState.deleteTransaction i txs = txs.
Proof.
  intros H. apply filter_all. intros x Hx.
  apply negb_true_iff, String.eqb_neq. intros E. apply H. rewrite <- E.
  now apply in_map.
Qed.

Lemma NoDup_map_filter_id (p : T.t -> bool) (txs : list T.t) :
  NoDup (map T.id txs) -> NoDup (map T.id (filter p txs)).
Proof.
  induction txs as [|x txs IH]; simpl; intros H; [constructor|].
  inversion H as [|? ? Hx Hn]; subst.
  destruct (p x); simpl; [|auto]. constructor; [|auto].
  intros Hin. apply Hx. apply in_map_iff in Hin.
  destruct Hin as [y [E Hy]]. apply filter_In in Hy. rewrite <- E.
  apply in_map. tauto.
Qed.

(** X24.  The three record handlers. Adding a record under a new id and deleting
    that id again gives the list back; an update puts the new version in the
    place of every record with its id, changes no id, and does nothing when no
    record has that id; a delete removes every record with the id and no other.
    The ids of the records stay pairwise distinct under the three. *)
Theorem record_edits (txs : list T.t) :
  NoDup (map T.id txs) ->
  (forall n id,
      ~ In id (map T.id txs) ->
      NoDup (map T.id (AppState.addTransaction n id txs))
      /\ AppState.deleteTransaction id (AppState.addTransaction n id txs) = txs)
  /\ (forall u,
         map T.id (AppState.updateTransaction u txs) = map T.id txs
         /\ (forall x, In x txs -> T.id x = T.id u ->
                       In u (AppState.updateTransaction u txs))
         /\ (forall x, In x (AppState.updateTransaction u txs) ->
                       x = u \/ (In x txs /\ T.id x <> T.id u))
         /\ (~ In (T.id u) (map T.id txs) ->
             AppState.updateTransaction u txs = txs))
  /\ (forall i,
         NoDup (map T.id (AppState.deleteTransaction i txs))
         /\ forall x, In x (AppState.deleteTransaction i txs)
                      <-> In x txs /\ T.id x <> i).
Proof.
  intros Hn. split; [|split].
  - intros n id Hfresh. unfold AppState.addTransaction. split.
    + rewrite map_app. simpl.
      apply (Permutation_NoDup (l := id :: map T.id txs));
        [apply Permutation_cons_append | now constructor].
    + unfold AppState.deleteTransaction. rewrite filter_app. simpl.
      rewrite String.eqb_refl. simpl. rewrite app_nil_r.
      now apply deleteTransaction_absent.
  - intros u. split; [apply updateTransaction_ids|]. split; [|split].
    + intros x Hx E. unfold AppState.updateTransaction.
      apply in_map_iff. exists x. split; [|assumption].
      apply String.eqb_eq in E. now rewrite E.
    + intros x Hx. unfold AppState.updateTransaction in Hx.
      apply in_map_iff in Hx. destruct Hx as [t [E Ht]].
      destruct (String.eqb (T.id t) (T.id u)) eqn:Eid; [left; now symmetry|].
      right. subst x. split; [assumption | now apply String.eqb_neq].
    + apply updateTransaction_absent.
  - intros i. split; [now apply NoDup_map_filter_id|].
    intros x. apply deleteTransaction_In.
Qed.

Lemma narrow_In criterion test l x :
  In x (AppState.narrow criterion test l)
  <-> In x l /\ (forall c, criterion = Some c -> c <> EmptyString ->
                           test c x = true).
Proof.
  unfold AppState.narrow. destruct criterion as [c|].
  - destruct (JsString.truthy c) eqn:E.
    + rewrite filter_In. split.
      * intros [H1 H2]. split; [assumption|]. intros c' Ec _.
        injection Ec as <-. assumption.
      * intros [H1 H2]. split; [assumption|]. apply H2; [reflexivity|].
        now apply truthy_true.
    + apply truthy_false in E. split; [|tauto].
      intros H. split; [assumption|]. intros c' Ec Hne. congruence.
  - split; [|tauto]. intros H. split; [assumption|]. discriminate.
Qed.

(** X25.  The globally filtered list holds exactly the undeleted records that
    meet every criterion that is set; a criterion that is absent or the empty
    string excludes nothing, and dates are compared as strings. *)
Theorem filtered_transactions (txs : list T.t) (f : AppState.FilterCriteria)
        (x : T.t) :
  In x (AppState.globallyFilteredTransactions txs f)
  <-> (In x txs /\ T.deleted x = false
       /\ (forall s, AppState.rangeStart f = Some s -> s <> EmptyString ->
                     String.leb s (T.dateOfPayment x) = true)
       /\ (forall e, AppState.rangeEnd f = Some e -> e <> EmptyString ->
                     String.leb (T.dateOfPayment x) e = true)
       /\ (forall c, AppState.category f = Some c -> c <> EmptyString ->
                     T.expenseType x = c)
       /\ (forall c, AppState.subCategory f = Some c -> c <> EmptyString ->
                     T.expenseSubtype x = c)
       /\ (forall c, AppState.transactionTypeFilter f = Some c ->
                     c <> EmptyString -> T.transactionType x = c)).
Proof.
  unfold AppState.globallyFilteredTransactions.
  rewrite !narrow_In, filter_In, negb_true_iff.
  split.
  - intros [[[[[[H0 Hd] H1] H2] H3] H4] H5].
    repeat split; try assumption;
      intros c Ec Hne; apply String.eqb_eq; auto.
  - intros [H0 [Hd [H1 [H2 [H3 [H4 H5]]]]]].
    repeat split; try assumption;
      intros c Ec Hne; apply String.eqb_eq; auto.
Qed.

(** X26.  Every pending recommendation that a reconciliation pass returns passes
    the filter that App.tsx puts before the views: each of its targets is an
    undeleted record of the record set. *)
Theorem pending_recommendations_shown txs uuid prev out r :
  RS.generateRecommendations txs uuid prev = Returns out ->
  In r out -> R.status r = pending ->
  In r (AppState.shownRecommendations txs out).
Proof.
  intros H Hr Hp. unfold AppState.shownRecommendations.
  apply filter_In. split; [assumption|]. apply forallb_forall. intros i Hi.
  destruct (pending_output _ _ _ _ _ H Hr Hp)
    as [cands [c [_ [_ [Hok [E _]]]]]].
  destruct (adopt_fields (pendingMap prev) c) as [_ [Et _]].
  rewrite <- E in Et. rewrite Et in Hi.
  destruct (cand_targets _ _ Hok i Hi) as [x [Hx [Dx Ex]]].
  apply active_In in Hx. destruct Hx as [Hx _].
  destruct (find _ txs) eqn:F; [reflexivity|].
  pose proof (find_none _ _ F x Hx) as Hnone. cbv beta in Hnone.
  rewrite Ex, String.eqb_refl, Dx in Hnone. discriminate.
Qed.

Lemma option_string_eqb (a b : option string) :
  option_eqb String.eqb a b = true <-> a = b.
Proof. apply option_eqb_eq. apply String.eqb_eq. Qed.

Lemma export_cases (e i t : option string) :
  (AppState.exportBaseName e i t = "exported_data"
   /\ AppState.given (AppState.fileBase e) = false
   /\ AppState.given (AppState.fileBase i) = false
   /\ AppState.given (AppState.fileBase t) = false)
  \/ ((AppState.given (AppState.fileBase e) = true
       \/ AppState.given (AppState.fileBase i) = true
       \/ AppState.given (AppState.fileBase t) = true)
      /\ exists rest,
           AppState.exportBaseName e i t = "processed_data_" +++ rest).
Proof.
  unfold AppState.exportBaseName.
  set (eb := AppState.fileBase e). set (ib := AppState.fileBase i).
  set (tb := AppState.fileBase t).
  assert (Hie : AppState.given ib = true -> AppState.given eb = false ->
                option_eqb String.eqb ib eb = false).
  { intros H1 H2. destruct (option_eqb String.eqb ib eb) eqn:E; [|reflexivity].
    apply option_string_eqb in E. congruence. }
  assert (Hte : AppState.given tb = true -> AppState.given eb = false ->
                option_eqb String.eqb tb eb = false).
  { intros H1 H2. destruct (option_eqb String.eqb tb eb) eqn:E; [|reflexivity].
    apply option_string_eqb in E. congruence. }
  assert (Hti : AppState.given tb = true -> AppState.given ib = false ->
                option_eqb String.eqb tb ib = false).
  { intros H1 H2. destruct (option_eqb String.eqb tb ib) eqn:E; [|reflexivity].
    apply option_string_eqb in E. congruence. }
  destruct (AppState.given eb) eqn:Ge.
  - right. split; [now left|].
    destruct (option_eqb String.eqb eb ib), (option_eqb String.eqb eb tb);
      simpl; eauto.
  - destruct (AppState.given ib) eqn:Gi.
    + right. split; [right; now left|].
      rewrite (Hie eq_refl eq_refl). simpl. eauto.
    + destruct (AppState.given tb) eqn:Gt.
      * right. split; [right; now right|].
        rewrite (Hte eq_refl eq_refl), (Hti eq_refl eq_refl). simpl. eauto.
      * left. simpl. auto.
Qed.

(** X27.  The base name of an export is [exported_data] exactly when none of the
    three file names gives a non-empty base, that is, each is null, empty or
    starts with a dot; otherwise it starts with [processed_data_]. The names
    that begin with processed_expenses_, processed_income_ and
    processed_invest_transfers_ are never produced. When the three files have
    one base the name is [processed_data_] followed by it. *)
Theorem export_base_name (e i t : option string) :
  (AppState.exportBaseName e i t = "exported_data"
   <-> (AppState.given (AppState.fileBase e) = false
        /\ AppState.given (AppState.fileBase i) = false
        /\ AppState.given (AppState.fileBase t) = false))
  /\ (AppState.exportBaseName e i t = "exported_data"
      \/ exists rest, AppState.exportBaseName e i t = "processed_data_" +++ rest)
  /\ (forall b, AppState.fileBase e = Some b -> AppState.fileBase i = Some b ->
                AppState.fileBase t = Some b -> b <> EmptyString ->
                AppState.exportBaseName e i t = "processed_data_" +++ b).
Proof.
  split; [|split].
  - destruct (export_cases e i t) as [[H1 H2] | [H1 [rest H2]]].
    + tauto.
    + split.
      * intros E. rewrite H2 in E. simpl in E. discriminate.
      * intros [A [B C]]. rewrite A, B, C in H1.
        destruct H1 as [H1 | [H1 | H1]]; discriminate.
  - destruct (export_cases e i t) as [[H1 H2] | [H1 H2]]; auto.
  - intros b Ee Ei Et Hne. unfold AppState.exportBaseName.
    rewrite Ee, Ei, Et. cbn [AppState.given option_eqb].
    rewrite (proj2 (truthy_true b) Hne), String.eqb_refl. reflexivity.
Qed.

Lemma existsb_false {A} (p : A -> bool) (l : list A) :
  existsb p l = false -> forall x, In x l -> p x = false.
Proof.
  induction l as [|y l IH]; simpl; intros H x Hx; [destruct Hx|].
  apply orb_false_iff in H. destruct H as [Hy Hl].
  destruct Hx as [<- | Hx]; auto.
Qed.

(** X28.  The effect of App.tsx gives the recommendation list the value that the
    engine returns for the records and the previous list, except that the list
    is emptied when there is no record and no file. The case in which the effect
    skips the call (records present, all soft-deleted, no recommendation) is one
    in which the engine returns the empty list. *)
Theorem effect_is_engine uuid (txs : list T.t) (file : option string)
        (recs : list R.t) :
  AppState.reconcileEffect uuid txs file recs
  = match txs, file with
    | [], None => Returns []
    | _, _ => RS.generateRecommendations txs uuid recs
    end.
Proof.
  unfold AppState.reconcileEffect.
  destruct txs as [|x txs].
  - destruct file; reflexivity.
  - cbn [List.length Nat.ltb Nat.leb orb andb].
    destruct (existsb _ (x :: txs)) eqn:Ex; cbn [negb andb]; [now destruct file|].
    destruct recs as [|r recs]; cbn [List.length Nat.eqb]; [|now destruct file].
    rewrite all_deleted_nil; [now destruct file|].
    intros y Hy. pose proof (existsb_false _ _ Ex y Hy) as H.
    now apply negb_false_iff in H.
Qed.

(* ------------------------------------------------------------------------- *)
(** * The grouping of the recommendations view *)
(* ------------------------------------------------------------------------- *)

Lemma insertNew_keeps {A} (o : JsObject.t A) k v x :
  In x o -> In x (JsObject.insertNew o k v).
Proof.
  induction o as [|[k' v'] o IH]; simpl; intros H; [destruct H|].
  destruct (JsObject.arrayIndex k) as [n|].
  - destruct (JsObject.arrayIndex k') as [n'|].
    + destruct (n' <? n)%N.
      * destruct H as [<- | H]; [now left | right; auto].
      * now right.
    + now right.
  - destruct H as [H | H]; [now left|]. right. apply in_app_iff. now left.
Qed.

Lemma insertNew_has {A} (o : JsObject.t A) k v :
  In (k, v) (JsObject.insertNew o k v).
Proof.
  induction o as [|[k' v'] o IH]; simpl.
  - destruct (JsObject.arrayIndex k); now left.
  - destruct (JsObject.arrayIndex k) as [n|].
    + destruct (JsObject.arrayIndex k') as [n'|].
      * destruct (n' <? n)%N; [right; exact IH | now left].
      * now left.
    + right. apply in_app_iff. right. now left.
Qed.

Lemma JsMap_set_has {A} (m : JsMap.t A) k v :
  JsMap.has m k = true -> In (k, v) (JsMap.set m k v).
Proof.
  unfold JsMap.has. induction m as [|[k' v'] m IH]; simpl; [discriminate|].
  destruct (String.eqb k' k) eqn:E.
  - apply String.eqb_eq in E. subst. intros _. now left.
  - intros H. right. auto.
Qed.

Lemma JsObject_set_has {A} (o : JsObject.t A) k v :
  In (k, v) (JsObject.set o k v).
Proof.
  unfold JsObject.set. destruct (JsMap.has o k) eqn:E;
    [now apply JsMap_set_has | apply insertNew_has].
Qed.

Lemma JsMap_set_old {A} (m : JsMap.t A) k v k' v' :
  In (k', v') m ->
  In (k', v') (JsMap.set m k v) \/ (k' = k /\ JsMap.get m k = Some v').
Proof.
  induction m as [|[k0 v0] m IH]; simpl; intros H; [destruct H|].
  destruct (String.eqb k0 k) eqn:E.
  - destruct H as [H | H].
    + injection H as -> ->. apply String.eqb_eq in E. right. auto.
    + left. now right.
  - destruct H as [H | H]; [left; now left|].
    destruct (IH H) as [H' | H']; [left; now right | now right].
Qed.

Lemma JsObject_set_old {A} (o : JsObject.t A) k v k' v' :
  In (k', v') o ->
  In (k', v') (JsObject.set o k v) \/ (k' = k /\ JsMap.get o k = Some v').
Proof.
  intros H. unfold JsObject.set. destruct (JsMap.has o k).
  - now apply JsMap_set_old.
  - left. now apply insertNew_keeps.
Qed.

Lemma JsObject_get_Own_get {A} (o : JsObject.t A) k v :
  JsObject.get o k = JsObject.Own v <-> JsMap.get o k = Some v.
Proof.
  unfold JsObject.get. destruct (JsMap.get o k).
  - split; intros H; injection H as ->; reflexivity.
  - destruct (JsObject.inheritedMember k); split; discriminate.
Qed.

Lemma visible_In recs ft fs rec :
  In rec (RV.currentlyVisibleRecs recs ft fs) -> In rec recs.
Proof. unfold RV.currentlyVisibleRecs. intros H. now apply filter_In in H. Qed.

Lemma extend_ok visible g rec :
  In rec visible -> R.type rec = MerchantNormalization ->
  R.status rec = pending -> R.suggestedValue rec = RV.canonicalName g ->
  (forall i, In i (RV.recommendationIds g) ->
             exists rec', In rec' visible /\ R.id rec' = i
                          /\ R.type rec' = MerchantNormalization
                          /\ R.status rec' = pending
                          /\ R.suggestedValue rec' = RV.canonicalName g) ->
  group_ok visible (RV.extend g rec).
Proof.
  intros Hin Ht Hs Hv Hg. split; simpl.
  - intros E. now apply app_eq_nil in E as [_ E].
  - intros i Hi. apply in_app_iff in Hi. destruct Hi as [Hi | [<- | []]].
    + now apply Hg.
    + exists rec. auto.
Qed.

Lemma place_ok visible st rec st' :
  In rec visible ->
  (forall k g, In (k, g) (fst st) -> RV.canonicalName g = k /\ group_ok visible g) ->
  (forall r, In r (snd st) -> In r visible) ->
  RV.place st rec = Returns st' ->
  (forall k g, In (k, g) (fst st') ->
               RV.canonicalName g = k /\ group_ok visible g)
  /\ (forall r, In r (snd st') -> In r visible).
Proof.
  intros Hin Hg Hi. destruct st as [grouped individuals]. simpl in *.
  destruct (RecommendationType_eqb (R.type rec) MerchantNormalization) eqn:Et;
    cbn [andb].
  - destruct (Status_eqb (R.status rec) pending) eqn:Es.
    + apply RecommendationType_eqb_eq in Et. apply Status_eqb_eq in Es.
      destruct (JsObject.get grouped (R.suggestedValue rec)) as [group|h|] eqn:G;
        try discriminate; intros E; injection E as <-; simpl;
        (split; [|assumption]); intros k g Hk;
        apply JsObject_set_In in Hk;
        (destruct Hk as [[-> ->] | Hk]; [|now apply Hg]).
      * apply JsObject_get_Own in G. destruct (Hg _ _ G) as [En [_ Hok]].
        split; [exact En|]. apply extend_ok; auto.
      * split; [reflexivity|]. apply extend_ok; auto. intros i [].
    + intros E; injection E as <-. simpl. split; [assumption|].
      intros r Hr. apply in_app_iff in Hr. destruct Hr as [Hr | [<- | []]]; auto.
  - intros E; injection E as <-. simpl. split; [assumption|].
    intros r Hr. apply in_app_iff in Hr. destruct Hr as [Hr | [<- | []]]; auto.
Qed.

Lemma placing_ok visible :
  forall l st st',
    (forall r, In r l -> In r visible) ->
    (forall k g, In (k, g) (fst st) ->
                 RV.canonicalName g = k /\ group_ok visible g) ->
    (forall r, In r (snd st) -> In r visible) ->
    foldM RV.place l st = Returns st' ->
    (forall k g, In (k, g) (fst st') ->
                 RV.canonicalName g = k /\ group_ok visible g)
    /\ (forall r, In r (snd st') -> In r visible).
Proof.
  induction l as [|rec l IH]; simpl; intros st st' Hl Hg Hi E.
  - injection E as <-. auto.
  - destruct (RV.place st rec) as [st1| |] eqn:E1; simpl in E; try discriminate.
    destruct (place_ok visible st rec st1 (Hl rec (or_introl eq_refl)) Hg Hi E1)
      as [Hg1 Hi1].
    apply (IH st1 st'); auto.
Qed.

Lemma settle_ok recs visible st g :
  group_ok visible g ->
  (forall x, In x (fst st) -> group_ok visible x) ->
  (forall r, In r (snd st) -> In r recs) ->
  (forall x, In x (fst (RV.settle recs st g)) -> group_ok visible x)
  /\ (forall r, In r (snd (RV.settle recs st g)) -> In r recs).
Proof.
  intros Hg Hf Hi. destruct st as [final individuals]. unfold RV.settle.
  destruct ((1 <? _) || _); simpl.
  - split; [|assumption]. intros x Hx. apply in_app_iff in Hx.
    destruct Hx as [Hx | [<- | []]]; auto.
  - destruct (List.length (RV.recommendationIds g) =? 1); [|auto].
    destruct (RV.recommendationIds g) as [|first rest]; [auto|].
    destruct (find _ recs) as [rec|] eqn:F; [|auto].
    simpl. split; [assumption|]. intros r Hr. apply in_app_iff in Hr.
    destruct Hr as [Hr | [<- | []]]; [auto|].
    apply find_some in F. tauto.
Qed.

Lemma grouping_ok recs ft fs groups individuals :
  RV.groupRecommendations recs ft fs = Returns (groups, individuals) ->
  (forall g, In g groups -> group_ok (RV.currentlyVisibleRecs recs ft fs) g)
  /\ (forall r, In r individuals -> In r recs).
Proof.
  unfold RV.groupRecommendations.
  set (visible := RV.currentlyVisibleRecs recs ft fs).
  destruct (foldM RV.place visible ([], [])) as [[grouped ind0]| |] eqn:E;
    simpl; try discriminate.
  intros H. injection H as H.
  destruct (placing_ok visible visible ([], []) (grouped, ind0)) as [Hg Hi];
    try assumption; [auto | intros k g [] | intros r [] |].
  simpl in Hg, Hi.
  assert (Hinv :
    (forall x, In x (fst (fold_left (RV.settle recs) (JsObject.values grouped)
                                    ([], ind0))) -> group_ok visible x)
    /\ (forall r, In r (snd (fold_left (RV.settle recs)
                                       (JsObject.values grouped) ([], ind0))) ->
                  In r recs)).
  { apply (fold_left_inv
             (fun st => (forall x, In x (fst st) -> group_ok visible x)
                        /\ (forall r, In r (snd st) -> In r recs))).
    - intros st g Hin [Hf Hs]. apply settle_ok; try assumption.
      unfold JsObject.values in Hin. apply in_map_iff in Hin.
      destruct Hin as [[k g'] [Eg Hin]]. simpl in Eg. subst g'.
      apply (Hg k g Hin).
    - simpl. split; [intros x [] |].
      intros r Hr. apply (visible_In recs ft fs). auto. }
  rewrite H in Hinv. exact Hinv.
Qed.

(** X29.  Every button that the recommendations view renders names pending
    recommendations only. The view gets the recommendations of the state that
    pass the filter of App.tsx; with distinct recommendation ids, each operation
    wired to a button of a group or of a card is one that the state offers:
    every recommendation it names is pending. *)
Theorem view_buttons_offered (st : App.state) ft fs groups individuals op :
  NoDup (map R.id (App.recommendations st)) ->
  RV.groupRecommendations
    (AppState.shownRecommendations (App.transactions st)
                                   (App.recommendations st)) ft fs
  = Returns (groups, individuals) ->
  In op (RV.buttons ft fs groups individuals) ->
  offered st op.
Proof.
  intros Hn H Hop.
  set (shown := AppState.shownRecommendations (App.transactions st)
                                              (App.recommendations st)) in *.
  assert (Hsub : forall r, In r shown -> In r (App.recommendations st)).
  { intros r Hr. unfold shown, AppState.shownRecommendations in Hr.
    now apply filter_In in Hr. }
  destruct (grouping_ok _ _ _ _ _ H) as [Hg Hi].
  assert (Hid : forall rec i, In rec (App.recommendations st) ->
                  R.status rec = pending -> R.id rec = i ->
                  forall rec0, In rec0 (App.recommendations st) ->
                               R.id rec0 = i -> R.status rec0 = pending).
  { intros rec i Hrec Hp Ei rec0 H0 E0.
    assert (rec0 = rec)
      by (apply (NoDup_map_inj R.id (App.recommendations st)); congruence).
    now subst. }
  assert (Hgroup : forall g i, In g groups -> In i (RV.recommendationIds g) ->
                     forall rec0, In rec0 (App.recommendations st) ->
                                  R.id rec0 = i -> R.status rec0 = pending).
  { intros g i Hin Hi'. destruct (Hg g Hin) as [_ Hids].
    destruct (Hids i Hi') as [rec [Hv [Ei [_ [Hp _]]]]].
    apply (Hid rec i); try assumption.
    apply Hsub. now apply (visible_In shown ft fs). }
  unfold RV.buttons in Hop. apply in_app_iff in Hop.
  destruct Hop as [Hop | Hop].
  - destruct (RV.bulkSectionShown ft fs); [|destruct Hop].
    apply in_flat_map in Hop. destruct Hop as [g [Hin Hop]].
    intros rec0 H0 Hnames.
    destruct Hop as [<- | [<- | []]]; simpl in Hnames;
      apply mem_In in Hnames; apply (Hgroup g (R.id rec0)); auto.
  - apply in_flat_map in Hop. destruct Hop as [rec [Hin Hop]].
    unfold RV.cardButtons in Hop.
    destruct (Status_eqb (R.status rec) pending) eqn:Es; [|destruct Hop].
    apply Status_eqb_eq in Es.
    intros rec0 H0 Hnames.
    destruct Hop as [<- | [<- | []]]; simpl in Hnames;
      apply String.eqb_eq in Hnames;
      apply (Hid rec (R.id rec)); auto.
Qed.

Lemma placed_more groups individuals rec g r :
  placed groups individuals rec ->
  placed (groups ++ [g]) (individuals ++ [r]) rec.
Proof.
  intros [H | [g' [Hg Hi]]]; [left | right].
  - apply in_app_iff. now left.
  - exists g'. split; [apply in_app_iff; now left | assumption].
Qed.

(** A recommendation is covered by the state of the first loop. *)
Lemma place_covers st rec st' r :
  RV.place st rec = Returns st' ->
  (r = rec
   \/ In r (snd st)
   \/ exists k g, In (k, g) (fst st) /\ In (R.id r) (RV.recommendationIds g)) ->
  In r (snd st')
  \/ exists k g, In (k, g) (fst st') /\ In (R.id r) (RV.recommendationIds g).
Proof.
  destruct st as [grouped individuals]. simpl.
  destruct (RecommendationType_eqb (R.type rec) MerchantNormalization
            && Status_eqb (R.status rec) pending).
  - destruct (JsObject.get grouped (R.suggestedValue rec)) as [group|h|] eqn:G;
      try discriminate; intros E; injection E as <-; simpl;
      intros [-> | [H | [k [g [Hk Hi]]]]].
    + right. exists (R.suggestedValue rec), (RV.extend group rec).
      split; [apply JsObject_set_has|]. simpl. apply in_app_iff. right. now left.
    + now left.
    + right. apply JsObject_get_Own_get in G.
      destruct (JsObject_set_old grouped (R.suggestedValue rec)
                                 (RV.extend group rec) k g Hk) as [H | [-> H]].
      * exists k, g. auto.
      * rewrite G in H. injection H as ->.
        exists (R.suggestedValue rec), (RV.extend g rec).
        split; [apply JsObject_set_has|]. simpl. apply in_app_iff. now left.
    + right.
      exists (R.suggestedValue rec),
             (RV.extend (RV.mkGroup (R.suggestedValue rec) [] [] 0) rec).
      split; [apply JsObject_set_has|]. simpl. now left.
    + now left.
    + right.
      destruct (JsObject_set_old grouped (R.suggestedValue rec)
                  (RV.extend (RV.mkGroup (R.suggestedValue rec) [] [] 0) rec)
                  k g Hk) as [H | [-> H]].
      * exists k, g. auto.
      * unfold JsObject.get in G. rewrite H in G. discriminate.
  - intros E; injection E as <-; simpl.
    intros [-> | [H | H]].
    + left. apply in_app_iff. right. now left.
    + left. apply in_app_iff. now left.
    + now right.
Qed.

Lemma placing_covers l :
  forall st st' r,
    foldM RV.place l st = Returns st' ->
    (In r l
     \/ In r (snd st)
     \/ exists k g, In (k, g) (fst st) /\ In (R.id r) (RV.recommendationIds g)) ->
    In r (snd st')
    \/ exists k g, In (k, g) (fst st') /\ In (R.id r) (RV.recommendationIds g).
Proof.
  induction l as [|rec l IH]; simpl; intros st st' r E H.
  - injection E as <-. destruct H as [[] | H]; exact H.
  - destruct (RV.place st rec) as [st1| |] eqn:E1; simpl in E; try discriminate.
    apply (IH st1 st' r E).
    destruct H as [[<- | H] | H].
    + right. apply (place_covers st rec st1 rec E1). now left.
    + now left.
    + right. apply (place_covers st rec st1 r E1). now right.
Qed.

Lemma settle_covers recs st g r :
  NoDup (map R.id recs) -> In r recs ->
  RV.recommendationIds g <> [] ->
  (placed (fst st) (snd st) r \/ In (R.id r) (RV.recommendationIds g)) ->
  placed (fst (RV.settle recs st g)) (snd (RV.settle recs st g)) r.
Proof.
  intros Hn Hr Hne H. destruct st as [final individuals]. unfold RV.settle.
  simpl in H.
  assert (Hkeep : forall f' i', placed final individuals r ->
                    (forall x, In x final -> In x f') ->
                    (forall x, In x individuals -> In x i') ->
                    placed f' i' r).
  { intros f' i' [Hp | [g' [Hg Hi]]] Hf Hi'; [left; auto|].
    right. exists g'. auto. }
  destruct ((1 <? List.length (RV.recommendationIds g)) || _) eqn:C; simpl.
  - destruct H as [H | H].
    + apply (Hkeep _ _ H); auto. intros x Hx. apply in_app_iff. now left.
    + right. exists g. split; [apply in_app_iff; right; now left | assumption].
  - destruct (RV.recommendationIds g) as [|first rest] eqn:Eids;
      [contradiction|].
    apply orb_false_iff in C. destruct C as [C1 C2]. simpl in C1.
    destruct rest as [|second rest]; [|simpl in C1; discriminate].
    simpl.
    destruct (find _ recs) as [rec|] eqn:F; simpl.
    + destruct H as [H | [Ef | []]].
      * apply (Hkeep _ _ H); auto. intros x Hx. apply in_app_iff. now left.
      * left. apply find_some in F. destruct F as [Hin Eid].
        apply String.eqb_eq in Eid.
        assert (rec = r) by (apply (NoDup_map_inj R.id recs); congruence).
        subst rec. apply in_app_iff. right. now left.
    + destruct H as [H | [Ef | []]]; [exact H|].
      pose proof (find_none _ _ F r Hr) as Hnone. cbv beta in Hnone.
      rewrite <- Ef, String.eqb_refl in Hnone. discriminate.
Qed.

Lemma settling_covers recs r :
  NoDup (map R.id recs) -> In r recs ->
  forall gs st,
    (forall g, In g gs -> RV.recommendationIds g <> []) ->
    (placed (fst st) (snd st) r
     \/ exists g, In g gs /\ In (R.id r) (RV.recommendationIds g)) ->
    placed (fst (fold_left (RV.settle recs) gs st))
           (snd (fold_left (RV.settle recs) gs st)) r.
Proof.
  intros Hn Hr. induction gs as [|g gs IH]; simpl; intros st Hne H.
  - destruct H as [H | [g [[] _]]]. exact H.
  - apply IH; [intros g' Hg'; apply Hne; now right|].
    destruct H as [H | [g' [[<- | Hg'] Hi]]].
    + left. apply settle_covers; auto.
    + left. apply settle_covers; auto.
    + right. exists g'. auto.
Qed.

(** X30.  The grouping loses nothing: with distinct recommendation ids, every
    recommendation that passes the two filters of the view ends up among the
    individual recommendations or is named by one of the groups. *)
Theorem view_loses_nothing recs ft fs groups individuals rec :
  NoDup (map R.id recs) ->
  RV.groupRecommendations recs ft fs = Returns (groups, individuals) ->
  In rec (RV.currentlyVisibleRecs recs ft fs) ->
  placed groups individuals rec.
Proof.
  intros Hn H Hrec. unfold RV.groupRecommendations in H.
  set (visible := RV.currentlyVisibleRecs recs ft fs) in *.
  destruct (foldM RV.place visible ([], [])) as [[grouped ind0]| |] eqn:E;
    simpl in H; try discriminate.
  injection H as H.
  destruct (placing_ok visible visible ([], []) (grouped, ind0)) as [Hg _];
    try assumption; [auto | intros k g [] | intros r [] |].
  simpl in Hg.
  pose proof (placing_covers visible ([], []) (grouped, ind0) rec E
                             (or_introl Hrec)) as Hcov.
  simpl in Hcov.
  pose proof (settling_covers recs rec Hn (visible_In recs ft fs rec Hrec)
                (JsObject.values grouped) ([], ind0)) as Hs.
  rewrite H in Hs. simpl in Hs. apply Hs.
  - intros g Hin. unfold JsObject.values in Hin. apply in_map_iff in Hin.
    destruct Hin as [[k g'] [Eg Hin]]. simpl in Eg. subst g'.
    apply (Hg k g Hin).
  - destruct Hcov as [Hc | [k [g [Hk Hi]]]].
    + left. now left.
    + right. exists g. split; [|assumption].
      unfold JsObject.values. apply in_map_iff. exists (k, g). auto.
Qed.

(* ------------------------------------------------------------------------- *)
(** * The canonical names of the merchant normalizer *)
(* ------------------------------------------------------------------------- *)

Lemma JsMap_get_app {A} (m1 m2 : JsMap.t A) k :
  JsMap.get (m1 ++ m2) k
  = match JsMap.get m1 k with Some v => Some v | None => JsMap.get m2 k end.
Proof.
  induction m1 as [|[k' v'] m1 IH]; simpl; [reflexivity|].
  destruct (String.eqb k' k); [reflexivity | exact IH].
Qed.

Lemma get_insertNew_same {A} (o : JsObject.t A) k v :
  JsMap.get o k = None -> JsMap.get (JsObject.insertNew o k v) k = Some v.
Proof.
  induction o as [|[k' v'] o IH]; simpl; intros H.
  - destruct (JsObject.arrayIndex k); simpl; now rewrite String.eqb_refl.
  - destruct (String.eqb k' k) eqn:E; [discriminate|].
    destruct (JsObject.arrayIndex k) as [n|].
    + destruct (JsObject.arrayIndex k') as [n'|].
      * destruct (n' <? n)%N; simpl.
        -- rewrite E. auto.
        -- now rewrite String.eqb_refl.
      * simpl. now rewrite String.eqb_refl.
    + simpl. rewrite E. rewrite JsMap_get_app, H. simpl.
      now rewrite String.eqb_refl.
Qed.

Lemma get_insertNew_other {A} (o : JsObject.t A) k v k' :
  k' <> k -> JsMap.get (JsObject.insertNew o k v) k' = JsMap.get o k'.
Proof.
  intros Hne. apply not_eq_sym in Hne. apply String.eqb_neq in Hne.
  induction o as [|[k0 v0] o IH]; simpl.
  - destruct (JsObject.arrayIndex k); simpl; now rewrite Hne.
  - destruct (JsObject.arrayIndex k) as [n|].
    + destruct (JsObject.arrayIndex k0) as [n0|].
      * destruct (n0 <? n)%N; simpl.
        -- destruct (String.eqb k0 k'); [reflexivity | exact IH].
        -- now rewrite Hne.
      * simpl. now rewrite Hne.
    + simpl. destruct (String.eqb k0 k'); [reflexivity|].
      rewrite JsMap_get_app. destruct (JsMap.get o k'); [reflexivity|].
      simpl. now rewrite Hne.
Qed.

Lemma get_set_same {A} (o : JsObject.t A) k v :
  JsMap.get (JsObject.set o k v) k = Some v.
Proof.
  unfold JsObject.set, JsMap.has. destruct (JsMap.get o k) eqn:E.
  - apply JsMap_get_set_same.
  - now apply get_insertNew_same.
Qed.

Lemma get_set_other {A} (o : JsObject.t A) k v k' :
  k' <> k -> JsMap.get (JsObject.set o k v) k' = JsMap.get o k'.
Proof.
  intros Hne. unfold JsObject.set. destruct (JsMap.has o k).
  - now apply JsMap_get_set_other.
  - now apply get_insertNew_other.
Qed.

Lemma mapped_fixed cm k :
  k <> EmptyString -> JsMap.get cm k = Some k ->
  MerchantRule.mapped cm k = true.
Proof.
  intros Hne H. unfold MerchantRule.mapped, JsObject.get. rewrite H.
  now apply truthy_true.
Qed.

(** Writing a canonical for a name that is not mapped keeps the map in
    shape. *)
Lemma set_fixed cm k c :
  fixedCanonicals cm -> MerchantRule.mapped cm k = false ->
  c <> EmptyString ->
  (c = k \/ JsMap.get cm c = Some c) ->
  fixedCanonicals (JsObject.set cm k c)
  /\ JsMap.get (JsObject.set cm k c) c = Some c.
Proof.
  intros Hf Hm Hc Hcase.
  assert (Hgetc : JsMap.get (JsObject.set cm k c) c = Some c).
  { destruct Hcase as [-> | H]; [apply get_set_same|].
    destruct (String.eqb c k) eqn:E.
    - apply String.eqb_eq in E. subst. apply get_set_same.
    - apply String.eqb_neq in E. now rewrite get_set_other. }
  split; [|assumption].
  intros k' v Hin. apply JsObject_set_In in Hin.
  destruct Hin as [[-> ->] | Hin]; [auto|].
  destruct (Hf _ _ Hin) as [Hv Hg]. split; [assumption|].
  rewrite get_set_other; [assumption|].
  intros ->. rewrite (mapped_fixed cm k Hv Hg) in Hm. discriminate.
Qed.

Lemma sweep_fixed merchant cm other :
  other <> EmptyString -> merchant <> EmptyString ->
  fixedCanonicals cm /\ JsMap.get cm merchant = Some merchant ->
  fixedCanonicals (MerchantRule.sweep merchant cm other)
  /\ JsMap.get (MerchantRule.sweep merchant cm other) merchant = Some merchant.
Proof.
  intros Ho Hm [Hf Hg]. unfold MerchantRule.sweep.
  destruct (MerchantRule.mapped cm other) eqn:Em; cbn [negb andb]; [auto|].
  destruct (String.eqb merchant other) eqn:Eo; cbn [negb]; [auto|].
  destruct (MerchantRule.areStringsSimilar merchant other 0.8); [|auto].
  apply set_fixed; auto.
Qed.

Lemma distinct_In l x : In x (MerchantRule.distinct l) -> In x l.
Proof.
  unfold MerchantRule.distinct.
  assert (H : forall acc, In x (fold_left JsMap.add l acc) ->
                          In x acc \/ In x l).
  { induction l as [|y l IH]; simpl; intros acc Hin; [now left|].
    destruct (IH _ Hin) as [Ha | Hl]; [|auto].
    apply JsMap_add_In in Ha. destruct Ha as [Ha | ->]; auto. }
  intros Hin. destruct (H [] Hin) as [[] | Hl]. exact Hl.
Qed.

Lemma cluster_fixed sorted cm merchant :
  (forall m, In m sorted -> m <> EmptyString) ->
  merchant <> EmptyString ->
  fixedCanonicals cm -> fixedCanonicals (MerchantRule.cluster sorted cm merchant).
Proof.
  intros Hs Hm Hf. unfold MerchantRule.cluster.
  destruct (MerchantRule.mapped cm merchant) eqn:Em; [assumption|].
  destruct (find _ _) as [c|] eqn:F.
  - apply find_some in F. destruct F as [Hin _].
    apply distinct_In in Hin. unfold JsObject.values in Hin.
    apply in_map_iff in Hin. destruct Hin as [[k v] [E Hin]].
    simpl in E. subst v. destruct (Hf _ _ Hin) as [Hc Hg].
    apply set_fixed; auto.
  - assert (H0 : fixedCanonicals (JsObject.set cm merchant merchant)
                 /\ JsMap.get (JsObject.set cm merchant merchant) merchant
                    = Some merchant)
      by (apply set_fixed; auto).
    apply (fold_left_inv
             (fun m => fixedCanonicals m
                       /\ JsMap.get m merchant = Some merchant));
      [|exact H0].
    intros m other Hin Hinv. apply sweep_fixed; auto.
Qed.

Lemma countMerchant_nonempty txs :
  forall st,
    (forall m, In m (snd st) -> m <> EmptyString) ->
    forall m, In m (snd (fold_left MerchantRule.countMerchant txs st)) ->
              m <> EmptyString.
Proof.
  induction txs as [|x txs IH]; simpl; intros st Hst; [assumption|].
  apply IH. destruct st as [counts unique]. unfold MerchantRule.countMerchant.
  destruct (T.deleted x); [assumption|].
  destruct (JsString.truthy (JsString.trim (T.paidTo x))) eqn:E; [|assumption].
  simpl. intros m Hm. apply JsMap_add_In in Hm.
  destruct Hm as [Hm | ->]; [auto | now apply truthy_true].
Qed.

Lemma insertBy_In cmp x l y :
  In y (MerchantRule.insertBy cmp x l) -> y = x \/ In y l.
Proof.
  induction l as [|z l IH]; simpl; [intros [<- | []]; auto|].
  destruct (cmp x z <=? 0)%Z; simpl.
  - intros [<- | [<- | H]]; auto.
  - intros [<- | H]; [auto|]. destruct (IH H); auto.
Qed.

Lemma sortBy_In cmp l y : In y (MerchantRule.sortBy cmp l) -> In y l.
Proof.
  induction l as [|x l IH]; simpl; [auto|].
  intros H. apply insertBy_In in H. destruct H as [-> | H]; auto.
Qed.

Lemma suggest_follows uuid cm s x s' :
  Forall (follows cm) s ->
  MerchantRule.suggest uuid cm s x = Returns s' ->
  Forall (follows cm) s'.
Proof.
  intros Hs. unfold MerchantRule.suggest.
  destruct (T.deleted x); [intros E; injection E as <-; assumption|].
  destruct (negb _); [intros E; injection E as <-; assumption|].
  destruct (JsObject.get cm (JsString.trim (T.paidTo x))) as [c|h|] eqn:Eg;
    [| discriminate | intros E; injection E as <-; assumption].
  destruct (JsString.truthy c && negb (String.eqb c (JsString.trim (T.paidTo x))))
    eqn:Ec; intros E; injection E as <-; [|assumption].
  apply Forall_app. split; [assumption|]. constructor; [|constructor].
  apply andb_true_iff in Ec. destruct Ec as [_ Ene].
  apply negb_true_iff, String.eqb_neq in Ene.
  apply JsObject_get_Own_get in Eg.
  exists (JsString.trim (T.paidTo x)). simpl. auto.
Qed.

Lemma normalizeMerchant_follows uuid txs recs :
  MerchantRule.normalizeMerchantRecommendations uuid txs = Returns recs ->
  exists cm, fixedCanonicals cm /\ Forall (follows cm) recs.
Proof.
  unfold MerchantRule.normalizeMerchantRecommendations.
  pose proof (countMerchant_nonempty txs ([], [])) as Hne.
  destruct (fold_left MerchantRule.countMerchant txs ([], []))
    as [merchantCounts uniqueMerchants].
  simpl in Hne.
  set (sorted := MerchantRule.sortBy _ uniqueMerchants).
  assert (Hs : forall m, In m sorted -> m <> EmptyString).
  { intros m Hm. apply sortBy_In in Hm. apply Hne; [intros ? []|assumption]. }
  set (cm := fold_left (MerchantRule.cluster sorted) sorted []).
  intros H. exists cm. split.
  - apply fold_left_inv; [|intros k v []].
    intros m merchant Hin Hm. apply cluster_fixed; auto.
  - revert H. apply (foldM_inv (Forall (follows cm))); [|constructor].
    intros s x s' _ Hs' E. now apply (suggest_follows uuid cm s x).
Qed.

(** X15.  The recommendations of one run of the merchant normalizer are
    consistent: two of them that rename the same name suggest the same
    canonical, and a name suggested as canonical is not itself renamed by any of
    them (there is no chain of renamings). *)
Theorem merchant_canonicals uuid txs recs r1 r2 :
  MerchantRule.normalizeMerchantRecommendations uuid txs = Returns recs ->
  In r1 recs -> In r2 recs ->
  (R.originalValue r1 = R.originalValue r2 ->
   R.suggestedValue r1 = R.suggestedValue r2)
  /\ R.originalValue r2 <> Some (VString (R.suggestedValue r1)).
Proof.
  intros H H1 H2. apply normalizeMerchant_follows in H.
  destruct H as [cm [Hf Hall]]. rewrite Forall_forall in Hall.
  destruct (Hall r1 H1) as [o1 [E1 [G1 N1]]].
  destruct (Hall r2 H2) as [o2 [E2 [G2 N2]]].
  split.
  - intros E. rewrite E1, E2 in E. injection E as ->. congruence.
  - intros E. rewrite E2 in E. injection E as ->.
    apply JsMap_get_In in G1. destruct (Hf _ _ G1) as [_ Hfix].
    rewrite Hfix in G2. injection G2 as G2. congruence.
Qed.

(* ------------------------------------------------------------------------- *)
(** * The edit distance of the merchant normalizer *)
(* ------------------------------------------------------------------------- *)

Lemma editDistance_nil_r a : editDistance a [] = List.length a.
Proof. destruct a; reflexivity. Qed.

Lemma editDistance_cons c a d b :
  editDistance (c :: a) (d :: b)
  = JsNumber.min3 (editDistance a (d :: b) + 1) (editDistance (c :: a) b + 1)
                  (editDistance a b + if Ascii.eqb c d then 0 else 1).
Proof. reflexivity. Qed.

Lemma prefixes_head acc s : prefixes acc s = acc :: tl (prefixes acc s).
Proof. destruct s; reflexivity. Qed.

Lemma prefixes_lengths acc s :
  map (@List.length ascii) (prefixes acc s)
  = seq (List.length acc) (S (String.length s)).
Proof.
  revert acc. induction s as [|d s IH]; intros acc; simpl; [reflexivity|].
  f_equal. apply (IH (d :: acc)).
Qed.

Lemma prefixes_last acc s d :
  last (prefixes acc s) d = reversed acc s.
Proof.
  revert acc. induction s as [|c s IH]; intros acc; [reflexivity|].
  cbn [prefixes reversed]. rewrite <- (IH (c :: acc)).
  rewrite (prefixes_head (c :: acc) s). reflexivity.
Qed.

Lemma nextRow_spec c a s :
  forall b,
    MerchantRule.nextRow c s (map (editDistance a) (prefixes b s))
                         (editDistance (c :: a) b)
    = map (editDistance (c :: a)) (tl (prefixes b s)).
Proof.
  induction s as [|d s IH]; intros b; [reflexivity|].
  change (prefixes b (String d s)) with (b :: prefixes (d :: b) s).
  specialize (IH (d :: b)).
  pose proof (prefixes_head (d :: b) s) as Hp.
  destruct (prefixes (d :: b) s) as [|x p]; [discriminate|].
  assert (Hx : x = d :: b) by congruence. subst x.
  cbn [tl map MerchantRule.nextRow] in *.
  rewrite <- editDistance_cons. f_equal. exact IH.
Qed.

Lemma firstRow_spec c a s2 i :
  i = List.length a ->
  S i :: MerchantRule.nextRow c s2 (map (editDistance a) (prefixes [] s2)) (S i)
  = map (editDistance (c :: a)) (prefixes [] s2).
Proof.
  intros Hi. pose proof (nextRow_spec c a s2 []) as N.
  change (editDistance (c :: a) []) with (S (List.length a)) in N.
  rewrite <- Hi in N. rewrite N.
  destruct s2; cbn [prefixes tl map];
    change (editDistance (c :: a) []) with (S (List.length a));
    now rewrite Hi.
Qed.

Lemma fillRows_spec s2 s1 :
  forall a i,
    i = List.length a ->
    MerchantRule.fillRows s1 s2 i (map (editDistance a) (prefixes [] s2))
    = map (editDistance (reversed a s1)) (prefixes [] s2).
Proof.
  induction s1 as [|c s1 IH]; intros a i Hi; [reflexivity|].
  cbn [MerchantRule.fillRows reversed].
  rewrite (firstRow_spec c a s2 i Hi).
  apply IH. simpl. now rewrite Hi.
Qed.

Lemma distance_spec (s1 s2 : string) :
  MerchantRule.distance s1 s2
  = editDistance (reversed [] s1) (reversed [] s2).
Proof.
  unfold MerchantRule.distance.
  assert (E : seq 0 (S (String.length s2))
              = map (editDistance []) (prefixes [] s2)).
  { pose proof (prefixes_lengths [] s2) as L. cbn [List.length] in L.
    rewrite <- L. apply map_ext. intros l. reflexivity. }
  rewrite E, (fillRows_spec s2 s1 [] 0 eq_refl).
  rewrite <- (prefixes_last [] s2 []).
  assert (H : forall (f : list ascii -> nat) (l : list (list ascii)) (d : nat),
             l <> [] -> last (map f l) d = f (last l [])).
  { intros f l0 d. induction l0 as [|x l0 IHl]; [contradiction|].
    intros _. destruct l0 as [|y l0]; [reflexivity|].
    change (last (map f (x :: y :: l0)) d) with (last (map f (y :: l0)) d).
    change (last (x :: y :: l0) []) with (last (y :: l0) []).
    apply IHl. discriminate. }
  apply H. rewrite prefixes_head. discriminate.
Qed.

Lemma min3_swap a b c : JsNumber.min3 a b c = JsNumber.min3 b a c.
Proof. unfold JsNumber.min3. lia. Qed.

Lemma ascii_eqb_sym (c d : ascii) : Ascii.eqb c d = Ascii.eqb d c.
Proof.
  destruct (Ascii.eqb c d) eqn:E.
  - apply Ascii.eqb_eq in E. subst. symmetry. apply Ascii.eqb_refl.
  - destruct (Ascii.eqb d c) eqn:E'; [|reflexivity].
    apply Ascii.eqb_eq in E'. subst. now rewrite Ascii.eqb_refl in E.
Qed.

Lemma editDistance_sym a : forall b, editDistance a b = editDistance b a.
Proof.
  induction a as [|c a IHa]; intros b.
  - now rewrite editDistance_nil_r.
  - induction b as [|d b IHb]; [reflexivity|].
    rewrite !editDistance_cons. rewrite min3_swap.
    rewrite IHb, (IHa (d :: b)), (IHa b), (ascii_eqb_sym c d). reflexivity.
Qed.

Lemma editDistance_refl a : editDistance a a = 0.
Proof.
  induction a as [|c a IH]; [reflexivity|].
  rewrite editDistance_cons, IH, Ascii.eqb_refl. unfold JsNumber.min3. lia.
Qed.

Lemma editDistance_le a :
  forall b, editDistance a b <= Nat.max (List.length a) (List.length b).
Proof.
  induction a as [|c a IHa]; intros b; [simpl; lia|].
  induction b as [|d b IHb]; [simpl; lia|].
  rewrite editDistance_cons. specialize (IHa b).
  unfold JsNumber.min3. simpl List.length.
  destruct (Ascii.eqb c d); lia.
Qed.

Lemma reversed_length acc s :
  List.length (reversed acc s) = List.length acc + String.length s.
Proof.
  revert acc. induction s as [|c s IH]; intros acc; simpl; [lia|].
  rewrite IH. simpl. lia.
Qed.

Lemma distance_sym s1 s2 :
  MerchantRule.distance s1 s2 = MerchantRule.distance s2 s1.
Proof. rewrite !distance_spec. apply editDistance_sym. Qed.

Lemma distance_same s : MerchantRule.distance s s = 0.
Proof. rewrite distance_spec. apply editDistance_refl. Qed.

Lemma distance_le s1 s2 :
  MerchantRule.distance s1 s2 <= Nat.max (String.length s1) (String.length s2).
Proof.
  rewrite distance_spec.
  pose proof (editDistance_le (reversed [] s1) (reversed [] s2)) as H.
  rewrite !reversed_length in H. exact H.
Qed.

(** X17.  The table that the normalizer fills row by row holds the edit
    distance: the number it reads in the last cell is the edit distance of the
    two strings, as the recurrence on their last characters defines it. *)
Theorem distance_is_edit_distance (s1 s2 : string) :
  MerchantRule.distance s1 s2
  = editDistance (reversed [] s1) (reversed [] s2).
Proof. apply distance_spec. Qed.

Lemma absDiff_sym m n : MerchantRule.absDiff m n = MerchantRule.absDiff n m.
Proof. unfold MerchantRule.absDiff. lia. Qed.

Lemma areStringsSimilar_sym a b t :
  MerchantRule.areStringsSimilar a b t = MerchantRule.areStringsSimilar b a t.
Proof.
  unfold MerchantRule.areStringsSimilar.
  rewrite (String.eqb_sym (MerchantRule.normalize a)).
  rewrite (absDiff_sym (String.length (MerchantRule.normalize a))).
  rewrite (Nat.min_comm (String.length (MerchantRule.normalize a))).
  rewrite (Nat.max_comm (String.length (MerchantRule.normalize a))).
  rewrite (distance_sym (MerchantRule.normalize a)).
  reflexivity.
Qed.

Lemma similarityScore_sym a b :
  MerchantRule.similarityScore a b = MerchantRule.similarityScore b a.
Proof.
  unfold MerchantRule.similarityScore.
  rewrite (Nat.max_comm (String.length (MerchantRule.normalize a))).
  rewrite (distance_sym (MerchantRule.normalize a)).
  rewrite (andb_comm (String.length (MerchantRule.normalize a) =? 0)).
  reflexivity.
Qed.

Lemma ratio_range (d m : nat) :
  0 < m -> d <= m ->
  exists q, JsNumber.oneMinus (JsNumber.div d m) = JsNumber.Finite q
            /\ (0 <= q)%Q /\ (q <= 1)%Q.
Proof.
  intros Hm Hd. destruct m as [|m]; [lia|]. simpl.
  exists (1 - (Z.of_nat d # Pos.of_nat (S m)))%Q. split; [reflexivity|].
  assert (H0 : (0 <= Z.of_nat d # Pos.of_nat (S m))%Q).
  { unfold Qle. simpl. lia. }
  assert (H1 : (Z.of_nat d # Pos.of_nat (S m) <= 1)%Q).
  { unfold Qle. cbn [Qnum Qden].
    assert (E : Z.pos (Pos.of_nat (S m)) = Z.of_nat (S m))
      by (rewrite <- positive_nat_Z, Nat2Pos.id; [reflexivity | discriminate]).
    rewrite E. lia. }
  split; lra.
Qed.

Lemma similarityScore_range a b :
  exists q, MerchantRule.similarityScore a b = JsNumber.Finite q
            /\ (0 <= q)%Q /\ (q <= 1)%Q.
Proof.
  unfold MerchantRule.similarityScore.
  destruct (0 <? Nat.max _ _) eqn:E.
  - apply Nat.ltb_lt in E. apply ratio_range; [assumption | apply distance_le].
  - destruct (_ && _); eexists; (split; [reflexivity | split; lra]).
Qed.

(** X18.  The similarity test and the similarity score of the merchant
    normalizer do not depend on the order of the two names, and the score is a
    number between 0 and 1: the distance is at most the length of the longer
    normalized name. *)
Theorem merchant_similarity_symmetric (a b : string) :
  (forall t, MerchantRule.areStringsSimilar a b t
             = MerchantRule.areStringsSimilar b a t)
  /\ MerchantRule.similarityScore a b = MerchantRule.similarityScore b a
  /\ MerchantRule.distance (MerchantRule.normalize a) (MerchantRule.normalize b)
     <= Nat.max (String.length (MerchantRule.normalize a))
                (String.length (MerchantRule.normalize b))
  /\ exists q, MerchantRule.similarityScore a b = JsNumber.Finite q
               /\ (0 <= q)%Q /\ (q <= 1)%Q.
Proof.
  split; [intros t; apply areStringsSimilar_sym|].
  split; [apply similarityScore_sym|].
  split; [apply distance_le | apply similarityScore_range].
Qed.

Lemma similar_score a b :
  MerchantRule.areStringsSimilar a b 0.8 = true ->
  exists q, MerchantRule.similarityScore a b = JsNumber.Finite q
            /\ (0.8 <= q)%Q /\ (q <= 1)%Q.
Proof.
  unfold MerchantRule.areStringsSimilar, MerchantRule.similarityScore.
  set (na := MerchantRule.normalize a). set (nb := MerchantRule.normalize b).
  destruct (String.eqb na nb) eqn:E.
  - intros _. apply String.eqb_eq in E. rewrite <- E. rewrite distance_same.
    rewrite Nat.max_id.
    destruct (0 <? String.length na) eqn:L.
    + destruct (String.length na) as [|n]; [discriminate|]. simpl.
      eexists. split; [reflexivity|]. split; unfold Qle, Qminus, Qplus; simpl; lia.
    + apply Nat.ltb_ge in L. assert (L0 : String.length na = 0) by lia.
      rewrite L0. simpl. eexists. split; [reflexivity | split; lra].
  - destruct (_ && JsNumber.lt _ _); [discriminate|].
    destruct (Nat.max (String.length na) (String.length nb)) as [|m] eqn:M.
    + simpl. intros _.
      assert (String.length na = 0 /\ String.length nb = 0) as [-> ->] by lia.
      simpl. eexists. split; [reflexivity | split; lra].
    + cbn [Nat.eqb Nat.ltb Nat.leb]. intros H.
      destruct (ratio_range (MerchantRule.distance na nb) (S m)) as [q [Eq [_ Hq]]];
        [lia | rewrite <- M; apply distance_le |].
      rewrite Eq in *. exists q. split; [reflexivity|]. split; [|assumption].
      simpl in H. now apply Qle_bool_iff in H.
Qed.

Lemma confidence_range (q : Q) :
  (0.8 <= q)%Q -> (q <= 1)%Q ->
  exists r, JsNumber.min 0.95
              (JsNumber.max 0.5
                 (JsNumber.plus 0.6 (JsNumber.times (JsNumber.Finite q) 0.35)))
            = JsNumber.Finite r
            /\ (0.88 <= r)%Q /\ (r <= 0.95)%Q.
Proof.
  intros H1 H2. simpl.
  destruct (Qle_bool 0.5 (0.6 + q * 0.35)) eqn:E1.
  - destruct (Qle_bool 0.95 (0.6 + q * 0.35)) eqn:E2;
      eexists; (split; [reflexivity | split; lra]).
  - apply Qle_bool_false in E1. exfalso. lra.
Qed.

Lemma suggest_confident uuid cm s x s' :
  clustered cm ->
  Forall confident s ->
  MerchantRule.suggest uuid cm s x = Returns s' ->
  Forall confident s'.
Proof.
  intros Hc Hs. unfold MerchantRule.suggest.
  destruct (T.deleted x); [intros E; injection E as <-; assumption|].
  destruct (negb _); [intros E; injection E as <-; assumption|].
  destruct (JsObject.get cm (JsString.trim (T.paidTo x))) as [c|h|] eqn:Eg;
    [| discriminate | intros E; injection E as <-; assumption].
  destruct (JsString.truthy c && negb (String.eqb c (JsString.trim (T.paidTo x))))
    eqn:Ec; intros E; injection E as <-; [|assumption].
  apply Forall_app. split; [assumption|]. constructor; [|constructor].
  apply andb_true_iff in Ec. destruct Ec as [_ Ene].
  apply negb_true_iff, String.eqb_neq in Ene.
  apply JsObject_get_Own in Eg.
  assert (Hsim : MerchantRule.areStringsSimilar (JsString.trim (T.paidTo x)) c
                                                0.8 = true).
  { destruct (Hc _ _ Eg) as [E | [E | E]]; [congruence | assumption |].
    now rewrite areStringsSimilar_sym. }
  destruct (similar_score _ _ Hsim) as [q [Eq [Hq1 Hq2]]].
  destruct (confidence_range q Hq1 Hq2) as [r [Er [Hr1 Hr2]]].
  exists (JsString.trim (T.paidTo x)), q, r.
  cbn [R.originalValue R.suggestedValue R.confidence].
  rewrite Eq, Er. repeat split; try assumption. lra.
Qed.

(** X16.  Every recommendation of the merchant normalizer renames a name to
    a canonical whose similarity score with it is at least 0.8: the floor 0.5
    of the clamp never applies, and the confidence is at least 0.87 and at
    most 0.95.  (In exact arithmetic the lower bound is 0.6 + 0.35 * 0.8 =
    0.88; the source computes the sum in doubles, which can round it to the
    double just below 0.88, so the statement leaves a margin of 0.01.) *)
Theorem merchant_confidence uuid txs recs r :
  MerchantRule.normalizeMerchantRecommendations uuid txs = Returns recs ->
  In r recs -> confident r.
Proof.
  unfold MerchantRule.normalizeMerchantRecommendations.
  destruct (fold_left MerchantRule.countMerchant txs ([], []))
    as [merchantCounts uniqueMerchants].
  intros H Hr. revert r Hr. apply Forall_forall. revert H.
  apply (foldM_inv (Forall confident)); [|constructor].
  intros s x s' _ Hs. apply suggest_confident; [|assumption].
  apply fold_left_inv; [intros; now apply cluster_clustered|].
  intros k v [].
Qed.

(* ------------------------------------------------------------------------- *)
(** * The engine on plain names *)
(* ------------------------------------------------------------------------- *)

(** X8.  A reconciliation pass returns a list, whatever the previous list is,
    when no name, type, subtype or transaction type of an undeleted record is
    the name of a member of Object.prototype: the rule modules throw on no other
    input. *)
Theorem engine_returns_on_plain_names txs uuid prev :
  plainRecords txs ->
  exists out, RS.generateRecommendations txs uuid prev = Returns out.
Proof.
  intros Hp. destruct (candidates_return txs uuid Hp) as [cands Ec].
  exact (generate_returns txs uuid prev cands Ec).
Qed.

(* ------------------------------------------------------------------------- *)
(** * The further properties on concrete runs *)
(* ------------------------------------------------------------------------- *)

(** X1 on the sample. *)
Lemma output_ids_distinct_witness : NoDup (map R.id sampleOutput).
Proof.
  apply (output_ids_distinct sampleRecords uuidExample samplePrevious
                             sampleOutput).
  vm_compute. reflexivity.
Defined.

(** X2 on the sample: the record a that the pending pair names is a record
    of the set. *)
Lemma output_targets_exist_witness : In "a" (map T.id sampleRecords).
Proof.
  apply (output_targets_exist sampleRecords uuidExample samplePrevious
                              sampleOutput samplePair "a").
  - vm_compute. reflexivity.
  - simpl. auto.
  - simpl. auto.
Defined.

(** X3 on the sample: the ignored suggestion r4, whose record is gone, is
    carried with no target and the suffix. *)
Lemma resolved_kept_witness :
  exists r,
    In r sampleOutput /\ R.id r = "r4" /\ R.status r = ignored
    /\ R.type r = MerchantNormalization
    /\ R.affectedField r = Some Field.paidTo
    /\ R.originalValue r = Some (VString "Shel Gas")
    /\ R.suggestedValue r = "Shell Gas"
    /\ R.confidence r = Some (JsNumber.Finite 0.9)
    /\ R.transactionIds r = []
    /\ R.description r = "Normalize (Original targets deleted)".
Proof.
  apply (resolved_kept sampleRecords uuidExample samplePrevious sampleOutput
                       (nth 3 samplePrevious samplePair)).
  - exact (proj1 samplePrevious_wellFormed).
  - vm_compute. reflexivity.
  - simpl. auto.
  - right. reflexivity.
Defined.

(** X4 on the sample: the applied recommendation of the output was applied
    in the previous list. *)
Lemma resolved_from_previous_witness :
  exists t, In t samplePrevious /\ R.id t = "r1" /\ R.status t = applied.
Proof.
  apply (resolved_from_previous sampleRecords uuidExample samplePrevious
                                sampleOutput (nth 0 sampleOutput samplePair)).
  - vm_compute. reflexivity.
  - simpl. auto.
  - left. reflexivity.
Defined.

(** X5 on the sample: the id of the pending pair. *)
Lemma pending_id_origin_witness :
  (exists k, R.id samplePair = uuidExample k)
  \/ (exists p, In p samplePrevious /\ R.status p = pending
                /\ RS.getRecommendationIdentity p
                   = RS.getRecommendationIdentity samplePair
                /\ R.id samplePair = R.id p).
Proof.
  apply (pending_id_origin sampleRecords uuidExample samplePrevious
                           sampleOutput samplePair).
  - vm_compute. reflexivity.
  - simpl. auto.
  - reflexivity.
Defined.

(** X6 on the sample: the pending pair keeps the id r2. *)
Lemma pending_keeps_id_witness : R.id samplePair = "r2".
Proof.
  apply (pending_keeps_id sampleRecords uuidExample samplePrevious
                          sampleOutput (nth 1 samplePrevious samplePair)
                          samplePair).
  - vm_compute. reflexivity.
  - simpl. auto.
  - reflexivity.
  - intros p' Hin. simpl in Hin.
    destruct Hin as [<- | [<- | [<- | [<- | []]]]]; intros Hs Hi;
      try discriminate Hs; try reflexivity.
    vm_compute in Hi. discriminate Hi.
  - simpl. auto.
  - reflexivity.
  - vm_compute. reflexivity.
Defined.

(** X7 on two soft-deleted records: what the pass returns is resolved. *)
Lemma no_pending_without_active_witness :
  R.status (nth 1 deletedOutput samplePair) = applied
  \/ R.status (nth 1 deletedOutput samplePair) = ignored.
Proof.
  apply (no_pending_without_active deletedPair uuidExample samplePrevious
                                   deletedOutput).
  - intros x Hx. simpl in Hx. destruct Hx as [<- | [<- | []]]; reflexivity.
  - vm_compute. reflexivity.
  - simpl. auto.
Defined.

(** X8 on the sample. *)
Lemma engine_returns_on_plain_names_witness :
  exists out,
    RS.generateRecommendations sampleRecords uuidExample samplePrevious
    = Returns out.
Proof.
  apply (engine_returns_on_plain_names sampleRecords uuidExample
                                       samplePrevious).
  exact sampleRecords_plain.
Defined.

(** X10 on the sample: the pair that the detector reports. *)
Lemma duplicate_recommendations_witness :
  duplicate_ok sampleRecords (nth 0 duplicateSample samplePair).
Proof.
  apply (duplicate_recommendations sampleRecords uuidExample duplicateSample).
  - vm_compute. reflexivity.
  - simpl. auto.
Defined.

(** X11 on the sample. *)
Lemma duplicate_pairs_once_witness :
  NoDup (map R.transactionIds duplicateSample).
Proof.
  apply (duplicate_pairs_once sampleRecords uuidExample duplicateSample).
  vm_compute. reflexivity.
Defined.

(** X12 on a name and a variant of another length. *)
Lemma simpleSimilarity_range_witness :
  (exists q,
      DuplicateRule.simpleSimilarity "Starbucks" "Star Bucks"
      = JsNumber.Finite q
      /\ (0 <= q)%Q /\ (q <= 1)%Q)
  /\ (String.length "Starbucks" <> String.length "Star Bucks" ->
      DuplicateRule.simpleSimilarity "Starbucks" "Star Bucks"
      = DuplicateRule.simpleSimilarity "Star Bucks" "Starbucks")
  /\ JsNumber.gt (DuplicateRule.simpleSimilarity "aab" "abc") 0.8 = true
  /\ JsNumber.gt (DuplicateRule.simpleSimilarity "abc" "aab") 0.8 = false.
Proof.
  apply (simpleSimilarity_range "Starbucks" "Star Bucks"); reflexivity.
Defined.

(** X13 on the sample records, as list to process and as history. *)
Lemma missing_field_recommendations_witness :
  exists recs,
    MissingFieldRule.suggestMissingFieldRecommendations
      uuidExample sampleRecords sampleRecords = Returns recs
    /\ forall r, In r recs -> missing_ok sampleRecords sampleRecords r.
Proof.
  apply (missing_field_recommendations uuidExample sampleRecords
                                       sampleRecords).
  - exact sampleRecords_plain.
  - exact sampleRecords_plain.
Defined.

(** X14 on the sample: the subtype suggested for the record a. *)
Lemma classification_recommendations_witness :
  classification_ok sampleRecords sampleRecords
                    (nth 1 classificationSample samplePair).
Proof.
  apply (classification_recommendations uuidExample sampleRecords
                                        sampleRecords classificationSample).
  - vm_compute. reflexivity.
  - simpl. auto.
Defined.

(** X15 on the variant of the example: the name that is renamed is not the
    canonical. *)
Lemma merchant_canonicals_witness :
  (R.originalValue (nth 0 merchantSample samplePair)
   = R.originalValue (nth 0 merchantSample samplePair) ->
   R.suggestedValue (nth 0 merchantSample samplePair)
   = R.suggestedValue (nth 0 merchantSample samplePair))
  /\ R.originalValue (nth 0 merchantSample samplePair)
     <> Some (VString (R.suggestedValue (nth 0 merchantSample samplePair))).
Proof.
  apply (merchant_canonicals uuidExample
                             (merchantExample "AMZN Mktp US" "AMZN Mktp USA")
                             merchantSample).
  - vm_compute. reflexivity.
  - simpl. auto.
  - simpl. auto.
Defined.

(** X16 on the variant of the example: the score is 12/13 and the
    confidence 0.6 + 0.35 * 12/13. *)
Lemma merchant_confidence_witness :
  confident (nth 0 merchantSample samplePair).
Proof.
  apply (merchant_confidence uuidExample
                             (merchantExample "AMZN Mktp US" "AMZN Mktp USA")
                             merchantSample).
  - vm_compute. reflexivity.
  - simpl. auto.
Defined.

(** X20 on the state with one pending recommendation. *)
Lemma bulk_apply_single_witness :
  App.applyMultipleRecommendations ["r1"] onePending
  = App.applyRecommendation "r1" onePending.
Proof.
  apply (bulk_apply_single "r1" onePending).
  simpl. repeat constructor. simpl. tauto.
Defined.

(** X23 on two records with ids of 36 characters. *)
Lemma apply_duplicate_deletes_nothing_witness :
  Forall2 (fun x x' =>
             T.deleted x' = T.deleted x
             /\ T.id x' = T.id x /\ T.paidTo x' = T.paidTo x
             /\ T.dateOfPayment x' = T.dateOfPayment x
             /\ T.amountPaid x' = T.amountPaid x
             /\ T.expenseType x' = T.expenseType x
             /\ T.expenseSubtype x' = T.expenseSubtype x
             /\ T.description x' = T.description x
             /\ T.transactionType x' = T.transactionType x
             /\ (if JsString.mem (T.id x)
                      ["11111111-1111-4111-8111-111111111111";
                       "22222222-2222-4222-8222-222222222222"]
                 then Flags.isDuplicateCandidate (T.flags x') = Some true
                 else x' = x))
          (App.transactions uuidPair)
          (App.transactions (App.applyRecommendation "r1" uuidPair)).
Proof.
  apply (apply_duplicate_deletes_nothing
           uuidPair (nth 0 (App.recommendations uuidPair) samplePair)).
  - reflexivity.
  - reflexivity.
  - reflexivity.
  - intros x Hx. simpl in Hx. destruct Hx as [<- | [<- | []]]; simpl; lia.
Defined.

(** X24 on the sample records. *)
Lemma record_edits_witness :
  (forall n id,
      ~ In id (map T.id sampleRecords) ->
      NoDup (map T.id (AppState.addTransaction n id sampleRecords))
      /\ AppState.deleteTransaction id
           (AppState.addTransaction n id sampleRecords) = sampleRecords)
  /\ (forall u,
         map T.id (AppState.updateTransaction u sampleRecords)
         = map T.id sampleRecords
         /\ (forall x, In x sampleRecords -> T.id x = T.id u ->
                       In u (AppState.updateTransaction u sampleRecords))
         /\ (forall x, In x (AppState.updateTransaction u sampleRecords) ->
                       x = u \/ (In x sampleRecords /\ T.id x <> T.id u))
         /\ (~ In (T.id u) (map T.id sampleRecords) ->
             AppState.updateTransaction u sampleRecords = sampleRecords))
  /\ (forall i,
         NoDup (map T.id (AppState.deleteTransaction i sampleRecords))
         /\ forall x, In x (AppState.deleteTransaction i sampleRecords)
                      <-> In x sampleRecords /\ T.id x <> i).
Proof.
  apply (record_edits sampleRecords).
  simpl. repeat constructor; simpl; intros H;
    repeat (destruct H as [H | H]; try discriminate H); assumption.
Defined.

(** X26 on the sample: the pending pair is shown. *)
Lemma pending_recommendations_shown_witness :
  In samplePair (AppState.shownRecommendations sampleRecords sampleOutput).
Proof.
  apply (pending_recommendations_shown sampleRecords uuidExample
                                       samplePrevious sampleOutput samplePair).
  - vm_compute. reflexivity.
  - simpl. auto.
  - reflexivity.
Defined.

(** X29 on the state with one pending recommendation: the button of its
    group. *)
Lemma view_buttons_offered_witness :
  offered onePending (App.ApplyMultiple ["r1"]).
Proof.
  apply (view_buttons_offered onePending RV.AllTypes (RV.OnlyStatus pending)
                              (fst viewSample) (snd viewSample)).
  - simpl. repeat constructor. simpl. tauto.
  - vm_compute. reflexivity.
  - simpl. auto.
Defined.

(** X30 on the state with one pending recommendation: it is named by the
    group. *)
Lemma view_loses_nothing_witness :
  placed (fst viewSample) (snd viewSample)
         (nth 0 (App.recommendations onePending) samplePair).
Proof.
  apply (view_loses_nothing (App.recommendations onePending)
                            RV.AllTypes (RV.OnlyStatus pending)
                            (fst viewSample) (snd viewSample)).
  - simpl. repeat constructor. simpl. tauto.
  - vm_compute. reflexivity.
  - simpl. auto.
Defined.
